(** * CommonMark block parser (CommonMark/blocks.py): a shallow embedding

    The block-structure parser of CommonMark-py is embedded as executable
    Rocq functions over an explicit parser state, and the properties of its
    natural-language specification are stated and proved about them.

    Conventions of the embedding.
    - Python strings are lists of 8-bit characters ([str]); the regular
      expression classes [\s] and [\d] are the ASCII classes
      [[ \t\n\r\f\v]] and [[0-9]], and IGNORECASE folds ASCII letters.
      The replacement character U+FFFD is one designated character.
    - Python integers that index a string or count columns are [nat]
      (they start at 0 and are only ever incremented); line numbers and
      source positions are [Z], since [line_number - 1] is computed.
    - Node objects live in a store ([heap], a list indexed by node id); a
      Python reference is a node id, [None] is [None].
    - Every function that can raise returns a [result]; the exceptions of
      the Python program are the constructors of [exn].
    - [while] loops whose bound is not structural take a fuel argument;
      running out of fuel is the distinguished outcome [OutOfFuel]. *)

From stdpp Require Import base list strings.
From Stdlib Require Import ZArith Ascii Lia Bool.

Set Default Proof Using "Type".
Open Scope nat_scope.

(** ** Strings *)

Definition str := list ascii.

Definition pystr (s : string) : str := String.list_ascii_of_string s.

Definition nl : ascii := ascii_of_nat 10.
Definition cr : ascii := ascii_of_nat 13.
Definition tab : ascii := ascii_of_nat 9.
Definition vtab : ascii := ascii_of_nat 11.
Definition formfeed : ascii := ascii_of_nat 12.
Definition sp : ascii := " "%char.
Definition nul : ascii := ascii_of_nat 0.
(** Stands for U+FFFD in the 8-bit character model. *)
Definition replacement_char : ascii := ascii_of_nat 255.

Definition ch_in (c : ascii) (cs : list ascii) : bool :=
  existsb (Ascii.eqb c) cs.

(** [\s] *)
Definition is_ws (c : ascii) : bool := ch_in c [sp; tab; nl; cr; formfeed; vtab].

(** [\d] *)
Definition is_digit (c : ascii) : bool :=
  (48 <=? nat_of_ascii c) && (nat_of_ascii c <=? 57).

Definition lower (c : ascii) : ascii :=
  if (65 <=? nat_of_ascii c) && (nat_of_ascii c <=? 90)
  then ascii_of_nat (nat_of_ascii c + 32) else c.

(** Length of the longest prefix whose characters all satisfy [p]. *)
Fixpoint run_len (p : ascii -> bool) (s : str) : nat :=
  match s with
  | c :: r => if p c then S (run_len p r) else 0
  | [] => 0
  end.

Fixpoint starts_with (pre s : str) : bool :=
  match pre, s with
  | [], _ => true
  | p :: pre', c :: s' => Ascii.eqb p c && starts_with pre' s'
  | _ :: _, [] => false
  end.

(** Prefix test under IGNORECASE; [pre] is given in lower case. *)
Fixpoint starts_with_ci (pre s : str) : bool :=
  match pre, s with
  | [], _ => true
  | p :: pre', c :: s' => Ascii.eqb p (lower c) && starts_with_ci pre' s'
  | _ :: _, [] => false
  end.

(** [re.search] of a pattern that is tested by [m] at each position. *)
Fixpoint search_at (m : str -> bool) (s : str) : bool :=
  m s || match s with [] => false | _ :: r => search_at m r end.

(** The anchor [$]: end of string, or just before a final newline. *)
Definition at_dollar (s : str) : bool :=
  match s with
  | [] => true
  | [c] => Ascii.eqb c nl
  | _ => false
  end.

(** The string without its final newline, if it has one: what a pattern
    ending in [$] has to consume. *)
Fixpoint chop_nl (s : str) : str :=
  match s with
  | [] => []
  | [c] => if Ascii.eqb c nl then [] else [c]
  | c :: r => c :: chop_nl r
  end.

(** [ *$] *)
Definition spaces_to_eol (s : str) : bool :=
  at_dollar (drop (run_len (Ascii.eqb sp) s) s).

(** ** The regular expressions of blocks.py

    Each pattern is embedded as the function computing what the program
    reads off the match object. *)

(** [reNonSpace = [^ \t\f\v\r\n]]; [is_blank] searches for it. *)
Definition is_blank (s : str) : bool := forallb is_ws s.

(** [reMaybeSpecial = ^[#`~*+_=<>0-9-]] *)
Definition reMaybeSpecial (s : str) : bool :=
  match s with
  | c :: _ => ch_in c (pystr "#`~*+_=<>-") || is_digit c
  | [] => false
  end.

(** [reBulletListMarker = ^[*+-]]: the matched character. *)
Definition reBulletListMarker (s : str) : option ascii :=
  match s with
  | c :: _ => if ch_in c (pystr "*+-") then Some c else None
  | [] => None
  end.

Definition digit_val (c : ascii) : nat := nat_of_ascii c - 48.

(** [int] of a string of decimal digits. *)
Definition int_of_digits (s : str) : nat :=
  foldl (fun acc c => 10 * acc + digit_val c) 0 s.

(** [reOrderedListMarker = ^(\d{1,9})([.)])]: group 1 as a number, group 2,
    and the length of the whole match. *)
Definition reOrderedListMarker (s : str) : option (nat * ascii * nat) :=
  let k := run_len is_digit s in
  if (1 <=? k) && (k <=? 9) then
    match s !! k with
    | Some d => if ch_in d (pystr ".)") then Some (int_of_digits (take k s), d, S k) else None
    | None => None
    end
  else None.

(** [reATXHeadingMarker = ^#{1,6}(?: +|$)]: the number of [#] and the length
    of the whole match. *)
Definition reATXHeadingMarker (s : str) : option (nat * nat) :=
  let k := run_len (Ascii.eqb "#") s in
  if (1 <=? k) && (k <=? 6) then
    let r := drop k s in
    let n := run_len (Ascii.eqb sp) r in
    if 1 <=? n then Some (k, k + n)
    else if at_dollar r then Some (k, k) else None
  else None.

Definition is_fence_char (c : ascii) : bool := ch_in c (pystr "`~").

Fixpoint take_line (s : str) : str :=
  match s with
  | c :: r => if Ascii.eqb c nl then [] else c :: take_line r
  | [] => []
  end.

(** [reCodeFence = ^`{3,}(?!.*`)|^~{3,}(?!.*~)]: the fence character and the
    length of the match. *)
Definition reCodeFence (s : str) : option (ascii * nat) :=
  match s with
  | c :: _ =>
      if is_fence_char c then
        let k := run_len (Ascii.eqb c) s in
        if (3 <=? k) && negb (ch_in c (take_line (drop k s)))
        then Some (c, k) else None
      else None
  | [] => None
  end.

(** [reClosingCodeFence = ^(?:`{3,}|~{3,})(?= *$)]: the length of the match. *)
Definition reClosingCodeFence (s : str) : option nat :=
  match s with
  | c :: _ =>
      if is_fence_char c then
        let k := run_len (Ascii.eqb c) s in
        if (3 <=? k) && spaces_to_eol (drop k s) then Some k else None
      else None
  | [] => None
  end.

(** [reSetextHeadingLine = ^(?:=+|-+) *$]: the first character of the match. *)
Definition reSetextHeadingLine (s : str) : option ascii :=
  match s with
  | c :: _ =>
      if ch_in c (pystr "=-") && spaces_to_eol (drop (run_len (Ascii.eqb c) s) s)
      then Some c else None
  | [] => None
  end.

Fixpoint count_ch (c : ascii) (s : str) : nat :=
  match s with
  | x :: r => (if Ascii.eqb x c then 1 else 0) + count_ch c r
  | [] => 0
  end.

(** [reThematicBreak]: three or more of one of the characters [*], [_],
    [-], each followed by any number of spaces, up to [$]. *)
Definition reThematicBreak (s : str) : bool :=
  match s with
  | c :: _ =>
      ch_in c (pystr "*_-") &&
      forallb (fun x => Ascii.eqb x c || Ascii.eqb x sp) (chop_nl s) &&
      (3 <=? count_ch c s)
  | [] => false
  end.

(** [(?:\s|>|$)] and [(?:\s|[/]?[>]|$)], the ends of an HTML tag name. *)
Definition tag_end1 (r : str) : bool :=
  match r with
  | c :: _ => is_ws c || Ascii.eqb c ">"
  | [] => true
  end.

Definition tag_end6 (r : str) : bool :=
  match r with
  | c :: r' => is_ws c || Ascii.eqb c ">" || (Ascii.eqb c "/" && starts_with (pystr ">") r')
  | [] => true
  end.

Definition html_tags1 : list str := map pystr ["script"; "pre"; "style"]%string.

Definition html_tags6 : list str := map pystr
  ["address"; "article"; "aside"; "base"; "basefont"; "blockquote"; "body";
   "caption"; "center"; "col"; "colgroup"; "dd"; "details"; "dialog"; "dir";
   "div"; "dl"; "dt"; "fieldset"; "figcaption"; "figure"; "footer"; "form";
   "frame"; "frameset"; "h1"; "head"; "header"; "hr"; "html"; "iframe";
   "legend"; "li"; "link"; "main"; "menu"; "menuitem"; "meta"; "nav";
   "noframes"; "ol"; "optgroup"; "option"; "p"; "param"; "section"; "source";
   "title"; "summary"; "table"; "tbody"; "td"; "tfoot"; "th"; "thead";
   "title"; "tr"; "track"; "ul"]%string.

(** One alternative [tag] of a tag list followed by the end pattern. *)
Definition tag_then (tend : str -> bool) (s : str) (tag : str) : bool :=
  starts_with_ci tag s && tend (drop (length tag) s).

Definition strip_slash (s : str) : str :=
  match s with
  | c :: r => if Ascii.eqb c "/" then r else s
  | [] => s
  end.

Definition is_upper (c : ascii) : bool :=
  (65 <=? nat_of_ascii c) && (nat_of_ascii c <=? 90).

(** [reHtmlBlockOpen[i]] for [i] in 1..6, as used with [re.search]; every
    pattern is anchored with [^].  Pattern 7 is built from
    [common.OPENTAG] and [common.CLOSETAG] and is a parameter below. *)
Definition reHtmlBlockOpen (i : nat) (s : str) : bool :=
  match i, s with
  | 1, c :: r => Ascii.eqb c "<" && existsb (tag_then tag_end1 r) html_tags1
  | 2, _ => starts_with (pystr "<!--") s
  | 3, _ => starts_with (pystr "<?") s
  | 4, c1 :: c2 :: c3 :: _ => Ascii.eqb c1 "<" && Ascii.eqb c2 "!" && is_upper c3
  | 5, _ => starts_with (pystr "<![CDATA[") s
  | 6, c :: r => Ascii.eqb c "<" && existsb (tag_then tag_end6 (strip_slash r)) html_tags6
  | _, _ => false
  end.

(** [reHtmlBlockClose[i]] for [i] in 1..5, as used with [re.search]. *)
Definition reHtmlBlockClose (i : nat) (s : str) : bool :=
  match i with
  | 1 => search_at (fun r => existsb (fun t => starts_with_ci (pystr "</" ++ t ++ pystr ">") r) html_tags1) s
  | 2 => search_at (starts_with (pystr "-->")) s
  | 3 => search_at (starts_with (pystr "?>")) s
  | 4 => search_at (starts_with (pystr ">")) s
  | 5 => search_at (starts_with (pystr "]]>")) s
  | _ => false
  end.

(** The two substitutions of [atx_heading] that remove a closing sequence. *)

(** Matches [ *#+ *] against the whole of [s]. *)
Definition only_hashes (s : str) : bool :=
  let r1 := drop (run_len (Ascii.eqb sp) s) s in
  let k := run_len (Ascii.eqb "#") r1 in
  let r2 := drop k r1 in
  (1 <=? k) && (length r2 =? run_len (Ascii.eqb sp) r2).

(** Matches [ +#+ *] against the whole of [s]. *)
Definition closing_hashes (s : str) : bool :=
  (1 <=? run_len (Ascii.eqb sp) s) && only_hashes s.

(** [re.sub(r'^ *#+ *$', '', s)] *)
Definition sub_only_hashes (s : str) : str :=
  if only_hashes (chop_nl s) then drop (length (chop_nl s)) s else s.

(** [re.sub(r' +#+ *$', '', s)]: the leftmost position where the pattern
    matches up to [$] is where the string is cut. *)
Fixpoint sub_closing_hashes (s : str) : str :=
  if closing_hashes (chop_nl s) then drop (length (chop_nl s)) s
  else match s with
       | c :: r => c :: sub_closing_hashes r
       | [] => []
       end.

(** A run matched up to the end by one or more repetitions of a newline
    followed by spaces: it starts with a newline and holds nothing but
    newlines and spaces. *)
Definition blank_run (s : str) : bool :=
  match s with
  | c :: _ => Ascii.eqb c nl && forallb (fun x => Ascii.eqb x nl || Ascii.eqb x sp) s
  | [] => false
  end.

(** [re.sub] of such a trailing run by [repl], as in the two [finalize]
    functions that trim trailing blank lines: the leftmost position from which the
    rest of the string is a [blank_run] is where the match starts; the
    match extends to the end of the string. *)
Fixpoint sub_trailing_blank_lines (repl : str) (s : str) : str :=
  if blank_run s then repl
  else match s with
       | c :: r => c :: sub_trailing_blank_lines repl r
       | [] => []
       end.

(** [str.index(c)]: the position of the first occurrence. *)
Fixpoint index_of (c : ascii) (s : str) : option nat :=
  match s with
  | x :: r => if Ascii.eqb x c then Some 0 else S <$> index_of c r
  | [] => None
  end.

(** [str.strip()] *)
Definition lstrip (s : str) : str := drop (run_len is_ws s) s.
Definition strip (s : str) : str := reverse (lstrip (reverse (lstrip s))).

(** [re.split(reLineEnding, s)] with [reLineEnding = \r\n|\n|\r]. *)
Fixpoint split_lines_acc (cur : str) (s : str) : list str :=
  match s with
  | [] => [reverse cur]
  | c :: r =>
      if Ascii.eqb c cr then
        match r with
        | c' :: r' => if Ascii.eqb c' nl then reverse cur :: split_lines_acc [] r'
                      else reverse cur :: split_lines_acc [] r
        | [] => reverse cur :: split_lines_acc [] r
        end
      else if Ascii.eqb c nl then reverse cur :: split_lines_acc [] r
      else split_lines_acc (c :: cur) r
  end.

Definition split_lines (s : str) : list str := split_lines_acc [] s.

(** ** Data model *)

Inductive Kind : Type :=
  | Document | List | BlockQuote | Item | Heading | ThematicBreak
  | CodeBlock | HtmlBlock | Paragraph.

Global Instance Kind_eq_dec : EqDecision Kind.
Proof. solve_decision. Defined.

Definition kind_eqb (a b : Kind) : bool := bool_decide (a = b).

Inductive ListType : Type := Bullet | Ordered.

Global Instance ListType_eq_dec : EqDecision ListType.
Proof. solve_decision. Defined.

(** The dictionary built by [parse_list_marker]; the empty dictionary of a
    fresh node has no entry, which [dict.get] reads as [None]. *)
Record ListData : Type := mkListData {
  ld_type : option ListType;
  tight : option bool;
  bullet_char : option ascii;
  start : option nat;
  delimiter : option ascii;
  padding : option nat;
  marker_offset : option nat
}.

Definition empty_list_data : ListData :=
  mkListData None None None None None None None.

Definition set_tight (v : bool) (d : ListData) : ListData :=
  {| ld_type := ld_type d; tight := Some v; bullet_char := bullet_char d;
     start := start d; delimiter := delimiter d; padding := padding d;
     marker_offset := marker_offset d |}.

(** The reference map: normalized link label to destination and title. *)
Definition RefMap : Type := list (str * (str * str)).

(** The exceptions the program can raise. *)
Inductive exn : Type :=
  | AttributeError    (* an attribute of None is read *)
  | TypeError         (* None where a string is required *)
  | KeyError          (* a missing key of list_data *)
  | IndexNotFound     (* ValueError of str.index: substring not found *)
  | IndexOfNone       (* AttributeError of content.index: the content is None *)
  | IllegalReturn     (* ValueError('returned illegal value, must be 0, 1, or 2') *)
  | DanglingRef       (* a node id outside the store (no Python counterpart) *)
  | OutOfFuel.        (* a loop of the model ran out of fuel *)

Inductive result (A : Type) : Type :=
  | Ok (a : A)
  | Err (e : exn).
Arguments Ok {A} a.
Arguments Err {A} e.

Definition bind {A B : Type} (r : result A) (f : A -> result B) : result B :=
  match r with
  | Ok a => f a
  | Err e => Err e
  end.

Notation "'let*' x ':=' e 'in' k" := (bind e (fun x => k))
  (at level 10, x pattern, e at level 100, k at level 200).

Definition of_option {A : Type} (e : exn) (o : option A) : result A :=
  match o with
  | Some a => Ok a
  | None => Err e
  end.

(** ** The collaborators outside blocks.py

    [CommonMark.inlines] and [CommonMark.common] are referenced by
    interface only; what blocks.py calls in them is the interface
    [Externals]. *)
Class Externals : Type := {
  (** The type of the inline children the inline parser returns. *)
  InlineNodes : Type;
  (** [InlineParser.parseReference(s, refmap)]: the number of characters of
      [s] that a leading link reference definition takes (0 when there is
      none), and the reference map with the definition added. *)
  parseReference : str -> RefMap -> nat * RefMap;
  (** [common.unescape_string] *)
  unescape_string : str -> str;
  (** [reHtmlBlockOpen[7]], built from [common.OPENTAG] and
      [common.CLOSETAG], as used with [re.search]. *)
  reHtmlBlockOpen7 : str -> bool;
  (** The inline children of a paragraph or heading with the given string
      content, under the given reference map. *)
  inline_children : str -> RefMap -> InlineNodes
}.

Section Blocks.

Context {E : Externals}.

(** ** Nodes

    Modelled from the spec: the AST node module (CommonMark.node) is not
    part of blocks.py.  A node has the type tag [t], the [parent]
    reference, its child nodes in order, the open flag, [last_line_blank],
    the source position range and the per-kind extension fields;
    [first_child], [last_child] and [nxt] are accessors. *)

Record Node : Type := mkNode {
  t : Kind;
  parent : option nat;
  children : list nat;
  is_open : bool;
  last_line_blank : bool;
  sourcepos : (Z * Z) * (Z * Z);
  string_content : option str;
  literal : option str;
  info : option str;
  list_data : ListData;
  is_fenced : bool;
  fence_char : option ascii;
  fence_length : nat;
  fence_offset : nat;
  html_block_type : nat;
  level : nat;
  inlines : option InlineNodes
}.

Definition set_parent (v : option nat) (x : Node) : Node :=
  {| t := t x; parent := v; children := children x; is_open := is_open x;
     last_line_blank := last_line_blank x; sourcepos := sourcepos x;
     string_content := string_content x; literal := literal x; info := info x;
     list_data := list_data x; is_fenced := is_fenced x;
     fence_char := fence_char x; fence_length := fence_length x;
     fence_offset := fence_offset x; html_block_type := html_block_type x;
     level := level x; inlines := inlines x |}.

Definition set_children (v : list nat) (x : Node) : Node :=
  {| t := t x; parent := parent x; children := v; is_open := is_open x;
     last_line_blank := last_line_blank x; sourcepos := sourcepos x;
     string_content := string_content x; literal := literal x; info := info x;
     list_data := list_data x; is_fenced := is_fenced x;
     fence_char := fence_char x; fence_length := fence_length x;
     fence_offset := fence_offset x; html_block_type := html_block_type x;
     level := level x; inlines := inlines x |}.

Definition set_is_open (v : bool) (x : Node) : Node :=
  {| t := t x; parent := parent x; children := children x; is_open := v;
     last_line_blank := last_line_blank x; sourcepos := sourcepos x;
     string_content := string_content x; literal := literal x; info := info x;
     list_data := list_data x; is_fenced := is_fenced x;
     fence_char := fence_char x; fence_length := fence_length x;
     fence_offset := fence_offset x; html_block_type := html_block_type x;
     level := level x; inlines := inlines x |}.

Definition set_last_line_blank (v : bool) (x : Node) : Node :=
  {| t := t x; parent := parent x; children := children x; is_open := is_open x;
     last_line_blank := v; sourcepos := sourcepos x;
     string_content := string_content x; literal := literal x; info := info x;
     list_data := list_data x; is_fenced := is_fenced x;
     fence_char := fence_char x; fence_length := fence_length x;
     fence_offset := fence_offset x; html_block_type := html_block_type x;
     level := level x; inlines := inlines x |}.

Definition set_sourcepos (v : (Z * Z) * (Z * Z)) (x : Node) : Node :=
  {| t := t x; parent := parent x; children := children x; is_open := is_open x;
     last_line_blank := last_line_blank x; sourcepos := v;
     string_content := string_content x; literal := literal x; info := info x;
     list_data := list_data x; is_fenced := is_fenced x;
     fence_char := fence_char x; fence_length := fence_length x;
     fence_offset := fence_offset x; html_block_type := html_block_type x;
     level := level x; inlines := inlines x |}.

Definition set_string_content (v : option str) (x : Node) : Node :=
  {| t := t x; parent := parent x; children := children x; is_open := is_open x;
     last_line_blank := last_line_blank x; sourcepos := sourcepos x;
     string_content := v; literal := literal x; info := info x;
     list_data := list_data x; is_fenced := is_fenced x;
     fence_char := fence_char x; fence_length := fence_length x;
     fence_offset := fence_offset x; html_block_type := html_block_type x;
     level := level x; inlines := inlines x |}.

Definition set_literal (v : option str) (x : Node) : Node :=
  {| t := t x; parent := parent x; children := children x; is_open := is_open x;
     last_line_blank := last_line_blank x; sourcepos := sourcepos x;
     string_content := string_content x; literal := v; info := info x;
     list_data := list_data x; is_fenced := is_fenced x;
     fence_char := fence_char x; fence_length := fence_length x;
     fence_offset := fence_offset x; html_block_type := html_block_type x;
     level := level x; inlines := inlines x |}.

Definition set_info (v : option str) (x : Node) : Node :=
  {| t := t x; parent := parent x; children := children x; is_open := is_open x;
     last_line_blank := last_line_blank x; sourcepos := sourcepos x;
     string_content := string_content x; literal := literal x; info := v;
     list_data := list_data x; is_fenced := is_fenced x;
     fence_char := fence_char x; fence_length := fence_length x;
     fence_offset := fence_offset x; html_block_type := html_block_type x;
     level := level x; inlines := inlines x |}.

Definition set_list_data (v : ListData) (x : Node) : Node :=
  {| t := t x; parent := parent x; children := children x; is_open := is_open x;
     last_line_blank := last_line_blank x; sourcepos := sourcepos x;
     string_content := string_content x; literal := literal x; info := info x;
     list_data := v; is_fenced := is_fenced x; fence_char := fence_char x;
     fence_length := fence_length x; fence_offset := fence_offset x;
     html_block_type := html_block_type x; level := level x;
     inlines := inlines x |}.

Definition set_is_fenced (v : bool) (x : Node) : Node :=
  {| t := t x; parent := parent x; children := children x; is_open := is_open x;
     last_line_blank := last_line_blank x; sourcepos := sourcepos x;
     string_content := string_content x; literal := literal x; info := info x;
     list_data := list_data x; is_fenced := v; fence_char := fence_char x;
     fence_length := fence_length x; fence_offset := fence_offset x;
     html_block_type := html_block_type x; level := level x;
     inlines := inlines x |}.

Definition set_fence_char (v : option ascii) (x : Node) : Node :=
  {| t := t x; parent := parent x; children := children x; is_open := is_open x;
     last_line_blank := last_line_blank x; sourcepos := sourcepos x;
     string_content := string_content x; literal := literal x; info := info x;
     list_data := list_data x; is_fenced := is_fenced x; fence_char := v;
     fence_length := fence_length x; fence_offset := fence_offset x;
     html_block_type := html_block_type x; level := level x;
     inlines := inlines x |}.

Definition set_fence_length (v : nat) (x : Node) : Node :=
  {| t := t x; parent := parent x; children := children x; is_open := is_open x;
     last_line_blank := last_line_blank x; sourcepos := sourcepos x;
     string_content := string_content x; literal := literal x; info := info x;
     list_data := list_data x; is_fenced := is_fenced x;
     fence_char := fence_char x; fence_length := v;
     fence_offset := fence_offset x; html_block_type := html_block_type x;
     level := level x; inlines := inlines x |}.

Definition set_fence_offset (v : nat) (x : Node) : Node :=
  {| t := t x; parent := parent x; children := children x; is_open := is_open x;
     last_line_blank := last_line_blank x; sourcepos := sourcepos x;
     string_content := string_content x; literal := literal x; info := info x;
     list_data := list_data x; is_fenced := is_fenced x;
     fence_char := fence_char x; fence_length := fence_length x;
     fence_offset := v; html_block_type := html_block_type x; level := level x;
     inlines := inlines x |}.

Definition set_html_block_type (v : nat) (x : Node) : Node :=
  {| t := t x; parent := parent x; children := children x; is_open := is_open x;
     last_line_blank := last_line_blank x; sourcepos := sourcepos x;
     string_content := string_content x; literal := literal x; info := info x;
     list_data := list_data x; is_fenced := is_fenced x;
     fence_char := fence_char x; fence_length := fence_length x;
     fence_offset := fence_offset x; html_block_type := v; level := level x;
     inlines := inlines x |}.

Definition set_level (v : nat) (x : Node) : Node :=
  {| t := t x; parent := parent x; children := children x; is_open := is_open x;
     last_line_blank := last_line_blank x; sourcepos := sourcepos x;
     string_content := string_content x; literal := literal x; info := info x;
     list_data := list_data x; is_fenced := is_fenced x;
     fence_char := fence_char x; fence_length := fence_length x;
     fence_offset := fence_offset x; html_block_type := html_block_type x;
     level := v; inlines := inlines x |}.

Definition set_inlines (v : option InlineNodes) (x : Node) : Node :=
  {| t := t x; parent := parent x; children := children x; is_open := is_open x;
     last_line_blank := last_line_blank x; sourcepos := sourcepos x;
     string_content := string_content x; literal := literal x; info := info x;
     list_data := list_data x; is_fenced := is_fenced x;
     fence_char := fence_char x; fence_length := fence_length x;
     fence_offset := fence_offset x; html_block_type := html_block_type x;
     level := level x; inlines := v |}.

(** Modelled from the spec: [Node(tag, sourcepos)], a fresh open node
    without parent or children. *)
Definition new_node (tag : Kind) (pos : (Z * Z) * (Z * Z)) : Node :=
  {| t := tag; parent := None; children := []; is_open := true;
     last_line_blank := false; sourcepos := pos; string_content := Some [];
     literal := None; info := None; list_data := empty_list_data;
     is_fenced := false; fence_char := None; fence_length := 0;
     fence_offset := 0; html_block_type := 0; level := 0; inlines := None |}.

(** ** The parser state: the fields of [Parser], and the node store *)

Record Parser : Type := mkParser {
  heap : list Node;
  doc : nat;
  tip : option nat;
  oldtip : option nat;
  current_line : str;
  line_number : Z;
  offset : nat;
  column : nat;
  next_nonspace : nat;
  next_nonspace_column : nat;
  indent : nat;
  indented : bool;
  blank : bool;
  all_closed : bool;
  last_matched_container : option nat;
  refmap : RefMap;
  last_line_length : nat
}.

Definition set_heap (v : list Node) (x : Parser) : Parser :=
  {| heap := v; doc := doc x; tip := tip x; oldtip := oldtip x;
     current_line := current_line x; line_number := line_number x;
     offset := offset x; column := column x; next_nonspace := next_nonspace x;
     next_nonspace_column := next_nonspace_column x; indent := indent x;
     indented := indented x; blank := blank x; all_closed := all_closed x;
     last_matched_container := last_matched_container x; refmap := refmap x;
     last_line_length := last_line_length x |}.

Definition set_doc (v : nat) (x : Parser) : Parser :=
  {| heap := heap x; doc := v; tip := tip x; oldtip := oldtip x;
     current_line := current_line x; line_number := line_number x;
     offset := offset x; column := column x; next_nonspace := next_nonspace x;
     next_nonspace_column := next_nonspace_column x; indent := indent x;
     indented := indented x; blank := blank x; all_closed := all_closed x;
     last_matched_container := last_matched_container x; refmap := refmap x;
     last_line_length := last_line_length x |}.

Definition set_tip (v : option nat) (x : Parser) : Parser :=
  {| heap := heap x; doc := doc x; tip := v; oldtip := oldtip x;
     current_line := current_line x; line_number := line_number x;
     offset := offset x; column := column x; next_nonspace := next_nonspace x;
     next_nonspace_column := next_nonspace_column x; indent := indent x;
     indented := indented x; blank := blank x; all_closed := all_closed x;
     last_matched_container := last_matched_container x; refmap := refmap x;
     last_line_length := last_line_length x |}.

Definition set_oldtip (v : option nat) (x : Parser) : Parser :=
  {| heap := heap x; doc := doc x; tip := tip x; oldtip := v;
     current_line := current_line x; line_number := line_number x;
     offset := offset x; column := column x; next_nonspace := next_nonspace x;
     next_nonspace_column := next_nonspace_column x; indent := indent x;
     indented := indented x; blank := blank x; all_closed := all_closed x;
     last_matched_container := last_matched_container x; refmap := refmap x;
     last_line_length := last_line_length x |}.

Definition set_current_line (v : str) (x : Parser) : Parser :=
  {| heap := heap x; doc := doc x; tip := tip x; oldtip := oldtip x;
     current_line := v; line_number := line_number x; offset := offset x;
     column := column x; next_nonspace := next_nonspace x;
     next_nonspace_column := next_nonspace_column x; indent := indent x;
     indented := indented x; blank := blank x; all_closed := all_closed x;
     last_matched_container := last_matched_container x; refmap := refmap x;
     last_line_length := last_line_length x |}.

Definition set_line_number (v : Z) (x : Parser) : Parser :=
  {| heap := heap x; doc := doc x; tip := tip x; oldtip := oldtip x;
     current_line := current_line x; line_number := v; offset := offset x;
     column := column x; next_nonspace := next_nonspace x;
     next_nonspace_column := next_nonspace_column x; indent := indent x;
     indented := indented x; blank := blank x; all_closed := all_closed x;
     last_matched_container := last_matched_container x; refmap := refmap x;
     last_line_length := last_line_length x |}.

Definition set_offset (v : nat) (x : Parser) : Parser :=
  {| heap := heap x; doc := doc x; tip := tip x; oldtip := oldtip x;
     current_line := current_line x; line_number := line_number x; offset := v;
     column := column x; next_nonspace := next_nonspace x;
     next_nonspace_column := next_nonspace_column x; indent := indent x;
     indented := indented x; blank := blank x; all_closed := all_closed x;
     last_matched_container := last_matched_container x; refmap := refmap x;
     last_line_length := last_line_length x |}.

Definition set_column (v : nat) (x : Parser) : Parser :=
  {| heap := heap x; doc := doc x; tip := tip x; oldtip := oldtip x;
     current_line := current_line x; line_number := line_number x;
     offset := offset x; column := v; next_nonspace := next_nonspace x;
     next_nonspace_column := next_nonspace_column x; indent := indent x;
     indented := indented x; blank := blank x; all_closed := all_closed x;
     last_matched_container := last_matched_container x; refmap := refmap x;
     last_line_length := last_line_length x |}.

Definition set_next_nonspace (v : nat) (x : Parser) : Parser :=
  {| heap := heap x; doc := doc x; tip := tip x; oldtip := oldtip x;
     current_line := current_line x; line_number := line_number x;
     offset := offset x; column := column x; next_nonspace := v;
     next_nonspace_column := next_nonspace_column x; indent := indent x;
     indented := indented x; blank := blank x; all_closed := all_closed x;
     last_matched_container := last_matched_container x; refmap := refmap x;
     last_line_length := last_line_length x |}.

Definition set_next_nonspace_column (v : nat) (x : Parser) : Parser :=
  {| heap := heap x; doc := doc x; tip := tip x; oldtip := oldtip x;
     current_line := current_line x; line_number := line_number x;
     offset := offset x; column := column x; next_nonspace := next_nonspace x;
     next_nonspace_column := v; indent := indent x; indented := indented x;
     blank := blank x; all_closed := all_closed x;
     last_matched_container := last_matched_container x; refmap := refmap x;
     last_line_length := last_line_length x |}.

Definition set_indent (v : nat) (x : Parser) : Parser :=
  {| heap := heap x; doc := doc x; tip := tip x; oldtip := oldtip x;
     current_line := current_line x; line_number := line_number x;
     offset := offset x; column := column x; next_nonspace := next_nonspace x;
     next_nonspace_column := next_nonspace_column x; indent := v;
     indented := indented x; blank := blank x; all_closed := all_closed x;
     last_matched_container := last_matched_container x; refmap := refmap x;
     last_line_length := last_line_length x |}.

Definition set_indented (v : bool) (x : Parser) : Parser :=
  {| heap := heap x; doc := doc x; tip := tip x; oldtip := oldtip x;
     current_line := current_line x; line_number := line_number x;
     offset := offset x; column := column x; next_nonspace := next_nonspace x;
     next_nonspace_column := next_nonspace_column x; indent := indent x;
     indented := v; blank := blank x; all_closed := all_closed x;
     last_matched_container := last_matched_container x; refmap := refmap x;
     last_line_length := last_line_length x |}.

Definition set_blank (v : bool) (x : Parser) : Parser :=
  {| heap := heap x; doc := doc x; tip := tip x; oldtip := oldtip x;
     current_line := current_line x; line_number := line_number x;
     offset := offset x; column := column x; next_nonspace := next_nonspace x;
     next_nonspace_column := next_nonspace_column x; indent := indent x;
     indented := indented x; blank := v; all_closed := all_closed x;
     last_matched_container := last_matched_container x; refmap := refmap x;
     last_line_length := last_line_length x |}.

Definition set_all_closed (v : bool) (x : Parser) : Parser :=
  {| heap := heap x; doc := doc x; tip := tip x; oldtip := oldtip x;
     current_line := current_line x; line_number := line_number x;
     offset := offset x; column := column x; next_nonspace := next_nonspace x;
     next_nonspace_column := next_nonspace_column x; indent := indent x;
     indented := indented x; blank := blank x; all_closed := v;
     last_matched_container := last_matched_container x; refmap := refmap x;
     last_line_length := last_line_length x |}.

Definition set_last_matched_container (v : option nat) (x : Parser) : Parser :=
  {| heap := heap x; doc := doc x; tip := tip x; oldtip := oldtip x;
     current_line := current_line x; line_number := line_number x;
     offset := offset x; column := column x; next_nonspace := next_nonspace x;
     next_nonspace_column := next_nonspace_column x; indent := indent x;
     indented := indented x; blank := blank x; all_closed := all_closed x;
     last_matched_container := v; refmap := refmap x;
     last_line_length := last_line_length x |}.

Definition set_refmap (v : RefMap) (x : Parser) : Parser :=
  {| heap := heap x; doc := doc x; tip := tip x; oldtip := oldtip x;
     current_line := current_line x; line_number := line_number x;
     offset := offset x; column := column x; next_nonspace := next_nonspace x;
     next_nonspace_column := next_nonspace_column x; indent := indent x;
     indented := indented x; blank := blank x; all_closed := all_closed x;
     last_matched_container := last_matched_container x; refmap := v;
     last_line_length := last_line_length x |}.

Definition set_last_line_length (v : nat) (x : Parser) : Parser :=
  {| heap := heap x; doc := doc x; tip := tip x; oldtip := oldtip x;
     current_line := current_line x; line_number := line_number x;
     offset := offset x; column := column x; next_nonspace := next_nonspace x;
     next_nonspace_column := next_nonspace_column x; indent := indent x;
     indented := indented x; blank := blank x; all_closed := all_closed x;
     last_matched_container := last_matched_container x; refmap := refmap x;
     last_line_length := v |}.

(** *** Store access *)

(** Reading an attribute of the object a reference points to. *)
Definition node_at (s : Parser) (r : option nat) : result Node :=
  match r with
  | None => Err AttributeError
  | Some i => of_option DanglingRef (heap s !! i)
  end.

Definition get_node (s : Parser) (i : nat) : result Node :=
  of_option DanglingRef (heap s !! i).

(** Assigning to attributes of node [i]. *)
Definition upd_node (i : nat) (f : Node -> Node) (s : Parser) : Parser :=
  set_heap (alter f i (heap s)) s.

(** *** Tree accessors and mutators

    Modelled from the spec: [first_child], [last_child], [unlink],
    [append_child] and [insert_after] of the node module.  The chain of
    [nxt] references from [first_child] is the list [children]. *)

Definition first_child (n : Node) : option nat := head (children n).
Definition last_child (n : Node) : option nat := last (children n).

Fixpoint remove_id (i : nat) (l : list nat) : list nat :=
  match l with
  | a :: r => if a =? i then remove_id i r else a :: remove_id i r
  | [] => []
  end.

Fixpoint insert_after_id (self sib : nat) (l : list nat) : list nat :=
  match l with
  | a :: r => if a =? self then a :: sib :: r else a :: insert_after_id self sib r
  | [] => []
  end.

Definition unlink (i : nat) (h : list Node) : list Node :=
  match h !! i with
  | Some n =>
      match parent n with
      | Some p =>
          alter (set_parent None) i
            (alter (fun pn => set_children (remove_id i (children pn)) pn) p h)
      | None => h
      end
  | None => h
  end.

Definition append_child (p c : nat) (h : list Node) : list Node :=
  alter (set_parent (Some p)) c
    (alter (fun pn => set_children (children pn ++ [c]) pn) p (unlink c h)).

(** [self.insert_after(sibling)]; a node without parent has no place for a
    sibling, and the real method fails on [sibling.parent.last_child]. *)
Definition insert_after (self sib : nat) (h : list Node) : result (list Node) :=
  let h1 := unlink sib h in
  let* n := of_option DanglingRef (h1 !! self) in
  match parent n with
  | Some p =>
      Ok (alter (set_parent (Some p)) sib
            (alter (fun pn => set_children (insert_after_id self sib (children pn)) pn) p h1))
  | None => Err AttributeError
  end.

(** ** Helpers of blocks.py *)

Definition CODE_INDENT : nat := 4.

Definition peek (ln : str) (pos : nat) : option ascii := ln !! pos.

Definition peek_is (ln : str) (pos : nat) (c : ascii) : bool :=
  match peek ln pos with
  | Some x => Ascii.eqb x c
  | None => false
  end.

(** [ends_with_blank_line(block)] *)
Fixpoint ends_with_blank_line (fuel : nat) (h : list Node) (block : option nat)
  : result bool :=
  match block with
  | None => Ok false
  | Some b =>
      match fuel with
      | 0 => Err OutOfFuel
      | S fuel' =>
          let* n := of_option DanglingRef (h !! b) in
          if last_line_blank n then Ok true
          else if kind_eqb (t n) List || kind_eqb (t n) Item
               then ends_with_blank_line fuel' h (last_child n)
               else Ok false
      end
  end.

(** [lists_match(list_data, item_data)] *)
Definition lists_match (list_data item_data : ListData) : bool :=
  bool_decide (ld_type list_data = ld_type item_data) &&
  bool_decide (delimiter list_data = delimiter item_data) &&
  bool_decide (bullet_char list_data = bullet_char item_data).

(** ** The line scanner *)

(** The loop of [find_next_nonspace] over the characters from [offset]:
    the position and column of the first character that is neither a space
    nor a tab, and that character ([None] at the end of the line). *)
Fixpoint scan_nonspace (rest : str) (i cols : nat) : nat * nat * option ascii :=
  match rest with
  | [] => (i, cols, None)
  | c :: r =>
      if Ascii.eqb c sp then scan_nonspace r (S i) (S cols)
      else if Ascii.eqb c tab then scan_nonspace r (S i) (cols + (4 - cols mod 4))
      else (i, cols, Some c)
  end.

Definition find_next_nonspace (s : Parser) : Parser :=
  let '(i, cols, c) :=
    scan_nonspace (drop (offset s) (current_line s)) (offset s) (column s) in
  let isblank := match c with
                 | None => true
                 | Some x => Ascii.eqb x nl || Ascii.eqb x cr
                 end in
  set_indented (CODE_INDENT <=? cols - column s)
    (set_indent (cols - column s)
      (set_next_nonspace_column cols
        (set_next_nonspace i
          (set_blank isblank s)))).

Definition advance_next_nonspace (s : Parser) : Parser :=
  set_column (next_nonspace_column s) (set_offset (next_nonspace s) s).

(** The loop of [advance_offset] over the characters from [offset]. *)
Fixpoint advance_loop (rest : str) (count : Z) (columns : bool) (off col : nat)
  : nat * nat :=
  match rest with
  | [] => (off, col)
  | c :: r =>
      if (0 <? count)%Z then
        if Ascii.eqb c tab then
          let chars_to_tab := 4 - col mod 4 in
          advance_loop r
            (count - (if columns then Z.of_nat chars_to_tab else 1))%Z columns
            (S off) (col + chars_to_tab)
        else advance_loop r (count - 1)%Z columns (S off) (S col)
      else (off, col)
  end.

Definition advance_offset (count : Z) (columns : bool) (s : Parser) : Parser :=
  let '(off, col) :=
    advance_loop (drop (offset s) (current_line s)) count columns
      (offset s) (column s) in
  set_column col (set_offset off s).

(** ** [parse_list_marker] *)

(** The [while True] loop that counts the spaces after the marker. *)
Fixpoint marker_spaces_loop (fuel : nat) (spaces_start_col : nat) (s : Parser)
  : result Parser :=
  match fuel with
  | 0 => Err OutOfFuel
  | S fuel' =>
      let s1 := advance_offset 1 true s in
      if (column s1 - spaces_start_col <? 5) &&
         (peek_is (current_line s1) (offset s1) sp ||
          peek_is (current_line s1) (offset s1) tab)
      then marker_spaces_loop fuel' spaces_start_col s1
      else Ok s1
  end.

Definition is_none {A : Type} (o : option A) : bool :=
  match o with
  | None => true
  | Some _ => false
  end.

Definition parse_list_marker (s : Parser) : result (Parser * option ListData) :=
  let rest := drop (next_nonspace s) (current_line s) in
  let found :=
    match reBulletListMarker rest with
    | Some c =>
        Some (mkListData (Some Bullet) (Some true) (Some c) None None None
                (Some (indent s)), 1)
    | None =>
        match reOrderedListMarker rest with
        | Some (n, d, len) =>
            Some (mkListData (Some Ordered) (Some true) None (Some n) (Some d) None
                    (Some (indent s)), len)
        | None => None
        end
    end in
  match found with
  | None => Ok (s, None)
  | Some (data, mlen) =>
      let nextc := peek (current_line s) (next_nonspace s + mlen) in
      if negb (is_none nextc || peek_is (current_line s) (next_nonspace s + mlen) tab
               || peek_is (current_line s) (next_nonspace s + mlen) sp)
      then Ok (s, None)
      else
        let s1 := advance_offset (Z.of_nat mlen) true (advance_next_nonspace s) in
        let spaces_start_col := column s1 in
        let spaces_start_offset := offset s1 in
        let* s2 := marker_spaces_loop (S (length (current_line s1))) spaces_start_col s1 in
        let blank_item := is_none (peek (current_line s2) (offset s2)) in
        let spaces_after_marker := column s2 - spaces_start_col in
        if (5 <=? spaces_after_marker) || (spaces_after_marker <? 1) || blank_item
        then
          let s3 := set_offset spaces_start_offset (set_column spaces_start_col s2) in
          let s4 := if peek_is (current_line s3) (offset s3) sp
                    then advance_offset 1 true s3 else s3 in
          Ok (s4, Some {| ld_type := ld_type data; tight := tight data;
                          bullet_char := bullet_char data; start := start data;
                          delimiter := delimiter data; padding := Some (mlen + 1);
                          marker_offset := marker_offset data |})
        else
          Ok (s2, Some {| ld_type := ld_type data; tight := tight data;
                          bullet_char := bullet_char data; start := start data;
                          delimiter := delimiter data;
                          padding := Some (mlen + spaces_after_marker);
                          marker_offset := marker_offset data |})
  end.

(** ** Block kinds: [accepts_lines] and [can_contain] *)

Definition accepts_lines (k : Kind) : bool :=
  match k with
  | CodeBlock | HtmlBlock | Paragraph => true
  | _ => false
  end.

Definition can_contain (k tag : Kind) : bool :=
  match k with
  | Document | BlockQuote | Item => negb (kind_eqb tag Item)
  | List => kind_eqb tag Item
  | _ => false
  end.

(** ** [finalize] of the block kinds *)

Definition null {A : Type} (l : list A) : bool :=
  match l with
  | [] => true
  | _ => false
  end.

(** The inner loop of [List.finalize] over the children of one item;
    [item_nxt] tells whether the item has a next sibling.  The result tells
    whether [tight] was set to [False]. *)
Fixpoint List_finalize_subitems (fuel : nat) (h : list Node) (item_nxt : bool)
    (subitems : list nat) : result bool :=
  match subitems with
  | [] => Ok false
  | subitem :: rest =>
      let* e := ends_with_blank_line fuel h (Some subitem) in
      if e && (item_nxt || negb (null rest)) then Ok true
      else List_finalize_subitems fuel h item_nxt rest
  end.

(** The outer loop of [List.finalize] over the items. *)
Fixpoint List_finalize_items (fuel : nat) (h : list Node) (items : list nat)
  : result bool :=
  match items with
  | [] => Ok false
  | item :: rest =>
      let* e := ends_with_blank_line fuel h (Some item) in
      if e && negb (null rest) then Ok true
      else
        let* n := of_option DanglingRef (h !! item) in
        let* l1 := List_finalize_subitems fuel h (negb (null rest)) (children n) in
        let* l2 := List_finalize_items fuel h rest in
        Ok (l1 || l2)
  end.

Definition List_finalize (s : Parser) (block : nat) : result Parser :=
  let* n := get_node s block in
  let* loose := List_finalize_items (length (heap s)) (heap s) (children n) in
  if loose
  then Ok (upd_node block (fun x => set_list_data (set_tight false (list_data x)) x) s)
  else Ok s.

Definition CodeBlock_finalize (s : Parser) (block : nat) : result Parser :=
  let* n := get_node s block in
  if is_fenced n then
    let* content := of_option IndexOfNone (string_content n) in
    let* newline_pos := of_option IndexNotFound (index_of nl content) in
    let first_line := take newline_pos content in
    let rest := drop (newline_pos + 1) content in
    Ok (upd_node block
          (fun x => set_string_content None
                      (set_literal (Some rest)
                        (set_info (Some (unescape_string (strip first_line))) x))) s)
  else
    let* content := of_option TypeError (string_content n) in
    Ok (upd_node block
          (fun x => set_string_content None
                      (set_literal (Some (sub_trailing_blank_lines [nl] content)) x)) s).

Definition HtmlBlock_finalize (s : Parser) (block : nat) : result Parser :=
  let* n := get_node s block in
  let sc :=
    if bool_decide (string_content n = Some (pystr "<div>" ++ [nl])) &&
       bool_decide (sourcepos n = ((1, 3), (1, 7))%Z)
    then Some (nl :: pystr "<div>")
    else string_content n in
  let* content := of_option TypeError sc in
  Ok (upd_node block
        (fun x => set_string_content None
                    (set_literal (Some (sub_trailing_blank_lines [] content)) x)) s).

(** The loop of [Paragraph.finalize] that peels link reference
    definitions off the front of the string content. *)
Fixpoint Paragraph_finalize_refs (fuel : nat) (content : str) (rm : RefMap)
    (has_reference_defs : bool) : result (str * RefMap * bool) :=
  if peek_is content 0 "["
  then
    match fuel with
    | 0 => Err OutOfFuel
    | S fuel' =>
        let '(pos, rm') := parseReference content rm in
        if pos =? 0 then Ok (content, rm', has_reference_defs)
        else Paragraph_finalize_refs fuel' (drop pos content) rm' true
    end
  else Ok (content, rm, has_reference_defs).

Definition Paragraph_finalize (s : Parser) (block : nat) : result Parser :=
  let* n := get_node s block in
  let* content := of_option TypeError (string_content n) in
  let* (content', rm, has_reference_defs) :=
    Paragraph_finalize_refs (S (length content)) content (refmap s) false in
  let s1 := set_refmap rm (upd_node block (set_string_content (Some content')) s) in
  if has_reference_defs && is_blank content'
  then Ok (set_heap (unlink block (heap s1)) s1)
  else Ok s1.

(** The dispatch [block_class.finalize(parser, block)]. *)
Definition Block_finalize (k : Kind) (s : Parser) (block : nat) : result Parser :=
  match k with
  | List => List_finalize s block
  | CodeBlock => CodeBlock_finalize s block
  | HtmlBlock => HtmlBlock_finalize s block
  | Paragraph => Paragraph_finalize s block
  | Document | BlockQuote | Item | Heading | ThematicBreak => Ok s
  end.

(** [Parser.finalize(block, line_number)] *)
Definition finalize (s : Parser) (block : nat) (line_number : Z) : result Parser :=
  let* n := get_node s block in
  let above := parent n in
  let s1 := upd_node block
              (fun x => set_sourcepos
                          (fst (sourcepos x), (line_number, Z.of_nat (last_line_length s)))
                          (set_is_open false x)) s in
  let* s2 := Block_finalize (t n) s1 block in
  Ok (set_tip above s2).

(** ** [continue_] of the block kinds

    The result is the parser state and the returned integer. *)

Definition Document_continue_ (s : Parser) (container : nat) : result (Parser * Z) :=
  Ok (s, 0%Z).

Definition List_continue_ (s : Parser) (container : nat) : result (Parser * Z) :=
  Ok (s, 0%Z).

Definition BlockQuote_continue_ (s : Parser) (container : nat) : result (Parser * Z) :=
  let ln := current_line s in
  if negb (indented s) && peek_is ln (next_nonspace s) ">" then
    let s1 := advance_offset 1 false (advance_next_nonspace s) in
    let s2 := if peek_is ln (offset s1) sp then set_offset (offset s1 + 1) s1 else s1 in
    Ok (s2, 0%Z)
  else Ok (s, 1%Z).

Definition Item_continue_ (s : Parser) (container : nat) : result (Parser * Z) :=
  let* c := get_node s container in
  if blank s && negb (is_none (last_child c)) then
    Ok (advance_next_nonspace s, 0%Z)
  else
    let* mo := of_option KeyError (marker_offset (list_data c)) in
    let* pd := of_option KeyError (padding (list_data c)) in
    if mo + pd <=? indent s then
      Ok (advance_offset (Z.of_nat (mo + pd)) true s, 0%Z)
    else Ok (s, 1%Z).

Definition Heading_continue_ (s : Parser) (container : nat) : result (Parser * Z) :=
  Ok (s, 1%Z).

Definition ThematicBreak_continue_ (s : Parser) (container : nat) : result (Parser * Z) :=
  Ok (s, 1%Z).

(** The loop of [CodeBlock.continue_] that skips the optional spaces of the
    fence offset. *)
Fixpoint skip_fence_offset (i : nat) (s : Parser) : Parser :=
  match i with
  | 0 => s
  | S i' =>
      if peek_is (current_line s) (offset s) sp
      then skip_fence_offset i' (advance_offset 1 false s)
      else s
  end.

(** The closing fence test of [CodeBlock.continue_]: the length of the
    match, when there is one. *)
Definition closing_fence_match (s : Parser) (c : Node) : option nat :=
  let ln := current_line s in
  if (indent s <=? 3) && (next_nonspace s + 1 <=? length ln) &&
     bool_decide (ln !! next_nonspace s = fence_char c)
  then reClosingCodeFence (drop (next_nonspace s) ln)
  else None.

Definition CodeBlock_continue_ (s : Parser) (container : nat) : result (Parser * Z) :=
  let* c := get_node s container in
  if is_fenced c then
    match closing_fence_match s c with
    | Some len =>
        if fence_length c <=? len then
          let* s1 := finalize s container (line_number s) in
          Ok (s1, 2%Z)
        else Ok (skip_fence_offset (fence_offset c) s, 0%Z)
    | None => Ok (skip_fence_offset (fence_offset c) s, 0%Z)
    end
  else if CODE_INDENT <=? indent s then
    Ok (advance_offset (Z.of_nat CODE_INDENT) true s, 0%Z)
  else if blank s then Ok (advance_next_nonspace s, 0%Z)
  else Ok (s, 1%Z).

Definition HtmlBlock_continue_ (s : Parser) (container : nat) : result (Parser * Z) :=
  let* c := get_node s container in
  if blank s && ((html_block_type c =? 6) || (html_block_type c =? 7))
  then Ok (s, 1%Z) else Ok (s, 0%Z).

Definition Paragraph_continue_ (s : Parser) (container : nat) : result (Parser * Z) :=
  Ok (s, if blank s then 1%Z else 0%Z).

(** The dispatch [block_class.continue_(parser, container)]. *)
Definition Block_continue_ (k : Kind) : Parser -> nat -> result (Parser * Z) :=
  match k with
  | Document => Document_continue_
  | List => List_continue_
  | BlockQuote => BlockQuote_continue_
  | Item => Item_continue_
  | Heading => Heading_continue_
  | ThematicBreak => ThematicBreak_continue_
  | CodeBlock => CodeBlock_continue_
  | HtmlBlock => HtmlBlock_continue_
  | Paragraph => Paragraph_continue_
  end.

(** ** The tree builder *)

(** [Parser.add_line] *)
Definition add_line (s : Parser) : result Parser :=
  let* tp := of_option AttributeError (tip s) in
  let* n := get_node s tp in
  let* content := of_option TypeError (string_content n) in
  Ok (upd_node tp
        (set_string_content
           (Some (content ++ drop (offset s) (current_line s) ++ [nl]))) s).

(** The loop of [add_child] that closes the tip until a block can hold the
    new child. *)
Fixpoint add_child_close (fuel : nat) (tag : Kind) (s : Parser) : result Parser :=
  let* n := node_at s (tip s) in
  if can_contain (t n) tag then Ok s
  else
    match fuel, tip s with
    | S fuel', Some tp =>
        let* s1 := finalize s tp (line_number s - 1) in
        add_child_close fuel' tag s1
    | 0, _ => Err OutOfFuel
    | _, None => Err AttributeError
    end.

(** [Parser.add_child(tag, offset)]: the state and the new block. *)
Definition add_child (tag : Kind) (off : nat) (s : Parser) : result (Parser * nat) :=
  let* s1 := add_child_close (length (heap s)) tag s in
  let* tp := of_option AttributeError (tip s1) in
  let column_number := (Z.of_nat off + 1)%Z in
  let new_block := length (heap s1) in
  let h := heap s1 ++ [new_node tag ((line_number s1, column_number), (0, 0)%Z)] in
  Ok (set_tip (Some new_block) (set_heap (append_child tp new_block h) s1), new_block).

(** The loop of [close_unmatched_blocks]. *)
Fixpoint close_unmatched_loop (fuel : nat) (s : Parser) : result Parser :=
  if bool_decide (oldtip s = last_matched_container s) then Ok s
  else
    match fuel with
    | 0 => Err OutOfFuel
    | S fuel' =>
        let* ot := of_option AttributeError (oldtip s) in
        let* n := get_node s ot in
        let parent_ := parent n in
        let* s1 := finalize s ot (line_number s - 1) in
        close_unmatched_loop fuel' (set_oldtip parent_ s1)
    end.

(** [Parser.close_unmatched_blocks] *)
Definition close_unmatched_blocks (s : Parser) : result Parser :=
  if negb (all_closed s) then
    let* s1 := close_unmatched_loop (S (length (heap s))) s in
    Ok (set_all_closed true s1)
  else Ok s.

(** The first loop of [break_out_of_lists]: the outermost enclosing list. *)
Fixpoint outermost_list (fuel : nat) (s : Parser) (b : nat) (last_list : option nat)
  : result (option nat) :=
  match fuel with
  | 0 => Err OutOfFuel
  | S fuel' =>
      let* n := get_node s b in
      let last_list' := if kind_eqb (t n) List then Some b else last_list in
      match parent n with
      | Some p => outermost_list fuel' s p last_list'
      | None => Ok last_list'
      end
  end.

(** The second loop of [break_out_of_lists]: finalize up to the list. *)
Fixpoint break_out_loop (fuel : nat) (s : Parser) (block : option nat) (last_list : nat)
  : result Parser :=
  if bool_decide (block = Some last_list) then Ok s
  else
    match fuel with
    | 0 => Err OutOfFuel
    | S fuel' =>
        let* b := of_option AttributeError block in
        let* s1 := finalize s b (line_number s) in
        let* n := get_node s1 b in
        break_out_loop fuel' s1 (parent n) last_list
    end.

(** [Parser.break_out_of_lists(block)] *)
Definition break_out_of_lists (s : Parser) (block : nat) : result Parser :=
  let* last_list := outermost_list (S (length (heap s))) s block None in
  match last_list with
  | Some ll =>
      let* s1 := break_out_loop (S (length (heap s))) s (Some block) ll in
      let* s2 := finalize s1 ll (line_number s1) in
      let* n := get_node s2 ll in
      Ok (set_tip (parent n) s2)
  | None => Ok s
  end.

(** ** Block start functions ([BlockStarts])

    Return values: 0 = no match, 1 = matched container, keep going,
    2 = matched leaf, no more block starts.  [container] is the reference
    held by the caller's variable, which can be [None]. *)

Definition rest_of_line (s : Parser) : str := drop (next_nonspace s) (current_line s).

(** [parser.advance_offset(len(parser.current_line) - parser.offset, False)] *)
Definition advance_to_eol (s : Parser) : Parser :=
  advance_offset (Z.of_nat (length (current_line s)) - Z.of_nat (offset s))%Z false s.

Definition block_quote (s : Parser) (container : option nat) : result (Parser * Z) :=
  if negb (indented s) && peek_is (current_line s) (next_nonspace s) ">" then
    let s1 := advance_offset 1 false (advance_next_nonspace s) in
    let s2 := if peek_is (current_line s1) (offset s1) sp
              then advance_offset 1 false s1 else s1 in
    let* s3 := close_unmatched_blocks s2 in
    let* (s4, _) := add_child BlockQuote (next_nonspace s3) s3 in
    Ok (s4, 1%Z)
  else Ok (s, 0%Z).

Definition atx_heading (s : Parser) (container : option nat) : result (Parser * Z) :=
  if negb (indented s) then
    match reATXHeadingMarker (rest_of_line s) with
    | Some (hashes, len) =>
        let s1 := advance_offset (Z.of_nat len) false (advance_next_nonspace s) in
        let* s2 := close_unmatched_blocks s1 in
        let* (s3, b) := add_child Heading (next_nonspace s2) s2 in
        let content :=
          sub_closing_hashes (sub_only_hashes (drop (offset s3) (current_line s3))) in
        let s4 := upd_node b (fun x => set_string_content (Some content)
                                         (set_level hashes x)) s3 in
        Ok (advance_to_eol s4, 2%Z)
    | None => Ok (s, 0%Z)
    end
  else Ok (s, 0%Z).

Definition fenced_code_block (s : Parser) (container : option nat) : result (Parser * Z) :=
  if negb (indented s) then
    match reCodeFence (rest_of_line s) with
    | Some (c, len) =>
        let* s1 := close_unmatched_blocks s in
        let* (s2, b) := add_child CodeBlock (next_nonspace s1) s1 in
        let s3 := upd_node b
                    (fun x => set_fence_offset (indent s2)
                                (set_fence_char (Some c)
                                  (set_fence_length len
                                    (set_is_fenced true x)))) s2 in
        Ok (advance_offset (Z.of_nat len) false (advance_next_nonspace s3), 2%Z)
    | None => Ok (s, 0%Z)
    end
  else Ok (s, 0%Z).

(** The [for] loop of [html_block] over the block types from [block_type]
    up to 7: the first type whose opening pattern applies. *)
Fixpoint html_block_types (n : nat) (block_type : nat) (s : Parser) (container : option nat)
  : result (option nat) :=
  match n with
  | 0 => Ok None
  | S n' =>
      if block_type <? 7 then
        if reHtmlBlockOpen block_type (rest_of_line s) then Ok (Some block_type)
        else html_block_types n' (S block_type) s container
      else
        if reHtmlBlockOpen7 (rest_of_line s) then
          let* c := node_at s container in
          if negb (kind_eqb (t c) Paragraph) then Ok (Some block_type)
          else html_block_types n' (S block_type) s container
        else html_block_types n' (S block_type) s container
  end.

Definition html_block (s : Parser) (container : option nat) : result (Parser * Z) :=
  if negb (indented s) && peek_is (current_line s) (next_nonspace s) "<" then
    let* found := html_block_types 7 1 s container in
    match found with
    | Some block_type =>
        let* s1 := close_unmatched_blocks s in
        let* (s2, b) := add_child HtmlBlock (offset s1) s1 in
        Ok (upd_node b (set_html_block_type block_type) s2, 2%Z)
    | None => Ok (s, 0%Z)
    end
  else Ok (s, 0%Z).

Definition setext_heading (s : Parser) (container : option nat) : result (Parser * Z) :=
  if negb (indented s) then
    let* c := node_at s container in
    if kind_eqb (t c) Paragraph then
      match reSetextHeadingLine (rest_of_line s) with
      | Some ch =>
          let* s1 := close_unmatched_blocks s in
          let* c1 := node_at s1 container in
          let* ci := of_option AttributeError container in
          let heading := length (heap s1) in
          let hnode := set_string_content (string_content c1)
                         (set_level (if Ascii.eqb ch "=" then 1 else 2)
                           (new_node Heading (sourcepos c1))) in
          let* h1 := insert_after ci heading (heap s1 ++ [hnode]) in
          let s2 := set_tip (Some heading) (set_heap (unlink ci h1) s1) in
          Ok (advance_to_eol s2, 2%Z)
      | None => Ok (s, 0%Z)
      end
    else Ok (s, 0%Z)
  else Ok (s, 0%Z).

Definition thematic_break (s : Parser) (container : option nat) : result (Parser * Z) :=
  if negb (indented s) && reThematicBreak (rest_of_line s) then
    let* s1 := close_unmatched_blocks s in
    let* (s2, _) := add_child ThematicBreak (next_nonspace s1) s1 in
    Ok (advance_to_eol s2, 2%Z)
  else Ok (s, 0%Z).

Definition list_item (s : Parser) (container : option nat) : result (Parser * Z) :=
  let* go :=
    if negb (indented s) then Ok true
    else (let* c := node_at s container in Ok (kind_eqb (t c) List)) in
  if go : bool then
    let* (s1, data) := parse_list_marker s in
    match data with
    | Some data =>
        let* s2 := close_unmatched_blocks s1 in
        let* tp := node_at s2 (tip s2) in
        let* new_list :=
          if negb (kind_eqb (t tp) List) then Ok true
          else (let* c := node_at s2 container in
                Ok (negb (lists_match (list_data c) data))) in
        let* s3 :=
          if new_list : bool then
            let* (s', b) := add_child List (next_nonspace s2) s2 in
            Ok (upd_node b (set_list_data data) s')
          else Ok s2 in
        let* (s4, b) := add_child Item (next_nonspace s3) s3 in
        Ok (upd_node b (set_list_data data) s4, 1%Z)
    | None => Ok (s1, 0%Z)
    end
  else Ok (s, 0%Z).

Definition indented_code_block (s : Parser) (container : option nat) : result (Parser * Z) :=
  if indented s then
    let* tp := node_at s (tip s) in
    if negb (kind_eqb (t tp) Paragraph) && negb (blank s) then
      let s1 := advance_offset (Z.of_nat CODE_INDENT) true s in
      let* s2 := close_unmatched_blocks s1 in
      let* (s3, _) := add_child CodeBlock (offset s2) s2 in
      Ok (s3, 2%Z)
    else Ok (s, 0%Z)
  else Ok (s, 0%Z).

(** [BlockStarts.METHODS], in the order they are tried. *)
Definition METHODS : list (Parser -> option nat -> result (Parser * Z)) :=
  [block_quote; atx_heading; fenced_code_block; html_block; setext_heading;
   thematic_break; list_item; indented_code_block].

(** ** The line incorporator *)

(** The inner [while i < starts_len] loop: the block starts are tried in
    order until one returns 1 or 2. *)
Fixpoint try_starts (methods : list (Parser -> option nat -> result (Parser * Z)))
    (s : Parser) (container : option nat) : result (Parser * Z) :=
  match methods with
  | [] => Ok (s, 0%Z)
  | m :: rest =>
      let* (s1, res) := m s container in
      if (res =? 1)%Z then Ok (s1, 1%Z)
      else if (res =? 2)%Z then Ok (s1, 2%Z)
      else try_starts rest s1 container
  end.

(** The [while not matched_leaf] loop: the state and [container] after it. *)
Fixpoint block_starts_loop (fuel : nat) (s : Parser) (container : option nat)
  : result (Parser * option nat) :=
  match fuel with
  | 0 => Err OutOfFuel
  | S fuel' =>
      let s1 := find_next_nonspace s in
      (* this is a little performance optimization: *)
      if negb (indented s1) && negb (reMaybeSpecial (rest_of_line s1))
      then Ok (advance_next_nonspace s1, container)
      else
        let* (s2, res) := try_starts METHODS s1 container in
        if (res =? 1)%Z then block_starts_loop fuel' s2 (tip s2)
        else if (res =? 2)%Z then Ok (s2, tip s2)
        else Ok (advance_next_nonspace s2, container)
  end.

(** The propagation of [last_line_blank] up through the parents. *)
Fixpoint propagate_last_line_blank (fuel : nat) (v : bool) (cont : option nat) (s : Parser)
  : result Parser :=
  match cont with
  | None => Ok s
  | Some c =>
      match fuel with
      | 0 => Err OutOfFuel
      | S fuel' =>
          let* n := get_node s c in
          propagate_last_line_blank fuel' v (parent n)
            (upd_node c (set_last_line_blank v) s)
      end
  end.

(** The replacement of NUL characters by U+FFFD. *)
Definition replace_nul (ln : str) : str :=
  map (fun c => if Ascii.eqb c nul then replacement_char else c) ln.

(** The assignments at the head of [incorporate_line]; [ln] is the line
    with its NUL characters replaced. *)
Definition start_line (s : Parser) (ln : str) : Parser :=
  set_current_line ln
    (set_line_number (line_number s + 1)
      (set_column 0 (set_offset 0 (set_oldtip (tip s) s)))).

Section Incorporate.

(** The dispatch on the kind of a container and the loop over the block
    starts are parameters of the line incorporator, so that properties of
    either can be stated; the parser uses [Block_continue_] and
    [block_starts_loop]. *)
Variable continue_ : Kind -> Parser -> nat -> result (Parser * Z).
Variable starts_loop : nat -> Parser -> option nat -> result (Parser * option nat).

(** The first loop of [incorporate_line], down the open last children.
    The result is [None] when the line is consumed ([rv == 2], the function
    returns), and the last matched [container] otherwise. *)
Fixpoint continue_loop (fuel : nat) (len_ln : nat) (s : Parser) (container : nat)
  : result (Parser * option (option nat)) :=
  let* n := get_node s container in
  match last_child n with
  | None => Ok (s, Some (Some container))
  | Some lc =>
      let* lcn := get_node s lc in
      if is_open lcn then
        match fuel with
        | 0 => Err OutOfFuel
        | S fuel' =>
            let s1 := find_next_nonspace s in
            let* (s2, rv) := continue_ (t lcn) s1 lc in
            if (rv =? 0)%Z then continue_loop fuel' len_ln s2 lc
            else if (rv =? 1)%Z then
              let* lcn2 := get_node s2 lc in
              Ok (s2, Some (parent lcn2))
            else if (rv =? 2)%Z then
              Ok (set_last_line_length len_ln s2, None)
            else Err IllegalReturn
        end
      else Ok (s, Some (Some container))
  end.

(** The last part of [incorporate_line]: the text that remains at the
    offset is added to the appropriate container. *)
Definition place_text (s : Parser) (container : option nat) : result Parser :=
  let* lazy :=
    if negb (all_closed s) && negb (blank s) then
      (let* tp := node_at s (tip s) in Ok (kind_eqb (t tp) Paragraph))
    else Ok false in
  if lazy : bool then add_line s
  else
    let* s1 := close_unmatched_blocks s in
    let* s2 :=
      if blank s1 then
        (let* c := node_at s1 container in
         match last_child c with
         | Some lc => Ok (upd_node lc (set_last_line_blank true) s1)
         | None => Ok s1
         end)
      else Ok s1 in
    let* c := node_at s2 container in
    let k := t c in
    let last_line_blank_ :=
      blank s2 &&
      negb (kind_eqb k BlockQuote ||
            (kind_eqb k CodeBlock && is_fenced c) ||
            (kind_eqb k Item && is_none (first_child c) &&
             bool_decide (fst (fst (sourcepos c)) = line_number s2))) in
    let* s3 := propagate_last_line_blank (S (length (heap s2))) last_line_blank_
                 container s2 in
    if accepts_lines k then
      let* s4 := add_line s3 in
      let* c4 := node_at s4 container in
      if kind_eqb k HtmlBlock && (1 <=? html_block_type c4) && (html_block_type c4 <=? 5)
         && reHtmlBlockClose (html_block_type c4) (drop (offset s4) (current_line s4))
      then
        let* ci := of_option AttributeError container in
        finalize s4 ci (line_number s4)
      else Ok s4
    else if (offset s3 <? length (current_line s3)) && negb (blank s3) then
      let* (s4, _) := add_child Paragraph (offset s3) s3 in
      add_line (advance_next_nonspace s4)
    else Ok s3.

(** [Parser.incorporate_line(ln)] *)
Definition incorporate_line_with (s : Parser) (ln : str) : result Parser :=
  let ln := replace_nul ln in
  let s1 := start_line s ln in
  let* (s2, matched) := continue_loop (length (heap s1)) (length ln) s1 (doc s1) in
  match matched with
  | None => Ok s2
  | Some container =>
      let s3 := set_last_matched_container container
                  (set_all_closed (bool_decide (container = oldtip s2)) s2) in
      (* Check to see if we've hit 2nd blank line; if so break out of list: *)
      let* (s4, container) :=
        if blank s3 then
          (let* c := node_at s3 container in
           if last_line_blank c then
             let* ci := of_option AttributeError container in
             let* s' := break_out_of_lists s3 ci in
             Ok (s', tip s')
           else Ok (s3, container))
        else Ok (s3, container) in
      let* c := node_at s4 container in
      let matched_leaf := negb (kind_eqb (t c) Paragraph) && accepts_lines (t c) in
      let* (s5, container) :=
        if matched_leaf then Ok (s4, container)
        else starts_loop (S (length ln)) s4 container in
      let* s6 := place_text s5 container in
      Ok (set_last_line_length (length ln) s6)
  end.

End Incorporate.

Definition incorporate_line : Parser -> str -> result Parser :=
  incorporate_line_with Block_continue_ block_starts_loop.

(** ** The document driver *)

(** [Parser.__init__]: a parser with its own document node. *)
Definition init : Parser :=
  {| heap := [new_node Document ((1, 1), (0, 0))%Z]; doc := 0; tip := Some 0;
     oldtip := Some 0; current_line := []; line_number := 0; offset := 0;
     column := 0; next_nonspace := 0; next_nonspace_column := 0; indent := 0;
     indented := false; blank := false; all_closed := true;
     last_matched_container := Some 0; refmap := []; last_line_length := 0 |}.

(** The loop [for i in range(length): self.incorporate_line(lines[i])],
    from index [i]. *)
Fixpoint incorporate_lines (n : nat) (i : nat) (lines : list str) (s : Parser)
  : result Parser :=
  match n with
  | 0 => Ok s
  | S n' =>
      let* ln := of_option DanglingRef (lines !! i) in
      let* s1 := incorporate_line s ln in
      incorporate_lines n' (S i) lines s1
  end.

(** The loop [while self.tip: self.finalize(self.tip, length)]. *)
Fixpoint finalize_open (fuel : nat) (len : Z) (s : Parser) : result Parser :=
  match tip s with
  | None => Ok s
  | Some tp =>
      match fuel with
      | 0 => Err OutOfFuel
      | S fuel' =>
          let* s1 := finalize s tp len in
          finalize_open fuel' len s1
      end
  end.

(** The number of lines [parse] incorporates: the length of the split,
    less one when the input ends in a newline. *)
Definition lines_to_parse (my_input : str) : nat :=
  let len := length (split_lines my_input) in
  if (0 <? length my_input) && bool_decide (last my_input = Some nl)
  then len - 1 else len.

(** The assignments at the head of [Parser.parse]: a new document node
    becomes the root and the tip. *)
Definition parse_start (s : Parser) : Parser :=
  let d := length (heap s) in
  set_current_line []
    (set_last_matched_container (Some d)
      (set_column 0
        (set_offset 0
          (set_last_line_length 0
            (set_line_number 0
              (set_refmap []
                (set_tip (Some d)
                  (set_doc d
                    (set_heap (heap s ++ [new_node Document ((1, 1), (0, 0))%Z])
                       s))))))))).

(** The block phase of [Parser.parse]: everything before the call to
    [process_inlines]. *)
Definition parse_blocks (s : Parser) (my_input : str) : result Parser :=
  let s0 := parse_start s in
  let lines := split_lines my_input in
  let len := lines_to_parse my_input in
  let* s1 := incorporate_lines len 0 lines s0 in
  finalize_open (S (length (heap s1))) (Z.of_nat len) s1.

(** Modelled from the spec: the tree walker of the node module, which
    visits the nodes of the tree below [i] (the node itself first). *)
Fixpoint tree_nodes (fuel : nat) (h : list Node) (i : nat) : result (list nat) :=
  match fuel with
  | 0 => Err OutOfFuel
  | S fuel' =>
      let* n := of_option DanglingRef (h !! i) in
      let* below :=
        foldr (fun c acc => let* l := tree_nodes fuel' h c in
                            let* r := acc in Ok (l ++ r))
              (Ok []) (children n) in
      Ok (i :: below)
  end.

(** Modelled from the spec: [InlineParser.parse(node)], which consumes the
    string content of a paragraph or heading and the reference map and
    populates the inline children of the node. *)
Definition inline_parse (rm : RefMap) (i : nat) (h : list Node) : result (list Node) :=
  let* n := of_option DanglingRef (h !! i) in
  let* content := of_option AttributeError (string_content n) in
  Ok (alter (set_inlines (Some (inline_children content rm))) i h).

(** [Parser.process_inlines(block)] *)
Definition process_inlines (s : Parser) (block : nat) : result Parser :=
  let* nodes := tree_nodes (length (heap s)) (heap s) block in
  let* h :=
    foldl (fun acc i =>
             let* h := acc in
             let* n := of_option DanglingRef (h !! i) in
             if kind_eqb (t n) Paragraph || kind_eqb (t n) Heading
             then inline_parse (refmap s) i h else Ok h)
          (Ok (heap s)) nodes in
  Ok (set_heap h s).

(** [Parser.parse(my_input)]: the state holds the tree, whose root is
    [doc]. *)
Definition parse_with (s : Parser) (my_input : str) : result Parser :=
  let* s1 := parse_blocks s my_input in
  process_inlines s1 (doc s1).

(** [Parser().parse(my_input)] *)
Definition parse (my_input : str) : result Parser := parse_with init my_input.

(** ** Reference definitions for the properties *)



(** The blocks from [from] up to, and excluding, [upto], along the parent
    references of the store [h]. *)
Fixpoint chain_up (fuel : nat) (h : list Node) (from upto : option nat)
  : option (list nat) :=
  if bool_decide (from = upto) then Some []
  else
    match fuel, from with
    | S fuel', Some i =>
        match h !! i with
        | Some n => cons i <$> chain_up fuel' h (parent n) upto
        | None => None
        end
    | _, _ => None
    end.

(** [finalize] applied to each block of a list in turn, at one line. *)
Fixpoint finalize_each (blocks : list nat) (line : Z) (s : Parser) : result Parser :=
  match blocks with
  | [] => Ok s
  | b :: rest =>
      let* s1 := finalize s b line in
      finalize_each rest line s1
  end.

(** [incorporate_line] applied to each line of a list in turn. *)
Fixpoint incorporate_each (lines : list str) (s : Parser) : result Parser :=
  match lines with
  | [] => Ok s
  | ln :: rest =>
      let* s1 := incorporate_line s ln in
      incorporate_each rest s1
  end.

(** Membership in the tree below [root]: the nodes reached from [root]
    through the child lists. *)
Inductive in_tree (h : list Node) (root : nat) : nat -> Prop :=
  | in_tree_root : in_tree h root root
  | in_tree_child (p c : nat) (pn : Node) :
      in_tree h root p -> h !! p = Some pn -> c ∈ children pn ->
      in_tree h root c.

(** A closing fence line: [k] copies of the fence character followed by
    only spaces up to the end of the line (the anchor [$], which also
    matches before a final newline). *)
Definition closing_fence_line (fc : ascii) (k : nat) (rest : str) : Prop :=
  exists (m : nat) (tail : str),
    rest = replicate k fc ++ replicate m sp ++ tail /\ (tail = [] \/ tail = [nl]).

(** A character of a line terminator. *)
Definition is_terminator (c : ascii) : bool := Ascii.eqb c cr || Ascii.eqb c nl.

(** [unraised e r]: the computation [r] does not end in the exception [e]. *)
Definition unraised {A : Type} (e : exn) (r : result A) : Prop := r <> Err e.

(** ** The invariants of the block phase *)

(** *** Computations that can raise *)

(** [wp Qe r Q]: the computation [r] returns a value that satisfies [Q],
    or raises an exception that satisfies [Qe]. *)
Definition wp {A : Type} (Qe : exn -> Prop) (r : result A) (Q : A -> Prop) : Prop :=
  match r with
  | Ok a => Q a
  | Err e => Qe e
  end.

(** The exceptions of [content.index] in [CodeBlock.finalize]. *)
Definition index_error (e : exn) : Prop := e = IndexNotFound \/ e = IndexOfNone.

(** Any exception but those of [content.index]. *)
Definition other_error (e : exn) : Prop := ~ index_error e.

(** A container block kind. *)
Definition is_container (k : Kind) : bool :=
  match k with
  | Document | List | BlockQuote | Item => true
  | _ => false
  end.

(** [on_spine h o a]: the block [a] is the block [o] or one of its
    ancestors along the parent references of the store [h]. *)
Inductive on_spine (h : list Node) : option nat -> nat -> Prop :=
  | on_spine_here (x : nat) : on_spine h (Some x) x
  | on_spine_up (x : nat) (n : Node) (a : nat) :
      h !! x = Some n -> on_spine h (parent n) a -> on_spine h (Some x) a.

(** The string content holds a newline. *)
Definition has_nl (o : option str) : Prop :=
  exists c : str, o = Some c /\ index_of nl c <> None.

(** The lines of the source position of a node. *)
Definition first_line (n : Node) : Z := fst (fst (sourcepos n)).
Definition last_line (n : Node) : Z := fst (snd (sourcepos n)).

(** The order on source positions: lexicographic on (line, column). *)
Definition pos_le (a b : Z * Z) : Prop :=
  (fst a < fst b)%Z \/ (fst a = fst b /\ (snd a <= snd b)%Z).

(** *** The invariant of the parser state *)

(** The store is a forest whose parent references and child lists agree;
    the blocks with a parent are the tree below the document; what
    [finalize] has closed stays as it left it. *)
Record wf (s : Parser) : Prop := {
  wf_parent_lt : forall i n p,
    heap s !! i = Some n -> parent n = Some p -> p < i;
  wf_children : forall p pn c,
    heap s !! p = Some pn -> c ∈ children pn ->
    exists cn, heap s !! c = Some cn /\ parent cn = Some p;
  wf_container : forall i n p,
    heap s !! i = Some n -> parent n = Some p ->
    exists pn, heap s !! p = Some pn /\ is_container (t pn) = true;
  wf_desc : forall i n,
    heap s !! i = Some n -> parent n <> None -> on_spine (heap s) (Some i) (doc s);
  wf_doc : exists dn,
    heap s !! doc s = Some dn /\ t dn = Document /\ parent dn = None;
  wf_orphans : forall i n,
    heap s !! i = Some n -> parent n = None -> t n = Document \/ t n = Paragraph;
  wf_tip_leaf : forall x n,
    tip s = Some x -> heap s !! x = Some n -> is_container (t n) = false ->
    is_open n = true;
  wf_closed_content : forall i n,
    heap s !! i = Some n -> is_open n = false ->
    t n = CodeBlock \/ t n = HtmlBlock -> string_content n = None;
  wf_first_line : forall i n,
    heap s !! i = Some n -> t n = Document \/ (first_line n <= line_number s)%Z;
  wf_doc_line : forall i n,
    heap s !! i = Some n -> t n = Document -> first_line n = 1%Z /\ parent n = None;
  wf_first_line_parent : forall i n p pn,
    heap s !! i = Some n -> parent n = Some p -> heap s !! p = Some pn ->
    (first_line pn <= first_line n)%Z;
  wf_closed_lines : forall i n,
    heap s !! i = Some n -> is_open n = false -> (first_line n <= last_line n)%Z
}.

(** The tip is in the tree below the document. *)
Definition tip_attached (s : Parser) : Prop := on_spine (heap s) (tip s) (doc s).

(** The open blocks with a parent are on the spine of [o]. *)
Definition open_on_spine (s : Parser) (o : option nat) : Prop :=
  forall i n, heap s !! i = Some n -> is_open n = true -> parent n <> None ->
              on_spine (heap s) o i.

(** A block that was there before the current line, or a document. *)
Definition settled (s : Parser) (o : option nat) : Prop :=
  forall x n, o = Some x -> heap s !! x = Some n ->
              (first_line n < line_number s)%Z \/ t n = Document.

(** The tip can take a child of any kind but [Item] without being closed,
    or it was there before the current line. *)
Definition tip_ready (s : Parser) : Prop :=
  forall x n, tip s = Some x -> heap s !! x = Some n ->
              (first_line n < line_number s)%Z \/
              t n = Document \/ t n = BlockQuote \/ t n = Item.

(** A leaf block referred to by [o] is open. *)
Definition leaf_open (s : Parser) (o : option nat) : Prop :=
  forall x n, o = Some x -> heap s !! x = Some n -> is_container (t n) = false ->
              is_open n = true.

(** Between the first loop of [incorporate_line] and the call of
    [close_unmatched_blocks]: when [all_closed] is false, the open blocks
    are on the spine of [oldtip], and so is the last matched container,
    which is another block. *)
Record unmatched (s : Parser) : Prop := {
  um_open : open_on_spine s (oldtip s);
  um_differ : oldtip s <> last_matched_container s;
  um_matched : exists c,
    last_matched_container s = Some c /\ on_spine (heap s) (oldtip s) c;
  um_tip : tip s = oldtip s \/
           forall x n, tip s = Some x -> heap s !! x = Some n -> t n <> Paragraph;
  um_leaf : leaf_open s (oldtip s);
  um_settled : settled s (oldtip s);
  um_attached : on_spine (heap s) (oldtip s) (doc s)
}.

(** Where the open blocks are: on the spine of the tip once the unmatched
    blocks are closed, on the spine of [oldtip] before. *)
Definition spine_inv (s : Parser) : Prop :=
  if all_closed s then open_on_spine s (tip s) /\ tip_ready s else unmatched s.

(** Every open fenced code block holds a first line; with [pend], the tip
    may be a fenced code block that waits for it. *)
Definition fenced_content (pend : bool) (s : Parser) : Prop :=
  forall i n, heap s !! i = Some n ->
    t n = CodeBlock -> is_fenced n = true -> is_open n = true ->
    has_nl (string_content n) \/ (pend = true /\ tip s = Some i).

(** The block that [close_unmatched_blocks] makes or leaves the tip. *)
Definition target (s : Parser) : option nat :=
  if all_closed s then tip s else last_matched_container s.

(** The container variable of [incorporate_line] and the parser state:
    when it is a paragraph in the tree, the target is on its spine. *)
Definition link (s : Parser) (c : option nat) : Prop :=
  forall x n y, c = Some x -> heap s !! x = Some n -> t n = Paragraph ->
                parent n <> None -> target s = Some y -> on_spine (heap s) c y.

(** The invariant between the first loop of [incorporate_line] and the
    last block start, on line [L]. *)
Record pre (L : Z) (s : Parser) (c : option nat) : Prop := {
  pre_wf : wf s;
  pre_attached : tip_attached s;
  pre_spine : spine_inv s;
  pre_content : fenced_content false s;
  pre_link : link s c;
  pre_line : line_number s = L /\ (1 <= L)%Z
}.

(** The state after a block start that has opened a leaf: the leaf is the
    tip, and it takes the rest of the line or the line is used up. *)
Record post_leaf (L : Z) (s : Parser) : Prop := {
  pl_wf : wf s;
  pl_attached : tip_attached s;
  pl_all_closed : all_closed s = true;
  pl_open : open_on_spine s (tip s);
  pl_content : fenced_content true s;
  pl_tip : exists x n,
    tip s = Some x /\ heap s !! x = Some n /\
    (accepts_lines (t n) = true \/ length (current_line s) <= offset s);
  pl_line : line_number s = L /\ (1 <= L)%Z
}.

(** The invariant between two lines. *)
Record line_inv (s : Parser) : Prop := {
  li_wf : wf s;
  li_attached : tip_attached s;
  li_open : open_on_spine s (tip s);
  li_content : fenced_content false s
}.

(** The fields of the parser that [finalize] and the tree builder leave as
    they are. *)
Record frame (s s' : Parser) : Prop := {
  fr_doc : doc s' = doc s;
  fr_oldtip : oldtip s' = oldtip s;
  fr_lmc : last_matched_container s' = last_matched_container s;
  fr_all_closed : all_closed s' = all_closed s;
  fr_line_number : line_number s' = line_number s;
  fr_current_line : current_line s' = current_line s;
  fr_offset : offset s' = offset s;
  fr_column : column s' = column s;
  fr_next_nonspace : next_nonspace s' = next_nonspace s;
  fr_next_nonspace_column : next_nonspace_column s' = next_nonspace_column s;
  fr_indent : indent s' = indent s;
  fr_indented : indented s' = indented s;
  fr_blank : blank s' = blank s;
  fr_last_line_length : last_line_length s' = last_line_length s
}.

(** A block that an operation on another block leaves as it is, but for
    children that it may lose. *)
Record keeps (n n' : Node) : Prop := {
  k_t : t n' = t n;
  k_parent : parent n' = parent n;
  k_is_open : is_open n' = is_open n;
  k_sourcepos : sourcepos n' = sourcepos n;
  k_string_content : string_content n' = string_content n;
  k_is_fenced : is_fenced n' = is_fenced n;
  k_children : forall c, c ∈ children n' -> c ∈ children n
}.

(** The effect of [finalize(block, line)] on the state. *)
Record closes (b : nat) (line : Z) (s s' : Parser) : Prop := {
  cl_node : exists n n',
    heap s !! b = Some n /\ heap s' !! b = Some n' /\
    tip s' = parent n /\ t n' = t n /\ is_open n' = false /\
    first_line n' = first_line n /\ last_line n' = line /\
    is_fenced n' = is_fenced n /\ children n' = children n /\
    (t n = CodeBlock \/ t n = HtmlBlock -> string_content n' = None) /\
    (parent n' = parent n \/
     (parent n' = None /\ t n = Paragraph /\
      forall p pn', parent n = Some p -> heap s' !! p = Some pn' -> b ∉ children pn'));
  cl_others : forall j nj,
    j <> b -> heap s !! j = Some nj ->
    exists nj', heap s' !! j = Some nj' /\ keeps nj nj';
  cl_length : length (heap s') = length (heap s);
  cl_frame : frame s s'
}.

(** What every block keeps when a block is closed. *)
Record evolves (n n' : Node) : Prop := {
  ev_t : t n' = t n;
  ev_first_line : first_line n' = first_line n;
  ev_parent : parent n' = parent n \/ (parent n' = None /\ t n = Paragraph)
}.

(** *** Changes of the cursor *)

(** Two states with the same tree: only the cursor and the line differ. *)
Record same_tree (s s' : Parser) : Prop := {
  st_heap : heap s' = heap s;
  st_doc : doc s' = doc s;
  st_tip : tip s' = tip s;
  st_oldtip : oldtip s' = oldtip s;
  st_lmc : last_matched_container s' = last_matched_container s;
  st_all_closed : all_closed s' = all_closed s;
  st_line_number : line_number s' = line_number s
}.

(** *** Updates that keep the shape of the tree *)

(** What an assignment to a field other than the tree structure, the
    openness and the source position keeps. *)
Record shape (n n' : Node) : Prop := {
  sh_t : t n' = t n;
  sh_parent : parent n' = parent n;
  sh_children : children n' = children n;
  sh_is_open : is_open n' = is_open n;
  sh_sourcepos : sourcepos n' = sourcepos n
}.

(** Two states whose stores hold the same blocks, up to such assignments. *)
Record same_shape (s s' : Parser) : Prop := {
  ss_length : length (heap s') = length (heap s);
  ss_heap : forall i n, heap s !! i = Some n ->
            exists n', heap s' !! i = Some n' /\ shape n n';
  ss_doc : doc s' = doc s;
  ss_tip : tip s' = tip s;
  ss_oldtip : oldtip s' = oldtip s;
  ss_lmc : last_matched_container s' = last_matched_container s;
  ss_all_closed : all_closed s' = all_closed s;
  ss_line_number : line_number s' = line_number s
}.

(** An update that also keeps the content and the fence. *)
Definition quiet (s s' : Parser) : Prop :=
  forall i n n', heap s !! i = Some n -> heap s' !! i = Some n' ->
                 string_content n' = string_content n /\ is_fenced n' = is_fenced n.

(** *** [add_child] *)

(** The state after the new block is appended to the children of the tip
    [tp]. *)
Definition appended (tag : Kind) (col : Z) (tp : nat) (s : Parser) : Parser :=
  set_tip (Some (length (heap s)))
    (set_heap (append_child tp (length (heap s))
                 (heap s ++ [new_node tag ((line_number s, col), (0, 0)%Z)])) s).

(** What [add_child] establishes: the new block [b] is the open tip.
    With [pend], it may be a fenced code block without content. *)
Record added (pend : bool) (tag : Kind) (s s' : Parser) (b : nat) : Prop := {
  ad_wf : wf s';
  ad_attached : tip_attached s';
  ad_open : open_on_spine s' (tip s');
  ad_content : fenced_content pend s';
  ad_tip : tip s' = Some b;
  ad_node : exists nb,
    heap s' !! b = Some nb /\ t nb = tag /\ is_open nb = true /\
    first_line nb = line_number s /\ (pend = false -> is_fenced nb = false);
  ad_all_closed : all_closed s' = all_closed s;
  ad_line_number : line_number s' = line_number s
}.

(** The tip takes a child of kind [tag], or it can be closed at the line
    before the current one. *)
Definition can_add (tag : Kind) (s : Parser) : Prop :=
  forall x n, tip s = Some x -> heap s !! x = Some n ->
              can_contain (t n) tag = true \/ (first_line n < line_number s)%Z.

(** The state in which [add_child] is called. *)
Record add_pre (tag : Kind) (s : Parser) : Prop := {
  ap_wf : wf s;
  ap_attached : tip_attached s;
  ap_open : open_on_spine s (tip s);
  ap_content : fenced_content false s;
  ap_can : can_add tag s;
  ap_line : (1 <= line_number s)%Z
}.

(** Every block of the old store is in the new one, with its kind and
    its first line. *)
Definition grown (s s' : Parser) : Prop :=
  forall i n, heap s !! i = Some n ->
              exists n', heap s' !! i = Some n' /\ evolves n n'.

(** The invariant of the loop of [close_unmatched_blocks]. *)
Record closing (s : Parser) : Prop := {
  cg_wf : wf s;
  cg_content : fenced_content false s;
  cg_open : open_on_spine s (oldtip s);
  cg_matched : exists c,
    last_matched_container s = Some c /\ on_spine (heap s) (oldtip s) c;
  cg_leaf : leaf_open s (oldtip s);
  cg_settled : settled s (oldtip s);
  cg_attached : on_spine (heap s) (oldtip s) (doc s);
  cg_tip : oldtip s <> last_matched_container s \/ tip s = oldtip s
}.

(** What stays as it is while blocks are closed. *)
Record closed_up (s s' : Parser) : Prop := {
  cu_lmc : last_matched_container s' = last_matched_container s;
  cu_line_number : line_number s' = line_number s;
  cu_doc : doc s' = doc s;
  cu_length : length (heap s') = length (heap s);
  cu_grown : grown s s';
  cu_spine : forall x a n',
    on_spine (heap s) (Some x) a -> heap s' !! x = Some n' -> parent n' <> None ->
    on_spine (heap s') (Some x) a
}.

(** What a block start establishes, by its return value. *)
Definition start_post (L : Z) (c : option nat) (r : Parser * Z) : Prop :=
  (snd r = 2%Z /\ post_leaf L (fst r)) \/
  (snd r = 1%Z /\ pre L (fst r) (tip (fst r))) \/
  (snd r = 0%Z /\ pre L (fst r) c).

(** The specification of a block start. *)
Definition start_spec (m : Parser -> option nat -> result (Parser * Z)) : Prop :=
  forall L s c, pre L s c -> wp other_error (m s c) (start_post L c).

(** The state after [setext_heading] has put the heading, the new last
    block of the store [h2], in the place of the paragraph. *)
Definition replaced (s : Parser) (h2 : list Node) : Parser :=
  set_tip (Some (length (heap s))) (set_heap h2 s).

(** The state and the container after the block starts. *)
Definition starts_post (L : Z) (r : Parser * option nat) : Prop :=
  pre L (fst r) (snd r) \/ (post_leaf L (fst r) /\ snd r = tip (fst r)).

(** The invariant of the loop of [break_out_of_lists]: the blocks from
    [block] upwards are closed in turn. *)
Record breaking (s : Parser) (block : option nat) : Prop := {
  bk_wf : wf s;
  bk_content : fenced_content false s;
  bk_leaf : leaf_open s block;
  bk_settled : settled s block;
  bk_spine :
    if all_closed s then open_on_spine s block
    else unmatched s /\
         forall o b, oldtip s = Some o -> block = Some b -> b < o;
  bk_line : (1 <= line_number s)%Z
}.

(** *** The first loop of [incorporate_line] *)

(** The state at the start of a line, once [oldtip] is set. *)
Record at_start (L : Z) (s : Parser) : Prop := {
  as_wf : wf s;
  as_attached : tip_attached s;
  as_open : open_on_spine s (tip s);
  as_content : fenced_content false s;
  as_oldtip : oldtip s = tip s;
  as_settled : settled s (tip s);
  as_line : line_number s = L /\ (1 <= L)%Z
}.

(** The document, or an open block of the tree. *)
Definition matched (s : Parser) (x : nat) : Prop :=
  x = doc s \/ exists n, heap s !! x = Some n /\ is_open n = true /\ parent n <> None.

(** What the assignments to [last_line_blank] and [add_line] keep of the
    cursor. *)
Record same_cursor (s s' : Parser) : Prop := {
  sc_current_line : current_line s' = current_line s;
  sc_offset : offset s' = offset s
}.

(** The state in which the text is placed, once the unmatched blocks are
    closed. *)
Record placing (L : Z) (s : Parser) (c : option nat) : Prop := {
  pg_wf : wf s;
  pg_attached : tip_attached s;
  pg_open : open_on_spine s (tip s);
  pg_content : fenced_content true s;
  pg_line : line_number s = L /\ (1 <= L)%Z;
  pg_tip : (tip_ready s /\ fenced_content false s) \/
           (c = tip s /\ exists x n,
              tip s = Some x /\ heap s !! x = Some n /\
              (accepts_lines (t n) = true \/ length (current_line s) <= offset s))
}.

(** The state when every block of the tree is closed. *)
Record finished (s : Parser) : Prop := {
  fin_wf : wf s;
  fin_closed : forall i n, heap s !! i = Some n -> parent n <> None -> is_open n = false;
  fin_doc : exists dn, heap s !! doc s = Some dn /\ is_open dn = false
}.

(** *** The inline pass *)

(** The store after the inline pass: the blocks as they were, but for
    their inline children. *)
Definition inlined (h h' : list Node) : Prop :=
  length h' = length h /\
  forall i n, h !! i = Some n -> exists v, h' !! i = Some (set_inlines v n).

(** *** What the tree builder leaves of the cursor *)

(** The line and the cursor of the parser, which only the line scanner
    assigns, and the document. *)
Record cursor_kept (s s' : Parser) : Prop := {
  ck_doc : doc s' = doc s;
  ck_current_line : current_line s' = current_line s;
  ck_line_number : line_number s' = line_number s;
  ck_offset : offset s' = offset s;
  ck_column : column s' = column s;
  ck_next_nonspace : next_nonspace s' = next_nonspace s;
  ck_next_nonspace_column : next_nonspace_column s' = next_nonspace_column s;
  ck_indent : indent s' = indent s;
  ck_indented : indented s' = indented s;
  ck_blank : blank s' = blank s;
  ck_last_line_length : last_line_length s' = last_line_length s
}.

(** What a block start does, by its return value, when it opens blocks of
    kind [k]: with 0 the parser is as it was; with 1, for a container, or
    2, for a leaf, the tip is a new open block of that kind. *)
Definition start_opens (m : Parser -> option nat -> result (Parser * Z)) (k : Kind)
  : Prop :=
  forall (s s' : Parser) (c : option nat) (rv : Z),
    m s c = Ok (s', rv) ->
    (rv = 0%Z /\ s' = s) \/
    (rv = (if is_container k then 1%Z else 2%Z) /\
     exists b nb, tip s' = Some b /\ length (heap s) <= b /\
                  heap s' !! b = Some nb /\ t nb = k /\ is_open nb = true /\
                  children nb = [] /\ parent nb <> None).

(** *** Which block is a child of which *)

(** Any exception but the one for a missing key of the list data. *)
Definition not_key (e : exn) : Prop := e <> KeyError.

(** The list data of a list item holds the two entries that
    [Item.continue_] reads. *)
Definition item_data (n : Node) : Prop :=
  t n = Item -> marker_offset (list_data n) <> None /\ padding (list_data n) <> None.

(** Every block with a parent is a child of a block that can contain its
    kind, and every list item but [o], the one that is being built, holds
    its list data. *)
Record family (o : option nat) (h : list Node) : Prop := {
  fam_edge : forall i n p,
    h !! i = Some n -> parent n = Some p ->
    exists pn, h !! p = Some pn /\ can_contain (t pn) (t n) = true;
  fam_item : forall i n, h !! i = Some n -> Some i <> o -> item_data n
}.

(** What a block keeps when blocks are closed and fields other than the
    kind and the parent are assigned: it may lose its parent. *)
Record kin (n n' : Node) : Prop := {
  kin_t : t n' = t n;
  kin_parent : parent n' = parent n \/ parent n' = None;
  kin_marker_offset : marker_offset (list_data n') = marker_offset (list_data n);
  kin_padding : padding (list_data n') = padding (list_data n)
}.

(** Two stores with the same blocks, up to [kin]. *)
Definition heap_kin (h h' : list Node) : Prop :=
  length h' = length h /\
  forall i n', h' !! i = Some n' -> exists n, h !! i = Some n /\ kin n n'.

(** What a block start keeps. *)
Definition start_family (m : Parser -> option nat -> result (Parser * Z)) : Prop :=
  forall s c, family None (heap s) ->
              wp not_key (m s c) (fun r => family None (heap (fst r))).

(** *** Documents without blocks *)

(** A line of spaces and tabs. *)
Definition blank_text (ln : str) : Prop :=
  forall c, c ∈ ln -> c = sp \/ c = tab.

(** The tip is the document, which has no child. *)
Definition empty_document (s : Parser) : Prop :=
  tip s = Some (doc s) /\
  exists dn, heap s !! doc s = Some dn /\ t dn = Document /\ children dn = [] /\
             parent dn = None.

(** *** Breaking out of lists *)





(** *** Documents of plain text *)







End Blocks.

(** ** A sample instance of the collaborators

    Used to evaluate the parser on concrete inputs: no link reference
    definition and no HTML tag of type 7 is recognised, strings are
    unescaped to themselves and the inline children carry no data. *)
Definition sample_externals : Externals :=
  {| InlineNodes := unit;
     parseReference := fun _ rm => (0, rm);
     unescape_string := fun x => x;
     reHtmlBlockOpen7 := fun _ => false;
     inline_children := fun _ _ => tt |}.

(** The state in which [incorporate_line] calls [Item.continue_] on the
    second line of the input ["-\n  "]: the first line has opened a list
    with an empty item, and the second line holds two spaces. *)
Definition blank_line_in_empty_item : result (@Parser sample_externals) :=
  let* s1 := incorporate_line (parse_start init) (pystr "-") in
  Ok (find_next_nonspace (find_next_nonspace (start_line s1 (pystr "  ")))).

(** The parser state after the given lines of a document have been
    incorporated. *)
Definition state_after (lines : list string) : result (@Parser sample_externals) :=
  incorporate_each (map pystr lines) (parse_start init).

Definition state_of (r : result (@Parser sample_externals)) : @Parser sample_externals :=
  match r with
  | Ok s => s
  | Err _ => init
  end.

(** The state in which [incorporate_line] calls [CodeBlock.continue_] on
    the third line of a document with the lines [```], [x], [```]. *)
Definition at_closing_fence : @Parser sample_externals :=
  Eval vm_compute in
    find_next_nonspace (start_line (state_of (state_after ["```"; "x"])) (pystr "```")).

(** The state in which [incorporate_line] calls [close_unmatched_blocks]
    on the empty second line of a document that starts with the line
    [> a]: the block quote and its paragraph are not matched. *)
Definition at_unmatched_quote : @Parser sample_externals :=
  Eval vm_compute in
    let s2 := start_line (state_of (state_after ["> a"])) [] in
    match continue_loop Block_continue_ (length (heap s2)) 0 s2 (doc s2) with
    | Ok (s3, Some container) =>
        let s4 := set_last_matched_container container
                    (set_all_closed (bool_decide (container = oldtip s3)) s3) in
        match block_starts_loop 1 s4 container with
        | Ok (s5, _) => s5
        | Err _ => init
        end
    | _ => init
    end.

(** The state after the lines [<div>] and [hi]: an open HTML block. *)
Definition in_html_block : @Parser sample_externals :=
  Eval vm_compute in state_of (state_after ["<div>"; "hi"]).

(** The state at the start of a second line [b], after the line [a] has
    opened a paragraph. *)
Definition at_second_line : @Parser sample_externals :=
  Eval vm_compute in start_line (state_of (state_after ["a"])) (pystr "b").


(** The state in which the cursor is looked ahead from on the first line,
    two spaces, a tab and [a], of a document. *)
Definition at_indented_text : @Parser sample_externals :=
  Eval vm_compute in start_line (parse_start init) (pystr "  " ++ [tab] ++ pystr "a").

(** The state in which the block starts are tried on the first line of a
    document, for the given line. *)
Definition at_first_line (ln : string) : @Parser sample_externals :=
  find_next_nonspace (start_line (parse_start init) (pystr ln)).

(** The state in which the block starts are tried on the second line
    [===] of a document whose first line is [a]: the paragraph is the
    tip. *)
Definition at_underline : @Parser sample_externals :=
  Eval vm_compute in
    set_all_closed true
      (find_next_nonspace (start_line (state_of (state_after ["a"])) (pystr "==="))).

(** The state in which [BlockQuote.continue_] is called on the second
    line [> b] of a document whose first line is [> a]. *)
Definition at_quote_continuation : @Parser sample_externals :=
  Eval vm_compute in
    find_next_nonspace (start_line (state_of (state_after ["> a"])) (pystr "> b")).

(** The state after the lines [- a] and [- b]: a list of two items. *)
Definition in_tight_list : @Parser sample_externals :=
  Eval vm_compute in state_of (state_after ["- a"; "- b"]).

(** The state after the line [a]: an open paragraph. *)
Definition in_paragraph : @Parser sample_externals :=
  Eval vm_compute in state_of (state_after ["a"]).

(** * Properties *)

Section Properties.

Context {E : Externals}.

(** ** [Item.continue_] *)

(** C1 (as amended): [Item.continue_] on an item whose list data holds
    [marker_offset] and [padding].  If the line is blank and the item has
    children, the cursor moves to [next_nonspace] and the result is 0.
    Otherwise, blank or not, the indent decides: with
    [indent >= marker_offset + padding] the cursor advances by that many
    columns and the result is 0, and with a smaller indent the state is
    left as it is and the result is 1.  A blank line fails to continue a
    childless item exactly when its indent is below
    [marker_offset + padding]. *)
Theorem Item_continue_cases (s : Parser) (container : nat) (c : Node) (mo pd : nat) :
  get_node s container = Ok c ->
  marker_offset (list_data c) = Some mo ->
  padding (list_data c) = Some pd ->
  (blank s = true -> last_child c <> None ->
     Item_continue_ s container = Ok (advance_next_nonspace s, 0%Z)) /\
  ((blank s = false \/ last_child c = None) -> mo + pd <= indent s ->
     Item_continue_ s container = Ok (advance_offset (Z.of_nat (mo + pd)) true s, 0%Z)) /\
  ((blank s = false \/ last_child c = None) -> indent s < mo + pd ->
     Item_continue_ s container = Ok (s, 1%Z)) /\
  (blank s = true -> last_child c = None ->
     ((exists s', Item_continue_ s container = Ok (s', 1%Z)) <-> indent s < mo + pd)).
Proof.
  intros Hc Hmo Hpd. unfold Item_continue_. rewrite Hc. cbn [bind].
  rewrite Hmo, Hpd. cbn [of_option bind].
  split; [|split; [|split]].
  - intros Hb Hl. rewrite Hb. destruct (last_child c); [reflexivity | congruence].
  - intros Hno Hle.
    assert (blank s && negb (is_none (last_child c)) = false) as ->.
    { destruct Hno as [-> | ->]; [reflexivity | apply andb_false_r]. }
    apply Nat.leb_le in Hle. rewrite Hle. reflexivity.
  - intros Hno Hlt.
    assert (blank s && negb (is_none (last_child c)) = false) as ->.
    { destruct Hno as [-> | ->]; [reflexivity | apply andb_false_r]. }
    apply Nat.leb_gt in Hlt. rewrite Hlt. reflexivity.
  - intros Hb Hl. rewrite Hb, Hl. cbn. destruct (mo + pd <=? indent s) eqn:Hle.
    + apply Nat.leb_le in Hle. split; [intros [s' Hs']; discriminate | lia].
    + apply Nat.leb_gt in Hle. split; [intros _; exact Hle | eauto].
Qed.

(** ** [HtmlBlock.finalize] *)

(** The substitution that trims trailing blank lines cuts the string at
    the leftmost position from which the rest is a blank run: the string
    is [lit ++ run], where [run] is empty or a blank run, no earlier
    position starts a blank run, and [run] is replaced by [repl]. *)
Lemma sub_trailing_blank_lines_cut (repl s : str) :
  exists lit run : str,
    s = lit ++ run /\
    sub_trailing_blank_lines repl s = (if null run then lit else lit ++ repl) /\
    (run = [] \/ blank_run run = true) /\
    (forall p q : str, lit = p ++ q -> q <> [] -> blank_run (q ++ run) = false).
Proof.
  induction s as [|c r IH].
  - exists [], []. cbn. repeat split; auto.
    intros p q Hpq Hq. destruct p, q; cbn in *; congruence.
  - destruct (blank_run (c :: r)) eqn:Hb.
    + exists [], (c :: r). cbn [sub_trailing_blank_lines null app]. rewrite Hb.
      repeat split; auto.
      intros p q Hpq Hq. destruct p, q; cbn in *; congruence.
    + destruct IH as (lit & run & Hs & Hsub & Hrun & Hleft).
      exists (c :: lit), run. cbn [sub_trailing_blank_lines]. rewrite Hb.
      split; [cbn; congruence|]. split.
      { rewrite Hsub. destruct (null run); reflexivity. }
      split; [exact Hrun|].
      intros p q Hpq Hq. destruct p as [|c' p'].
      * cbn in Hpq. subst q. cbn [app]. rewrite <- Hs. exact Hb.
      * cbn in Hpq. injection Hpq as -> Hlit. eapply Hleft; eauto.
Qed.

(** C9: [HtmlBlock.finalize] on a block that holds string content.  The
    block's [literal] becomes the content without its trailing blank
    lines, that is the content cut at the leftmost position from which the
    rest is a run of newlines each followed by spaces, and
    [string_content] becomes [None]; nothing else changes.  The exception:
    when the content is ["<div>\n"] and the source position is
    [[1,3],[1,7]], the literal is ["\n<div>"]. *)
Theorem HtmlBlock_finalize_literal (s : Parser) (block : nat) (n : Node) (content : str) :
  get_node s block = Ok n ->
  string_content n = Some content ->
  exists lit run : str,
    HtmlBlock_finalize s block =
      Ok (upd_node block
            (fun x => set_string_content None (set_literal (Some lit) x)) s) /\
    get_node (upd_node block
                (fun x => set_string_content None (set_literal (Some lit) x)) s) block
      = Ok (set_string_content None (set_literal (Some lit) n)) /\
    ((content = pystr "<div>" ++ [nl] /\ sourcepos n = ((1, 3), (1, 7))%Z ->
        lit = nl :: pystr "<div>") /\
     (~ (content = pystr "<div>" ++ [nl] /\ sourcepos n = ((1, 3), (1, 7))%Z) ->
        content = lit ++ run /\
        (run = [] \/ blank_run run = true) /\
        (forall p q : str, lit = p ++ q -> q <> [] -> blank_run (q ++ run) = false))).
Proof.
  intros Hn Hsc. unfold HtmlBlock_finalize. rewrite Hn. cbn [bind].
  assert (Hget : forall f, get_node (upd_node block f s) block = Ok (f n)).
  { intros f. unfold get_node, upd_node in *. cbn.
    destruct (heap s !! block) as [n0|] eqn:Hl; [|discriminate Hn].
    injection Hn as ->. rewrite list_lookup_alter_eq, Hl. reflexivity. }
  rewrite Hsc.
  destruct (bool_decide (Some content = Some (pystr "<div>" ++ [nl])) &&
            bool_decide (sourcepos n = ((1, 3), (1, 7))%Z)) eqn:Hsp.
  - apply andb_prop in Hsp as [H1 H2].
    apply bool_decide_eq_true in H1. apply bool_decide_eq_true in H2.
    exists (nl :: pystr "<div>"), []. cbn [of_option bind].
    split; [reflexivity|]. split; [apply Hget|]. split; [auto|].
    intros Hnot. exfalso. apply Hnot. split; congruence.
  - destruct (sub_trailing_blank_lines_cut [] content)
      as (lit & run & Hs & Hsub & Hrun & Hleft).
    assert (Hlit : sub_trailing_blank_lines [] content = lit).
    { rewrite Hsub. destruct (null run); [reflexivity | apply app_nil_r]. }
    exists lit, run. cbn [of_option bind]. rewrite Hlit.
    split; [reflexivity|]. split; [apply Hget|]. split.
    + intros [H1 H2]. exfalso.
      apply andb_false_iff in Hsp as [Hf|Hf]; apply bool_decide_eq_false in Hf;
        apply Hf; [rewrite H1; reflexivity | exact H2].
    + intros _. auto.
Qed.

(** ** Runs of characters *)

Lemma run_len_app_all (p : ascii -> bool) (l r : str) :
  forallb p l = true -> run_len p (l ++ r) = length l + run_len p r.
Proof.
  induction l as [|c l IH]; cbn; [reflexivity|].
  intros H. apply andb_prop in H as [Hc Hl]. rewrite Hc, IH by exact Hl. reflexivity.
Qed.

Lemma run_len_stop (p : ascii -> bool) (c : ascii) (r : str) :
  p c = false -> run_len p (c :: r) = 0.
Proof. intros H. cbn. rewrite H. reflexivity. Qed.

Lemma run_len_le (p : ascii -> bool) (s : str) : run_len p s <= length s.
Proof. induction s as [|c r IH]; cbn; [lia|]. destruct (p c); cbn; lia. Qed.

Lemma forallb_replicate (p : ascii -> bool) (k : nat) (c : ascii) :
  p c = true -> forallb p (replicate k c) = true.
Proof. intros H. induction k; cbn; [reflexivity|]. rewrite H, IHk. reflexivity. Qed.

(** The run of one character at the head of a string is that many copies
    of the character, and the character after the run is another one. *)
Lemma run_len_eqb_split (c : ascii) (s : str) :
  s = replicate (run_len (Ascii.eqb c) s) c ++ drop (run_len (Ascii.eqb c) s) s /\
  head (drop (run_len (Ascii.eqb c) s) s) <> Some c.
Proof.
  induction s as [|x r [IH1 IH2]]; cbn.
  - split; [reflexivity | discriminate].
  - destruct (Ascii.eqb c x) eqn:Hx.
    + apply Ascii.eqb_eq in Hx. subst x. cbn. split; [f_equal; exact IH1 | exact IH2].
    + cbn. split; [reflexivity|]. intros [= ->]. rewrite Ascii.eqb_refl in Hx. discriminate.
Qed.

Lemma run_len_replicate_then (c : ascii) (k : nat) (r : str) :
  head r <> Some c -> run_len (Ascii.eqb c) (replicate k c ++ r) = k.
Proof.
  intros H. rewrite run_len_app_all by (apply forallb_replicate, Ascii.eqb_refl).
  rewrite length_replicate. destruct r as [|x r]; cbn; [lia|].
  destruct (Ascii.eqb c x) eqn:Hx; [|lia].
  apply Ascii.eqb_eq in Hx. subst x. cbn in H. congruence.
Qed.

Lemma at_dollar_iff (s : str) : at_dollar s = true <-> s = [] \/ s = [nl].
Proof.
  destruct s as [|c [|c' r]]; cbn.
  - split; auto.
  - split.
    + intros H. apply Ascii.eqb_eq in H. subst. auto.
    + intros [H|H]; [discriminate|]. injection H as ->. reflexivity.
  - split; [discriminate|]. intros [H|H]; discriminate.
Qed.

Lemma spaces_to_eol_iff (r : str) :
  spaces_to_eol r = true <->
  exists (m : nat) (tail : str), r = replicate m sp ++ tail /\ (tail = [] \/ tail = [nl]).
Proof.
  unfold spaces_to_eol. split.
  - intros H. apply at_dollar_iff in H.
    exists (run_len (Ascii.eqb sp) r), (drop (run_len (Ascii.eqb sp) r) r).
    split; [apply run_len_eqb_split | exact H].
  - intros (m & tail & -> & Ht).
    rewrite run_len_replicate_then.
    + rewrite drop_app_length' by (by rewrite length_replicate). by apply at_dollar_iff.
    + destruct Ht as [-> | ->]; cbn; discriminate.
Qed.

(** What [reClosingCodeFence] matches, for a given fence character. *)
Lemma reClosingCodeFence_iff (fc : ascii) (k : nat) (rest : str) :
  is_fence_char fc = true ->
  (3 <= k /\ closing_fence_line fc k rest) <->
  (head rest = Some fc /\ reClosingCodeFence rest = Some k).
Proof.
  intros Hfc.
  assert (Hsp : fc <> sp) by (intros ->; discriminate Hfc).
  assert (Hnl : fc <> nl) by (intros ->; discriminate Hfc).
  split.
  - intros (Hk & m & tail & -> & Ht).
    assert (Hrun : run_len (Ascii.eqb fc) (replicate k fc ++ replicate m sp ++ tail) = k).
    { apply run_len_replicate_then. destruct m; cbn.
      - destruct Ht as [-> | ->]; cbn; congruence.
      - congruence. }
    destruct k as [|k']; [lia|]. split; [reflexivity|].
    unfold reClosingCodeFence. cbn [replicate app]. rewrite Hfc.
    cbn [replicate app] in Hrun. rewrite Hrun.
    assert (Hd : drop (S k') (fc :: replicate k' fc ++ replicate m sp ++ tail)
                 = replicate m sp ++ tail).
    { change (fc :: replicate k' fc ++ replicate m sp ++ tail)
        with (replicate (S k') fc ++ replicate m sp ++ tail).
      apply drop_app_length'. by rewrite length_replicate. }
    rewrite Hd.
    assert (spaces_to_eol (replicate m sp ++ tail) = true) as ->.
    { apply spaces_to_eol_iff. eauto. }
    assert ((3 <=? S k') = true) as -> by (apply Nat.leb_le; lia). reflexivity.
  - intros [Hh Hre]. destruct rest as [|c r]; [discriminate|].
    cbn in Hh. injection Hh as ->. unfold reClosingCodeFence in Hre. rewrite Hfc in Hre.
    destruct (3 <=? run_len (Ascii.eqb fc) (fc :: r)) eqn:H3; [|discriminate].
    destruct (spaces_to_eol (drop (run_len (Ascii.eqb fc) (fc :: r)) (fc :: r))) eqn:Hs;
      [|discriminate].
    cbn [andb] in Hre. injection Hre as <-. apply Nat.leb_le in H3. split; [exact H3|].
    apply spaces_to_eol_iff in Hs as (m & tail & Hd & Ht).
    exists m, tail. split; [|exact Ht]. rewrite <- Hd.
    exact (proj1 (run_len_eqb_split fc (fc :: r))).
Qed.

Lemma peek_is_true (ln : str) (pos : nat) (c : ascii) :
  peek_is ln pos c = true <-> ln !! pos = Some c.
Proof.
  unfold peek_is, peek. destruct (ln !! pos) as [x|]; [|split; discriminate].
  split.
  - intros H. apply Ascii.eqb_eq in H. congruence.
  - intros [= ->]. apply Ascii.eqb_refl.
Qed.

Lemma head_drop_lookup (ln : str) (n : nat) : head (drop n ln) = ln !! n.
Proof. rewrite head_lookup, lookup_drop. f_equal. lia. Qed.

(** One position consumed by [advance_offset(1, False)] at a space. *)
Lemma advance_offset_1_space (s : Parser) (columns : bool) :
  current_line s !! offset s = Some sp ->
  advance_offset 1 columns s = set_column (S (column s)) (set_offset (S (offset s)) s).
Proof.
  intros H. unfold advance_offset.
  rewrite (drop_S _ _ _ H). cbn.
  destruct (drop (S (offset s)) (current_line s)); reflexivity.
Qed.

(** The loop that skips the spaces of the fence offset moves the cursor
    over [j] spaces, where [j] is at most [i] and is [i] unless the
    character after them is not a space. *)
Lemma skip_fence_offset_spaces (i : nat) (s : Parser) :
  exists j : nat,
    j <= i /\
    (forall q, q < j -> current_line s !! (offset s + q) = Some sp) /\
    (j = i \/ current_line s !! (offset s + j) <> Some sp) /\
    skip_fence_offset i s = set_column (column s + j) (set_offset (offset s + j) s).
Proof.
  revert s. induction i as [|i IH]; intros s.
  - exists 0. split; [lia|]. split; [intros q Hq; lia|]. split; [left; reflexivity|].
    destruct s. cbn. by rewrite !Nat.add_0_r.
  - cbn [skip_fence_offset].
    destruct (peek_is (current_line s) (offset s) sp) eqn:Hp.
    + apply peek_is_true in Hp. rewrite (advance_offset_1_space s false Hp).
      destruct (IH (set_column (S (column s)) (set_offset (S (offset s)) s)))
        as (j & Hj & Hall & Hstop & Heq).
      exists (S j). split; [lia|]. split; [|split].
      * intros q Hq. destruct q as [|q]; [by rewrite Nat.add_0_r|].
        specialize (Hall q ltac:(lia)). destruct s; cbn in *.
        by replace (offset0 + S q) with (S (offset0 + q)) by lia.
      * destruct Hstop as [->|Hstop]; [left; reflexivity|right].
        destruct s; cbn in *. by replace (offset0 + S j) with (S (offset0 + j)) by lia.
      * rewrite Heq. destruct s; cbn.
        by replace (offset0 + S j) with (S (offset0 + j)) by lia;
           replace (column0 + S j) with (S (column0 + j)) by lia.
    + exists 0. split; [lia|]. split; [intros q Hq; lia|]. split.
      * right. rewrite Nat.add_0_r. intros H. apply peek_is_true in H. congruence.
      * destruct s. cbn. by rewrite !Nat.add_0_r.
Qed.

(** The closing fence test of [CodeBlock.continue_] succeeds with length
    [k] exactly on a closing fence line of [k >= 3] fence characters that
    is indented by at most 3. *)
Lemma closing_fence_match_iff (s : Parser) (c : Node) (fc : ascii) (k : nat) :
  fence_char c = Some fc -> is_fence_char fc = true ->
  closing_fence_match s c = Some k <->
  (indent s <= 3 /\ 3 <= k /\ closing_fence_line fc k (rest_of_line s)).
Proof.
  intros Hfc Hf. unfold closing_fence_match, rest_of_line. rewrite Hfc. split.
  - destruct (indent s <=? 3) eqn:Hi; [|discriminate].
    destruct (next_nonspace s + 1 <=? length (current_line s)); [|discriminate].
    cbn [andb]. case_bool_decide as Hc; [|discriminate].
    intros Hre. apply Nat.leb_le in Hi. split; [exact Hi|].
    apply (reClosingCodeFence_iff fc k _ Hf). split; [|exact Hre].
    by rewrite head_drop_lookup.
  - intros (Hi & Hk & Hline).
    destruct (proj1 (reClosingCodeFence_iff fc k _ Hf) (conj Hk Hline)) as [Hh Hre].
    rewrite head_drop_lookup in Hh.
    apply Nat.leb_le in Hi. rewrite Hi.
    assert (next_nonspace s < length (current_line s)) as Hlt
      by (eapply lookup_lt_Some; exact Hh).
    assert ((next_nonspace s + 1 <=? length (current_line s)) = true) as ->
      by (apply Nat.leb_le; lia).
    cbn [andb]. rewrite bool_decide_eq_true_2 by exact Hh. exact Hre.
Qed.

(** ** [CodeBlock.continue_] on a fenced code block *)

(** C4: [CodeBlock.continue_] on a fenced code block (a fence character
    that is a backtick or a tilde, a fence length of at least 3).  If the
    indent is at most 3 and the line at [next_nonspace] is a run of at
    least [fence_length] fence characters followed by only spaces to the
    end of the line, the block is finalized at the current line and the
    result is 2.  In every other case the result is 0 and the cursor has
    moved over [j] spaces, with [j] at most [fence_offset].  The result is
    never 1. *)
Theorem CodeBlock_continue_fenced (s : Parser) (container : nat) (c : Node) (fc : ascii) :
  get_node s container = Ok c ->
  is_fenced c = true ->
  fence_char c = Some fc ->
  is_fence_char fc = true ->
  3 <= fence_length c ->
  ((indent s <= 3 /\
    exists k, fence_length c <= k /\ closing_fence_line fc k (rest_of_line s)) ->
     CodeBlock_continue_ s container =
       (let* s1 := finalize s container (line_number s) in Ok (s1, 2%Z))) /\
  (~ (indent s <= 3 /\
      exists k, fence_length c <= k /\ closing_fence_line fc k (rest_of_line s)) ->
     exists j : nat,
       j <= fence_offset c /\
       (forall q, q < j -> current_line s !! (offset s + q) = Some sp) /\
       (j = fence_offset c \/ current_line s !! (offset s + j) <> Some sp) /\
       CodeBlock_continue_ s container =
         Ok (set_column (column s + j) (set_offset (offset s + j) s), 0%Z)) /\
  (forall (s' : Parser) (rv : Z),
     CodeBlock_continue_ s container = Ok (s', rv) -> rv <> 1%Z).
Proof.
  intros Hc Hfen Hfc Hf H3. unfold CodeBlock_continue_. rewrite Hc. cbn [bind].
  rewrite Hfen. split; [|split].
  - intros (Hi & k & Hk & Hline).
    assert (closing_fence_match s c = Some k) as ->.
    { apply (closing_fence_match_iff s c fc k Hfc Hf). repeat split; [lia..|exact Hline]. }
    apply Nat.leb_le in Hk. rewrite Hk. reflexivity.
  - intros Hnot.
    destruct (skip_fence_offset_spaces (fence_offset c) s) as (j & Hj & Hall & Hstop & Heq).
    exists j. split; [exact Hj|]. split; [exact Hall|]. split; [exact Hstop|].
    destruct (closing_fence_match s c) as [k|] eqn:Hm; [|by rewrite Heq].
    destruct (fence_length c <=? k) eqn:Hk; [|by rewrite Heq].
    exfalso. apply Hnot. apply Nat.leb_le in Hk.
    apply (closing_fence_match_iff s c fc k Hfc Hf) in Hm as (Hi & _ & Hline).
    split; [exact Hi|]. exists k. split; [exact Hk | exact Hline].
  - intros s' rv.
    destruct (closing_fence_match s c) as [k|]; [|intros [= <- <-]; discriminate].
    destruct (fence_length c <=? k); [|intros [= <- <-]; discriminate].
    destruct (finalize s container (line_number s)); cbn [bind];
      [intros [= <- <-]; discriminate | discriminate].
Qed.

(** ** Frame properties of [finalize] *)

Lemma bind_Ok {A B : Type} (r : result A) (f : A -> result B) (b : B) :
  bind r f = Ok b -> exists a, r = Ok a /\ f a = Ok b.
Proof. destruct r as [a|e]; cbn; [eauto | discriminate]. Qed.

Lemma of_option_Ok {A : Type} (e : exn) (o : option A) (a : A) :
  of_option e o = Ok a -> o = Some a.
Proof. destruct o; cbn; congruence. Qed.

Lemma lookup_alter_parent (f : Node -> Node) (i j : nat) (h : list Node) :
  (i = j -> forall x, parent (f x) = parent x) ->
  parent <$> (alter f i h !! j) = parent <$> (h !! j).
Proof.
  intros Hf. destruct (decide (i = j)) as [->|Hne].
  - rewrite list_lookup_alter_eq. destruct (h !! j); cbn; [|reflexivity].
    by rewrite Hf.
  - by rewrite list_lookup_alter_ne.
Qed.

Lemma unlink_parent_other (b j : nat) (h : list Node) :
  j <> b -> parent <$> (unlink b h !! j) = parent <$> (h !! j).
Proof.
  intros Hne. unfold unlink. destruct (h !! b) as [n|]; [|reflexivity].
  destruct (parent n) as [p|]; [|reflexivity].
  rewrite lookup_alter_parent by congruence.
  apply lookup_alter_parent. reflexivity.
Qed.

Lemma unlink_length (b : nat) (h : list Node) : length (unlink b h) = length h.
Proof.
  unfold unlink. destruct (h !! b) as [n|]; [|reflexivity].
  destruct (parent n); [|reflexivity]. by rewrite !length_alter.
Qed.

(** [finalize] leaves the parent references of the other blocks, the size
    of the store and the line bookkeeping of the parser as they are. *)
Lemma finalize_frame (s s' : Parser) (b : nat) (line : Z) :
  finalize s b line = Ok s' ->
  length (heap s') = length (heap s) /\
  (forall j, j <> b -> parent <$> (heap s' !! j) = parent <$> (heap s !! j)) /\
  line_number s' = line_number s /\
  last_line_length s' = last_line_length s /\
  oldtip s' = oldtip s /\
  last_matched_container s' = last_matched_container s /\
  all_closed s' = all_closed s.
Proof.
  unfold finalize. intros H.
  apply bind_Ok in H as (n & Hn & H).
  apply bind_Ok in H as (s2 & Hfin & H). injection H as <-.
  set (s1 := upd_node b _ s) in Hfin.
  assert (H1 : length (heap s1) = length (heap s) /\
               (forall j, j <> b -> parent <$> (heap s1 !! j) = parent <$> (heap s !! j))).
  { subst s1. cbn. split; [apply length_alter|].
    intros j Hj. by rewrite list_lookup_alter_ne. }
  destruct H1 as [Hlen1 Hpar1].
  assert (Hgoal : length (heap s2) = length (heap s1) /\
            (forall j, j <> b -> parent <$> (heap s2 !! j) = parent <$> (heap s1 !! j)) /\
            line_number s2 = line_number s1 /\
            last_line_length s2 = last_line_length s1 /\
            oldtip s2 = oldtip s1 /\
            last_matched_container s2 = last_matched_container s1 /\
            all_closed s2 = all_closed s1).
  { clear Hlen1 Hpar1 Hn. revert Hfin. generalize s1. clear s1. intros s1.
    destruct (t n); cbn [Block_finalize]; try (intros [= <-]; repeat split; reflexivity).
    - (* List *)
      unfold List_finalize. intros H.
      apply bind_Ok in H as (n1 & _ & H). apply bind_Ok in H as (loose & _ & H).
      destruct loose; injection H as <-; cbn; [|repeat split; reflexivity].
      repeat split; try reflexivity; [apply length_alter|].
      intros j Hj. by rewrite list_lookup_alter_ne.
    - (* CodeBlock *)
      unfold CodeBlock_finalize. intros H.
      apply bind_Ok in H as (n1 & _ & H).
      destruct (is_fenced n1).
      + apply bind_Ok in H as (content & _ & H). apply bind_Ok in H as (pos & _ & H).
        injection H as <-. cbn. repeat split; try reflexivity; [apply length_alter|].
        intros j Hj. by rewrite list_lookup_alter_ne.
      + apply bind_Ok in H as (content & _ & H).
        injection H as <-. cbn. repeat split; try reflexivity; [apply length_alter|].
        intros j Hj. by rewrite list_lookup_alter_ne.
    - (* HtmlBlock *)
      unfold HtmlBlock_finalize. intros H.
      apply bind_Ok in H as (n1 & _ & H). apply bind_Ok in H as (content & _ & H).
      injection H as <-. cbn. repeat split; try reflexivity; [apply length_alter|].
      intros j Hj. by rewrite list_lookup_alter_ne.
    - (* Paragraph *)
      unfold Paragraph_finalize. intros H.
      apply bind_Ok in H as (n1 & _ & H). apply bind_Ok in H as (content & _ & H).
      apply bind_Ok in H as ([[content' rm] has] & _ & H).
      destruct (has && is_blank content'); injection H as <-; cbn.
      + repeat split; try reflexivity.
        * by rewrite unlink_length, length_alter.
        * intros j Hj. rewrite unlink_parent_other by exact Hj.
          by rewrite list_lookup_alter_ne.
      + repeat split; try reflexivity; [apply length_alter|].
        intros j Hj. by rewrite list_lookup_alter_ne. }
  destruct Hgoal as (Hlen2 & Hpar2 & Hrest). cbn.
  split; [congruence|]. split.
  - intros j Hj. rewrite Hpar2, Hpar1 by exact Hj. reflexivity.
  - subst s1. cbn in Hrest. exact Hrest.
Qed.

(** [finalize] does not read [oldtip]. *)
Lemma finalize_set_oldtip (p : option nat) (s : Parser) (b : nat) (line : Z) :
  finalize (set_oldtip p s) b line =
  (let* s1 := finalize s b line in Ok (set_oldtip p s1)).
Proof.
  unfold finalize, get_node. cbn.
  destruct (heap s !! b) as [n|]; cbn; [|reflexivity].
  destruct (t n); cbn; try reflexivity.
  - unfold List_finalize, get_node. cbn.
    destruct (alter _ b (heap s) !! b) as [n1|]; cbn; [|reflexivity].
    destruct (List_finalize_items _ _ _) as [[|]|]; reflexivity.
  - unfold CodeBlock_finalize, get_node. cbn.
    destruct (alter _ b (heap s) !! b) as [n1|]; cbn; [|reflexivity].
    destruct (is_fenced n1).
    + destruct (string_content n1); cbn; [|reflexivity].
      destruct (index_of nl _); reflexivity.
    + destruct (string_content n1); reflexivity.
  - unfold HtmlBlock_finalize, get_node. cbn.
    destruct (alter _ b (heap s) !! b) as [n1|]; cbn; [|reflexivity].
    destruct (if _ : bool then _ else _); reflexivity.
  - unfold Paragraph_finalize, get_node. cbn -[Paragraph_finalize_refs].
    destruct (alter _ b (heap s) !! b) as [n1|]; cbn -[Paragraph_finalize_refs];
      [|reflexivity].
    destruct (string_content n1) as [content|]; cbn -[Paragraph_finalize_refs];
      [|reflexivity].
    destruct (Paragraph_finalize_refs (S (length content)) content (refmap s) false)
      as [[[c' rm] has]|]; cbn; [|reflexivity].
    destruct (has && is_blank c'); reflexivity.
Qed.

Lemma finalize_each_set_oldtip (p : option nat) (blocks : list nat) (line : Z) (s : Parser) :
  finalize_each blocks line (set_oldtip p s) =
  (let* s1 := finalize_each blocks line s in Ok (set_oldtip p s1)).
Proof.
  revert s. induction blocks as [|b rest IH]; intros s; cbn [finalize_each];
    [reflexivity|].
  rewrite finalize_set_oldtip. destruct (finalize s b line) as [s1|]; cbn [bind];
    [apply IH | reflexivity].
Qed.

(** ** Chains of parent references *)

Lemma chain_up_fuel_mono (f f' : nat) (h : list Node) (x u : option nat) (l : list nat) :
  chain_up f h x u = Some l -> f <= f' -> chain_up f' h x u = Some l.
Proof.
  revert f' x l. induction f as [|f IH]; intros f' x l H Hle.
  - destruct f'; cbn in *; case_bool_decide; congruence.
  - destruct f' as [|f']; [lia|]. cbn in *. case_bool_decide; [exact H|].
    destruct x as [i|]; [|discriminate]. destruct (h !! i) as [n|]; [|discriminate].
    destruct (chain_up f h (parent n) u) as [l'|] eqn:Hl'; [|discriminate].
    rewrite (IH f' _ _ Hl') by lia. exact H.
Qed.

(** Every block of a chain starts a chain of its own, which is the rest
    of the first one. *)
Lemma chain_up_suffix (f : nat) (h : list Node) (x u : option nat) (l pre post : list nat)
    (j : nat) :
  chain_up f h x u = Some l -> l = pre ++ j :: post ->
  chain_up f h (Some j) u = Some (j :: post).
Proof.
  revert x l pre. induction f as [|f IH]; intros x l pre H Hl.
  - cbn in H. case_bool_decide; [|discriminate]. injection H as <-.
    destruct pre; discriminate.
  - cbn in H. case_bool_decide as Hx.
    { injection H as <-. destruct pre; discriminate. }
    destruct x as [i|]; [|discriminate]. destruct (h !! i) as [n|] eqn:Hn; [|discriminate].
    destruct (chain_up f h (parent n) u) as [l'|] eqn:Hl'; [|discriminate].
    cbn in H. injection H as <-. destruct pre as [|a pre].
    + cbn in Hl. injection Hl as <- <-. cbn. rewrite bool_decide_eq_false_2 by exact Hx.
      by rewrite Hn, Hl'.
    + cbn in Hl. injection Hl as <- ->.
      apply (chain_up_fuel_mono f); [|lia]. eapply IH; eauto.
Qed.

(** The first block of a chain does not occur again in it. *)
Lemma chain_up_head_fresh (f : nat) (h : list Node) (x u : option nat) (i : nat)
    (rest : list nat) :
  chain_up f h x u = Some (i :: rest) -> i ∉ rest.
Proof.
  intros H Hin. apply list_elem_of_split in Hin as (pre & post & ->).
  pose proof (chain_up_suffix f h x u _ [] _ i H eq_refl) as H1.
  pose proof (chain_up_suffix f h x u _ (i :: pre) post i H eq_refl) as H2.
  rewrite H1 in H2. injection H2 as H2.
  apply (f_equal length) in H2. rewrite length_app in H2. cbn in H2. lia.
Qed.

(** A chain only depends on the parent references of its own blocks. *)
Lemma chain_up_ext (f : nat) (h h' : list Node) (x u : option nat) (l : list nat) :
  chain_up f h x u = Some l ->
  (forall j, j ∈ l -> parent <$> (h' !! j) = parent <$> (h !! j)) ->
  chain_up f h' x u = Some l.
Proof.
  revert x l. induction f as [|f IH]; intros x l H Hext.
  - cbn in *. case_bool_decide; congruence.
  - cbn in *. case_bool_decide; [exact H|].
    destruct x as [i|]; [|discriminate]. destruct (h !! i) as [n|] eqn:Hn; [|discriminate].
    destruct (chain_up f h (parent n) u) as [l'|] eqn:Hl'; [|discriminate].
    cbn in H. injection H as <-.
    pose proof (Hext i ltac:(left)) as Hi. rewrite Hn in Hi. cbn in Hi.
    destruct (h' !! i) as [n'|]; [|discriminate]. cbn in Hi. injection Hi as ->.
    rewrite (IH _ _ Hl'); [reflexivity|].
    intros j Hj. apply Hext. by right.
Qed.

(** ** [close_unmatched_blocks] *)

Lemma set_oldtip_same (s : Parser) (p : option nat) :
  oldtip s = p -> set_oldtip p s = s.
Proof. intros <-. by destruct s. Qed.

(** The loop of [close_unmatched_blocks] finalizes the chain of blocks from
    [oldtip] up to [last_matched_container], each at [line_number - 1]. *)
Lemma close_unmatched_loop_chain (fuel : nat) (s : Parser) (chain : list nat) :
  chain_up fuel (heap s) (oldtip s) (last_matched_container s) = Some chain ->
  close_unmatched_loop fuel s =
  (let* s1 := finalize_each chain (line_number s - 1) s in
   Ok (set_oldtip (last_matched_container s) s1)).
Proof.
  revert s chain. induction fuel as [|fuel IH]; intros s chain H.
  - cbn in *. case_bool_decide as Ho; [|discriminate]. injection H as <-.
    cbn. by rewrite set_oldtip_same.
  - cbn [chain_up] in H. cbn [close_unmatched_loop]. case_bool_decide as Ho.
    { injection H as <-. cbn. by rewrite set_oldtip_same. }
    destruct (oldtip s) as [i|] eqn:Hot; [|discriminate].
    destruct (heap s !! i) as [n|] eqn:Hn; [|discriminate].
    destruct (chain_up fuel (heap s) (parent n) (last_matched_container s))
      as [rest|] eqn:Hrest; [|discriminate].
    cbn in H. injection H as <-.
    cbn [of_option bind]. unfold get_node. rewrite Hn. cbn [of_option bind finalize_each].
    destruct (finalize s i (line_number s - 1)) as [s1|e] eqn:Hfin; cbn [bind];
      [|reflexivity].
    apply finalize_frame in Hfin as (Hlen & Hpar & Hln & _ & _ & Hlmc & _).
    assert (Hfresh : i ∉ rest).
    { apply (chain_up_head_fresh (S fuel) (heap s) (Some i) (last_matched_container s)).
      cbn. rewrite bool_decide_eq_false_2 by exact Ho.
      by rewrite Hn, Hrest. }
    rewrite (IH (set_oldtip (parent n) s1) rest).
    + cbn. rewrite Hln, Hlmc, finalize_each_set_oldtip.
      destruct (finalize_each rest (line_number s - 1) s1); reflexivity.
    + cbn. rewrite Hlmc. apply (chain_up_ext _ (heap s)); [exact Hrest|].
      intros j Hj. apply Hpar. intros ->. contradiction.
Qed.

(** C6: [close_unmatched_blocks] is idempotent: after a call [all_closed]
    is true, and a second call leaves the parser state as it is.  When
    [all_closed] is false, the call finalizes each block from [oldtip] up
    to, but excluding, [last_matched_container], each at
    [line_number - 1]; [oldtip] then is [last_matched_container]. *)
Theorem close_unmatched_blocks_idempotent :
  (forall s s' : Parser,
     close_unmatched_blocks s = Ok s' ->
     all_closed s' = true /\ close_unmatched_blocks s' = Ok s') /\
  (forall (s : Parser) (chain : list nat),
     all_closed s = false ->
     chain_up (S (length (heap s))) (heap s) (oldtip s) (last_matched_container s)
       = Some chain ->
     close_unmatched_blocks s =
       (let* s1 := finalize_each chain (line_number s - 1) s in
        Ok (set_all_closed true (set_oldtip (last_matched_container s) s1)))).
Proof.
  split.
  - intros s s'. unfold close_unmatched_blocks.
    destruct (all_closed s) eqn:Hc; cbn [negb].
    + intros [= <-]. by rewrite Hc.
    + intros H. apply bind_Ok in H as (s1 & _ & H). injection H as <-. by cbn.
  - intros s chain Hc Hchain. unfold close_unmatched_blocks. rewrite Hc. cbn [negb].
    rewrite (close_unmatched_loop_chain _ _ _ Hchain).
    destruct (finalize_each chain (line_number s - 1) s); reflexivity.
Qed.

(** ** The split into lines *)

Lemma split_lines_acc_cases (cur s : str) :
  (s = [] /\ split_lines_acc cur s = [reverse cur]) \/
  (exists r, s = cr :: nl :: r /\
             split_lines_acc cur s = reverse cur :: split_lines_acc [] r) \/
  (exists r, s = cr :: r /\ head r <> Some nl /\
             split_lines_acc cur s = reverse cur :: split_lines_acc [] r) \/
  (exists r, s = nl :: r /\
             split_lines_acc cur s = reverse cur :: split_lines_acc [] r) \/
  (exists c r, s = c :: r /\ is_terminator c = false /\
               split_lines_acc cur s = split_lines_acc (c :: cur) r).
Proof.
  destruct s as [|c r]; [left; auto|right]. cbn [split_lines_acc].
  destruct (Ascii.eqb c cr) eqn:Hcr.
  - apply Ascii.eqb_eq in Hcr. subst c. destruct r as [|c' r'].
    + right. left. exists []. repeat split. discriminate.
    + destruct (Ascii.eqb c' nl) eqn:Hnl.
      * apply Ascii.eqb_eq in Hnl. subst c'. left. eauto.
      * right. left. exists (c' :: r'). repeat split.
        cbn. intros [= ->]. by rewrite Ascii.eqb_refl in Hnl.
  - right. right. destruct (Ascii.eqb c nl) eqn:Hnl.
    + apply Ascii.eqb_eq in Hnl. subst c. left. eauto.
    + right. exists c, r. repeat split. unfold is_terminator. by rewrite Hcr, Hnl.
Qed.

(** The segments of the split hold no line terminator, their text is the
    text of the input, and the last segment is empty when the input ends
    in a terminator. *)
Lemma split_lines_acc_spec (s cur : str) :
  forallb (fun c => negb (is_terminator c)) cur = true ->
  (forall ln, ln ∈ split_lines_acc cur s ->
     forallb (fun c => negb (is_terminator c)) ln = true) /\
  concat (split_lines_acc cur s) =
    reverse cur ++ List.filter (fun c => negb (is_terminator c)) s /\
  (forall c, last s = Some c -> is_terminator c = true ->
     last (split_lines_acc cur s) = Some []).
Proof.
  remember (length s) as n eqn:Hn. revert s cur Hn.
  induction n as [n IH] using lt_wf_ind. intros s cur Hn Hcur.
  assert (Hrev : forallb (fun c => negb (is_terminator c)) (reverse cur) = true).
  { rewrite forallb_forall in Hcur. apply forallb_forall. intros c Hc.
    apply Hcur. apply list_elem_of_In. apply list_elem_of_In in Hc.
    by rewrite elem_of_reverse in Hc. }
  assert (Hlast : forall (x : ascii) (r : str) (pre : str) (c : ascii),
            (forall c, last r = Some c -> is_terminator c = true ->
                       last (split_lines_acc [] r) = Some []) ->
            last (x :: r) = Some c -> is_terminator c = true -> is_terminator x = true ->
            last (pre :: split_lines_acc [] r) = Some []).
  { intros x r pre c H3 Hc Ht Hx. destruct r as [|y r'].
    - reflexivity.
    - change (last (x :: y :: r')) with (last (y :: r')) in Hc.
      specialize (H3 c Hc Ht).
      destruct (split_lines_acc [] (y :: r')) eqn:Hsp; [discriminate|exact H3]. }
  destruct (split_lines_acc_cases cur s)
    as [[-> ->] | [(r & -> & ->) | [(r & -> & Hr & ->) | [(r & -> & ->) | (c & r & -> & Hc1 & ->)]]]].
  - split; [|split].
    + intros ln Hln. by apply list_elem_of_singleton in Hln as ->.
    + cbn. by rewrite !app_nil_r.
    + intros c Hc. discriminate.
  - destruct (IH (length r) ltac:(subst n; cbn; lia) r [] eq_refl eq_refl) as (H1 & H2 & H3).
    split; [|split].
    + intros ln Hln. apply elem_of_cons in Hln as [-> | Hln]; [exact Hrev | by apply H1].
    + cbn [concat]. rewrite H2. reflexivity.
    + intros c Hc Ht. apply (Hlast nl r _ c H3); [exact Hc | exact Ht | reflexivity].
  - destruct (IH (length r) ltac:(subst n; cbn; lia) r [] eq_refl eq_refl) as (H1 & H2 & H3).
    split; [|split].
    + intros ln Hln. apply elem_of_cons in Hln as [-> | Hln]; [exact Hrev | by apply H1].
    + cbn [concat]. rewrite H2. reflexivity.
    + intros c Hc Ht. apply (Hlast cr r _ c H3); [exact Hc | exact Ht | reflexivity].
  - destruct (IH (length r) ltac:(subst n; cbn; lia) r [] eq_refl eq_refl) as (H1 & H2 & H3).
    split; [|split].
    + intros ln Hln. apply elem_of_cons in Hln as [-> | Hln]; [exact Hrev | by apply H1].
    + cbn [concat]. rewrite H2. reflexivity.
    + intros c Hc Ht. apply (Hlast nl r _ c H3); [exact Hc | exact Ht | reflexivity].
  - assert (Hcur' : forallb (fun c => negb (is_terminator c)) (c :: cur) = true).
    { cbn. by rewrite Hc1, Hcur. }
    destruct (IH (length r) ltac:(subst n; cbn; lia) r (c :: cur) eq_refl Hcur')
      as (H1 & H2 & H3).
    split; [|split].
    + exact H1.
    + rewrite H2, reverse_cons, <- app_assoc. cbn [List.filter]. by rewrite Hc1.
    + intros x Hx Ht. destruct r as [|y r'].
      * cbn in Hx. injection Hx as ->. congruence.
      * change (last (c :: y :: r')) with (last (y :: r')) in Hx. by apply (H3 x).
Qed.

Lemma split_lines_nonempty (s : str) : 1 <= length (split_lines s).
Proof.
  unfold split_lines. generalize (@nil ascii).
  remember (length s) as n eqn:Hn. revert s Hn.
  induction n as [n IH] using lt_wf_ind. intros s Hn cur.
  destruct (split_lines_acc_cases cur s)
    as [[-> ->] | [(r & -> & ->) | [(r & -> & Hr & ->) | [(r & -> & ->) | (c & r & -> & Hc1 & ->)]]]];
    cbn; try lia.
  apply (IH (length r)); [subst n; cbn; lia | reflexivity].
Qed.

(** The loop over [range(length)] incorporates the first [n] lines from
    index [i], one after the other. *)
Lemma incorporate_lines_each (n i : nat) (lines : list str) (s : Parser) :
  i + n <= length lines ->
  incorporate_lines n i lines s = incorporate_each (take n (drop i lines)) s.
Proof.
  revert i s. induction n as [|n IH]; intros i s Hle; [reflexivity|].
  cbn [incorporate_lines].
  destruct (lookup_lt_is_Some_2 lines i ltac:(lia)) as [ln Hln].
  rewrite Hln, (drop_S _ _ _ Hln). cbn [of_option bind take incorporate_each].
  destruct (incorporate_line s ln) as [s1|]; cbn [bind]; [|reflexivity].
  apply IH. lia.
Qed.


(** ** The lines [parse] incorporates *)


(** ** Exceptions that are not raised *)

Lemma unraised_Ok {A : Type} (e : exn) (a : A) : unraised e (Ok a).
Proof. discriminate. Qed.

Lemma unraised_Err {A : Type} (e e' : exn) : e' <> e -> unraised e (@Err A e').
Proof. intros H [= ->]. congruence. Qed.

Lemma unraised_bind {A B : Type} (e : exn) (r : result A) (f : A -> result B) :
  unraised e r -> (forall a, r = Ok a -> unraised e (f a)) -> unraised e (bind r f).
Proof.
  intros Hr Hf. destruct r as [a|e']; cbn; [by apply Hf|].
  intros [= ->]. by apply Hr.
Qed.

Lemma unraised_of_option {A : Type} (e e' : exn) (o : option A) :
  e' <> e -> unraised e (of_option e' o).
Proof. intros H. destruct o; [apply unraised_Ok | by apply unraised_Err]. Qed.

Create HintDb unraised discriminated.
#[local] Hint Resolve unraised_Ok : unraised.
#[local] Hint Extern 1 (unraised _ (Err _)) => (apply unraised_Err; discriminate) : unraised.
#[local] Hint Extern 1 (unraised _ (of_option _ _)) =>
  (apply unraised_of_option; discriminate) : unraised.

(** One step through the code of a function: a sequencing, a test or a
    destructuring; calls are closed with the lemmas of the hint base. *)
Ltac unraised_step :=
  lazymatch goal with
  | |- unraised _ (bind _ _) => apply unraised_bind; [|intros ? ?]
  | |- unraised _ (Ok _) => apply unraised_Ok
  | |- unraised _ (Err _) => apply unraised_Err; discriminate
  | |- unraised _ (of_option _ _) => apply unraised_of_option; discriminate
  | |- unraised _ (if ?b then _ else _) => destruct b
  | |- unraised _ (match ?x with _ => _ end) => destruct x
  | |- unraised _ _ => solve [eauto with unraised]
  end.

Ltac unraised_tac := repeat unraised_step.

Lemma ends_with_blank_line_unraised (fuel : nat) (h : list Node) (b : option nat) :
  unraised IllegalReturn (ends_with_blank_line fuel h b).
Proof.
  revert b. induction fuel as [|fuel IH]; intros [b|]; cbn; unraised_tac.
Qed.
#[local] Hint Resolve ends_with_blank_line_unraised : unraised.

Lemma List_finalize_subitems_unraised (fuel : nat) (h : list Node) (nx : bool)
    (l : list nat) :
  unraised IllegalReturn (List_finalize_subitems fuel h nx l).
Proof. induction l as [|i l IH]; cbn; unraised_tac. Qed.
#[local] Hint Resolve List_finalize_subitems_unraised : unraised.

Lemma List_finalize_items_unraised (fuel : nat) (h : list Node) (l : list nat) :
  unraised IllegalReturn (List_finalize_items fuel h l).
Proof. induction l as [|i l IH]; cbn; unraised_tac. Qed.
#[local] Hint Resolve List_finalize_items_unraised : unraised.

Lemma Paragraph_finalize_refs_unraised (fuel : nat) (c : str) (rm : RefMap) (has : bool) :
  unraised IllegalReturn (Paragraph_finalize_refs fuel c rm has).
Proof.
  revert c rm has. induction fuel as [|fuel IH]; intros c rm has; cbn; unraised_tac.
Qed.
#[local] Hint Resolve Paragraph_finalize_refs_unraised : unraised.

Lemma finalize_unraised (s : Parser) (b : nat) (line : Z) :
  unraised IllegalReturn (finalize s b line).
Proof.
  unfold finalize, Block_finalize, List_finalize, CodeBlock_finalize,
    HtmlBlock_finalize, Paragraph_finalize, get_node.
  unraised_tac.
Qed.
#[local] Hint Resolve finalize_unraised : unraised.

(** Each [continue_] returns 0, 1 or 2. *)
Lemma Block_continue_returns (k : Kind) (s s' : Parser) (container : nat) (rv : Z) :
  Block_continue_ k s container = Ok (s', rv) -> rv = 0%Z \/ rv = 1%Z \/ rv = 2%Z.
Proof.
  destruct k; cbn [Block_continue_];
    unfold Document_continue_, List_continue_, BlockQuote_continue_, Item_continue_,
      Heading_continue_, ThematicBreak_continue_, CodeBlock_continue_,
      HtmlBlock_continue_, Paragraph_continue_;
    intros H;
    repeat match goal with
    | H : Ok _ = Ok _ |- _ => injection H as <- <-
    | H : Err _ = Ok _ |- _ => discriminate H
    | H : bind _ _ = Ok _ |- _ => apply bind_Ok in H as (? & ? & H)
    | H : (if ?b then _ else _) = Ok _ |- _ => destruct b
    | H : match ?x with _ => _ end = Ok _ |- _ => destruct x
    end;
    repeat match goal with
    | |- context [if ?b then _ else _] => destruct b
    end; auto.
Qed.

Lemma Block_continue_unraised (k : Kind) (s : Parser) (container : nat) :
  unraised IllegalReturn (Block_continue_ k s container).
Proof.
  destruct k; cbn [Block_continue_];
    unfold Document_continue_, List_continue_, BlockQuote_continue_, Item_continue_,
      Heading_continue_, ThematicBreak_continue_, CodeBlock_continue_,
      HtmlBlock_continue_, Paragraph_continue_, get_node;
    unraised_tac.
Qed.

(** With the dispatch of the parser, the first loop of [incorporate_line]
    does not raise the error for an illegal return value. *)
Lemma continue_loop_unraised (fuel len : nat) (s : Parser) (container : nat) :
  unraised IllegalReturn (continue_loop Block_continue_ fuel len s container).
Proof.
  revert s container. induction fuel as [|fuel IH]; intros s container.
  - cbn. unfold get_node. unraised_tac.
  - cbn [continue_loop]. unfold get_node.
    apply unraised_bind; [unraised_tac|]. intros n _.
    destruct (last_child n) as [lc|]; [|unraised_tac].
    apply unraised_bind; [unraised_tac|]. intros lcn _.
    destruct (is_open lcn); [|unraised_tac].
    apply unraised_bind; [apply Block_continue_unraised|]. intros [s2 rv] Hrv.
    destruct (Block_continue_returns _ _ _ _ _ Hrv) as [-> | [-> | ->]]; cbn.
    + apply IH.
    + unraised_tac.
    + unraised_tac.
Qed.

(** ** The return value of [continue_] *)

(** C7: in the first loop of [incorporate_line], whatever the dispatch
    [continue_] is, a return value other than 0, 1 and 2 for an open last
    child ends the loop, and with it [incorporate_line], in the error
    [IllegalReturn].  Each [continue_] of the nine block kinds returns 0, 1
    or 2, so with the dispatch of the parser the loop does not raise that
    error. *)
Theorem continue_illegal_return :
  (forall (continue_ : Kind -> Parser -> nat -> result (Parser * Z))
          (fuel len : nat) (s s2 : Parser) (container lc : nat) (n lcn : Node)
          (rv : Z),
     get_node s container = Ok n -> last_child n = Some lc ->
     get_node s lc = Ok lcn -> is_open lcn = true ->
     continue_ (t lcn) (find_next_nonspace s) lc = Ok (s2, rv) ->
     rv <> 0%Z -> rv <> 1%Z -> rv <> 2%Z ->
     continue_loop continue_ (S fuel) len s container = Err IllegalReturn) /\
  (forall (continue_ : Kind -> Parser -> nat -> result (Parser * Z))
          (starts_loop : nat -> Parser -> option nat -> result (Parser * option nat))
          (s : Parser) (ln : str) (e : exn),
     continue_loop continue_ (length (heap s)) (length (replace_nul ln))
       (start_line s (replace_nul ln)) (doc s) = Err e ->
     incorporate_line_with continue_ starts_loop s ln = Err e) /\
  (forall (k : Kind) (s s' : Parser) (container : nat) (rv : Z),
     Block_continue_ k s container = Ok (s', rv) ->
     rv = 0%Z \/ rv = 1%Z \/ rv = 2%Z) /\
  (forall (fuel len : nat) (s : Parser) (container : nat),
     continue_loop Block_continue_ fuel len s container <> Err IllegalReturn).
Proof.
  split; [|split; [|split]].
  - intros continue_ fuel len s s2 container lc n lcn rv Hn Hlc Hlcn Hopen Hrv H0 H1 H2.
    cbn [continue_loop]. rewrite Hn. cbn [bind]. rewrite Hlc, Hlcn. cbn [bind].
    rewrite Hopen, Hrv. cbn [bind].
    apply Z.eqb_neq in H0, H1, H2. by rewrite H0, H1, H2.
  - intros continue_ starts_loop s ln e H. unfold incorporate_line_with.
    cbn zeta. cbn [start_line heap doc set_current_line set_line_number set_column
                   set_offset set_oldtip] in *.
    by rewrite H.
  - exact Block_continue_returns.
  - exact continue_loop_unraised.
Qed.

(** ** The fast path of the block starts *)





Lemma try_starts_no_match (methods : list (Parser -> option nat -> result (Parser * Z)))
    (s : Parser) (container : option nat) :
  Forall (fun m => m s container = Ok (s, 0%Z)) methods ->
  try_starts methods s container = Ok (s, 0%Z).
Proof.
  induction 1 as [|m rest Hm _ IH]; [reflexivity|].
  cbn [try_starts]. rewrite Hm. cbn. exact IH.
Qed.






Lemma find_next_nonspace_heap (s : Parser) : heap (find_next_nonspace s) = heap s.
Proof. unfold find_next_nonspace. by destruct (scan_nonspace _ _ _) as [[i cols] c]. Qed.




(** ** The invariants of the block phase *)

(** The claims about the tree that [parse] returns, and about the
    exceptions it does not raise, rest on an invariant of the parser state
    that every step of the block phase keeps.  Each function gets a
    specification in the style of a weakest precondition: from a state
    that satisfies the invariant it returns a state that satisfies it, or
    it raises an exception other than those of [content.index].  The
    specifications follow the call graph: [finalize], [add_child],
    [close_unmatched_blocks], the block starts, [break_out_of_lists], the
    first loop and the last part of [incorporate_line], then the document
    driver and the inline pass. *)

Lemma frame_refl (s : Parser) : frame s s.
Proof. by constructor. Qed.

Lemma frame_trans (s1 s2 s3 : Parser) : frame s1 s2 -> frame s2 s3 -> frame s1 s3.
Proof. intros [] []. constructor; congruence. Qed.

Lemma keeps_refl (n : Node) : keeps n n.
Proof. by constructor. Qed.

(** *** [wp] *)

Lemma wp_bind {A B : Type} (Qe : exn -> Prop) (r : result A) (f : A -> result B)
    (Q : B -> Prop) :
  wp Qe r (fun a => wp Qe (f a) Q) -> wp Qe (bind r f) Q.
Proof. by destruct r. Qed.

Lemma wp_mono {A : Type} (Qe : exn -> Prop) (r : result A) (Q Q' : A -> Prop) :
  wp Qe r Q -> (forall a, Q a -> Q' a) -> wp Qe r Q'.
Proof. destruct r; cbn; auto. Qed.

Lemma wp_of_option {A : Type} (Qe : exn -> Prop) (e : exn) (o : option A) (Q : A -> Prop) :
  Qe e -> (forall a, o = Some a -> Q a) -> wp Qe (of_option e o) Q.
Proof. destruct o; cbn; auto. Qed.

Lemma wp_get_node (Qe : exn -> Prop) (s : Parser) (i : nat) (Q : Node -> Prop) :
  Qe DanglingRef -> (forall n, heap s !! i = Some n -> Q n) -> wp Qe (get_node s i) Q.
Proof. intros. by apply wp_of_option. Qed.

Lemma wp_node_at (Qe : exn -> Prop) (s : Parser) (r : option nat) (Q : Node -> Prop) :
  Qe DanglingRef -> Qe AttributeError ->
  (forall i n, r = Some i -> heap s !! i = Some n -> Q n) -> wp Qe (node_at s r) Q.
Proof. intros ? ? H. destruct r as [i|]; cbn; [|done]. apply wp_of_option; eauto. Qed.

Lemma other_error_intro (e : exn) : e <> IndexNotFound -> e <> IndexOfNone -> other_error e.
Proof. intros H1 H2 [H|H]; congruence. Qed.

#[local] Hint Extern 1 (other_error _) => (apply other_error_intro; discriminate) : core.

(** *** The spine *)

Lemma on_spine_inv (h : list Node) (x a : nat) :
  on_spine h (Some x) a ->
  a = x \/ exists n, h !! x = Some n /\ on_spine h (parent n) a.
Proof. inversion 1; subst; eauto. Qed.

Lemma on_spine_None (h : list Node) (a : nat) : ~ on_spine h None a.
Proof. inversion 1. Qed.

Lemma on_spine_trans (h : list Node) (o : option nat) (a b : nat) :
  on_spine h o a -> on_spine h (Some a) b -> on_spine h o b.
Proof.
  induction 1 as [x | x n a Hx _ IH]; [done|].
  intros Hb. eapply on_spine_up; eauto.
Qed.

(** A block above another one on a spine has a child. *)
Lemma on_spine_above (h : list Node) (x a : nat) :
  on_spine h (Some x) a -> a <> x ->
  exists j nj, h !! j = Some nj /\ parent nj = Some a.
Proof.
  remember (Some x) as o eqn:Ho. intros H. revert x Ho.
  induction H as [x' | x' n a Hx Hsp IH]; intros x [= ->] Hne; [done|].
  destruct (parent n) as [p|] eqn:Hp; [|by apply on_spine_None in Hsp].
  destruct (decide (a = p)) as [->|Hap]; [eauto|].
  by apply (IH p).
Qed.

(** A spine only depends on the parent references of the blocks below
    the block that is reached. *)
Lemma on_spine_ext (h h' : list Node) (o : option nat) (a : nat) :
  on_spine h o a ->
  (forall j n, on_spine h o j -> j <> a -> h !! j = Some n ->
               exists n', h' !! j = Some n' /\ parent n' = parent n) ->
  on_spine h' o a.
Proof.
  induction 1 as [x | x n a Hx Hsp IH]; intros Hext; [constructor|].
  destruct (decide (a = x)) as [->|Hne]; [constructor|].
  destruct (Hext x n (on_spine_here _ _) ltac:(done) Hx) as (n' & Hn' & Hp).
  eapply on_spine_up; [exact Hn'|]. rewrite Hp. apply IH.
  intros j nj Hj Hja Hnj. apply Hext; [|done..].
  eapply on_spine_up; eauto.
Qed.

Lemma elem_of_remove_id (c i : nat) (l : list nat) :
  c ∈ remove_id i l <-> c ∈ l /\ c <> i.
Proof.
  induction l as [|a l IH]; cbn.
  - split; [by intros ?%elem_of_nil | by intros [?%elem_of_nil _]].
  - destruct (Nat.eqb_spec a i) as [->|Hne].
    + rewrite IH, elem_of_cons. intuition (subst; auto; congruence).
    + rewrite !elem_of_cons, IH. intuition (subst; auto; congruence).
Qed.

(** *** The effect of [finalize] *)

Lemma lookup_alter_Some (f : Node -> Node) (i : nat) (h : list Node) (n : Node) :
  h !! i = Some n -> alter f i h !! i = Some (f n).
Proof. intros H. by rewrite list_lookup_alter_eq, H. Qed.

(** [unlink] of a block whose parent is another block. *)
Lemma unlink_lookup (b : nat) (h : list Node) (n : Node) :
  h !! b = Some n -> parent n <> Some b ->
  unlink b h !! b = Some (set_parent None n) /\
  (forall j nj, j <> b -> h !! j = Some nj ->
     exists nj', unlink b h !! j = Some nj' /\ keeps nj nj' /\
                 (parent n = Some j -> b ∉ children nj')) /\
  length (unlink b h) = length h.
Proof.
  intros Hn Hself. unfold unlink. rewrite Hn.
  destruct (parent n) as [p|] eqn:Hp.
  - assert (Hpb : p <> b) by congruence.
    split; [|split].
    + rewrite list_lookup_alter_eq, list_lookup_alter_ne, Hn by done. done.
    + intros j nj Hj Hnj. rewrite list_lookup_alter_ne by done.
      destruct (decide (p = j)) as [->|Hpj].
      * rewrite (lookup_alter_Some _ _ _ _ Hnj). eexists. split; [done|]. split.
        -- constructor; try done. cbn. intros c Hc. by apply elem_of_remove_id in Hc as [].
        -- intros _. cbn. intros Hc. by apply elem_of_remove_id in Hc as [].
      * rewrite list_lookup_alter_ne by done. exists nj.
        split; [done|]. split; [apply keeps_refl | congruence].
    + by rewrite !length_alter.
  - split; [|split; [|done]].
    + rewrite Hn. f_equal. destruct n; cbn in *. by subst.
    + intros j nj Hj Hnj. exists nj. split; [done|]. split; [apply keeps_refl | done].
Qed.

#[local] Hint Resolve ends_with_blank_line_unraised : core.

Lemma index_error_unraised {A : Type} (r : result A) (Q : A -> Prop) :
  (forall e, r = Err e -> other_error e) -> (forall a, r = Ok a -> Q a) ->
  wp other_error r Q.
Proof. destruct r; cbn; auto. Qed.

Lemma ends_with_blank_line_other (fuel : nat) (h : list Node) (b : option nat) (e : exn) :
  ends_with_blank_line fuel h b = Err e -> other_error e.
Proof.
  revert b. induction fuel as [|fuel IH]; intros [b|]; cbn; try discriminate.
  - intros [= <-]. auto.
  - destruct (h !! b) as [n|]; cbn; [|intros [= <-]; auto].
    destruct (last_line_blank n); [discriminate|].
    destruct (_ || _); [apply IH | discriminate].
Qed.

Lemma List_finalize_subitems_other (fuel : nat) (h : list Node) (nx : bool)
    (l : list nat) (e : exn) :
  List_finalize_subitems fuel h nx l = Err e -> other_error e.
Proof.
  induction l as [|i l IH]; cbn; [discriminate|].
  destruct (ends_with_blank_line fuel h (Some i)) as [b|e'] eqn:He; cbn.
  - destruct (_ && _); [discriminate | apply IH].
  - intros [= <-]. by eapply ends_with_blank_line_other.
Qed.

Lemma List_finalize_items_other (fuel : nat) (h : list Node) (l : list nat) (e : exn) :
  List_finalize_items fuel h l = Err e -> other_error e.
Proof.
  induction l as [|i l IH]; cbn; [discriminate|].
  destruct (ends_with_blank_line fuel h (Some i)) as [b|e'] eqn:He; cbn.
  - destruct (_ && _); [discriminate|].
    destruct (h !! i) as [n|]; cbn; [|intros [= <-]; auto].
    destruct (List_finalize_subitems fuel h _ (children n)) as [l1|e1] eqn:H1; cbn.
    + destruct (List_finalize_items fuel h l) as [l2|e2]; cbn; [discriminate|].
      intros [= <-]. by apply IH.
    + intros [= <-]. by eapply List_finalize_subitems_other.
  - intros [= <-]. by eapply ends_with_blank_line_other.
Qed.

Lemma Paragraph_finalize_refs_other (fuel : nat) (c : str) (rm : RefMap) (has : bool)
    (e : exn) :
  Paragraph_finalize_refs fuel c rm has = Err e -> other_error e.
Proof.
  revert c rm has. induction fuel as [|fuel IH]; intros c rm has; cbn.
  - destruct (peek_is c 0 "["); [intros [= <-]; auto | discriminate].
  - destruct (peek_is c 0 "["); [|discriminate].
    destruct (parseReference c rm) as [pos rm']. destruct (pos =? 0); [discriminate|].
    apply IH.
Qed.

(** [finalize] raises the exceptions of [content.index] only on a fenced
    code block without a newline in its string content, and otherwise has
    the effect [closes]. *)
Lemma finalize_wp (s : Parser) (b : nat) (line : Z) :
  (forall n, heap s !! b = Some n -> parent n <> Some b) ->
  (forall n, heap s !! b = Some n -> t n = CodeBlock -> is_fenced n = true ->
             has_nl (string_content n)) ->
  wp other_error (finalize s b line) (closes b line s).
Proof.
  intros Hself Hready. unfold finalize.
  apply wp_bind, wp_get_node; [auto|]. intros n Hn.
  specialize (Hself n Hn). specialize (Hready n Hn).
  set (g := fun x : Node =>
              set_sourcepos ((sourcepos x).1, (line, Z.of_nat (last_line_length s)))
                (set_is_open false x)).
  assert (Hb1 : alter g b (heap s) !! b = Some (g n)) by (by apply lookup_alter_Some).
  assert (Hgen : forall (h2 : list Node) (n2 : Node) (rm : RefMap),
            h2 !! b = Some n2 ->
            (forall j, j <> b -> h2 !! j = heap s !! j) ->
            length h2 = length (heap s) ->
            t n2 = t n -> is_open n2 = false ->
            sourcepos n2 = sourcepos (g n) -> is_fenced n2 = is_fenced n ->
            children n2 = children n -> parent n2 = parent n ->
            (t n = CodeBlock \/ t n = HtmlBlock -> string_content n2 = None) ->
            closes b line s (set_tip (parent n) (set_refmap rm (set_heap h2 s)))).
  { intros h2 n2 rm Hn2 Hoth Hlen Ht Ho Hs Hf Hc Hp Hcont. constructor.
    - exists n, n2. cbn. unfold first_line, last_line. rewrite Hs.
      repeat split; auto.
    - intros j nj Hj Hnj. cbn. exists nj. rewrite Hoth by done.
      split; [done | apply keeps_refl].
    - done.
    - by constructor. }
  assert (Hupd : forall (f : Node -> Node) (rm : RefMap),
            t (f (g n)) = t n -> is_open (f (g n)) = false ->
            sourcepos (f (g n)) = sourcepos (g n) -> is_fenced (f (g n)) = is_fenced n ->
            children (f (g n)) = children n -> parent (f (g n)) = parent n ->
            (t n = CodeBlock \/ t n = HtmlBlock -> string_content (f (g n)) = None) ->
            closes b line s
              (set_tip (parent n) (set_refmap rm (set_heap (alter f b (alter g b (heap s))) s)))).
  { intros f rm. apply Hgen.
    - by apply lookup_alter_Some.
    - intros j Hj. by rewrite !list_lookup_alter_ne.
    - by rewrite !length_alter. }
  assert (Hid : t n <> CodeBlock -> t n <> HtmlBlock ->
                closes b line s (set_tip (parent n) (upd_node b g s))).
  { intros Hk1 Hk2. apply (Hgen (alter g b (heap s)) (g n) (refmap s)); auto.
    - intros j Hj. by rewrite list_lookup_alter_ne.
    - by rewrite length_alter.
    - intros [|]; contradiction. }
  apply wp_bind. destruct (t n) eqn:Ht; cbn [Block_finalize wp];
    try (apply Hid; discriminate).
  - (* List *)
    unfold List_finalize. apply wp_bind, wp_get_node; [auto|]. intros n1 Hn1.
    apply wp_bind, index_error_unraised; [apply List_finalize_items_other|].
    intros loose _. destruct loose; cbn [wp]; [|apply Hid; discriminate].
    apply (Hupd (fun x => set_list_data (set_tight false (list_data x)) x) (refmap s)); auto.
    intros [|]; discriminate.
  - (* CodeBlock *)
    unfold CodeBlock_finalize. apply wp_bind, wp_get_node; [auto|]. intros n1 Hn1.
    cbn in Hn1. rewrite Hb1 in Hn1. injection Hn1 as <-.
    cbn [g is_fenced set_sourcepos set_is_open].
    destruct (is_fenced n) eqn:Hf.
    + destruct (Hready eq_refl eq_refl) as (c & Hc & Hnl).
      cbn [g string_content set_sourcepos set_is_open]. rewrite Hc. cbn [of_option bind].
      destruct (index_of nl c) as [pos|]; [|done]. cbn [of_option bind wp].
      apply (Hupd (fun x => set_string_content None
                              (set_literal (Some (drop (pos + 1) c))
                                 (set_info (Some (unescape_string (strip (take pos c)))) x)))
               (refmap s));
        auto.
    + apply wp_bind, wp_of_option; [auto|]. intros c Hc. cbn [wp].
      apply (Hupd (fun x => set_string_content None
                              (set_literal (Some (sub_trailing_blank_lines [nl] c)) x))
               (refmap s));
        auto.
  - (* HtmlBlock *)
    unfold HtmlBlock_finalize. apply wp_bind, wp_get_node; [auto|]. intros n1 Hn1.
    apply wp_bind, wp_of_option; [auto|]. intros c Hc. cbn [wp].
    apply (Hupd (fun x => set_string_content None
                            (set_literal (Some (sub_trailing_blank_lines [] c)) x))
             (refmap s));
      auto.
  - (* Paragraph *)
    unfold Paragraph_finalize. apply wp_bind, wp_get_node; [auto|]. intros n1 Hn1.
    cbn in Hn1. rewrite Hb1 in Hn1. injection Hn1 as <-.
    apply wp_bind, wp_of_option; [auto|]. intros c Hc.
    apply wp_bind, index_error_unraised; [apply Paragraph_finalize_refs_other|].
    intros [[c' rm] has] _.
    destruct (has && is_blank c'); cbn [wp].
    + (* the paragraph is unlinked *)
      set (h1 := alter (set_string_content (Some c')) b (alter g b (heap s))).
      assert (Hh1 : h1 !! b = Some (set_string_content (Some c') (g n)))
        by (by apply lookup_alter_Some).
      destruct (unlink_lookup b h1 _ Hh1 Hself) as (Hub & Huo & Hul).
      constructor.
      * exists n, (set_parent None (set_string_content (Some c') (g n))). cbn.
        fold h1. rewrite Hub. repeat split; auto; try (intros [|]; congruence).
        right. repeat split; auto.
        intros p pn' Hp Hpn'. fold h1 in Hpn'.
        assert (Hpb : p <> b) by congruence.
        assert (Hhp : exists np, h1 !! p = Some np).
        { apply lookup_lt_is_Some. rewrite <- Hul. by eapply lookup_lt_Some. }
        destruct Hhp as [np Hnp].
        destruct (Huo p np Hpb Hnp) as (nj' & Hnj' & _ & Hnot).
        rewrite Hpn' in Hnj'. injection Hnj' as <-. by apply Hnot.
      * intros j nj Hj Hnj. cbn. fold h1.
        assert (Hh1j : h1 !! j = Some nj) by (subst h1; by rewrite !list_lookup_alter_ne).
        destruct (Huo j nj Hj Hh1j) as (nj' & Hnj' & Hk & _). eauto.
      * cbn. fold h1. rewrite Hul. subst h1. by rewrite !length_alter.
      * by constructor.
    + apply (Hupd (set_string_content (Some c')) rm); auto. intros [|]; congruence.
Qed.

(** *** The invariant under [closes] *)

(** The blocks of the state after [closes], seen from the state before. *)
Lemma closes_lookup (b : nat) (line : Z) (s s' : Parser) (i : nat) (ni' : Node) :
  closes b line s s' -> heap s' !! i = Some ni' ->
  exists ni, heap s !! i = Some ni /\ (i = b \/ keeps ni ni').
Proof.
  intros Hcl Hi'.
  assert (Hlt : i < length (heap s)).
  { rewrite <- (cl_length _ _ _ _ Hcl). by eapply lookup_lt_Some. }
  destruct (lookup_lt_is_Some_2 _ _ Hlt) as [ni Hni]. exists ni. split; [done|].
  destruct (decide (i = b)) as [->|Hne]; [by left|right].
  destruct (cl_others _ _ _ _ Hcl i ni Hne Hni) as (nj' & Hnj' & Hk). congruence.
Qed.

(** On a spine that does not start at the closed block, the parent
    references are as before. *)
Lemma closes_on_spine (b : nat) (line : Z) (s s' : Parser) (o : option nat) (a : nat) :
  wf s -> closes b line s s' -> o <> Some b ->
  on_spine (heap s) o a -> on_spine (heap s') o a.
Proof.
  intros Hwf Hcl Hob Hsp. apply (on_spine_ext (heap s)); [done|].
  intros j nj Hj Hja Hnj.
  destruct (decide (j = b)) as [->|Hjb].
  - (* the closed block is above the start: it has a child, so it is not a
       paragraph and keeps its parent *)
    destruct (cl_node _ _ _ _ Hcl)
      as (n & n' & Hn & Hn' & _ & _ & _ & _ & _ & _ & _ & _ & Hpar).
    rewrite Hnj in Hn. injection Hn as <-.
    exists n'. split; [done|]. destruct Hpar as [Hp | (_ & Hpara & _)]; [done|].
    destruct o as [x|]; [|by apply on_spine_None in Hj].
    destruct (on_spine_above _ _ _ Hj ltac:(congruence)) as (c & nc & Hc & Hcp).
    destruct (wf_container _ Hwf c nc b Hc Hcp) as (pn & Hpn & Hcont).
    rewrite Hnj in Hpn. injection Hpn as <-. by rewrite Hpara in Hcont.
  - destruct (cl_others _ _ _ _ Hcl j nj Hjb Hnj) as (nj' & Hnj' & Hk).
    exists nj'. split; [done | apply Hk].
Qed.

Lemma on_spine_le (s : Parser) (x a : nat) :
  wf s -> on_spine (heap s) (Some x) a -> a <= x.
Proof.
  intros Hwf. remember (Some x) as o eqn:Ho. intros H. revert x Ho.
  induction H as [x' | x' n a Hx Hsp IH]; intros x [= ->]; [done|].
  destruct (parent n) as [p|] eqn:Hp; [|by apply on_spine_None in Hsp].
  pose proof (wf_parent_lt _ Hwf x n p Hx Hp). specialize (IH p eq_refl). lia.
Qed.

Lemma closes_wf (b : nat) (line : Z) (s s' : Parser) :
  wf s -> closes b line s s' ->
  (forall n, heap s !! b = Some n -> (first_line n <= line)%Z) ->
  wf s'.
Proof.
  intros Hwf Hcl Hpre.
  destruct (cl_node _ _ _ _ Hcl)
    as (n & n' & Hn & Hn' & Htip & Ht & Hopen & Hfl & Hll & Hfen & Hch & Hcont & Hpar).
  pose proof (Hpre n Hn) as Hline.
  pose proof (cl_frame _ _ _ _ Hcl) as Hfr.
  assert (Hparent : forall i ni ni' p, heap s !! i = Some ni -> heap s' !! i = Some ni' ->
            parent ni' = Some p -> parent ni = Some p).
  { intros i ni ni' p Hi Hi' Hp. destruct (decide (i = b)) as [->|Hne].
    - rewrite Hn in Hi. rewrite Hn' in Hi'. injection Hi as <-. injection Hi' as <-.
      destruct Hpar as [Hq | (Hq & _)]; congruence.
    - destruct (cl_others _ _ _ _ Hcl i ni Hne Hi) as (nj' & Hnj' & Hk).
      rewrite Hi' in Hnj'. injection Hnj' as <-. by rewrite <- (k_parent _ _ Hk). }
  assert (Hkind : forall i ni ni', heap s !! i = Some ni -> heap s' !! i = Some ni' ->
            t ni' = t ni /\ first_line ni' = first_line ni).
  { intros i ni ni' Hi Hi'. destruct (decide (i = b)) as [->|Hne].
    - rewrite Hn in Hi. rewrite Hn' in Hi'. injection Hi as <-. by injection Hi' as <-.
    - destruct (cl_others _ _ _ _ Hcl i ni Hne Hi) as (nj' & Hnj' & Hk).
      rewrite Hi' in Hnj'. injection Hnj' as <-. unfold first_line.
      by rewrite (k_t _ _ Hk), (k_sourcepos _ _ Hk). }
  assert (Hex : forall i ni, heap s !! i = Some ni -> exists ni', heap s' !! i = Some ni').
  { intros i ni Hi. apply lookup_lt_is_Some. rewrite (cl_length _ _ _ _ Hcl).
    by eapply lookup_lt_Some. }
  constructor.
  - intros i ni' p Hi' Hp. destruct (closes_lookup _ _ _ _ _ _ Hcl Hi') as (ni & Hi & _).
    eapply wf_parent_lt; eauto.
  - intros p pn' c Hp' Hc.
    destruct (closes_lookup _ _ _ _ _ _ Hcl Hp') as (pn & Hp & Hpk).
    assert (Hcold : c ∈ children pn).
    { destruct Hpk as [-> | Hk]; [|by apply Hk].
      rewrite Hn in Hp. rewrite Hn' in Hp'. injection Hp as <-. injection Hp' as <-.
      by rewrite <- Hch. }
    destruct (wf_children _ Hwf p pn c Hp Hcold) as (cn & Hcn & Hcp).
    destruct (decide (c = b)) as [->|Hcb].
    + rewrite Hn in Hcn. injection Hcn as <-. exists n'. split; [done|].
      destruct Hpar as [Hq | (_ & _ & Hnot)]; [congruence|].
      exfalso. by apply (Hnot p pn' Hcp Hp').
    + destruct (cl_others _ _ _ _ Hcl c cn Hcb Hcn) as (cn' & Hcn' & Hk).
      exists cn'. split; [done|]. by rewrite (k_parent _ _ Hk).
  - intros i ni' p Hi' Hp. destruct (closes_lookup _ _ _ _ _ _ Hcl Hi') as (ni & Hi & _).
    pose proof (Hparent i ni ni' p Hi Hi' Hp) as Hpold.
    destruct (wf_container _ Hwf i ni p Hi Hpold) as (pn & Hpn & Hc).
    destruct (Hex p pn Hpn) as [pn' Hpn']. exists pn'. split; [done|].
    by rewrite (proj1 (Hkind p pn pn' Hpn Hpn')).
  - intros i ni' Hi' Hp. rewrite (fr_doc _ _ Hfr).
    destruct (closes_lookup _ _ _ _ _ _ Hcl Hi') as (ni & Hi & _).
    destruct (parent ni') as [p|] eqn:Hp'; [|done].
    pose proof (Hparent i ni ni' p Hi Hi' Hp') as Hpold.
    assert (Hold : on_spine (heap s) (Some i) (doc s))
      by (apply (wf_desc _ Hwf i ni Hi); congruence).
    destruct (decide (i = b)) as [->|Hib].
    + (* the closed block itself: its own parent reference is kept *)
      apply on_spine_inv in Hold as [Hdoc | (n0 & Hn0 & Hup)].
      * destruct (wf_doc _ Hwf) as (dn & Hd & _ & Hdp).
        rewrite Hdoc, Hi in Hd. injection Hd as <-. congruence.
      * rewrite Hi in Hn0. injection Hn0 as <-.
        eapply on_spine_up; [exact Hi'|]. rewrite Hp'. rewrite Hpold in Hup.
        apply (closes_on_spine b line s); try done.
        intros [= ->]. pose proof (wf_parent_lt _ Hwf b ni b Hi Hpold). lia.
    + apply (closes_on_spine b line s); try done. congruence.
  - destruct (wf_doc _ Hwf) as (dn & Hd & Hdt & Hdp). rewrite (fr_doc _ _ Hfr).
    destruct (Hex _ _ Hd) as [dn' Hd']. exists dn'. split; [done|].
    split; [by rewrite (proj1 (Hkind _ _ _ Hd Hd'))|].
    destruct (parent dn') as [p|] eqn:Hp; [|done].
    pose proof (Hparent _ _ _ _ Hd Hd' Hp). congruence.
  - intros i ni' Hi' Hp. destruct (closes_lookup _ _ _ _ _ _ Hcl Hi') as (ni & Hi & Hk).
    rewrite (proj1 (Hkind i ni ni' Hi Hi')).
    destruct Hk as [-> | Hk].
    + rewrite Hn in Hi. rewrite Hn' in Hi'. injection Hi as <-. injection Hi' as <-.
      destruct Hpar as [Hq | (_ & Hpara & _)]; [|by right].
      apply (wf_orphans _ Hwf b n Hn). congruence.
    + apply (wf_orphans _ Hwf i ni Hi). by rewrite <- (k_parent _ _ Hk).
  - intros x nx' Hx Hx' Hleaf. rewrite Htip in Hx.
    destruct (wf_container _ Hwf b n x Hn Hx) as (pn & Hpn & Hc).
    rewrite (proj1 (Hkind x pn nx' Hpn Hx')) in Hleaf. congruence.
  - intros i ni' Hi' Hclosed Hcode.
    destruct (closes_lookup _ _ _ _ _ _ Hcl Hi') as (ni & Hi & Hk).
    rewrite (proj1 (Hkind i ni ni' Hi Hi')) in Hcode.
    destruct (decide (i = b)) as [->|Hib].
    + rewrite Hn in Hi. rewrite Hn' in Hi'. injection Hi as <-. injection Hi' as <-.
      by apply Hcont.
    + destruct Hk as [-> | Hk]; [done|]. rewrite (k_string_content _ _ Hk).
      apply (wf_closed_content _ Hwf i ni Hi); [|done]. by rewrite <- (k_is_open _ _ Hk).
  - intros i ni' Hi'. destruct (closes_lookup _ _ _ _ _ _ Hcl Hi') as (ni & Hi & _).
    destruct (Hkind i ni ni' Hi Hi') as [-> ->]. rewrite (fr_line_number _ _ Hfr).
    by apply (wf_first_line _ Hwf i).
  - intros i ni' Hi' Hdoc. destruct (closes_lookup _ _ _ _ _ _ Hcl Hi') as (ni & Hi & _).
    destruct (Hkind i ni ni' Hi Hi') as [Hk ->]. rewrite Hk in Hdoc.
    destruct (wf_doc_line _ Hwf i ni Hi Hdoc) as [Hl Hp]. split; [done|].
    destruct (parent ni') as [p|] eqn:Hp'; [|done].
    pose proof (Hparent i ni ni' p Hi Hi' Hp'). congruence.
  - intros i ni' p pn' Hi' Hp Hp'.
    destruct (closes_lookup _ _ _ _ _ _ Hcl Hi') as (ni & Hi & _).
    destruct (closes_lookup _ _ _ _ _ _ Hcl Hp') as (pn & Hpn & _).
    rewrite (proj2 (Hkind i ni ni' Hi Hi')), (proj2 (Hkind p pn pn' Hpn Hp')).
    apply (wf_first_line_parent _ Hwf i ni p pn Hi); [|done]. eapply Hparent; eauto.
  - intros i ni' Hi' Hclosed.
    destruct (closes_lookup _ _ _ _ _ _ Hcl Hi') as (ni & Hi & Hk).
    destruct (decide (i = b)) as [->|Hib].
    + rewrite Hn in Hi. rewrite Hn' in Hi'. injection Hi as <-. injection Hi' as <-.
      by rewrite Hfl, Hll.
    + destruct Hk as [-> | Hk]; [done|]. unfold first_line, last_line.
      rewrite (k_sourcepos _ _ Hk). apply (wf_closed_lines _ Hwf i ni Hi).
      by rewrite <- (k_is_open _ _ Hk).
Qed.

Lemma closes_closed (b : nat) (line : Z) (s s' : Parser) (i : nat) (ni' : Node) :
  closes b line s s' -> heap s' !! i = Some ni' -> is_open ni' = true ->
  i <> b /\ exists ni, heap s !! i = Some ni /\ keeps ni ni'.
Proof.
  intros Hcl Hi' Hopen.
  destruct (closes_lookup _ _ _ _ _ _ Hcl Hi') as (ni & Hi & Hk).
  destruct (cl_node _ _ _ _ Hcl) as (n & n' & Hn & Hn' & _ & _ & Hclosed & _).
  assert (Hne : i <> b) by (intros ->; congruence).
  split; [done|]. exists ni. split; [done|]. by destruct Hk.
Qed.

(** Closing the block at the start of the spine of the open blocks leaves
    them on the spine of the new tip. *)
Lemma closes_open_tip (b : nat) (line : Z) (s s' : Parser) :
  wf s -> closes b line s s' -> open_on_spine s (Some b) -> open_on_spine s' (tip s').
Proof.
  intros Hwf Hcl Hsp i ni' Hi' Hopen Hatt.
  destruct (closes_closed _ _ _ _ _ _ Hcl Hi' Hopen) as (Hne & ni & Hi & Hk).
  destruct (cl_node _ _ _ _ Hcl) as (n & n' & Hn & Hn' & Htip & _).
  assert (Hold : on_spine (heap s) (Some b) i).
  { apply (Hsp i ni Hi).
    - by rewrite <- (k_is_open _ _ Hk).
    - by rewrite <- (k_parent _ _ Hk). }
  apply on_spine_inv in Hold as [? | (n0 & Hn0 & Hup)]; [done|].
  rewrite Hn in Hn0. injection Hn0 as <-. rewrite Htip.
  apply (closes_on_spine b line s); try done.
  intros Hp. pose proof (wf_parent_lt _ Hwf b n b Hn Hp). lia.
Qed.

(** Closing another block than the start of the spine of the open blocks
    leaves them on that spine. *)
Lemma closes_open_other (b : nat) (line : Z) (s s' : Parser) (o : option nat) :
  wf s -> closes b line s s' -> o <> Some b -> open_on_spine s o -> open_on_spine s' o.
Proof.
  intros Hwf Hcl Hob Hsp i ni' Hi' Hopen Hatt.
  destruct (closes_closed _ _ _ _ _ _ Hcl Hi' Hopen) as (Hne & ni & Hi & Hk).
  apply (closes_on_spine b line s); try done.
  apply (Hsp i ni Hi).
  - by rewrite <- (k_is_open _ _ Hk).
  - by rewrite <- (k_parent _ _ Hk).
Qed.

Lemma closes_content (b : nat) (line : Z) (s s' : Parser) :
  closes b line s s' -> fenced_content false s -> fenced_content false s'.
Proof.
  intros Hcl Hfc i ni' Hi' Hcode Hfen Hopen.
  destruct (closes_closed _ _ _ _ _ _ Hcl Hi' Hopen) as (Hne & ni & Hi & Hk).
  left. rewrite (k_string_content _ _ Hk).
  destruct (Hfc i ni Hi) as [H | [? _]]; try done.
  - by rewrite <- (k_t _ _ Hk).
  - by rewrite <- (k_is_fenced _ _ Hk).
  - by rewrite <- (k_is_open _ _ Hk).
Qed.

(** The tip after closing a block with a parent. *)
Lemma closes_attached (b : nat) (line : Z) (s s' : Parser) :
  wf s -> closes b line s s' ->
  (forall n, heap s !! b = Some n -> parent n <> None) ->
  tip_attached s'.
Proof.
  intros Hwf Hcl Hatt. unfold tip_attached.
  destruct (cl_node _ _ _ _ Hcl) as (n & n' & Hn & Hn' & Htip & _).
  rewrite Htip, (fr_doc _ _ (cl_frame _ _ _ _ Hcl)).
  pose proof (wf_desc _ Hwf b n Hn (Hatt n Hn)) as Hold.
  apply on_spine_inv in Hold as [Hdoc | (n0 & Hn0 & Hup)].
  - destruct (wf_doc _ Hwf) as (dn & Hd & _ & Hdp). rewrite Hdoc, Hn in Hd.
    injection Hd as <-. by destruct (Hatt n Hn).
  - rewrite Hn in Hn0. injection Hn0 as <-.
    apply (closes_on_spine b line s); try done.
    intros Hp. pose proof (wf_parent_lt _ Hwf b n b Hn Hp). lia.
Qed.

Lemma closes_evolves (b : nat) (line : Z) (s s' : Parser) (i : nat) (ni : Node) :
  closes b line s s' -> heap s !! i = Some ni ->
  exists ni', heap s' !! i = Some ni' /\ evolves ni ni'.
Proof.
  intros Hcl Hi. destruct (decide (i = b)) as [->|Hne].
  - destruct (cl_node _ _ _ _ Hcl)
      as (n & n' & Hn & Hn' & _ & Ht & _ & Hfl & _ & _ & _ & _ & Hpar).
    rewrite Hi in Hn. injection Hn as <-. exists n'. split; [done|].
    constructor; [done..|]. destruct Hpar as [?|(? & ? & _)]; auto.
  - destruct (cl_others _ _ _ _ Hcl i ni Hne Hi) as (ni' & Hi' & Hk).
    exists ni'. split; [done|]. constructor.
    + apply Hk.
    + unfold first_line. by rewrite (k_sourcepos _ _ Hk).
    + left. apply Hk.
Qed.

Lemma same_tree_refl (s : Parser) : same_tree s s.
Proof. by constructor. Qed.

Lemma same_tree_trans (s1 s2 s3 : Parser) :
  same_tree s1 s2 -> same_tree s2 s3 -> same_tree s1 s3.
Proof. intros [] []. constructor; congruence. Qed.

Lemma wf_ext (s s' : Parser) :
  heap s' = heap s -> doc s' = doc s -> tip s' = tip s ->
  line_number s' = line_number s -> wf s -> wf s'.
Proof.
  intros Hh Hd Ht Hl [].
  constructor; rewrite ?Hh, ?Hd, ?Ht, ?Hl; assumption.
Qed.

Lemma pre_same_tree (L : Z) (s s' : Parser) (c : option nat) :
  same_tree s s' -> pre L s c -> pre L s' c.
Proof.
  intros [Hh Hd Ht Ho Hm Ha Hl] [Hwf Hatt Hsp Hfc Hlk Hln].
  constructor.
  - by apply (wf_ext s).
  - unfold tip_attached. by rewrite Hh, Hd, Ht.
  - unfold spine_inv in *. rewrite Ha. destruct (all_closed s).
    + unfold open_on_spine, tip_ready. rewrite Hh, Ht, Hl. done.
    + destruct Hsp. constructor; unfold open_on_spine, leaf_open, settled;
        rewrite ?Hh, ?Ht, ?Ho, ?Hm, ?Hl, ?Hd; assumption.
  - unfold fenced_content. by rewrite Hh, Ht.
  - unfold link, target in *. by rewrite Ha, Ht, Hm, Hh.
  - by rewrite Hl.
Qed.

Lemma same_tree_advance_offset (count : Z) (columns : bool) (s : Parser) :
  same_tree s (advance_offset count columns s).
Proof. unfold advance_offset. by destruct advance_loop. Qed.

Lemma same_tree_find_next_nonspace (s : Parser) : same_tree s (find_next_nonspace s).
Proof. unfold find_next_nonspace. by destruct scan_nonspace as [[? ?] ?]. Qed.

Lemma same_tree_advance_next_nonspace (s : Parser) :
  same_tree s (advance_next_nonspace s).
Proof. done. Qed.

Lemma same_tree_advance_to_eol (s : Parser) : same_tree s (advance_to_eol s).
Proof. apply same_tree_advance_offset. Qed.

Lemma same_tree_skip_fence_offset (i : nat) (s : Parser) :
  same_tree s (skip_fence_offset i s).
Proof.
  revert s. induction i as [|i IH]; intros s; cbn; [apply same_tree_refl|].
  destruct peek_is; [|apply same_tree_refl].
  eapply same_tree_trans; [apply same_tree_advance_offset | apply IH].
Qed.

Lemma same_tree_marker_spaces_loop (fuel spaces : nat) (s s' : Parser) :
  marker_spaces_loop fuel spaces s = Ok s' -> same_tree s s'.
Proof.
  revert s. induction fuel as [|fuel IH]; intros s; cbn; [done|].
  destruct (_ && _).
  - intros H. eapply same_tree_trans; [apply same_tree_advance_offset | by apply IH].
  - intros [= <-]. apply same_tree_advance_offset.
Qed.

Lemma same_tree_parse_list_marker (s s' : Parser) (data : option ListData) :
  parse_list_marker s = Ok (s', data) -> same_tree s s'.
Proof.
  unfold parse_list_marker.
  destruct (match reBulletListMarker _ with Some _ => _ | None => _ end)
    as [[data0 mlen]|]; [|intros [= <- _]; apply same_tree_refl].
  destruct (negb _); [intros [= <- _]; apply same_tree_refl|].
  destruct (marker_spaces_loop _ _ _) as [s2|e] eqn:Hloop; cbn; [|done].
  apply same_tree_marker_spaces_loop in Hloop.
  assert (H1 : same_tree s s2).
  { eapply same_tree_trans; [|exact Hloop].
    eapply same_tree_trans; [apply same_tree_advance_next_nonspace|].
    apply same_tree_advance_offset. }
  destruct (_ || _).
  - destruct (peek_is _ _ _); intros [= <- _].
    + eapply same_tree_trans; [|apply same_tree_advance_offset].
      eapply same_tree_trans; [exact H1|]. by constructor.
    + eapply same_tree_trans; [exact H1|]. by constructor.
  - by intros [= <- _].
Qed.

Lemma shape_refl (n : Node) : shape n n.
Proof. by constructor. Qed.

Lemma shape_trans (n1 n2 n3 : Node) : shape n1 n2 -> shape n2 n3 -> shape n1 n3.
Proof. intros [] []. constructor; congruence. Qed.

Lemma same_shape_refl (s : Parser) : same_shape s s.
Proof. constructor; try done. intros i n Hi. exists n. split; [done | apply shape_refl]. Qed.

Lemma same_shape_trans (s1 s2 s3 : Parser) :
  same_shape s1 s2 -> same_shape s2 s3 -> same_shape s1 s3.
Proof.
  intros [Hl1 Hh1 ? ? ? ? ? ?] [Hl2 Hh2 ? ? ? ? ? ?].
  constructor; try congruence.
  intros i n Hi. destruct (Hh1 i n Hi) as (n2 & Hi2 & Hs2).
  destruct (Hh2 i n2 Hi2) as (n3 & Hi3 & Hs3). exists n3.
  split; [done | by eapply shape_trans].
Qed.

(** The blocks of the new state, seen from the old one. *)
Lemma same_shape_back (s s' : Parser) (i : nat) (n' : Node) :
  same_shape s s' -> heap s' !! i = Some n' ->
  exists n, heap s !! i = Some n /\ shape n n'.
Proof.
  intros Hss Hi'.
  assert (Hlt : i < length (heap s)).
  { rewrite <- (ss_length _ _ Hss). by eapply lookup_lt_Some. }
  destruct (lookup_lt_is_Some_2 _ _ Hlt) as [n Hn]. exists n. split; [done|].
  destruct (ss_heap _ _ Hss i n Hn) as (n2 & Hn2 & Hs). congruence.
Qed.

Lemma same_shape_upd (b : nat) (f : Node -> Node) (s : Parser) :
  (forall n, heap s !! b = Some n -> shape n (f n)) -> same_shape s (upd_node b f s).
Proof.
  intros Hf. constructor; try done.
  - cbn. by rewrite length_alter.
  - intros i n Hi. cbn. destruct (decide (i = b)) as [->|Hne].
    + rewrite (lookup_alter_Some _ _ _ _ Hi). eauto.
    + rewrite list_lookup_alter_ne by done. exists n. split; [done | apply shape_refl].
Qed.

Lemma same_shape_on_spine (s s' : Parser) (o : option nat) (a : nat) :
  same_shape s s' -> on_spine (heap s) o a -> on_spine (heap s') o a.
Proof.
  intros Hss Hsp. apply (on_spine_ext (heap s)); [done|].
  intros j n _ _ Hj. destruct (ss_heap _ _ Hss j n Hj) as (n' & Hj' & Hs).
  exists n'. split; [done | apply Hs].
Qed.

Lemma wf_same_shape (s s' : Parser) :
  same_shape s s' ->
  (forall i n n', heap s !! i = Some n -> heap s' !! i = Some n' ->
     is_open n = false -> t n = CodeBlock \/ t n = HtmlBlock ->
     string_content n' = None) ->
  wf s -> wf s'.
Proof.
  intros Hss Hcc Hwf.
  assert (Hback : forall i n', heap s' !! i = Some n' ->
            exists n, heap s !! i = Some n /\ shape n n')
    by (intros i n'; by apply same_shape_back).
  constructor.
  - intros i n' p Hi' Hp. destruct (Hback i n' Hi') as (n & Hi & Hs).
    apply (wf_parent_lt _ Hwf i n p Hi). by rewrite <- (sh_parent _ _ Hs).
  - intros p pn' c Hp' Hc. destruct (Hback p pn' Hp') as (pn & Hp & Hs).
    rewrite (sh_children _ _ Hs) in Hc.
    destruct (wf_children _ Hwf p pn c Hp Hc) as (cn & Hcn & Hcp).
    destruct (ss_heap _ _ Hss c cn Hcn) as (cn' & Hcn' & Hsc).
    exists cn'. split; [done|]. by rewrite (sh_parent _ _ Hsc).
  - intros i n' p Hi' Hp. destruct (Hback i n' Hi') as (n & Hi & Hs).
    rewrite (sh_parent _ _ Hs) in Hp.
    destruct (wf_container _ Hwf i n p Hi Hp) as (pn & Hpn & Hc).
    destruct (ss_heap _ _ Hss p pn Hpn) as (pn' & Hpn' & Hsp).
    exists pn'. split; [done|]. by rewrite (sh_t _ _ Hsp).
  - intros i n' Hi' Hp. destruct (Hback i n' Hi') as (n & Hi & Hs).
    rewrite (sh_parent _ _ Hs) in Hp. rewrite (ss_doc _ _ Hss).
    apply (same_shape_on_spine s); [done|]. by apply (wf_desc _ Hwf i n).
  - destruct (wf_doc _ Hwf) as (dn & Hd & Hdt & Hdp).
    destruct (ss_heap _ _ Hss _ dn Hd) as (dn' & Hd' & Hs).
    exists dn'. rewrite (ss_doc _ _ Hss), (sh_t _ _ Hs), (sh_parent _ _ Hs). done.
  - intros i n' Hi' Hp. destruct (Hback i n' Hi') as (n & Hi & Hs).
    rewrite (sh_parent _ _ Hs) in Hp. rewrite (sh_t _ _ Hs).
    by apply (wf_orphans _ Hwf i n).
  - intros x n' Hx Hx' Hleaf. destruct (Hback x n' Hx') as (n & Hn & Hs).
    rewrite (ss_tip _ _ Hss) in Hx. rewrite (sh_t _ _ Hs) in Hleaf.
    rewrite (sh_is_open _ _ Hs). by apply (wf_tip_leaf _ Hwf x n).
  - intros i n' Hi' Hclosed Hk. destruct (Hback i n' Hi') as (n & Hi & Hs).
    rewrite (sh_is_open _ _ Hs) in Hclosed. rewrite (sh_t _ _ Hs) in Hk.
    by apply (Hcc i n n').
  - intros i n' Hi'. destruct (Hback i n' Hi') as (n & Hi & Hs).
    unfold first_line. rewrite (sh_t _ _ Hs), (sh_sourcepos _ _ Hs), (ss_line_number _ _ Hss).
    by apply (wf_first_line _ Hwf i n).
  - intros i n' Hi' Hdoc. destruct (Hback i n' Hi') as (n & Hi & Hs).
    unfold first_line. rewrite (sh_sourcepos _ _ Hs), (sh_parent _ _ Hs).
    rewrite (sh_t _ _ Hs) in Hdoc. by apply (wf_doc_line _ Hwf i n).
  - intros i n' p pn' Hi' Hp Hp'. destruct (Hback i n' Hi') as (n & Hi & Hs).
    destruct (Hback p pn' Hp') as (pn & Hpn & Hsp).
    unfold first_line. rewrite (sh_sourcepos _ _ Hs), (sh_sourcepos _ _ Hsp).
    rewrite (sh_parent _ _ Hs) in Hp. by apply (wf_first_line_parent _ Hwf i n p pn).
  - intros i n' Hi' Hclosed. destruct (Hback i n' Hi') as (n & Hi & Hs).
    unfold first_line, last_line. rewrite (sh_sourcepos _ _ Hs).
    rewrite (sh_is_open _ _ Hs) in Hclosed. by apply (wf_closed_lines _ Hwf i n).
Qed.

Lemma tip_attached_same_shape (s s' : Parser) :
  same_shape s s' -> tip_attached s -> tip_attached s'.
Proof.
  intros Hss H. unfold tip_attached. rewrite (ss_tip _ _ Hss), (ss_doc _ _ Hss).
  by apply (same_shape_on_spine s).
Qed.

Lemma open_on_spine_same_shape (s s' : Parser) (o : option nat) :
  same_shape s s' -> open_on_spine s o -> open_on_spine s' o.
Proof.
  intros Hss H i n' Hi' Hopen Hp.
  destruct (same_shape_back _ _ i n' Hss Hi') as (n & Hi & Hs).
  apply (same_shape_on_spine s); [done|]. apply (H i n Hi).
  - by rewrite <- (sh_is_open _ _ Hs).
  - by rewrite <- (sh_parent _ _ Hs).
Qed.

Lemma tip_ready_same_shape (s s' : Parser) :
  same_shape s s' -> tip_ready s -> tip_ready s'.
Proof.
  intros Hss H x n' Hx Hx'.
  destruct (same_shape_back _ _ x n' Hss Hx') as (n & Hn & Hs).
  rewrite (ss_tip _ _ Hss) in Hx. unfold first_line.
  rewrite (sh_sourcepos _ _ Hs), (sh_t _ _ Hs), (ss_line_number _ _ Hss).
  by apply (H x n).
Qed.

Lemma settled_same_shape (s s' : Parser) (o : option nat) :
  same_shape s s' -> settled s o -> settled s' o.
Proof.
  intros Hss H x n' Hx Hx'.
  destruct (same_shape_back _ _ x n' Hss Hx') as (n & Hn & Hs).
  unfold first_line. rewrite (sh_sourcepos _ _ Hs), (sh_t _ _ Hs), (ss_line_number _ _ Hss).
  by apply (H x n).
Qed.

Lemma leaf_open_same_shape (s s' : Parser) (o : option nat) :
  same_shape s s' -> leaf_open s o -> leaf_open s' o.
Proof.
  intros Hss H x n' Hx Hx' Hleaf.
  destruct (same_shape_back _ _ x n' Hss Hx') as (n & Hn & Hs).
  rewrite (sh_is_open _ _ Hs). rewrite (sh_t _ _ Hs) in Hleaf. by apply (H x n).
Qed.

Lemma not_paragraph_same_shape (s s' : Parser) (o : option nat) :
  same_shape s s' ->
  (forall x n, o = Some x -> heap s !! x = Some n -> t n <> Paragraph) ->
  forall x n, o = Some x -> heap s' !! x = Some n -> t n <> Paragraph.
Proof.
  intros Hss H x n' Hx Hx'.
  destruct (same_shape_back _ _ x n' Hss Hx') as (n & Hn & Hs).
  rewrite (sh_t _ _ Hs). by apply (H x n).
Qed.

Lemma unmatched_same_shape (s s' : Parser) :
  same_shape s s' -> unmatched s -> unmatched s'.
Proof.
  intros Hss [Hop Hd (c & Hc & Hsp) Ht Hl Hst Hat].
  constructor;
    rewrite ?(ss_oldtip _ _ Hss), ?(ss_lmc _ _ Hss), ?(ss_tip _ _ Hss), ?(ss_doc _ _ Hss).
  - by apply (open_on_spine_same_shape s).
  - done.
  - exists c. split; [done|]. by apply (same_shape_on_spine s).
  - destruct Ht as [Ht|Ht]; [by left|right].
    by apply (not_paragraph_same_shape s).
  - by apply (leaf_open_same_shape s).
  - by apply (settled_same_shape s).
  - by apply (same_shape_on_spine s).
Qed.

Lemma spine_inv_same_shape (s s' : Parser) :
  same_shape s s' -> spine_inv s -> spine_inv s'.
Proof.
  intros Hss. unfold spine_inv. rewrite (ss_all_closed _ _ Hss).
  destruct (all_closed s).
  - intros [H1 H2]. rewrite (ss_tip _ _ Hss). split.
    + by apply (open_on_spine_same_shape s).
    + by apply (tip_ready_same_shape s).
  - by apply unmatched_same_shape.
Qed.

Lemma link_same_shape (s s' : Parser) (c : option nat) :
  same_shape s s' -> link s c -> link s' c.
Proof.
  intros Hss H x n' y Hx Hx' Hk Hp Hy.
  destruct (same_shape_back _ _ x n' Hss Hx') as (n & Hn & Hs).
  apply (same_shape_on_spine s); [done|]. apply (H x n y Hx Hn).
  - by rewrite <- (sh_t _ _ Hs).
  - by rewrite <- (sh_parent _ _ Hs).
  - revert Hy. unfold target.
    by rewrite (ss_all_closed _ _ Hss), (ss_tip _ _ Hss), (ss_lmc _ _ Hss).
Qed.

Lemma fenced_content_quiet (pend : bool) (s s' : Parser) :
  same_shape s s' -> quiet s s' -> fenced_content pend s -> fenced_content pend s'.
Proof.
  intros Hss Hq H i n' Hi' Hcode Hfen Hopen.
  destruct (same_shape_back _ _ i n' Hss Hi') as (n & Hi & Hs).
  destruct (Hq i n n' Hi Hi') as [-> Hf]. rewrite (ss_tip _ _ Hss).
  apply (H i n Hi).
  - by rewrite <- (sh_t _ _ Hs).
  - by rewrite <- Hf.
  - by rewrite <- (sh_is_open _ _ Hs).
Qed.

Lemma wf_quiet (s s' : Parser) : same_shape s s' -> quiet s s' -> wf s -> wf s'.
Proof.
  intros Hss Hq Hwf. apply (wf_same_shape s); [done| |done].
  intros i n n' Hi Hi' Hclosed Hk. destruct (Hq i n n' Hi Hi') as [-> _].
  by apply (wf_closed_content _ Hwf i n).
Qed.

Lemma quiet_upd (b : nat) (f : Node -> Node) (s : Parser) :
  (forall n, string_content (f n) = string_content n /\ is_fenced (f n) = is_fenced n) ->
  quiet s (upd_node b f s).
Proof.
  intros Hf i n n' Hi. cbn. destruct (decide (i = b)) as [->|Hne].
  - rewrite (lookup_alter_Some _ _ _ _ Hi). intros [= <-]. apply Hf.
  - rewrite list_lookup_alter_ne by done. intros Hi'. by replace n' with n by congruence.
Qed.

Lemma append_child_fresh (h : list Node) (tp : nat) (pn nn : Node) :
  h !! tp = Some pn -> parent nn = None ->
  append_child tp (length h) (h ++ [nn]) !! length h = Some (set_parent (Some tp) nn) /\
  append_child tp (length h) (h ++ [nn]) !! tp
    = Some (set_children (children pn ++ [length h]) pn) /\
  (forall i n, i <> tp -> h !! i = Some n ->
     append_child tp (length h) (h ++ [nn]) !! i = Some n) /\
  length (append_child tp (length h) (h ++ [nn])) = S (length h).
Proof.
  intros Htp Hnn.
  assert (Hlt : tp < length h) by (by eapply lookup_lt_Some).
  assert (Hnew : (h ++ [nn]) !! length h = Some nn) by (by apply list_lookup_middle).
  assert (Hun : unlink (length h) (h ++ [nn]) = h ++ [nn]).
  { unfold unlink. by rewrite Hnew, Hnn. }
  unfold append_child. rewrite Hun. split; [|split; [|split]].
  - rewrite list_lookup_alter_eq, list_lookup_alter_ne, Hnew by lia. done.
  - rewrite list_lookup_alter_ne, list_lookup_alter_eq by lia.
    by rewrite lookup_app_l, Htp.
  - intros i n Hi Hn. assert (i < length h) by (by eapply lookup_lt_Some).
    rewrite !list_lookup_alter_ne by lia. by rewrite lookup_app_l.
  - rewrite !length_alter, length_app. cbn. lia.
Qed.

(** The blocks of the store after [append_child]. *)
Lemma append_child_cases (h : list Node) (tp : nat) (pn nn : Node) (i : nat) (n' : Node) :
  h !! tp = Some pn -> parent nn = None ->
  append_child tp (length h) (h ++ [nn]) !! i = Some n' ->
  (i = length h /\ n' = set_parent (Some tp) nn) \/
  (i = tp /\ i < length h /\ n' = set_children (children pn ++ [length h]) pn) \/
  (i <> tp /\ i < length h /\ h !! i = Some n').
Proof.
  intros Htp Hnn Hi.
  destruct (append_child_fresh h tp pn nn Htp Hnn) as (Hnew & Hp & Hold & Hlen).
  assert (Hlt : tp < length h) by (by eapply lookup_lt_Some).
  assert (Hi_lt : i < S (length h)) by (rewrite <- Hlen; by eapply lookup_lt_Some).
  destruct (decide (i = length h)) as [->|Hne]; [left; split; [done|congruence]|].
  right. destruct (decide (i = tp)) as [->|Hne2]; [left; repeat split; [done|congruence]|].
  right. assert (Hlt2 : i < length h) by lia. repeat split; [done..|].
  destruct (lookup_lt_is_Some_2 _ _ Hlt2) as [n Hn].
  rewrite (Hold i n Hne2 Hn) in Hi. congruence.
Qed.

(** The old blocks keep everything but, for the tip, the children. *)
Lemma append_child_old (h : list Node) (tp : nat) (pn nn : Node) (i : nat) (n : Node) :
  h !! tp = Some pn -> parent nn = None -> h !! i = Some n ->
  exists n', append_child tp (length h) (h ++ [nn]) !! i = Some n' /\
             t n' = t n /\ parent n' = parent n /\ is_open n' = is_open n /\
             sourcepos n' = sourcepos n /\ string_content n' = string_content n /\
             is_fenced n' = is_fenced n.
Proof.
  intros Htp Hnn Hi.
  destruct (append_child_fresh h tp pn nn Htp Hnn) as (Hnew & Hp & Hold & Hlen).
  destruct (decide (i = tp)) as [->|Hne].
  - rewrite Htp in Hi. injection Hi as <-. eexists. split; [exact Hp|]. done.
  - exists n. split; [by apply Hold|]. done.
Qed.

Lemma append_child_on_spine (h : list Node) (tp : nat) (pn nn : Node)
    (o : option nat) (a : nat) :
  h !! tp = Some pn -> parent nn = None -> on_spine h o a ->
  on_spine (append_child tp (length h) (h ++ [nn])) o a.
Proof.
  intros Htp Hnn Hsp. apply (on_spine_ext h); [done|].
  intros j n _ _ Hj.
  destruct (append_child_old h tp pn nn j n Htp Hnn Hj) as (n' & Hn' & _ & Hp & _).
  eauto.
Qed.

Lemma can_contain_container (k tag : Kind) :
  can_contain k tag = true -> is_container k = true.
Proof. by destruct k. Qed.

Section Appended.

Variables (tag : Kind) (col : Z) (tp : nat) (pn : Node) (s : Parser).
Hypothesis Hwf : wf s.
Hypothesis Htp : heap s !! tp = Some pn.
Hypothesis Htip : tip s = Some tp.
Hypothesis Hcan : can_contain (t pn) tag = true.
Hypothesis Htag : tag <> Document.
Hypothesis Hline : (1 <= line_number s)%Z.
Hypothesis Hatt : tip_attached s.

Lemma appended_lookup_new :
  heap (appended tag col tp s) !! length (heap s)
  = Some (set_parent (Some tp) (new_node tag ((line_number s, col), (0, 0)%Z))).
Proof using Htp.
  exact (proj1 (append_child_fresh (heap s) tp pn
                  (new_node tag ((line_number s, col), (0, 0)%Z)) Htp eq_refl)).
Qed.

Lemma appended_wf : wf (appended tag col tp s).
Proof using Hwf Htp Htip Hcan Htag Hline Hatt.
  set (nn := new_node tag ((line_number s, col), (0, 0)%Z)).
  assert (Hnn : parent nn = None) by done.
  pose proof (append_child_cases (heap s) tp pn nn) as Hcases.
  pose proof (append_child_old (heap s) tp pn nn) as Hold.
  destruct (append_child_fresh (heap s) tp pn nn Htp Hnn) as (Hnew & Hp & _ & Hlen).
  assert (Hlt : tp < length (heap s)) by (by eapply lookup_lt_Some).
  assert (Hpline : (first_line pn <= line_number s)%Z).
  { destruct (wf_first_line _ Hwf tp pn Htp) as [Hd|?]; [|done].
    destruct (wf_doc_line _ Hwf tp pn Htp Hd) as [-> _]. done. }
  constructor; unfold appended; cbn -[append_child]; fold nn.
  - intros i n' p Hi Hpar.
    destruct (Hcases i n' Htp Hnn Hi) as [[-> ->] | [(-> & _ & ->) | (_ & _ & Hi0)]].
    + cbn in Hpar. injection Hpar as <-. done.
    + by apply (wf_parent_lt _ Hwf tp pn).
    + by apply (wf_parent_lt _ Hwf i n').
  - intros p pn' c Hp' Hc.
    destruct (Hcases p pn' Htp Hnn Hp') as [[-> ->] | [(-> & _ & ->) | (Hne & _ & Hp0)]].
    + cbn in Hc. by apply elem_of_nil in Hc.
    + cbn in Hc. apply elem_of_app in Hc as [Hc | Hc].
      * destruct (wf_children _ Hwf tp pn c Htp Hc) as (cn & Hcn & Hcp).
        destruct (Hold c cn Htp Hnn Hcn) as (cn' & Hcn' & _ & Hpar & _).
        exists cn'. split; [done | congruence].
      * apply list_elem_of_singleton in Hc as ->. eexists. split; [exact Hnew | done].
    + destruct (wf_children _ Hwf p pn' c Hp0 Hc) as (cn & Hcn & Hcp).
      destruct (Hold c cn Htp Hnn Hcn) as (cn' & Hcn' & _ & Hpar & _).
      exists cn'. split; [done | congruence].
  - intros i n' p Hi Hpar.
    assert (Hpc : exists pn0, heap s !! p = Some pn0 /\ is_container (t pn0) = true).
    { destruct (Hcases i n' Htp Hnn Hi) as [[-> ->] | [(-> & _ & ->) | (_ & _ & Hi0)]].
      - cbn in Hpar. injection Hpar as <-. exists pn. split; [done|].
        by eapply can_contain_container.
      - by apply (wf_container _ Hwf tp pn).
      - by apply (wf_container _ Hwf i n'). }
    destruct Hpc as (pn0 & Hpn0 & Hc).
    destruct (Hold p pn0 Htp Hnn Hpn0) as (pn0' & Hpn0' & Ht & _).
    exists pn0'. split; [done | congruence].
  - intros i n' Hi Hpar.
    destruct (Hcases i n' Htp Hnn Hi) as [[-> ->] | [(-> & _ & ->) | (_ & _ & Hi0)]].
    + eapply on_spine_up; [exact Hnew|]. cbn.
      apply (append_child_on_spine _ _ pn); [done..|].
      unfold tip_attached in Hatt. by rewrite Htip in Hatt.
    + apply (append_child_on_spine _ _ pn); [done..|]. by apply (wf_desc _ Hwf tp pn).
    + apply (append_child_on_spine _ _ pn); [done..|]. by apply (wf_desc _ Hwf i n').
  - destruct (wf_doc _ Hwf) as (dn & Hd & Hdt & Hdp).
    destruct (Hold _ dn Htp Hnn Hd) as (dn' & Hdn' & Ht & Hpar & _).
    exists dn'. split; [done|]. split; congruence.
  - intros i n' Hi Hpar.
    destruct (Hcases i n' Htp Hnn Hi) as [[-> ->] | [(-> & _ & ->) | (_ & _ & Hi0)]].
    + done.
    + by apply (wf_orphans _ Hwf tp pn).
    + by apply (wf_orphans _ Hwf i n').
  - intros x n' [= <-] Hx _. rewrite Hnew in Hx. by injection Hx as <-.
  - intros i n' Hi Hclosed Hk.
    destruct (Hcases i n' Htp Hnn Hi) as [[-> ->] | [(-> & _ & ->) | (_ & _ & Hi0)]].
    + done.
    + by apply (wf_closed_content _ Hwf tp pn).
    + by apply (wf_closed_content _ Hwf i n').
  - intros i n' Hi.
    destruct (Hcases i n' Htp Hnn Hi) as [[-> ->] | [(-> & _ & ->) | (_ & _ & Hi0)]].
    + right. cbn. lia.
    + by apply (wf_first_line _ Hwf tp pn).
    + by apply (wf_first_line _ Hwf i n').
  - intros i n' Hi Hd.
    destruct (Hcases i n' Htp Hnn Hi) as [[-> ->] | [(-> & _ & ->) | (_ & _ & Hi0)]].
    + done.
    + by apply (wf_doc_line _ Hwf tp pn).
    + by apply (wf_doc_line _ Hwf i n').
  - intros i n' p pn' Hi Hpar Hp'.
    assert (Hfl : forall q qn qn', heap s !! q = Some qn ->
              append_child tp (length (heap s)) (heap s ++ [nn]) !! q = Some qn' ->
              first_line qn' = first_line qn).
    { intros q qn qn' Hq Hq'. destruct (Hold q qn Htp Hnn Hq) as (qn2 & Hq2 & _ & _ & _ & Hsp & _).
      unfold first_line. congruence. }
    destruct (Hcases i n' Htp Hnn Hi) as [[-> ->] | [(-> & _ & ->) | (_ & _ & Hi0)]].
    + cbn in Hpar. injection Hpar as <-. rewrite (Hfl tp pn pn' Htp Hp'). done.
    + cbn in Hpar. destruct (wf_container _ Hwf tp pn p Htp Hpar) as (pn0 & Hpn0 & _).
      rewrite (Hfl p pn0 pn' Hpn0 Hp'). by apply (wf_first_line_parent _ Hwf tp pn p pn0).
    + destruct (wf_container _ Hwf i n' p Hi0 Hpar) as (pn0 & Hpn0 & _).
      rewrite (Hfl p pn0 pn' Hpn0 Hp'). by apply (wf_first_line_parent _ Hwf i n' p pn0).
  - intros i n' Hi Hclosed.
    destruct (Hcases i n' Htp Hnn Hi) as [[-> ->] | [(-> & _ & ->) | (_ & _ & Hi0)]].
    + done.
    + by apply (wf_closed_lines _ Hwf tp pn).
    + by apply (wf_closed_lines _ Hwf i n').
Qed.

Lemma appended_attached : tip_attached (appended tag col tp s).
Proof using Htp Htip Hatt.
  unfold tip_attached. eapply on_spine_up; [exact appended_lookup_new|].
  unfold appended. cbn -[append_child].
  apply (append_child_on_spine _ _ pn); [done..|].
  unfold tip_attached in Hatt. by rewrite Htip in Hatt.
Qed.

Lemma appended_open :
  open_on_spine s (tip s) -> open_on_spine (appended tag col tp s) (tip (appended tag col tp s)).
Proof using Htp Htip.
  intros Hsp i n' Hi Hopen Hpar. unfold appended in *. cbn -[append_child] in *.
  set (nn := new_node tag ((line_number s, col), (0, 0)%Z)) in *.
  assert (Hnn : parent nn = None) by done.
  assert (Hold : heap s !! i = Some n' \/ i = tp ->
                 on_spine (append_child tp (length (heap s)) (heap s ++ [nn]))
                   (Some (length (heap s))) i).
  { intros Hi0. eapply on_spine_up; [exact appended_lookup_new|]. cbn.
    apply (append_child_on_spine _ _ pn); [done..|].
    destruct Hi0 as [Hi0 | ->]; [|constructor].
    rewrite <- Htip. by apply (Hsp i n'). }
  destruct (append_child_cases _ _ _ _ _ _ Htp Hnn Hi)
    as [[-> ->] | [(-> & _ & ->) | (_ & _ & Hi0)]]; [constructor|auto..].
Qed.

Lemma appended_content :
  fenced_content false s -> fenced_content false (appended tag col tp s).
Proof using Htp.
  intros Hfc i n' Hi Hcode Hfen Hopen. unfold appended in *. cbn -[append_child] in *.
  set (nn := new_node tag ((line_number s, col), (0, 0)%Z)) in *.
  assert (Hnn : parent nn = None) by done.
  destruct (append_child_cases _ _ _ _ _ _ Htp Hnn Hi)
    as [[-> ->] | [(-> & _ & ->) | (_ & _ & Hi0)]].
  - done.
  - left. by destruct (Hfc tp pn Htp Hcode Hfen Hopen) as [?|[? _]].
  - left. by destruct (Hfc i n' Hi0 Hcode Hfen Hopen) as [?|[? _]].
Qed.

End Appended.

(** [finalize] of the tip, when it has a parent. *)
Lemma finalize_tip_wp (s : Parser) (tp : nat) (line : Z) :
  wf s -> tip s = Some tp -> fenced_content false s ->
  wp other_error (finalize s tp line) (closes tp line s).
Proof.
  intros Hwf Htip Hfc. apply finalize_wp.
  - intros n Hn Hp. pose proof (wf_parent_lt _ Hwf tp n tp Hn Hp). lia.
  - intros n Hn Hcode Hfen.
    assert (Hopen : is_open n = true).
    { apply (wf_tip_leaf _ Hwf tp n Htip Hn). by rewrite Hcode. }
    by destruct (Hfc tp n Hn Hcode Hfen Hopen) as [?|[? _]].
Qed.

Lemma add_child_close_wp (fuel : nat) (tag : Kind) (s : Parser) :
  add_pre tag s ->
  wp other_error (add_child_close fuel tag s)
    (fun s' => add_pre tag s' /\ frame s s' /\
               exists x n, tip s' = Some x /\ heap s' !! x = Some n /\
                           can_contain (t n) tag = true).
Proof.
  revert s. induction fuel as [|fuel IH]; intros s Hpre.
  - cbn. apply wp_bind, wp_node_at; [auto..|]. intros x n Hx Hn.
    destruct (can_contain (t n) tag) eqn:Hc; cbn; [|auto].
    split; [done|]. split; [apply frame_refl | eauto].
  - cbn. apply wp_bind, wp_node_at; [auto..|]. intros x n Hx Hn.
    destruct (can_contain (t n) tag) eqn:Hc; cbn.
    { split; [done|]. split; [apply frame_refl | eauto]. }
    rewrite Hx. destruct Hpre as [Hwf Hatt Hop Hfc Hcan Hline].
    apply wp_bind. eapply wp_mono; [by apply finalize_tip_wp|].
    intros s1 Hcl. cbn beta.
    destruct (cl_node _ _ _ _ Hcl) as (n0 & n' & Hn0 & Hn' & Htip1 & _).
    rewrite Hn in Hn0. injection Hn0 as <-.
    pose proof (cl_frame _ _ _ _ Hcl) as Hfr.
    assert (Hfl : (first_line n < line_number s)%Z).
    { destruct (Hcan x n Hx Hn) as [?|?]; [congruence | done]. }
    destruct (parent n) as [p|] eqn:Hp.
    + eapply wp_mono.
      * apply IH. constructor.
        -- apply (closes_wf x (line_number s - 1) s); [done..|].
           intros n1 Hn1. rewrite Hn in Hn1. injection Hn1 as <-. lia.
        -- apply (closes_attached x (line_number s - 1) s); [done..|].
           intros n1 Hn1. rewrite Hn in Hn1. injection Hn1 as <-. congruence.
        -- apply (closes_open_tip x (line_number s - 1) s); [done..|]. by rewrite <- Hx.
        -- by apply (closes_content x (line_number s - 1) s).
        -- intros y ny Hy Hny. right. rewrite Htip1 in Hy. injection Hy as <-.
           destruct (wf_container _ Hwf x n p Hn Hp) as (pn & Hpn & _).
           destruct (closes_evolves _ _ _ _ _ _ Hcl Hpn) as (pn' & Hpn' & Hev).
           rewrite Hny in Hpn'. injection Hpn' as <-.
           rewrite (ev_first_line _ _ Hev), (fr_line_number _ _ Hfr).
           pose proof (wf_first_line_parent _ Hwf x n p pn Hn Hp Hpn). lia.
        -- by rewrite (fr_line_number _ _ Hfr).
      * intros s2 (Hpre2 & Hfr2 & Hx2). split; [done|]. split; [|done].
        by eapply frame_trans.
    + (* the tip has no parent: the loop fails on the next test *)
      destruct fuel; cbn; rewrite Htip1; cbn; auto.
Qed.

Lemma add_child_wp (tag : Kind) (off : nat) (s : Parser) :
  add_pre tag s -> tag <> Document ->
  wp other_error (add_child tag off s) (fun '(s', b) => added false tag s s' b).
Proof.
  intros Hpre Htag. unfold add_child. apply wp_bind.
  eapply wp_mono; [by apply add_child_close_wp|].
  intros s1 ([Hwf Hatt Hop Hfc Hcan Hline] & Hfr & x & n & Hx & Hn & Hc). cbn beta.
  rewrite Hx. cbn.
  change (added false tag s (appended tag (Z.of_nat off + 1) x s1) (length (heap s1))).
  constructor.
  - by apply (appended_wf _ _ x n).
  - by apply (appended_attached _ _ x n).
  - by apply (appended_open _ _ x n).
  - by apply (appended_content _ _ x n).
  - done.
  - eexists. split; [by apply (appended_lookup_new _ _ x n)|]. cbn.
    by rewrite (fr_line_number _ _ Hfr).
  - cbn. apply Hfr.
  - cbn. apply Hfr.
Qed.

(** *** [close_unmatched_blocks] *)

Lemma evolves_refl (n : Node) : evolves n n.
Proof. constructor; auto. Qed.

Lemma evolves_trans (n1 n2 n3 : Node) : evolves n1 n2 -> evolves n2 n3 -> evolves n1 n3.
Proof.
  intros [Ht1 Hf1 Hp1] [Ht2 Hf2 Hp2]. constructor; [congruence..|].
  destruct Hp2 as [Hp2 | [Hp2 Hk]].
  - rewrite Hp2. done.
  - right. split; [done | congruence].
Qed.

Lemma grown_refl (s : Parser) : grown s s.
Proof. intros i n Hi. exists n. split; [done | apply evolves_refl]. Qed.

Lemma grown_trans (s1 s2 s3 : Parser) : grown s1 s2 -> grown s2 s3 -> grown s1 s3.
Proof.
  intros H1 H2 i n Hi. destruct (H1 i n Hi) as (n2 & Hi2 & He2).
  destruct (H2 i n2 Hi2) as (n3 & Hi3 & He3). exists n3.
  split; [done | by eapply evolves_trans].
Qed.

Lemma closes_grown (b : nat) (line : Z) (s s' : Parser) : closes b line s s' -> grown s s'.
Proof. intros Hcl i n Hi. by eapply closes_evolves. Qed.

Lemma grown_back (s s' : Parser) (i : nat) (n' : Node) :
  grown s s' -> length (heap s') = length (heap s) -> heap s' !! i = Some n' ->
  exists n, heap s !! i = Some n /\ evolves n n'.
Proof.
  intros Hg Hlen Hi'.
  assert (Hlt : i < length (heap s)) by (rewrite <- Hlen; by eapply lookup_lt_Some).
  destruct (lookup_lt_is_Some_2 _ _ Hlt) as [n Hn]. exists n. split; [done|].
  destruct (Hg i n Hn) as (n2 & Hn2 & He). congruence.
Qed.

Lemma closed_up_refl (s : Parser) : closed_up s s.
Proof. constructor; try done. apply grown_refl. Qed.

Lemma closed_up_trans (s1 s2 s3 : Parser) :
  closed_up s1 s2 -> closed_up s2 s3 -> closed_up s1 s3.
Proof.
  intros [? ? ? Hl1 Hg1 Hs1] [? ? ? Hl2 Hg2 Hs2].
  constructor; try congruence; [by eapply grown_trans|].
  intros x a n3 Hsp Hx3 Hp3.
  destruct (grown_back _ _ x n3 Hg2 Hl2 Hx3) as (n2 & Hx2 & Hev).
  apply (Hs2 x a n3); [|done..]. apply (Hs1 x a n2); [done..|].
  destruct (ev_parent _ _ Hev) as [<- | [? _]]; done.
Qed.

Lemma closes_closed_up (b : nat) (line : Z) (s s' : Parser) :
  wf s -> closes b line s s' -> closed_up s s'.
Proof.
  intros Hwf Hcl. pose proof (cl_frame _ _ _ _ Hcl) as [].
  constructor; try done; [apply Hcl | by eapply closes_grown |].
  intros x a n' Hsp Hx' Hp'.
  destruct (decide (x = b)) as [->|Hne];
    [|apply (closes_on_spine b line s); try done; congruence].
  apply on_spine_inv in Hsp as [-> | (n & Hn & Hup)]; [constructor|].
  destruct (cl_node _ _ _ _ Hcl)
    as (n0 & n0' & Hn0 & Hn0' & _ & _ & _ & _ & _ & _ & _ & _ & Hpar).
  rewrite Hn in Hn0. injection Hn0 as <-. rewrite Hx' in Hn0'. injection Hn0' as <-.
  destruct Hpar as [Hpar | [? _]]; [|done].
  eapply on_spine_up; [exact Hx'|]. rewrite Hpar.
  apply (closes_on_spine b line s); try done.
  intros Hp. pose proof (wf_parent_lt _ Hwf b n b Hn Hp). lia.
Qed.

Lemma close_unmatched_loop_wp (fuel : nat) (s : Parser) :
  closing s ->
  wp other_error (close_unmatched_loop fuel s)
    (fun s' => closing s' /\ oldtip s' = last_matched_container s' /\ closed_up s s').
Proof.
  revert s. induction fuel as [|fuel IH]; intros s Hc; cbn.
  - case_bool_decide; cbn; [|auto]. split; [done|]. split; [done | apply closed_up_refl].
  - case_bool_decide as Hdiff; cbn.
    { split; [done|]. split; [done | apply closed_up_refl]. }
    apply wp_bind, wp_of_option; [auto|]. intros ot Hot.
    apply wp_bind, wp_get_node; [auto|]. intros n Hn.
    destruct Hc as [Hwf Hfc Hop (c & Hlmc & Hsp) Hleaf Hset Hatt Htip].
    assert (Hne : c <> ot) by congruence.
    rewrite Hot in Hsp. apply on_spine_inv in Hsp as [? | (n0 & Hn0 & Hup)]; [done|].
    rewrite Hn in Hn0. injection Hn0 as <-.
    destruct (parent n) as [p|] eqn:Hp; [|by apply on_spine_None in Hup].
    assert (Hfl : (first_line n < line_number s)%Z).
    { destruct (Hset ot n Hot Hn) as [?|Hd]; [done|].
      destruct (wf_doc_line _ Hwf ot n Hn Hd) as [_ ?]. congruence. }
    apply wp_bind. eapply wp_mono.
    { apply finalize_wp.
      - intros n1 Hn1 Hp1. pose proof (wf_parent_lt _ Hwf ot n1 ot Hn1 Hp1). lia.
      - intros n1 Hn1 Hcode Hfen. rewrite Hn in Hn1. injection Hn1 as <-.
        assert (Hopen : is_open n = true).
        { apply (Hleaf ot n Hot Hn). by rewrite Hcode. }
        by destruct (Hfc ot n Hn Hcode Hfen Hopen) as [?|[? _]]. }
    intros s1 Hcl. cbn beta.
    destruct (cl_node _ _ _ _ Hcl) as (n0 & n' & Hn0 & Hn' & Htip1 & _).
    rewrite Hn in Hn0. injection Hn0 as <-. rewrite Hp in Htip1.
    pose proof (cl_frame _ _ _ _ Hcl) as Hfr.
    assert (Hwf1 : wf s1).
    { apply (closes_wf ot (line_number s - 1) s); [done..|].
      intros n1 Hn1. rewrite Hn in Hn1. injection Hn1 as <-. lia. }
    assert (Hatt1 : tip_attached s1).
    { apply (closes_attached ot (line_number s - 1) s); [done..|].
      intros n1 Hn1. rewrite Hn in Hn1. injection Hn1 as <-. congruence. }
    destruct (wf_container _ Hwf ot n p Hn Hp) as (pn & Hpn & Hpc).
    destruct (closes_evolves _ _ _ _ _ _ Hcl Hpn) as (pn' & Hpn' & Hev).
    eapply wp_mono.
    + apply IH. constructor; cbn.
      * by apply (wf_ext s1).
      * exact (closes_content _ _ _ _ Hcl Hfc).
      * pose proof (closes_open_tip _ _ _ _ Hwf Hcl) as Hop1.
        rewrite Htip1 in Hop1. apply Hop1. by rewrite <- Hot.
      * exists c. split; [by rewrite (fr_lmc _ _ Hfr)|].
        apply (closes_on_spine ot (line_number s - 1) s); try done.
        intros [= ->]. pose proof (wf_parent_lt _ Hwf ot n ot Hn Hp). lia.
      * intros x nx Hx0 Hx Hk. cbn in Hx0, Hx. injection Hx0 as <-.
        rewrite Hx in Hpn'. injection Hpn' as <-.
        rewrite (ev_t _ _ Hev) in Hk. congruence.
      * intros x nx Hx0 Hx. cbn in Hx0, Hx. injection Hx0 as <-.
        rewrite Hx in Hpn'. injection Hpn' as <-.
        left. cbn. rewrite (ev_first_line _ _ Hev), (fr_line_number _ _ Hfr).
        pose proof (wf_first_line_parent _ Hwf ot n p pn Hn Hp Hpn). lia.
      * unfold tip_attached in Hatt1. by rewrite Htip1 in Hatt1.
      * by right.
    + intros s2 (Hc2 & Heq & Hcu). split; [done|]. split; [done|].
      eapply closed_up_trans; [by eapply closes_closed_up|].
      destruct Hcu. by constructor.
Qed.

Lemma close_unmatched_blocks_wp (L : Z) (s : Parser) (c : option nat) :
  pre L s c ->
  wp other_error (close_unmatched_blocks s)
    (fun s' => pre L s' c /\ all_closed s' = true /\ closed_up s s' /\
               (all_closed s = true -> s' = s)).
Proof.
  intros Hpre. unfold close_unmatched_blocks.
  destruct (all_closed s) eqn:Hac; cbn -[close_unmatched_loop].
  { split; [done|]. split; [done|]. split; [apply closed_up_refl | done]. }
  destruct Hpre as [Hwf Hatt Hsp Hfc Hlk [Hl HL]].
  unfold spine_inv in Hsp. rewrite Hac in Hsp.
  destruct Hsp as [Hop Hd Hm Ht Hlf Hst Hat].
  apply wp_bind. eapply wp_mono.
  { apply close_unmatched_loop_wp. constructor; try done. by left. }
  intros s1 ([Hwf1 Hfc1 Hop1 Hm1 Hlf1 Hst1 Hat1 Htip1] & Heq & Hcu). cbn.
  destruct Htip1 as [? | Htip1]; [done|].
  split; [|split; [done|split; [|done]]].
  - constructor; cbn.
    + by apply (wf_ext s1).
    + unfold tip_attached. cbn. by rewrite Htip1.
    + unfold spine_inv. cbn. split.
      * intros i n Hi Ho Hp. rewrite Htip1. by apply (Hop1 i n).
      * intros x n Hx Hn. cbn in *. rewrite Htip1 in Hx.
        destruct (Hst1 x n Hx Hn); auto.
    + exact Hfc1.
    + intros x n' y Hx Hx' Hk Hp Hy. unfold target in Hy. cbn in *.
      destruct (grown_back _ _ x n' (cu_grown _ _ Hcu) (cu_length _ _ Hcu) Hx')
        as (n & Hn & Hev).
      rewrite (ev_t _ _ Hev) in Hk. rewrite Hx.
      apply (cu_spine _ _ Hcu x y n'); [|done..]. rewrite <- Hx.
      apply (Hlk x n y Hx Hn Hk).
      * destruct (ev_parent _ _ Hev) as [<- | [? _]]; done.
      * unfold target. rewrite Hac, <- (cu_lmc _ _ Hcu), <- Heq, <- Htip1. done.
    + cbn. by rewrite (cu_line_number _ _ Hcu).
  - destruct Hcu. by constructor.
Qed.

(** *** The block starts *)

Lemma added_same_tree (pend : bool) (tag : Kind) (s s' s'' : Parser) (b : nat) :
  same_tree s' s'' -> added pend tag s s' b -> added pend tag s s'' b.
Proof.
  intros [Hh Hd Ht Ho Hm Ha Hl] [Hwf Hatt Hop Hfc Htip Hnode Hac Hln].
  constructor; try congruence.
  - by apply (wf_ext s').
  - unfold tip_attached. by rewrite Hh, Hd, Ht.
  - unfold open_on_spine. by rewrite Hh, Ht.
  - unfold fenced_content. by rewrite Hh, Ht.
  - by rewrite Hh.
Qed.

(** An assignment to fields of the new block that keeps its shape. *)
Lemma added_upd (pend pend' : bool) (tag : Kind) (s s' : Parser) (b : nat)
    (f : Node -> Node) :
  (forall n, shape n (f n)) ->
  (pend' = false -> pend = false /\ forall n, is_fenced (f n) = is_fenced n) ->
  added pend tag s s' b -> added pend' tag s (upd_node b f s') b.
Proof.
  intros Hf Hfen [Hwf Hatt Hop Hfc Htip (nb & Hb & Hk & Hopen & Hfl & Hnf) Hac Hln].
  assert (Hss : same_shape s' (upd_node b f s')) by (by apply same_shape_upd).
  assert (Hother : forall i n', i <> b -> heap (upd_node b f s') !! i = Some n' ->
                                heap s' !! i = Some n').
  { intros i n' Hne. cbn. by rewrite list_lookup_alter_ne. }
  assert (Hb' : heap (upd_node b f s') !! b = Some (f nb))
    by (by apply lookup_alter_Some).
  constructor; try done.
  - apply (wf_same_shape s'); [done| |done].
    intros i n n' Hi Hi' Hclosed Hkind. destruct (decide (i = b)) as [->|Hne]; [congruence|].
    apply Hother in Hi'; [|done]. rewrite Hi in Hi'. injection Hi' as <-.
    by apply (wf_closed_content _ Hwf i n).
  - by apply (tip_attached_same_shape s').
  - by apply (open_on_spine_same_shape s').
  - intros i n' Hi' Hcode Hfenced Hopen'.
    destruct (decide (i = b)) as [->|Hne].
    + rewrite Hb' in Hi'. injection Hi' as <-.
      destruct pend'; [by right|]. destruct (Hfen eq_refl) as [-> Hfn].
      rewrite Hfn, Hnf in Hfenced; done.
    + apply Hother in Hi'; [|done].
      destruct (Hfc i n' Hi' Hcode Hfenced Hopen') as [?|[_ ?]]; [by left | congruence].
  - exists (f nb). split; [done|]. destruct (Hf nb) as [-> _ _ -> Hsp].
    unfold first_line. rewrite Hsp. repeat split; try done.
    intros ->. destruct (Hfen eq_refl) as [-> Hfn]. by rewrite Hfn, Hnf.
Qed.

Lemma pre_add_pre (L : Z) (s : Parser) (c : option nat) (tag : Kind) :
  pre L s c -> all_closed s = true -> tag <> Item -> add_pre tag s.
Proof.
  intros [Hwf Hatt Hsp Hfc Hlk [Hl HL]] Hac Htag.
  unfold spine_inv in Hsp. rewrite Hac in Hsp. destruct Hsp as [Hop Hready].
  constructor; try done; [|by rewrite Hl].
  intros x n Hx Hn. destruct (Hready x n Hx Hn) as [?|Hk]; [by right|left].
  destruct Hk as [-> | [-> | ->]]; by destruct tag.
Qed.

(** The new block is a container: the block starts go on below it. *)
Lemma added_pre (L : Z) (tag : Kind) (s s' : Parser) (b : nat) :
  added false tag s s' b -> all_closed s = true -> line_number s = L -> (1 <= L)%Z ->
  tag = BlockQuote \/ tag = Item ->
  pre L s' (tip s').
Proof.
  intros [Hwf Hatt Hop Hfc Htip (nb & Hb & Hk & Hopen & Hfl & Hnf) Hac Hln] Hall Hl HL Htag.
  constructor; try done.
  - unfold spine_inv. rewrite Hac, Hall. split; [done|].
    intros x n Hx Hn. rewrite Htip in Hx. injection Hx as <-.
    rewrite Hb in Hn. injection Hn as <-. right. right. by rewrite Hk.
  - intros x n y _ _ _ _ Hy. unfold target in Hy. rewrite Hac, Hall in Hy.
    rewrite Hy. constructor.
  - by rewrite Hln.
Qed.

(** The new block is a leaf. *)
Lemma added_post_leaf (L : Z) (pend : bool) (tag : Kind) (s s' : Parser) (b : nat) :
  added pend tag s s' b -> all_closed s = true -> line_number s = L -> (1 <= L)%Z ->
  accepts_lines tag = true \/ length (current_line s') <= offset s' ->
  post_leaf L s'.
Proof.
  intros [Hwf Hatt Hop Hfc Htip (nb & Hb & Hk & Hopen & Hfl & Hnf) Hac Hln] Hall Hl HL Htag.
  constructor; try done.
  - congruence.
  - intros i n Hi Hcode Hfen Hopen'.
    destruct (Hfc i n Hi Hcode Hfen Hopen') as [?|[_ ?]]; [by left | by right].
  - exists b, nb. by rewrite Hk.
  - by rewrite Hln.
Qed.

Lemma advance_loop_all (rest : str) (count : Z) (off col : nat) :
  (Z.of_nat (length rest) <= count)%Z ->
  fst (advance_loop rest count false off col) = off + length rest.
Proof.
  revert count off col. induction rest as [|c r IH]; intros count off col Hc; cbn.
  - lia.
  - cbn in Hc. destruct (Z.ltb_spec 0 count); [|lia].
    destruct (Ascii.eqb c tab); rewrite IH; lia.
Qed.

Lemma advance_to_eol_offset (s : Parser) :
  length (current_line (advance_to_eol s)) <= offset (advance_to_eol s).
Proof.
  unfold advance_to_eol, advance_offset.
  destruct (le_lt_dec (offset s) (length (current_line s))) as [Hle|Hgt].
  - pose proof (advance_loop_all (drop (offset s) (current_line s))
                  (Z.of_nat (length (current_line s)) - Z.of_nat (offset s))
                  (offset s) (column s)) as H.
    rewrite length_drop in H.
    destruct advance_loop as [off col]. cbn in *. lia.
  - rewrite drop_ge by lia. cbn. lia.
Qed.

Lemma start_post_0 (L : Z) (c : option nat) (s : Parser) :
  pre L s c -> start_post L c (s, 0%Z).
Proof. intros H. right. right. done. Qed.

#[local] Hint Resolve start_post_0 : core.

Lemma block_quote_spec : start_spec block_quote.
Proof.
  intros L s c Hpre. unfold block_quote.
  destruct (_ && _); cbn; [|auto].
  set (s2 := if peek_is _ _ _ then _ else _).
  assert (Hpre2 : pre L s2 c).
  { apply (pre_same_tree _ s); [|done]. subst s2.
    destruct peek_is.
    - eapply same_tree_trans; [|apply same_tree_advance_offset].
      eapply same_tree_trans; [|apply same_tree_advance_offset].
      apply same_tree_advance_next_nonspace.
    - eapply same_tree_trans; [|apply same_tree_advance_offset].
      apply same_tree_advance_next_nonspace. }
  apply wp_bind. eapply wp_mono; [by apply close_unmatched_blocks_wp|].
  intros s3 (Hpre3 & Hac & _). cbn beta.
  apply wp_bind.
  eapply wp_mono; [apply add_child_wp; [by eapply pre_add_pre | done]|].
  intros [s4 b] Hadd. cbn. right. left. split; [done|].
  destruct Hpre3 as [_ _ _ _ _ [Hl HL]].
  apply (added_pre L BlockQuote s3 s4 b); auto.
Qed.

Lemma atx_heading_spec : start_spec atx_heading.
Proof.
  intros L s c Hpre. unfold atx_heading.
  destruct (negb _); cbn; [|auto].
  destruct (reATXHeadingMarker _) as [[hashes len]|]; cbn; [|auto].
  set (s1 := advance_offset _ _ _).
  assert (Hpre1 : pre L s1 c).
  { apply (pre_same_tree _ s); [|done].
    eapply same_tree_trans; [|apply same_tree_advance_offset].
    apply same_tree_advance_next_nonspace. }
  apply wp_bind. eapply wp_mono; [by apply close_unmatched_blocks_wp|].
  intros s2 (Hpre2 & Hac & _). cbn beta.
  apply wp_bind.
  eapply wp_mono; [apply add_child_wp; [by eapply pre_add_pre | done]|].
  intros [s3 b] Hadd. cbn -[advance_to_eol]. left. split; [done|].
  destruct Hpre2 as [_ _ _ _ _ [Hl HL]].
  eapply (added_post_leaf L false Heading s2); try done.
  - eapply added_same_tree; [apply same_tree_advance_to_eol|].
    eapply (added_upd false false); [| |exact Hadd]; done.
  - right. apply advance_to_eol_offset.
Qed.

Lemma fenced_code_block_spec : start_spec fenced_code_block.
Proof.
  intros L s c Hpre. unfold fenced_code_block.
  destruct (negb _); cbn; [|auto].
  destruct (reCodeFence _) as [[ch len]|]; cbn; [|auto].
  apply wp_bind. eapply wp_mono; [by apply close_unmatched_blocks_wp|].
  intros s1 (Hpre1 & Hac & _). cbn beta.
  apply wp_bind.
  eapply wp_mono; [apply add_child_wp; [by eapply pre_add_pre | done]|].
  intros [s2 b] Hadd. cbn. left. split; [done|].
  destruct Hpre1 as [_ _ _ _ _ [Hl HL]].
  eapply (added_post_leaf L true CodeBlock s1); try done; [|by left].
  eapply added_same_tree.
  { eapply same_tree_trans; [|apply same_tree_advance_offset].
    apply same_tree_advance_next_nonspace. }
  eapply (added_upd false true); [| |exact Hadd]; done.
Qed.

Lemma html_block_types_other (n bt : nat) (s : Parser) (c : option nat) :
  wp other_error (html_block_types n bt s c) (fun _ => True).
Proof.
  revert bt. induction n as [|n IH]; intros bt; cbn; [done|].
  destruct (bt <=? 6).
  - destruct reHtmlBlockOpen; [exact I | apply IH].
  - destruct reHtmlBlockOpen7; [|apply IH].
    apply wp_bind, wp_node_at; [auto..|]. intros i nd _ _.
    destruct (negb _); [exact I | apply IH].
Qed.

Lemma html_block_spec : start_spec html_block.
Proof.
  intros L s c Hpre. unfold html_block.
  destruct (_ && _); cbn -[html_block_types]; [|auto].
  apply wp_bind. eapply wp_mono; [apply html_block_types_other|].
  intros [bt|] _; cbn; [|auto].
  apply wp_bind. eapply wp_mono; [by apply close_unmatched_blocks_wp|].
  intros s1 (Hpre1 & Hac & _). cbn beta.
  apply wp_bind.
  eapply wp_mono; [apply add_child_wp; [by eapply pre_add_pre | done]|].
  intros [s2 b] Hadd. cbn. left. split; [done|].
  destruct Hpre1 as [_ _ _ _ _ [Hl HL]].
  eapply (added_post_leaf L false HtmlBlock s1); try done; [|by left].
  eapply (added_upd false false); [| |exact Hadd]; done.
Qed.

Lemma thematic_break_spec : start_spec thematic_break.
Proof.
  intros L s c Hpre. unfold thematic_break.
  destruct (_ && _); cbn; [|auto].
  apply wp_bind. eapply wp_mono; [by apply close_unmatched_blocks_wp|].
  intros s1 (Hpre1 & Hac & _). cbn beta.
  apply wp_bind.
  eapply wp_mono; [apply add_child_wp; [by eapply pre_add_pre | done]|].
  intros [s2 b] Hadd. cbn -[advance_to_eol]. left. split; [done|].
  destruct Hpre1 as [_ _ _ _ _ [Hl HL]].
  eapply (added_post_leaf L false ThematicBreak s1); try done.
  - eapply added_same_tree; [apply same_tree_advance_to_eol | exact Hadd].
  - right. apply advance_to_eol_offset.
Qed.

Lemma indented_code_block_spec : start_spec indented_code_block.
Proof.
  intros L s c Hpre. unfold indented_code_block.
  destruct (indented s); cbn; [|auto].
  apply wp_bind, wp_node_at; [auto..|]. intros x n _ _.
  destruct (_ && _); cbn; [|auto].
  set (s1 := advance_offset _ _ _).
  assert (Hpre1 : pre L s1 c).
  { apply (pre_same_tree _ s); [|done]. apply same_tree_advance_offset. }
  apply wp_bind. eapply wp_mono; [by apply close_unmatched_blocks_wp|].
  intros s2 (Hpre2 & Hac & _). cbn beta.
  apply wp_bind.
  eapply wp_mono; [apply add_child_wp; [by eapply pre_add_pre | done]|].
  intros [s3 b] Hadd. cbn. left. split; [done|].
  destruct Hpre2 as [_ _ _ _ _ [Hl HL]].
  eapply (added_post_leaf L false CodeBlock s2); try done. by left.
Qed.

Lemma marker_spaces_loop_other (fuel spaces : nat) (s : Parser) (e : exn) :
  marker_spaces_loop fuel spaces s = Err e -> other_error e.
Proof.
  revert s. induction fuel as [|fuel IH]; intros s; cbn.
  - intros [= <-]. auto.
  - destruct (_ && _); [apply IH | discriminate].
Qed.

Lemma parse_list_marker_wp (s : Parser) :
  wp other_error (parse_list_marker s) (fun r => same_tree s (fst r)).
Proof.
  apply index_error_unraised.
  - unfold parse_list_marker.
    destruct (match reBulletListMarker _ with Some _ => _ | None => _ end)
      as [[data0 mlen]|]; [|discriminate].
    destruct (negb _); [discriminate|].
    destruct (marker_spaces_loop _ _ _) as [s2|e'] eqn:Hloop; cbn.
    + intros e. destruct (_ || _); [destruct peek_is|]; discriminate.
    + intros e [= <-]. by eapply marker_spaces_loop_other.
  - intros [s1 data] H. by eapply same_tree_parse_list_marker.
Qed.

(** The tip is a list: it takes an item. *)
Lemma add_pre_item (s : Parser) (x : nat) (n : Node) :
  wf s -> tip_attached s -> open_on_spine s (tip s) -> fenced_content false s ->
  (1 <= line_number s)%Z ->
  tip s = Some x -> heap s !! x = Some n -> t n = List ->
  add_pre Item s.
Proof.
  intros Hwf Hatt Hop Hfc Hl Hx Hn Hk. constructor; try done.
  intros y ny Hy Hny. left. rewrite Hx in Hy. injection Hy as <-.
  rewrite Hn in Hny. injection Hny as <-. by rewrite Hk.
Qed.

Lemma list_item_spec : start_spec list_item.
Proof.
  intros L s c Hpre. unfold list_item.
  apply wp_bind.
  apply (wp_mono _ _ (fun _ => True)).
  { destruct (negb _); [exact I|].
    apply wp_bind, wp_node_at; [auto..|]. intros; exact I. }
  intros [|] _; cbn -[parse_list_marker]; [|auto].
  apply wp_bind. eapply wp_mono; [apply parse_list_marker_wp|].
  intros [s1 [data|]] Hst; cbn -[parse_list_marker] in *.
  2:{ apply start_post_0. by apply (pre_same_tree _ s). }
  assert (Hpre1 : pre L s1 c) by (by apply (pre_same_tree _ s)).
  apply wp_bind. eapply wp_mono; [by apply close_unmatched_blocks_wp|].
  intros s2 (Hpre2 & Hac & _). cbn beta.
  apply wp_bind, wp_node_at; [auto..|]. intros x tp Hx Htp.
  pose proof Hpre2 as [Hwf2 Hatt2 Hsp2 Hfc2 _ [Hl HL]].
  unfold spine_inv in Hsp2. rewrite Hac in Hsp2. destruct Hsp2 as [Hop2 _].
  (* the state in which the item is added *)
  assert (Hitem : forall off s3, add_pre Item s3 -> all_closed s3 = true ->
            line_number s3 = L ->
            wp other_error
              (let* (s4, b) := add_child Item off s3
               in Ok (upd_node b (set_list_data data) s4, 1%Z))
              (start_post L c)).
  { intros off s3 Hap Hac3 Hl3. apply wp_bind.
    eapply wp_mono; [by apply add_child_wp|].
    intros [s4 b] Hadd. cbn. right. left. split; [done|].
    apply (added_pre L Item s3 _ b); auto.
    eapply (added_upd false false); [| |exact Hadd]; done. }
  assert (Hnew : wp other_error
            (let* s3 := (let* (s', b) := add_child List (next_nonspace s2) s2
                         in Ok (upd_node b (set_list_data data) s'))
             in let* (s4, b) := add_child Item (next_nonspace s3) s3
                in Ok (upd_node b (set_list_data data) s4, 1%Z))
            (start_post L c)).
  { apply wp_bind, wp_bind.
    eapply wp_mono; [apply add_child_wp; [by eapply pre_add_pre | done]|].
    intros [s' b] Hadd. cbn -[add_child].
    assert (Hadd' : added false List s2 (upd_node b (set_list_data data) s') b).
    { eapply (added_upd false false); [| |exact Hadd]; done. }
    destruct Hadd' as [Hwf' Hatt' Hop' Hfc' Htip' (nb & Hb & Hk & _) Hac' Hln'].
    apply Hitem; [|congruence..].
    eapply add_pre_item; eauto. rewrite Hln', Hl. done. }
  destruct (kind_eqb (t tp) List) eqn:Hkind; cbn -[add_child].
  - apply wp_bind.
    apply (wp_mono _ _ (fun _ => True)).
    { apply wp_bind, wp_node_at; [auto..|]. intros; exact I. }
    intros [|] _; [exact Hnew|]. cbn -[add_child].
    apply Hitem; [|done..].
    eapply add_pre_item; eauto; [by rewrite Hl | by destruct (t tp)].
  - exact Hnew.
Qed.

Lemma try_starts_wp (methods : list (Parser -> option nat -> result (Parser * Z))) :
  Forall start_spec methods ->
  forall L s c, pre L s c -> wp other_error (try_starts methods s c) (start_post L c).
Proof.
  induction 1 as [|m rest Hm _ IH]; intros L s c Hpre; cbn; [auto|].
  apply wp_bind. eapply wp_mono; [by apply Hm|].
  intros [s1 res] Hpost. unfold start_post in Hpost. cbn in Hpost.
  destruct Hpost as [[-> H] | [[-> H] | [-> H]]]; cbn.
  - by left.
  - right. by left.
  - by apply IH.
Qed.

(** *** [setext_heading] *)

Lemma elem_of_insert_after_id (x self sib : nat) (l : list nat) :
  x ∈ insert_after_id self sib l -> x = sib \/ x ∈ l.
Proof.
  induction l as [|a l IH]; cbn; [by intros ?%elem_of_nil|].
  destruct (a =? self).
  - rewrite !elem_of_cons. intuition.
  - rewrite !elem_of_cons. intuition.
Qed.

Lemma insert_after_other (self sib : nat) (h : list Node) (e : exn) :
  insert_after self sib h = Err e -> other_error e.
Proof.
  unfold insert_after. destruct (unlink sib h !! self) as [n|]; cbn; [|intros [= <-]; auto].
  destruct (parent n); [discriminate | intros [= <-]; auto].
Qed.

Lemma insert_after_orphan (h : list Node) (ci : nat) (c1 hn : Node) :
  h !! ci = Some c1 -> parent c1 = None -> parent hn = None ->
  insert_after ci (length h) (h ++ [hn]) = Err AttributeError.
Proof.
  intros Hci Hpar Hhn.
  assert (Hnew : (h ++ [hn]) !! length h = Some hn) by (by apply list_lookup_middle).
  assert (Hun : unlink (length h) (h ++ [hn]) = h ++ [hn]).
  { unfold unlink. by rewrite Hnew, Hhn. }
  unfold insert_after. rewrite Hun, lookup_app_l, Hci by (by eapply lookup_lt_Some).
  cbn. by rewrite Hpar.
Qed.

(** The store after the paragraph [ci] is replaced by the heading. *)
Lemma setext_heap (h : list Node) (ci p : nat) (c1 pn hn : Node) (h1 : list Node) :
  h !! ci = Some c1 -> parent c1 = Some p -> h !! p = Some pn -> p <> ci ->
  parent hn = None ->
  insert_after ci (length h) (h ++ [hn]) = Ok h1 ->
  unlink ci h1 !! length h = Some (set_parent (Some p) hn) /\
  unlink ci h1 !! ci = Some (set_parent None c1) /\
  unlink ci h1 !! p
    = Some (set_children (remove_id ci (insert_after_id ci (length h) (children pn))) pn) /\
  (forall i n, i <> ci -> i <> p -> h !! i = Some n -> unlink ci h1 !! i = Some n) /\
  length (unlink ci h1) = S (length h).
Proof.
  intros Hci Hpar Hp Hne Hhn.
  assert (Hci_lt : ci < length h) by (by eapply lookup_lt_Some).
  assert (Hp_lt : p < length h) by (by eapply lookup_lt_Some).
  assert (Hnew : (h ++ [hn]) !! length h = Some hn) by (by apply list_lookup_middle).
  assert (Hun : unlink (length h) (h ++ [hn]) = h ++ [hn]).
  { unfold unlink. by rewrite Hnew, Hhn. }
  unfold insert_after. rewrite Hun, lookup_app_l, Hci by done. cbn. rewrite Hpar.
  intros [= <-]. unfold unlink.
  rewrite !list_lookup_alter_ne, lookup_app_l, Hci, Hpar by lia.
  split; [|split; [|split; [|split]]].
  - rewrite !list_lookup_alter_ne by lia.
    rewrite list_lookup_alter_eq, list_lookup_alter_ne, Hnew by lia. done.
  - rewrite list_lookup_alter_eq, !list_lookup_alter_ne, lookup_app_l, Hci by lia. done.
  - rewrite list_lookup_alter_ne, list_lookup_alter_eq by lia.
    rewrite list_lookup_alter_ne, list_lookup_alter_eq, lookup_app_l, Hp by lia. done.
  - intros i n Hi1 Hi2 Hi. assert (i < length h) by (by eapply lookup_lt_Some).
    rewrite !list_lookup_alter_ne, lookup_app_l by lia. done.
  - rewrite !length_alter, length_app. cbn. lia.
Qed.

Section Setext.

Variables (s : Parser) (ci p : nat) (c1 pn hn : Node) (l : list nat) (h2 : list Node).
Hypothesis Hwf : wf s.
Hypothesis Hatt : tip_attached s.
Hypothesis Hop : open_on_spine s (tip s).
Hypothesis Hfc : fenced_content false s.
Hypothesis Htip : forall y, tip s = Some y -> on_spine (heap s) (Some ci) y.
Hypothesis Hci : heap s !! ci = Some c1.
Hypothesis Hk : t c1 = Paragraph.
Hypothesis Hpar : parent c1 = Some p.
Hypothesis Hp : heap s !! p = Some pn.
Hypothesis Hhn : t hn = Heading /\ parent hn = Some p /\ children hn = [] /\
                 is_open hn = true /\ sourcepos hn = sourcepos c1 /\ is_fenced hn = false.
Hypothesis Hl : forall c, c ∈ l -> c = length (heap s) \/ (c ∈ children pn /\ c <> ci).
Hypothesis H2new : h2 !! length (heap s) = Some hn.
Hypothesis H2ci : h2 !! ci = Some (set_parent None c1).
Hypothesis H2p : h2 !! p = Some (set_children l pn).
Hypothesis H2other : forall i n, i <> ci -> i <> p -> heap s !! i = Some n -> h2 !! i = Some n.
Hypothesis H2len : length h2 = S (length (heap s)).

Lemma setext_lt : p < ci /\ ci < length (heap s).
Proof using All.
  split; [by eapply (wf_parent_lt _ Hwf) | by eapply lookup_lt_Some].
Qed.

Lemma setext_cases (i : nat) (n' : Node) :
  h2 !! i = Some n' ->
  (i = length (heap s) /\ n' = hn) \/
  (i = ci /\ n' = set_parent None c1) \/
  (i = p /\ n' = set_children l pn) \/
  (i <> length (heap s) /\ i <> ci /\ i <> p /\ heap s !! i = Some n').
Proof using All.
  intros Hi.
  assert (Hlt : i < S (length (heap s))) by (rewrite <- H2len; by eapply lookup_lt_Some).
  destruct (decide (i = length (heap s))) as [->|H1]; [left; split; [done|congruence]|].
  destruct (decide (i = ci)) as [->|H2]; [right; left; split; [done|congruence]|].
  destruct (decide (i = p)) as [->|H3]; [right; right; left; split; [done|congruence]|].
  right. right. right. repeat split; try done.
  assert (Hlt2 : i < length (heap s)) by lia.
  destruct (lookup_lt_is_Some_2 _ _ Hlt2) as [n Hn].
  rewrite (H2other i n H2 H3 Hn) in Hi. congruence.
Qed.

Lemma setext_old (i : nat) (n : Node) :
  heap s !! i = Some n ->
  exists n', h2 !! i = Some n' /\ t n' = t n /\ is_open n' = is_open n /\
             sourcepos n' = sourcepos n /\ string_content n' = string_content n /\
             is_fenced n' = is_fenced n /\ (i <> ci -> parent n' = parent n).
Proof using All.
  intros Hi.
  destruct (decide (i = ci)) as [->|H2].
  { rewrite Hci in Hi. injection Hi as <-. eexists. split; [exact H2ci|]. done. }
  destruct (decide (i = p)) as [->|H3].
  { rewrite Hp in Hi. injection Hi as <-. eexists. split; [exact H2p|]. done. }
  exists n. split; [by apply H2other | done].
Qed.

(** The paragraph has no child. *)
Lemma setext_leaf (j : nat) (nj : Node) : heap s !! j = Some nj -> parent nj <> Some ci.
Proof using All.
  intros Hj Hpj. destruct (wf_container _ Hwf j nj ci Hj Hpj) as (cn & Hcn & Hc).
  rewrite Hci in Hcn. injection Hcn as <-. by rewrite Hk in Hc.
Qed.

Lemma setext_on_spine (o : option nat) (a : nat) :
  o <> Some ci -> on_spine (heap s) o a -> on_spine h2 o a.
Proof using All.
  intros Ho Hsp. apply (on_spine_ext (heap s)); [done|].
  intros j n Hj _ Hn. destruct (setext_old j n Hn) as (n' & Hn' & _ & _ & _ & _ & _ & Hpn).
  exists n'. split; [done|]. apply Hpn. intros ->.
  destruct o as [x|]; [|by apply on_spine_None in Hj].
  destruct (on_spine_above _ _ _ Hj ltac:(congruence)) as (k & nk & Hnk & Hpk).
  by apply (setext_leaf k nk).
Qed.

Lemma setext_parent_spine : on_spine h2 (Some p) (doc s).
Proof using All.
  apply setext_on_spine.
  - intros [= ->]. pose proof (wf_parent_lt _ Hwf ci c1 ci Hci Hpar). lia.
  - assert (Hd : on_spine (heap s) (Some ci) (doc s))
      by (apply (wf_desc _ Hwf ci c1 Hci); congruence).
    apply on_spine_inv in Hd as [Hd | (n0 & Hn0 & Hup)].
    + destruct (wf_doc _ Hwf) as (dn & Hdn & _ & Hdp). rewrite Hd, Hci in Hdn.
      injection Hdn as <-. congruence.
    + rewrite Hci in Hn0. injection Hn0 as <-. by rewrite Hpar in Hup.
Qed.

Lemma setext_attached : tip_attached (replaced s h2).
Proof using All.
  unfold tip_attached, replaced. cbn.
  eapply on_spine_up; [exact H2new|].
  destruct Hhn as (_ & -> & _). apply setext_parent_spine.
Qed.

Lemma setext_wf : wf (replaced s h2).
Proof using All.
  destruct Hhn as (Hht & Hhp & Hhc & Hho & Hhs & Hhf).
  destruct setext_lt as [Hlt1 Hlt2].
  assert (Hfl : forall q qn qn', heap s !! q = Some qn -> h2 !! q = Some qn' ->
                                 first_line qn' = first_line qn /\ t qn' = t qn).
  { intros q qn qn' Hq Hq'. destruct (setext_old q qn Hq) as (qn2 & Hq2 & Ht & _ & Hsp & _).
    unfold first_line. split; congruence. }
  assert (Hchild : forall q qn c, q <> ci -> heap s !! q = Some qn -> c ∈ children qn ->
            c <> ci \/ q = p).
  { intros q qn c Hq Hqn Hc. destruct (decide (c = ci)) as [->|]; [right|by left].
    destruct (wf_children _ Hwf q qn ci Hqn Hc) as (cn & Hcn & Hcp). congruence. }
  constructor; unfold replaced; cbn.
  - intros i n' q Hi Hq.
    destruct (setext_cases i n' Hi)
      as [[-> ->] | [[-> ->] | [[-> ->] | (_ & _ & _ & Hi0)]]]; cbn in Hq.
    + rewrite Hhp in Hq. injection Hq as <-. lia.
    + done.
    + by apply (wf_parent_lt _ Hwf p pn).
    + by apply (wf_parent_lt _ Hwf i n').
  - intros q qn' c Hq Hc.
    assert (Hold : forall cn, c <> ci -> heap s !! c = Some cn -> parent cn = Some q ->
              exists cn', h2 !! c = Some cn' /\ parent cn' = Some q).
    { intros cn Hne Hcn Hcp. destruct (setext_old c cn Hcn) as (cn' & Hcn' & Hrest).
      exists cn'. split; [done|]. destruct Hrest as (_ & _ & _ & _ & _ & Hpp).
      rewrite Hpp; done. }
    destruct (setext_cases q qn' Hq)
      as [[-> ->] | [[-> ->] | [[-> ->] | (_ & Hne1 & Hne2 & Hq0)]]]; cbn in Hc.
    + rewrite Hhc in Hc. by apply elem_of_nil in Hc.
    + destruct (wf_children _ Hwf ci c1 c Hci Hc) as (cn & Hcn & Hcp).
      by destruct (setext_leaf c cn Hcn).
    + destruct (Hl c Hc) as [-> | [Hc0 Hne]]; [eauto|].
      destruct (wf_children _ Hwf p pn c Hp Hc0) as (cn & Hcn & Hcp). eauto.
    + destruct (wf_children _ Hwf q qn' c Hq0 Hc) as (cn & Hcn & Hcp).
      destruct (Hchild q qn' c Hne1 Hq0 Hc) as [Hne|?]; [eauto | done].
  - intros i n' q Hi Hq.
    assert (Hpc : exists qn, heap s !! q = Some qn /\ is_container (t qn) = true).
    { destruct (setext_cases i n' Hi)
        as [[-> ->] | [[-> ->] | [[-> ->] | (_ & _ & _ & Hi0)]]]; cbn in Hq.
      - rewrite Hhp in Hq. injection Hq as <-. by apply (wf_container _ Hwf ci c1).
      - done.
      - by apply (wf_container _ Hwf p pn).
      - by apply (wf_container _ Hwf i n'). }
    destruct Hpc as (qn & Hqn & Hc).
    destruct (setext_old q qn Hqn) as (qn' & Hqn' & Ht & _).
    exists qn'. split; [done | congruence].
  - intros i n' Hi Hq.
    destruct (setext_cases i n' Hi)
      as [[-> ->] | [[-> ->] | [[-> ->] | (_ & Hne & _ & Hi0)]]]; cbn in Hq.
    + eapply on_spine_up; [exact H2new|]. rewrite Hhp. apply setext_parent_spine.
    + done.
    + apply setext_on_spine; [intros [= ->]; lia|]. by apply (wf_desc _ Hwf p pn).
    + apply setext_on_spine; [congruence|]. by apply (wf_desc _ Hwf i n').
  - destruct (wf_doc _ Hwf) as (dn & Hdn & Hdt & Hdp).
    destruct (setext_old _ dn Hdn) as (dn' & Hdn' & Ht & _ & _ & _ & _ & Hpp).
    exists dn'. split; [done|]. split; [congruence|]. rewrite Hpp; [done|].
    intros Hd. rewrite Hd, Hci in Hdn. injection Hdn as <-. congruence.
  - intros i n' Hi Hq.
    destruct (setext_cases i n' Hi)
      as [[-> ->] | [[-> ->] | [[-> ->] | (_ & _ & _ & Hi0)]]]; cbn in *.
    + congruence.
    + by right.
    + by apply (wf_orphans _ Hwf p pn).
    + by apply (wf_orphans _ Hwf i n').
  - intros x n' [= <-] Hx _. rewrite H2new in Hx. by injection Hx as <-.
  - intros i n' Hi Hclosed Hkind.
    destruct (setext_cases i n' Hi)
      as [[-> ->] | [[-> ->] | [[-> ->] | (_ & _ & _ & Hi0)]]]; cbn in *.
    + congruence.
    + rewrite Hk in Hkind. by destruct Hkind.
    + by apply (wf_closed_content _ Hwf p pn).
    + by apply (wf_closed_content _ Hwf i n').
  - intros i n' Hi.
    destruct (setext_cases i n' Hi)
      as [[-> ->] | [[-> ->] | [[-> ->] | (_ & _ & _ & Hi0)]]]; cbn.
    + right. unfold first_line. rewrite Hhs.
      destruct (wf_first_line _ Hwf ci c1 Hci) as [?|?]; [congruence | done].
    + by apply (wf_first_line _ Hwf ci c1).
    + by apply (wf_first_line _ Hwf p pn).
    + by apply (wf_first_line _ Hwf i n').
  - intros i n' Hi Hd.
    destruct (setext_cases i n' Hi)
      as [[-> ->] | [[-> ->] | [[-> ->] | (_ & _ & _ & Hi0)]]]; cbn in *.
    + congruence.
    + congruence.
    + by apply (wf_doc_line _ Hwf p pn).
    + by apply (wf_doc_line _ Hwf i n').
  - intros i n' q qn' Hi Hq Hq'.
    destruct (setext_cases i n' Hi)
      as [[-> ->] | [[-> ->] | [[-> ->] | (_ & _ & _ & Hi0)]]]; cbn in Hq.
    + rewrite Hhp in Hq. injection Hq as <-.
      destruct (Hfl p pn qn' Hp Hq') as [-> _]. unfold first_line at 2. rewrite Hhs.
      by apply (wf_first_line_parent _ Hwf ci c1 p pn).
    + done.
    + destruct (wf_container _ Hwf p pn q Hp Hq) as (qn & Hqn & _).
      destruct (Hfl q qn qn' Hqn Hq') as [-> _].
      by apply (wf_first_line_parent _ Hwf p pn q qn).
    + destruct (wf_container _ Hwf i n' q Hi0 Hq) as (qn & Hqn & _).
      destruct (Hfl q qn qn' Hqn Hq') as [-> _].
      by apply (wf_first_line_parent _ Hwf i n' q qn).
  - intros i n' Hi Hclosed.
    destruct (setext_cases i n' Hi)
      as [[-> ->] | [[-> ->] | [[-> ->] | (_ & _ & _ & Hi0)]]]; cbn in *.
    + congruence.
    + by apply (wf_closed_lines _ Hwf ci c1).
    + by apply (wf_closed_lines _ Hwf p pn).
    + by apply (wf_closed_lines _ Hwf i n').
Qed.

Lemma setext_open : open_on_spine (replaced s h2) (tip (replaced s h2)).
Proof using All.
  destruct Hhn as (Hht & Hhp & Hhc & Hho & Hhs & Hhf).
  intros i n' Hi Hopen Hq. unfold replaced in *. cbn in *.
  assert (Hold : forall n, i <> ci -> heap s !! i = Some n -> is_open n = true ->
                           parent n <> None -> on_spine h2 (Some (length (heap s))) i).
  { intros n Hne Hn Ho Hpn. eapply on_spine_up; [exact H2new|]. rewrite Hhp.
    apply setext_on_spine.
    - intros [= ->]. pose proof (wf_parent_lt _ Hwf ci c1 ci Hci Hpar). lia.
    - pose proof (Hop i n Hn Ho Hpn) as Hsp.
      destruct (tip s) as [y|] eqn:Hy; [|by apply on_spine_None in Hsp].
      pose proof (on_spine_trans _ _ _ _ (Htip y eq_refl) Hsp) as Hsp'.
      apply on_spine_inv in Hsp' as [? | (n0 & Hn0 & Hup)]; [done|].
      rewrite Hci in Hn0. injection Hn0 as <-. by rewrite Hpar in Hup. }
  destruct setext_lt as [Hlt1 Hlt2].
  destruct (setext_cases i n' Hi)
    as [[-> ->] | [[-> ->] | [[-> ->] | (_ & Hne & _ & Hi0)]]]; cbn in *.
  - constructor.
  - done.
  - apply (Hold pn); [lia | done..].
  - by apply (Hold n').
Qed.

Lemma setext_content : fenced_content true (replaced s h2).
Proof using All.
  destruct Hhn as (Hht & Hhp & Hhc & Hho & Hhs & Hhf).
  intros i n' Hi Hcode Hfen Hopen. unfold replaced in *. cbn in *. left.
  destruct (setext_cases i n' Hi)
    as [[-> ->] | [[-> ->] | [[-> ->] | (_ & Hne & _ & Hi0)]]]; cbn in *.
  - congruence.
  - congruence.
  - by destruct (Hfc p pn Hp Hcode Hfen Hopen) as [?|[? _]].
  - by destruct (Hfc i n' Hi0 Hcode Hfen Hopen) as [?|[? _]].
Qed.

End Setext.

Lemma setext_heading_spec : start_spec setext_heading.
Proof.
  intros L s c Hpre. unfold setext_heading.
  destruct (negb _); cbn; [|auto].
  apply wp_bind, wp_node_at; [auto..|]. intros ci cn -> Hcn.
  destruct (kind_eqb (t cn) Paragraph) eqn:Hkind; cbn; [|auto].
  assert (Hpara : t cn = Paragraph) by (by destruct (t cn)).
  destruct (reSetextHeadingLine _) as [ch|]; cbn; [|auto].
  apply wp_bind. eapply wp_mono; [by apply close_unmatched_blocks_wp|].
  intros s1 (Hpre1 & Hac & Hcu & _). cbn -[advance_to_eol insert_after unlink].
  destruct (cu_grown _ _ Hcu ci cn Hcn) as (c1 & Hc1 & Hev).
  rewrite Hc1. cbn -[advance_to_eol insert_after unlink].
  set (hnode := set_string_content _ _).
  destruct (insert_after ci (length (heap s1)) (heap s1 ++ [hnode])) as [h1|e] eqn:Hins;
    cbn -[advance_to_eol unlink].
  2:{ by eapply insert_after_other. }
  destruct Hpre1 as [Hwf1 Hatt1 Hsp1 Hfc1 Hlk1 [Hl HL]].
  unfold spine_inv in Hsp1. rewrite Hac in Hsp1. destruct Hsp1 as [Hop1 _].
  assert (Hk1 : t c1 = Paragraph) by (by rewrite (ev_t _ _ Hev)).
  destruct (parent c1) as [p|] eqn:Hpar.
  2:{ by rewrite (insert_after_orphan _ _ c1) in Hins. }
  assert (Htip1 : forall y, tip s1 = Some y -> on_spine (heap s1) (Some ci) y).
  { intros y Hy. apply (Hlk1 ci c1 y eq_refl Hc1 Hk1); [congruence|].
    unfold target. by rewrite Hac. }
  destruct (wf_container _ Hwf1 ci c1 p Hc1 Hpar) as (pn & Hpn & _).
  assert (Hne : p <> ci) by (pose proof (wf_parent_lt _ Hwf1 ci c1 p Hc1 Hpar); lia).
  destruct (setext_heap (heap s1) ci p c1 pn hnode h1 Hc1 Hpar Hpn Hne eq_refl Hins)
    as (H2new & H2ci & H2p & H2other & H2len).
  assert (Hl2 : forall x, x ∈ remove_id ci (insert_after_id ci (length (heap s1)) (children pn)) ->
                          x = length (heap s1) \/ (x ∈ children pn /\ x <> ci)).
  { intros x [Hx Hxne]%elem_of_remove_id.
    apply elem_of_insert_after_id in Hx as [?|?]; auto. }
  match goal with
  | |- context [advance_to_eol ?x] => change x with (replaced s1 (unlink ci h1))
  end.
  left. split; [done|]. cbn [fst].
  destruct (same_tree_advance_to_eol (replaced s1 (unlink ci h1)))
    as [Hh Hd Ht Ho Hm Ha Hln].
  assert (Hhn : t (set_parent (Some p) hnode) = Heading /\
                parent (set_parent (Some p) hnode) = Some p /\
                children (set_parent (Some p) hnode) = [] /\
                is_open (set_parent (Some p) hnode) = true /\
                sourcepos (set_parent (Some p) hnode) = sourcepos c1 /\
                is_fenced (set_parent (Some p) hnode) = false) by done.
  pose proof (setext_wf s1 ci p c1 pn _ _ (unlink ci h1) Hwf1 Hatt1 Hop1 Hfc1 Htip1 Hc1 Hk1
                Hpar Hpn Hhn Hl2 H2new H2ci H2p H2other H2len) as Hwf2.
  pose proof (setext_attached s1 ci p c1 pn _ _ (unlink ci h1) Hwf1 Hatt1 Hop1 Hfc1 Htip1
                Hc1 Hk1 Hpar Hpn Hhn Hl2 H2new H2ci H2p H2other H2len) as Hatt2.
  pose proof (setext_open s1 ci p c1 pn _ _ (unlink ci h1) Hwf1 Hatt1 Hop1 Hfc1 Htip1
                Hc1 Hk1 Hpar Hpn Hhn Hl2 H2new H2ci H2p H2other H2len) as Hop2.
  pose proof (setext_content s1 ci p c1 pn _ _ (unlink ci h1) Hwf1 Hatt1 Hop1 Hfc1 Htip1
                Hc1 Hk1 Hpar Hpn Hhn Hl2 H2new H2ci H2p H2other H2len) as Hfc2.
  constructor.
  - by apply (wf_ext (replaced s1 (unlink ci h1))).
  - unfold tip_attached. by rewrite Hh, Hd, Ht.
  - by rewrite Ha.
  - unfold open_on_spine. by rewrite Hh, Ht.
  - unfold fenced_content. by rewrite Hh, Ht.
  - exists (length (heap s1)), (set_parent (Some p) hnode).
    split; [by rewrite Ht|]. split; [rewrite Hh; exact H2new|].
    right. apply advance_to_eol_offset.
  - by rewrite Hln.
Qed.

(** *** The loop over the block starts *)

Lemma METHODS_spec : Forall start_spec METHODS.
Proof.
  unfold METHODS. repeat apply List.Forall_cons; [..|apply List.Forall_nil].
  - apply block_quote_spec.
  - apply atx_heading_spec.
  - apply fenced_code_block_spec.
  - apply html_block_spec.
  - apply setext_heading_spec.
  - apply thematic_break_spec.
  - apply list_item_spec.
  - apply indented_code_block_spec.
Qed.

Lemma block_starts_loop_wp (fuel : nat) (L : Z) (s : Parser) (c : option nat) :
  pre L s c -> wp other_error (block_starts_loop fuel s c) (starts_post L).
Proof.
  revert s c. induction fuel as [|fuel IH]; intros s c Hpre; cbn -[try_starts]; [auto|].
  assert (Hpre1 : pre L (find_next_nonspace s) c).
  { apply (pre_same_tree _ s); [apply same_tree_find_next_nonspace | done]. }
  destruct (_ && _).
  { left. cbn. apply (pre_same_tree _ (find_next_nonspace s)); [|done].
    apply same_tree_advance_next_nonspace. }
  apply wp_bind. eapply wp_mono; [by apply (try_starts_wp METHODS METHODS_spec)|].
  intros [s2 res] Hpost. unfold start_post in Hpost. cbn in Hpost. cbn -[try_starts].
  destruct Hpost as [[-> H] | [[-> H] | [-> H]]]; cbn -[try_starts].
  - right. done.
  - by apply IH.
  - left. cbn. apply (pre_same_tree _ s2); [|done].
    apply same_tree_advance_next_nonspace.
Qed.

(** *** [break_out_of_lists] *)

Lemma outermost_list_wp (fuel : nat) (s : Parser) (b : nat) (last : option nat) :
  (forall l, last = Some l -> exists n, heap s !! l = Some n /\ t n = List) ->
  wp other_error (outermost_list fuel s b last)
    (fun r => forall l, r = Some l -> exists n, heap s !! l = Some n /\ t n = List).
Proof.
  revert b last. induction fuel as [|fuel IH]; intros b last Hlast; cbn; [auto|].
  apply wp_bind, wp_get_node; [auto|]. intros n Hn.
  assert (Hlast' : forall l, (if kind_eqb (t n) List then Some b else last) = Some l ->
                             exists n0, heap s !! l = Some n0 /\ t n0 = List).
  { destruct (kind_eqb (t n) List) eqn:Hk; [|done].
    intros l [= <-]. exists n. split; [done|]. by destruct (t n). }
  destruct (parent n); [by apply IH | done].
Qed.

Lemma settled_parent (s : Parser) (x p : nat) (n : Node) :
  wf s -> heap s !! x = Some n -> parent n = Some p ->
  settled s (Some x) -> settled s (Some p).
Proof.
  intros Hwf Hn Hp Hst y pn [= <-] Hpn. left.
  pose proof (wf_first_line_parent _ Hwf x n p pn Hn Hp Hpn).
  destruct (Hst x n eq_refl Hn) as [?|Hd]; [lia|].
  destruct (wf_doc_line _ Hwf x n Hn Hd). congruence.
Qed.

Lemma settled_on_spine (s : Parser) (o : option nat) (a : nat) :
  wf s -> on_spine (heap s) o a -> settled s o -> settled s (Some a).
Proof.
  intros Hwf. induction 1 as [x | x n a Hx Hsp IH]; [done|].
  intros Hst. apply IH.
  destruct (parent n) as [p|] eqn:Hp; [|by apply on_spine_None in Hsp].
  by eapply settled_parent.
Qed.

Lemma first_line_le (s : Parser) (i : nat) (n : Node) :
  wf s -> (1 <= line_number s)%Z -> heap s !! i = Some n ->
  (first_line n <= line_number s)%Z.
Proof.
  intros Hwf Hl Hn. destruct (wf_first_line _ Hwf i n Hn) as [Hd|?]; [|done].
  destruct (wf_doc_line _ Hwf i n Hn Hd) as [-> _]. done.
Qed.

(** A parent is not a leaf. *)
Lemma leaf_open_parent (s : Parser) (x p : nat) (n : Node) :
  wf s -> heap s !! x = Some n -> parent n = Some p -> leaf_open s (Some p).
Proof.
  intros Hwf Hn Hp y pn [= <-] Hpn Hleaf.
  destruct (wf_container _ Hwf x n p Hn Hp) as (pn' & Hpn' & Hc). congruence.
Qed.

(** Closing a block above [oldtip] keeps the invariant of the unmatched
    state. *)
Lemma closes_unmatched (b : nat) (line : Z) (s s' : Parser) :
  wf s -> closes b line s s' -> oldtip s <> Some b -> unmatched s -> unmatched s'.
Proof.
  intros Hwf Hcl Hne [Hop Hd (c & Hc & Hsp) Ht Hlf Hst Hat].
  pose proof (cl_frame _ _ _ _ Hcl) as Hfr.
  destruct (cl_node _ _ _ _ Hcl) as (n & n' & Hn & Hn' & Htip & _).
  constructor; rewrite ?(fr_oldtip _ _ Hfr), ?(fr_lmc _ _ Hfr), ?(fr_doc _ _ Hfr).
  - by apply (closes_open_other b line s).
  - done.
  - exists c. split; [done|]. by apply (closes_on_spine b line s).
  - right. intros x nx Hx Hnx. rewrite Htip in Hx.
    destruct (wf_container _ Hwf b n x Hn Hx) as (pn & Hpn & Hpc).
    destruct (closes_evolves _ _ _ _ _ _ Hcl Hpn) as (pn' & Hpn' & Hev).
    rewrite Hnx in Hpn'. injection Hpn' as <-. rewrite (ev_t _ _ Hev).
    intros Hk. by rewrite Hk in Hpc.
  - intros x nx' Hx Hnx' Hleaf.
    destruct (closes_lookup _ _ _ _ _ _ Hcl Hnx') as (nx & Hnx & [-> | Hk]); [congruence|].
    rewrite (k_is_open _ _ Hk). rewrite (k_t _ _ Hk) in Hleaf. by apply (Hlf x nx).
  - intros x nx' Hx Hnx'.
    destruct (closes_lookup _ _ _ _ _ _ Hcl Hnx') as (nx & Hnx & _).
    destruct (closes_evolves _ _ _ _ _ _ Hcl Hnx) as (nx2 & Hnx2 & Hev).
    rewrite Hnx' in Hnx2. injection Hnx2 as <-.
    rewrite (ev_first_line _ _ Hev), (ev_t _ _ Hev), (fr_line_number _ _ Hfr).
    by apply (Hst x nx).
  - by apply (closes_on_spine b line s).
Qed.

Lemma break_out_loop_None (fuel : nat) (s : Parser) (ll : nat) (Q : Parser -> Prop) :
  wp other_error (break_out_loop fuel s None ll) Q.
Proof. destruct fuel; cbn; case_bool_decide; try done; cbn; auto. Qed.

(** One step of the loop, and the last call of [finalize]. *)
Lemma breaking_step (s : Parser) (b : nat) :
  breaking s (Some b) ->
  wp other_error (finalize s b (line_number s))
    (fun s1 => closes b (line_number s) s s1 /\ closed_up s s1 /\
               all_closed s1 = all_closed s /\ oldtip s1 = oldtip s /\
               forall n, heap s !! b = Some n -> breaking s1 (parent n)).
Proof.
  intros [Hwf Hfc Hlf Hst Hsp Hl].
  eapply wp_mono.
  { apply finalize_wp.
    - intros n Hn Hp. pose proof (wf_parent_lt _ Hwf b n b Hn Hp). lia.
    - intros n Hn Hcode Hfen.
      assert (Hopen : is_open n = true).
      { apply (Hlf b n eq_refl Hn). by rewrite Hcode. }
      by destruct (Hfc b n Hn Hcode Hfen Hopen) as [?|[? _]]. }
  intros s1 Hcl. cbn beta.
  pose proof (cl_frame _ _ _ _ Hcl) as Hfr.
  assert (Hwf1 : wf s1).
  { apply (closes_wf b (line_number s) s); [done..|].
    intros n Hn. by apply (first_line_le s b). }
  split; [done|]. split; [by eapply closes_closed_up|].
  split; [apply Hfr|]. split; [apply Hfr|].
  intros n Hn.
  destruct (cl_node _ _ _ _ Hcl) as (n0 & n' & Hn0 & Hn' & Htip & _).
  rewrite Hn in Hn0. injection Hn0 as <-.
  constructor; try done.
  - by apply (closes_content b (line_number s) s).
  - destruct (parent n) as [p|] eqn:Hp; [|done].
    intros y pn' [= <-] Hpn' Hleaf.
    destruct (wf_container _ Hwf b n p Hn Hp) as (pn & Hpn & Hpc).
    destruct (closes_evolves _ _ _ _ _ _ Hcl Hpn) as (pn2 & Hpn2 & Hev).
    rewrite Hpn' in Hpn2. injection Hpn2 as <-. rewrite (ev_t _ _ Hev) in Hleaf.
    congruence.
  - destruct (parent n) as [p|] eqn:Hp; [|done].
    intros y pn' [= <-] Hpn'.
    destruct (wf_container _ Hwf b n p Hn Hp) as (pn & Hpn & Hpc).
    destruct (closes_evolves _ _ _ _ _ _ Hcl Hpn) as (pn2 & Hpn2 & Hev).
    rewrite Hpn' in Hpn2. injection Hpn2 as <-.
    rewrite (ev_first_line _ _ Hev), (ev_t _ _ Hev), (fr_line_number _ _ Hfr).
    by apply (settled_parent s b p n Hwf Hn Hp Hst p pn).
  - rewrite (fr_all_closed _ _ Hfr). destruct (all_closed s).
    + rewrite <- Htip. by apply (closes_open_tip b (line_number s) s).
    + destruct Hsp as [Hum Hlt]. rewrite (fr_oldtip _ _ Hfr). split.
      * apply (closes_unmatched b (line_number s) s); try done.
        intros Ho. pose proof (Hlt b b Ho eq_refl). lia.
      * intros o p Ho Hp. pose proof (Hlt o b Ho eq_refl).
        pose proof (wf_parent_lt _ Hwf b n p Hn Hp). lia.
  - by rewrite (fr_line_number _ _ Hfr).
Qed.

Lemma break_out_loop_wp (fuel : nat) (s : Parser) (block : option nat) (ll : nat) :
  breaking s block ->
  wp other_error (break_out_loop fuel s block ll)
    (fun s' => breaking s' (Some ll) /\ closed_up s s' /\
               all_closed s' = all_closed s /\ oldtip s' = oldtip s).
Proof.
  revert s block. induction fuel as [|fuel IH]; intros s block Hbk; cbn.
  - case_bool_decide as Hb; cbn; [|auto]. subst block.
    split; [done|]. split; [apply closed_up_refl | done].
  - case_bool_decide as Hb; cbn.
    { subst block. split; [done|]. split; [apply closed_up_refl | done]. }
    destruct block as [b|]; cbn; [|auto].
    apply wp_bind. eapply wp_mono; [by apply breaking_step|].
    intros s1 (Hcl & Hcu & Hac & Hot & Hnext). cbn beta.
    apply wp_bind, wp_get_node; [auto|]. intros n' Hn'.
    destruct (cl_node _ _ _ _ Hcl)
      as (n & n0' & Hn & Hn0' & _ & _ & _ & _ & _ & _ & _ & _ & Hpar).
    rewrite Hn' in Hn0'. injection Hn0' as <-.
    destruct (parent n') as [p|] eqn:Hp'; [|apply break_out_loop_None].
    destruct Hpar as [Hpar | [? _]]; [|done].
    eapply wp_mono.
    + apply IH. rewrite Hpar. by apply Hnext.
    + intros s2 (Hbk2 & Hcu2 & Hac2 & Hot2). split; [done|].
      split; [by eapply closed_up_trans | split; congruence].
Qed.

Lemma break_out_of_lists_wp (L : Z) (s : Parser) (ci : nat) :
  pre L s (Some ci) -> last_matched_container s = Some ci ->
  (all_closed s = true -> tip s = Some ci /\ settled s (tip s)) ->
  wp other_error (break_out_of_lists s ci) (fun s' => pre L s' (tip s')).
Proof.
  intros Hpre Hlmc Hclosed. unfold break_out_of_lists.
  pose proof Hpre as [Hwf Hatt Hsp Hfc Hlk [Hl HL]].
  apply wp_bind. eapply wp_mono; [by apply outermost_list_wp|].
  intros [ll|] Hll; cbn -[break_out_loop].
  2:{ (* no enclosing list *)
      constructor; try done.
      intros x n y Hx Hn Hk Hp Hy. unfold target in Hy. unfold spine_inv in Hsp.
      destruct (all_closed s).
      - rewrite Hy. constructor.
      - destruct Hsp as [_ _ (c & Hc & Hcsp) [Ht|Ht] _ _ _].
        + rewrite Ht. rewrite Hy in Hc. injection Hc as <-. done.
        + by destruct (Ht x n Hx Hn). }
  destruct (Hll ll eq_refl) as (nl & Hnl & Hkl).
  assert (Hbk : breaking s (Some ci)).
  { unfold spine_inv in Hsp. constructor; try done; [| |destruct (all_closed s) eqn:Hac|lia].
    - destruct (all_closed s) eqn:Hac.
      + destruct (Hclosed eq_refl) as [Htip _]. intros x n Hx Hn Hleaf.
        apply (wf_tip_leaf _ Hwf x n); congruence.
      + destruct Hsp as [_ Hd (c & Hc & Hcsp) _ _ _ _].
        assert (c = ci) by congruence. subst c.
        destruct (oldtip s) as [o|] eqn:Ho; [|by apply on_spine_None in Hcsp].
        destruct (on_spine_above _ _ _ Hcsp ltac:(congruence)) as (j & nj & Hj & Hpj).
        by apply (leaf_open_parent s j ci nj).
    - destruct (all_closed s) eqn:Hac.
      + destruct (Hclosed eq_refl) as [Htip Hst]. by rewrite <- Htip.
      + destruct Hsp as [_ Hd (c & Hc & Hcsp) _ _ Hst _].
        assert (c = ci) by congruence. subst c.
        by apply (settled_on_spine s (oldtip s)).
    - destruct (Hclosed eq_refl) as [Htip _]. destruct Hsp as [Hop _]. by rewrite <- Htip.
    - split; [done|]. intros o b Ho [= <-].
      destruct Hsp as [_ Hd (c & Hc & Hcsp) _ _ _ _].
      assert (c = ci) by congruence. subst c. rewrite Ho in Hcsp.
      pose proof (on_spine_le s o ci Hwf Hcsp).
      assert (ci <> o) by congruence. lia. }
  apply wp_bind. eapply wp_mono; [by apply break_out_loop_wp|].
  intros s1 (Hbk1 & Hcu1 & Hac1 & Hot1). cbn beta.
  apply wp_bind. eapply wp_mono; [by apply breaking_step|].
  intros s2 (Hcl & Hcu2 & Hac2 & Hot2 & Hnext). cbn beta.
  apply wp_bind, wp_get_node; [auto|]. intros n2 Hn2. cbn.
  destruct (cu_grown _ _ Hcu1 ll nl Hnl) as (n1 & Hn1 & Hev1).
  assert (Hk1 : t n1 = List) by (by rewrite (ev_t _ _ Hev1)).
  pose proof (bk_wf _ _ Hbk1) as Hwf1.
  destruct (cl_node _ _ _ _ Hcl)
    as (n0 & n0' & Hn0 & Hn0' & Htip2 & _ & _ & _ & _ & _ & _ & _ & Hpar).
  rewrite Hn1 in Hn0. injection Hn0 as <-. rewrite Hn2 in Hn0'. injection Hn0' as <-.
  destruct Hpar as [Hpar | (_ & Hpara & _)]; [|congruence].
  destruct (parent n1) as [q|] eqn:Hq.
  2:{ destruct (wf_orphans _ Hwf1 ll n1 Hn1 Hq); congruence. }
  pose proof (Hnext n1 Hn1) as Hbk2. rewrite Hq in Hbk2.
  destruct Hbk2 as [Hwf2 Hfc2 Hlf2 Hst2 Hsp2 Hl2].
  rewrite Hpar.
  apply (pre_same_tree L s2); [constructor; try done; by rewrite Htip2|].
  constructor; try done.
  - apply (closes_attached ll (line_number s1) s1); try done.
    intros n Hn. rewrite Hn1 in Hn. injection Hn as <-. congruence.
  - unfold spine_inv. destruct (all_closed s2); [|by destruct Hsp2].
    rewrite Htip2. split; [done|].
    intros x nx Hx Hnx. assert (x = q) by congruence. subst x.
    destruct (Hst2 q nx eq_refl Hnx); auto.
  - intros x nx y Hx Hnx Hk _ _. assert (x = q) by congruence. subst x.
    destruct (wf_container _ Hwf2 ll n2 q Hn2) as (qn & Hqn & Hqc); [congruence|].
    rewrite Hnx in Hqn. injection Hqn as <-. by rewrite Hk in Hqc.
  - rewrite (cu_line_number _ _ Hcu2), (cu_line_number _ _ Hcu1). done.
Qed.

Lemma at_start_same_tree (L : Z) (s s' : Parser) :
  same_tree s s' -> at_start L s -> at_start L s'.
Proof.
  intros [Hh Hd Ht Ho Hm Ha Hl] [Hwf Hatt Hop Hfc Hot Hst Hln].
  constructor.
  - by apply (wf_ext s).
  - unfold tip_attached. by rewrite Hh, Hd, Ht.
  - unfold open_on_spine. by rewrite Hh, Ht.
  - unfold fenced_content. by rewrite Hh, Ht.
  - congruence.
  - unfold settled. by rewrite Hh, Ht, Hl.
  - by rewrite Hl.
Qed.

Lemma line_inv_ext (s s' : Parser) :
  heap s' = heap s -> doc s' = doc s -> tip s' = tip s ->
  line_number s' = line_number s -> line_inv s -> line_inv s'.
Proof.
  intros Hh Hd Ht Hl [Hwf Hatt Hop Hfc]. constructor.
  - by apply (wf_ext s).
  - unfold tip_attached. by rewrite Hh, Hd, Ht.
  - unfold open_on_spine. by rewrite Hh, Ht.
  - unfold fenced_content. by rewrite Hh, Ht.
Qed.

Lemma Block_continue_wp (k : Kind) (s : Parser) (lc : nat) :
  (forall n, heap s !! lc = Some n -> parent n <> Some lc) ->
  (forall n, heap s !! lc = Some n -> t n = CodeBlock -> is_fenced n = true ->
             has_nl (string_content n)) ->
  wp other_error (Block_continue_ k s lc)
    (fun r => (snd r = 2%Z /\ k = CodeBlock /\ closes lc (line_number s) s (fst r)) \/
              ((snd r = 0%Z \/ snd r = 1%Z) /\ same_tree s (fst r))).
Proof.
  intros Hself Hnl.
  destruct k; cbn.
  - right. split; [by left | apply same_tree_refl].
  - right. split; [by left | apply same_tree_refl].
  - unfold BlockQuote_continue_. destruct (_ && _); cbn.
    + right. split; [by left|]. destruct peek_is.
      * apply (same_tree_trans _ (advance_offset 1 false (advance_next_nonspace s)));
          [|by constructor].
        eapply same_tree_trans; [|apply same_tree_advance_offset].
        apply same_tree_advance_next_nonspace.
      * eapply same_tree_trans; [|apply same_tree_advance_offset].
        apply same_tree_advance_next_nonspace.
    + right. split; [by right | apply same_tree_refl].
  - unfold Item_continue_. apply wp_bind, wp_get_node; [auto|]. intros n Hn.
    destruct (_ && _); cbn.
    { right. split; [by left | apply same_tree_advance_next_nonspace]. }
    apply wp_bind, wp_of_option; [auto|]. intros mo _.
    apply wp_bind, wp_of_option; [auto|]. intros pd _.
    destruct (_ <=? _); cbn.
    + right. split; [by left | apply same_tree_advance_offset].
    + right. split; [by right | apply same_tree_refl].
  - right. split; [by right | apply same_tree_refl].
  - right. split; [by right | apply same_tree_refl].
  - unfold CodeBlock_continue_. apply wp_bind, wp_get_node; [auto|]. intros n Hn.
    destruct (is_fenced n) eqn:Hfen.
    + assert (Hskip : wp other_error
                (Ok (skip_fence_offset (fence_offset n) s, 0%Z))
                (fun r => (snd r = 2%Z /\ CodeBlock = CodeBlock /\
                           closes lc (line_number s) s (fst r)) \/
                          ((snd r = 0%Z \/ snd r = 1%Z) /\ same_tree s (fst r)))).
      { right. split; [by left | apply same_tree_skip_fence_offset]. }
      destruct (closing_fence_match s n) as [len|]; [|exact Hskip].
      destruct (_ <=? _); [|exact Hskip].
      apply wp_bind. eapply wp_mono; [by apply finalize_wp|].
      intros s1 Hcl. left. done.
    + destruct (_ <=? _); cbn.
      { right. split; [by left | apply same_tree_advance_offset]. }
      destruct (blank s); cbn.
      * right. split; [by left | apply same_tree_advance_next_nonspace].
      * right. split; [by right | apply same_tree_refl].
  - unfold HtmlBlock_continue_. apply wp_bind, wp_get_node; [auto|]. intros n Hn.
    destruct (_ && _); cbn.
    + right. split; [by right | apply same_tree_refl].
    + right. split; [by left | apply same_tree_refl].
  - right. split; [|apply same_tree_refl]. cbn. destruct (blank s); auto.
Qed.

(** An open leaf of the tree is the tip. *)
Lemma open_leaf_tip (s : Parser) (x : nat) (n : Node) :
  wf s -> open_on_spine s (tip s) ->
  heap s !! x = Some n -> is_open n = true -> parent n <> None ->
  is_container (t n) = false -> tip s = Some x.
Proof.
  intros Hwf Hop Hn Hopen Hp Hleaf.
  pose proof (Hop x n Hn Hopen Hp) as Hsp.
  destruct (tip s) as [y|]; [|by apply on_spine_None in Hsp].
  destruct (decide (x = y)) as [->|Hne]; [done|].
  destruct (on_spine_above _ _ _ Hsp Hne) as (j & nj & Hj & Hpj).
  destruct (wf_container _ Hwf j nj x Hj Hpj) as (n0 & Hn0 & Hc). congruence.
Qed.

Lemma continue_loop_wp (fuel len : nat) (L : Z) (s : Parser) (container : nat) :
  at_start L s -> matched s container ->
  wp other_error (continue_loop Block_continue_ fuel len s container)
    (fun r => match snd r with
              | None => line_inv (fst r) /\ line_number (fst r) = L
              | Some c => at_start L (fst r) /\
                          exists x, c = Some x /\ matched (fst r) x
              end).
Proof.
  revert s container. induction fuel as [|fuel IH]; intros s container Hs Hm.
  - cbn. apply wp_bind, wp_get_node; [auto|]. intros n Hn.
    destruct (last_child n) as [lc|]; cbn; [|eauto].
    apply wp_bind, wp_get_node; [auto|]. intros lcn Hlc.
    destruct (is_open lcn); cbn; [auto | eauto].
  - cbn. apply wp_bind, wp_get_node; [auto|]. intros n Hn.
    destruct (last_child n) as [lc|] eqn:Hlast; cbn; [|eauto].
    apply wp_bind, wp_get_node; [auto|]. intros lcn Hlc.
    destruct (is_open lcn) eqn:Hopen; cbn; [|eauto].
    pose proof Hs as [Hwf Hatt Hop Hfc Hot Hst [Hl HL]].
    assert (Hin : lc ∈ children n).
    { unfold last_child in Hlast. apply last_Some in Hlast as [l' ->].
      apply elem_of_app. right. by apply list_elem_of_singleton. }
    destruct (wf_children _ Hwf container n lc Hn Hin) as (lcn' & Hlc' & Hpar).
    rewrite Hlc in Hlc'. injection Hlc' as <-.
    set (s1 := find_next_nonspace s).
    assert (Hst1 : same_tree s s1) by apply same_tree_find_next_nonspace.
    assert (Hs1 : at_start L s1) by (by apply (at_start_same_tree L s)).
    assert (Hlc1 : heap s1 !! lc = Some lcn) by (by rewrite (st_heap _ _ Hst1)).
    apply wp_bind. eapply wp_mono.
    { apply Block_continue_wp.
      - intros n1 Hn1. rewrite Hlc1 in Hn1. injection Hn1 as <-.
        intros Hp. pose proof (wf_parent_lt _ Hwf lc lcn lc Hlc Hp). lia.
      - intros n1 Hn1 Hcode Hfen. rewrite Hlc1 in Hn1. injection Hn1 as <-.
        by destruct (Hfc lc lcn Hlc Hcode Hfen Hopen) as [?|[? _]]. }
    intros [s2 rv] Hpost. cbn in Hpost. cbn -[continue_loop].
    destruct Hpost as [(-> & Hk & Hcl) | [[-> | ->] Hst2]]; cbn -[continue_loop].
    + (* the closing fence: the line is used up *)
      destruct Hs1 as [Hwf1 Hatt1 Hop1 Hfc1 Hot1 Hst1' [Hl1 _]].
      assert (Htip1 : tip s1 = Some lc).
      { apply (open_leaf_tip s1 lc lcn); try done; [congruence | by rewrite Hk]. }
      split; [|cbn; by rewrite (fr_line_number _ _ (cl_frame _ _ _ _ Hcl))].
      apply (line_inv_ext s2); [done..|].
      constructor.
      * apply (closes_wf lc (line_number s1) s1); try done.
        intros n1 Hn1. apply (first_line_le s1 lc); [done|lia|done].
      * apply (closes_attached lc (line_number s1) s1); try done.
        intros n1 Hn1. rewrite Hlc1 in Hn1. injection Hn1 as <-. congruence.
      * apply (closes_open_tip lc (line_number s1) s1); try done. by rewrite <- Htip1.
      * exact (closes_content _ _ _ _ Hcl Hfc1).
    + apply IH.
      * apply (at_start_same_tree L s1); done.
      * right. exists lcn. rewrite (st_heap _ _ Hst2). split; [done|]. split; [done|].
        congruence.
    + assert (Hlc2 : heap s2 !! lc = Some lcn) by (by rewrite (st_heap _ _ Hst2)).
      unfold get_node. rewrite Hlc2. cbn. split.
      * apply (at_start_same_tree L s1); done.
      * exists container. split; [done|].
        destruct Hm as [-> | (n0 & Hn0 & Ho & Hp)].
        -- left. by rewrite (st_doc _ _ Hst2), (st_doc _ _ Hst1).
        -- right. exists n0. by rewrite (st_heap _ _ Hst2), (st_heap _ _ Hst1).
Qed.

(** *** The text of the line *)

Lemma index_of_app_end (c : ascii) (a : str) : index_of c (a ++ [c]) <> None.
Proof.
  induction a as [|x a IH]; cbn.
  - by rewrite Ascii.eqb_refl.
  - destruct (Ascii.eqb x c); [done|]. by destruct (index_of c (a ++ [c])).
Qed.

Lemma has_nl_add_line (content rest : str) : has_nl (Some (content ++ rest ++ [nl])).
Proof.
  eexists. split; [done|]. rewrite app_assoc. apply index_of_app_end.
Qed.

Lemma add_line_wp (s : Parser) :
  wf s -> fenced_content true s ->
  wp other_error (add_line s)
    (fun s' => same_shape s s' /\ same_cursor s s' /\ wf s' /\ fenced_content false s').
Proof.
  intros Hwf Hfc. unfold add_line.
  apply wp_bind, wp_of_option; [auto|]. intros tp Htp.
  apply wp_bind, wp_get_node; [auto|]. intros n Hn.
  apply wp_bind, wp_of_option; [auto|]. intros content Hcontent. cbn.
  set (f := set_string_content _).
  assert (Hss : same_shape s (upd_node tp f s)) by (by apply same_shape_upd).
  assert (Hother : forall i n', i <> tp -> heap (upd_node tp f s) !! i = Some n' ->
                                heap s !! i = Some n').
  { intros i n' Hne. cbn. by rewrite list_lookup_alter_ne. }
  assert (Htp' : heap (upd_node tp f s) !! tp = Some (f n)) by (by apply lookup_alter_Some).
  split; [done|]. split; [done|]. split.
  - apply (wf_same_shape s); [done| |done].
    intros i ni ni' Hi Hi' Hclosed Hk. destruct (decide (i = tp)) as [->|Hne].
    + rewrite Hn in Hi. injection Hi as <-.
      pose proof (wf_closed_content _ Hwf tp n Hn Hclosed Hk). congruence.
    + apply Hother in Hi'; [|done]. rewrite Hi in Hi'. injection Hi' as <-.
      by apply (wf_closed_content _ Hwf i ni).
  - intros i n' Hi' Hcode Hfen Hopen. left.
    destruct (decide (i = tp)) as [->|Hne].
    + rewrite Htp' in Hi'. injection Hi' as <-. apply has_nl_add_line.
    + apply Hother in Hi'; [|done].
      destruct (Hfc i n' Hi' Hcode Hfen Hopen) as [?|[_ ?]]; [done | congruence].
Qed.

Lemma propagate_last_line_blank_wp (fuel : nat) (v : bool) (c : option nat) (s : Parser) :
  wp other_error (propagate_last_line_blank fuel v c s)
    (fun s' => same_shape s s' /\ quiet s s' /\ same_cursor s s').
Proof.
  assert (Hrefl : forall s0, same_shape s0 s0 /\ quiet s0 s0 /\ same_cursor s0 s0).
  { intros s0. split; [apply same_shape_refl|]. split; [|done]. intros i n n' Hi Hi'.
    by replace n' with n by congruence. }
  revert c s. induction fuel as [|fuel IH]; intros [c|] s; cbn; auto.
  apply wp_bind, wp_get_node; [auto|]. intros n Hn.
  eapply wp_mono; [apply IH|]. intros s' (Hss & Hq & Hsc). cbn beta.
  assert (Hss0 : same_shape s (upd_node c (set_last_line_blank v) s))
    by (by apply same_shape_upd).
  assert (Hq0 : quiet s (upd_node c (set_last_line_blank v) s))
    by (by apply quiet_upd).
  split; [by eapply same_shape_trans|]. split.
  - intros i ni ni' Hi Hi'.
    destruct (ss_heap _ _ Hss0 i ni Hi) as (n1 & Hn1 & _).
    destruct (Hq0 i ni n1 Hi Hn1) as [<- <-]. by apply (Hq i n1 ni').
  - destruct Hsc. by constructor.
Qed.

(** [finalize] of an HTML block without content fails. *)
Lemma finalize_html_closed (s : Parser) (b : nat) (line : Z) (n : Node)
    (Q : Parser -> Prop) :
  heap s !! b = Some n -> t n = HtmlBlock -> string_content n = None ->
  wp other_error (finalize s b line) Q.
Proof.
  intros Hn Hk Hsc. unfold finalize, get_node. rewrite Hn. cbn. rewrite Hk. cbn.
  unfold HtmlBlock_finalize, get_node. cbn.
  rewrite (lookup_alter_Some _ _ _ _ Hn). cbn. rewrite Hsc.
  rewrite bool_decide_eq_false_2 by done. cbn. auto.
Qed.

Lemma fenced_content_weaken (s : Parser) : fenced_content false s -> fenced_content true s.
Proof.
  intros H i n Hi Hc Hf Ho. destruct (H i n Hi Hc Hf Ho) as [?|[? _]]; [by left | done].
Qed.

Lemma placing_quiet (L : Z) (s s' : Parser) (c : option nat) :
  same_shape s s' -> quiet s s' -> same_cursor s s' -> placing L s c -> placing L s' c.
Proof.
  intros Hss Hq [Hcl Hoff] [Hwf Hatt Hop Hfc Hl Htip]. constructor.
  - by apply (wf_quiet s).
  - by apply (tip_attached_same_shape s).
  - rewrite (ss_tip _ _ Hss). by apply (open_on_spine_same_shape s).
  - by apply (fenced_content_quiet _ s).
  - by rewrite (ss_line_number _ _ Hss).
  - destruct Htip as [[Hr Hf] | (Hc & x & n & Hx & Hn & Hk)].
    + left. split; [by apply (tip_ready_same_shape s) | by apply (fenced_content_quiet _ s)].
    + right. rewrite (ss_tip _ _ Hss). split; [done|].
      destruct (ss_heap _ _ Hss x n Hn) as (n' & Hn' & Hs).
      exists x, n'. rewrite (sh_t _ _ Hs), Hcl, Hoff. done.
Qed.

Lemma placing_line_inv (L : Z) (s : Parser) (c : option nat) :
  placing L s c -> fenced_content false s -> line_inv s /\ line_number s = L.
Proof. intros [Hwf Hatt Hop Hfc [Hl _] Htip] Hfc'. split; [by constructor | done]. Qed.

(** The part of [place_text] after [close_unmatched_blocks]. *)
Lemma place_closed_wp (L : Z) (s1 : Parser) (c : option nat) :
  placing L s1 c ->
  wp other_error
    (let* s2 :=
       if blank s1 then
         (let* cn := node_at s1 c in
          match last_child cn with
          | Some lc => Ok (upd_node lc (set_last_line_blank true) s1)
          | None => Ok s1
          end)
       else Ok s1 in
     let* cn := node_at s2 c in
     let k := t cn in
     let last_line_blank_ :=
       blank s2 &&
       negb (kind_eqb k BlockQuote ||
             (kind_eqb k CodeBlock && is_fenced cn) ||
             (kind_eqb k Item && is_none (first_child cn) &&
              bool_decide (fst (fst (sourcepos cn)) = line_number s2))) in
     let* s3 := propagate_last_line_blank (S (length (heap s2))) last_line_blank_ c s2 in
     if accepts_lines k then
       let* s4 := add_line s3 in
       let* c4 := node_at s4 c in
       if kind_eqb k HtmlBlock && (1 <=? html_block_type c4) && (html_block_type c4 <=? 5)
          && reHtmlBlockClose (html_block_type c4) (drop (offset s4) (current_line s4))
       then
         let* ci := of_option AttributeError c in
         finalize s4 ci (line_number s4)
       else Ok s4
     else if (offset s3 <? length (current_line s3)) && negb (blank s3) then
       let* (s4, _) := add_child Paragraph (offset s3) s3 in
       add_line (advance_next_nonspace s4)
     else Ok s3)
    (fun s' => line_inv s' /\ line_number s' = L).
Proof.
  intros Hpg. apply wp_bind.
  apply (wp_mono _ _ (fun s2 => placing L s2 c)).
  { destruct (blank s1); cbn; [|done].
    apply wp_bind, wp_node_at; [auto..|]. intros x cn _ _.
    destruct (last_child cn) as [lc|]; cbn; [|done].
    apply (placing_quiet L s1); try done.
    - by apply same_shape_upd.
    - by apply quiet_upd. }
  intros s2 Hpg2. cbn beta.
  apply wp_bind, wp_node_at; [auto..|]. intros ci cn -> Hcn.
  cbn zeta. apply wp_bind.
  eapply wp_mono; [apply propagate_last_line_blank_wp|].
  intros s3 (Hss3 & Hq3 & Hsc3). cbn beta.
  pose proof (placing_quiet L s2 s3 _ Hss3 Hq3 Hsc3 Hpg2) as Hpg3.
  destruct (ss_heap _ _ Hss3 ci cn Hcn) as (cn3 & Hcn3 & Hshape3).
  pose proof Hpg3 as [Hwf3 Hatt3 Hop3 Hfc3 [Hl3 HL] Htip3].
  destruct (accepts_lines (t cn)) eqn:Hacc.
  - apply wp_bind. eapply wp_mono; [by apply add_line_wp|].
    intros s4 (Hss4 & Hsc4 & Hwf4 & Hfc4). cbn beta.
    assert (Hli4 : line_inv s4).
    { constructor; try done.
      - by apply (tip_attached_same_shape s3).
      - rewrite (ss_tip _ _ Hss4). by apply (open_on_spine_same_shape s3). }
    assert (Hl4 : line_number s4 = L) by (by rewrite (ss_line_number _ _ Hss4)).
    apply wp_bind, wp_node_at; [auto..|]. intros ci' c4 [= <-] Hc4.
    destruct (_ && _) eqn:Hcond; cbn; [|done].
    assert (Hk : t cn = HtmlBlock).
    { destruct (t cn); try done; by rewrite ?andb_false_l in Hcond. }
    destruct (ss_heap _ _ Hss4 ci cn3 Hcn3) as (c4' & Hc4' & Hshape4).
    rewrite Hc4 in Hc4'. injection Hc4' as <-.
    assert (Hk4 : t c4 = HtmlBlock).
    { by rewrite (sh_t _ _ Hshape4), (sh_t _ _ Hshape3). }
    destruct (is_open c4) eqn:Hopen4.
    2:{ apply (finalize_html_closed _ _ _ c4); try done.
        apply (wf_closed_content _ Hwf4 ci c4); auto. }
    assert (Hatt4 : parent c4 <> None).
    { intros Hp. destruct (wf_orphans _ Hwf4 ci c4 Hc4 Hp); congruence. }
    assert (Htip4 : tip s4 = Some ci).
    { apply (open_leaf_tip s4 ci c4); try done; [apply Hli4 | by rewrite Hk4]. }
    eapply wp_mono.
    { apply finalize_wp.
      - intros n Hn Hp. pose proof (wf_parent_lt _ Hwf4 ci n ci Hn Hp). lia.
      - intros n Hn Hcode. rewrite Hc4 in Hn. injection Hn as <-. congruence. }
    intros s5 Hcl. cbn beta. split.
    + constructor.
      * apply (closes_wf ci (line_number s4) s4); try done.
        intros n Hn. apply (first_line_le s4 ci); [done|lia|done].
      * apply (closes_attached ci (line_number s4) s4); try done.
        intros n Hn. rewrite Hc4 in Hn. by injection Hn as <-.
      * apply (closes_open_tip ci (line_number s4) s4); try done.
        rewrite <- Htip4. apply Hli4.
      * exact (closes_content _ _ _ _ Hcl Hfc4).
    + by rewrite (fr_line_number _ _ (cl_frame _ _ _ _ Hcl)).
  - (* the container takes no line: the tip is no pending leaf *)
    assert (Hready : length (current_line s3) <= offset s3 \/
                     (tip_ready s3 /\ fenced_content false s3)).
    { destruct Htip3 as [?|(Hc & x & n & Hx & Hn & [Hk | Hk])]; [by right| |by left].
      assert (x = ci) by congruence. subst x.
      rewrite Hcn3 in Hn. injection Hn as <-. rewrite (sh_t _ _ Hshape3) in Hk.
      congruence. }
    assert (Hstrict : fenced_content false s3).
    { destruct Htip3 as [[_ ?]|(Hc & x & n & Hx & Hn & Hk)]; [done|].
      assert (x = ci) by congruence. subst x.
      rewrite Hcn3 in Hn. injection Hn as <-.
      intros i ni Hi Hcode Hfen Hopen. left.
      destruct (Hfc3 i ni Hi Hcode Hfen Hopen) as [?|[_ Hi']]; [done|].
      assert (i = ci) by congruence. subst i.
      rewrite Hcn3 in Hi. injection Hi as <-. rewrite (sh_t _ _ Hshape3) in Hcode.
      by rewrite Hcode in Hacc. }
    destruct (_ && _) eqn:Hcond; cbn; [|by apply (placing_line_inv L s3 (Some ci))].
    apply andb_true_iff in Hcond as [Hoff%Nat.ltb_lt _].
    destruct Hready as [?|[Hready _]]; [lia|].
    apply wp_bind. eapply wp_mono.
    { apply add_child_wp; [|done]. constructor; try done; [|lia].
      intros x n Hx Hn. destruct (Hready x n Hx Hn) as [?|Hk]; [by right|left].
      by destruct Hk as [-> | [-> | ->]]. }
    intros [s4 b] Hadd. cbn beta iota.
    assert (Hadd' : added false Paragraph s3 (advance_next_nonspace s4) b).
    { eapply added_same_tree; [apply same_tree_advance_next_nonspace | done]. }
    destruct Hadd' as [Hwf5 Hatt5 Hop5 Hfc5 Htip5 _ _ Hl5].
    eapply wp_mono; [apply add_line_wp; [done | by apply fenced_content_weaken]|].
    intros s6 (Hss6 & _ & Hwf6 & Hfc6). cbn beta. split.
    + constructor; try done.
      * by apply (tip_attached_same_shape (advance_next_nonspace s4)).
      * rewrite (ss_tip _ _ Hss6).
        by apply (open_on_spine_same_shape (advance_next_nonspace s4)).
    + rewrite (ss_line_number _ _ Hss6). cbn in *. congruence.
Qed.

Lemma place_text_wp (L : Z) (s : Parser) (c : option nat) :
  starts_post L (s, c) ->
  wp other_error (place_text s c) (fun s' => line_inv s' /\ line_number s' = L).
Proof.
  intros Hpost. unfold starts_post in Hpost. cbn in Hpost. unfold place_text.
  apply wp_bind.
  apply (wp_mono _ _ (fun lazy : bool =>
           lazy = true ->
           all_closed s = false /\
           exists x n, tip s = Some x /\ heap s !! x = Some n /\ t n = Paragraph)).
  { destruct (all_closed s); cbn; [done|]. destruct (blank s); cbn; [done|].
    apply wp_bind, wp_node_at; [auto..|]. intros x n Hx Hn. cbn.
    intros Hk. split; [done|]. exists x, n. by destruct (t n). }
  intros [|] Hlazy.
  - (* a lazy paragraph continuation *)
    destruct (Hlazy eq_refl) as (Hac & x & n & Hx & Hn & Hk).
    destruct Hpost as [Hpre | [Hpl _]]; [|destruct Hpl; congruence].
    destruct Hpre as [Hwf Hatt Hsp Hfc Hlk [Hl HL]].
    unfold spine_inv in Hsp. rewrite Hac in Hsp.
    destruct Hsp as [Hop _ _ Ht _ _ _].
    destruct Ht as [Ht | Ht]; [|by destruct (Ht x n Hx Hn)].
    eapply wp_mono; [apply add_line_wp; [done | by apply fenced_content_weaken]|].
    intros s' (Hss & _ & Hwf' & Hfc'). cbn beta. split.
    + constructor; try done.
      * by apply (tip_attached_same_shape s).
      * rewrite (ss_tip _ _ Hss), Ht. by apply (open_on_spine_same_shape s).
    + by rewrite (ss_line_number _ _ Hss).
  - apply wp_bind.
    apply (wp_mono _ _ (fun s1 => placing L s1 c)); [|intros s1; apply place_closed_wp].
    destruct Hpost as [Hpre | [Hpl Hc]].
    + eapply wp_mono; [by apply close_unmatched_blocks_wp|].
      intros s1 ([Hwf1 Hatt1 Hsp1 Hfc1 Hlk1 Hl1] & Hac1 & _). cbn beta.
      unfold spine_inv in Hsp1. rewrite Hac1 in Hsp1. destruct Hsp1 as [Hop1 Hr1].
      constructor; try done; [by apply fenced_content_weaken | by left].
    + destruct Hpl as [Hwf Hatt Hac Hop Hfc Htip Hl].
      unfold close_unmatched_blocks. rewrite Hac. cbn.
      constructor; try done. by right.
Qed.

(** *** [incorporate_line] *)

Lemma wf_next_line (s s' : Parser) :
  heap s' = heap s -> doc s' = doc s -> tip s' = tip s ->
  (line_number s <= line_number s')%Z -> wf s -> wf s'.
Proof.
  intros Hh Hd Ht Hl [].
  constructor; rewrite ?Hh, ?Hd, ?Ht; try assumption.
  intros i n Hi. destruct (wf_first_line0 i n Hi); [by left | right; lia].
Qed.

Lemma at_start_start_line (s : Parser) (ln : str) :
  line_inv s -> (0 <= line_number s)%Z ->
  at_start (line_number s + 1) (start_line s ln).
Proof.
  intros [Hwf Hatt Hop Hfc] Hl. constructor; try done.
  - apply (wf_next_line s); try done. cbn. lia.
  - intros x n Hx Hn. cbn in *.
    destruct (wf_first_line _ Hwf x n Hn); [by right | left; lia].
  - split; [done | lia].
Qed.

(** The state after the first loop, with the flags set. *)
Lemma pre_after_continue (L : Z) (s : Parser) (x : nat) :
  at_start L s -> matched s x ->
  pre L (set_last_matched_container (Some x)
           (set_all_closed (bool_decide (Some x = oldtip s)) s)) (Some x).
Proof.
  intros [Hwf Hatt Hop Hfc Hot Hst Hl] Hm.
  assert (Hsp : on_spine (heap s) (tip s) x).
  { destruct Hm as [-> | (n & Hn & Hopen & Hp)]; [done | by apply (Hop x n)]. }
  constructor.
  - by apply (wf_ext s).
  - exact Hatt.
  - unfold spine_inv. cbn. case_bool_decide as Hx.
    + split; [exact Hop|]. intros y n Hy Hn. destruct (Hst y n Hy Hn); auto.
    + constructor; cbn; rewrite ?Hot.
      * exact Hop.
      * congruence.
      * eauto.
      * by left.
      * intros y n Hy Hn Hleaf. by apply (wf_tip_leaf _ Hwf y n).
      * exact Hst.
      * exact Hatt.
  - exact Hfc.
  - intros y n z [= <-] Hn Hk Hp. unfold target. cbn.
    case_bool_decide as Hx.
    + rewrite <- Hot, <- Hx. intros [= <-]. constructor.
    + intros [= <-]. constructor.
  - exact Hl.
Qed.

Lemma incorporate_line_wp (s : Parser) (ln : str) :
  line_inv s -> (0 <= line_number s)%Z ->
  wp other_error (incorporate_line s ln)
    (fun s' => line_inv s' /\ line_number s' = (line_number s + 1)%Z).
Proof.
  intros Hli Hl. unfold incorporate_line, incorporate_line_with.
  set (L := (line_number s + 1)%Z).
  set (s1 := start_line s (replace_nul ln)).
  assert (Hs1 : at_start L s1) by (by apply at_start_start_line).
  apply wp_bind. eapply wp_mono.
  { apply (continue_loop_wp _ _ L); [done | by left]. }
  intros [s2 [c|]] Hpost; cbn in Hpost; cbn -[break_out_of_lists block_starts_loop place_text];
    [|done].
  destruct Hpost as (Hs2 & x & -> & Hm).
  set (s3 := set_last_matched_container _ _).
  assert (Hpre3 : pre L s3 (Some x)) by (by apply pre_after_continue).
  apply wp_bind.
  apply (wp_mono _ _ (fun r => pre L (fst r) (snd r))).
  { destruct (blank s2); [|exact Hpre3].
    apply wp_bind, wp_node_at; [auto..|]. intros x' cn [= <-] Hcn.
    destruct (last_line_blank cn); [|exact Hpre3]. cbn -[break_out_of_lists].
    apply wp_bind. eapply wp_mono.
    - apply (break_out_of_lists_wp L); [done..|].
      subst s3. cbn. case_bool_decide as Hx; [|done]. intros _.
      destruct Hs2 as [_ _ _ _ Hot Hst _]. rewrite <- Hot. split; [done|].
      by rewrite Hot.
    - intros s' Hpre'. done. }
  intros [s4 c4] Hpre4. cbn in Hpre4. cbn -[block_starts_loop place_text].
  apply wp_bind, wp_node_at; [auto..|]. intros y cn Hy Hcn.
  apply wp_bind.
  apply (wp_mono _ _ (starts_post L)).
  { destruct (_ && _); [by left | by apply block_starts_loop_wp]. }
  intros [s5 c5] Hpost5. cbn -[place_text].
  apply wp_bind. eapply wp_mono; [by apply place_text_wp|].
  intros s6 [Hli6 Hl6]. cbn. split; [|done].
  by apply (line_inv_ext s6).
Qed.

Lemma incorporate_lines_wp (n i : nat) (lines : list str) (s : Parser) :
  line_inv s -> (0 <= line_number s)%Z ->
  wp other_error (incorporate_lines n i lines s)
    (fun s' => line_inv s' /\ line_number s' = (line_number s + Z.of_nat n)%Z).
Proof.
  revert i s. induction n as [|n IH]; intros i s Hli Hl; cbn -[incorporate_line Z.of_nat].
  - split; [done | lia].
  - apply wp_bind, wp_of_option; [auto|]. intros ln _.
    apply wp_bind. eapply wp_mono; [by apply incorporate_line_wp|].
    intros s1 [Hli1 Hl1]. cbn beta.
    eapply wp_mono; [apply IH; [done | lia]|].
    intros s2 [Hli2 Hl2]. split; [done | lia].
Qed.

(** *** The document driver *)

Lemma line_inv_parse_start : line_inv (parse_start init).
Proof.
  assert (Hcases : forall i n, heap (parse_start init) !! i = Some n ->
            n = new_node Document ((1, 1), (0, 0))%Z).
  { intros [|[|i]] n; cbn; intros [= <-]; done. }
  constructor.
  - constructor.
    + intros i n p Hi Hp. by rewrite (Hcases i n Hi) in Hp.
    + intros p pn c Hp Hc. rewrite (Hcases p pn Hp) in Hc. by apply elem_of_nil in Hc.
    + intros i n p Hi Hp. by rewrite (Hcases i n Hi) in Hp.
    + intros i n Hi Hp. by rewrite (Hcases i n Hi) in Hp.
    + eexists. cbn. done.
    + intros i n Hi _. left. by rewrite (Hcases i n Hi).
    + intros x n _ Hx. by rewrite (Hcases x n Hx).
    + intros i n Hi. by rewrite (Hcases i n Hi).
    + intros i n Hi. left. by rewrite (Hcases i n Hi).
    + intros i n Hi _. by rewrite (Hcases i n Hi).
    + intros i n p pn Hi Hp. by rewrite (Hcases i n Hi) in Hp.
    + intros i n Hi. by rewrite (Hcases i n Hi).
  - unfold tip_attached. cbn. constructor.
  - intros i n Hi _ Hp. by rewrite (Hcases i n Hi) in Hp.
  - intros i n Hi Hk. by rewrite (Hcases i n Hi) in Hk.
Qed.

Lemma finalize_open_wp (fuel : nat) (len : Z) (s : Parser) :
  wf s -> open_on_spine s (tip s) -> fenced_content false s ->
  line_number s = len -> (1 <= len)%Z ->
  tip_attached s \/ (tip s = None /\ exists dn, heap s !! doc s = Some dn /\ is_open dn = false) ->
  wp other_error (finalize_open fuel len s) finished.
Proof.
  revert s. induction fuel as [|fuel IH]; intros s Hwf Hop Hfc Hl HL Htip; cbn.
  - destruct (tip s) as [tp|] eqn:Htp; cbn; [auto|].
    destruct Htip as [Hatt | [_ Hd]].
    { unfold tip_attached in Hatt. rewrite Htp in Hatt. by apply on_spine_None in Hatt. }
    constructor; try done. intros i n Hi Hp.
    destruct (is_open n) eqn:Ho; [|done].
    pose proof (Hop i n Hi Ho Hp) as Hsp. by apply on_spine_None in Hsp.
  - destruct (tip s) as [tp|] eqn:Htp; cbn.
    2:{ destruct Htip as [Hatt | [_ Hd]].
        { unfold tip_attached in Hatt. rewrite Htp in Hatt. by apply on_spine_None in Hatt. }
        constructor; try done. intros i n Hi Hp.
        destruct (is_open n) eqn:Ho; [|done].
        pose proof (Hop i n Hi Ho Hp) as Hsp. by apply on_spine_None in Hsp. }
    destruct Htip as [Hatt | [? _]]; [|done].
    apply wp_bind. eapply wp_mono; [by apply finalize_tip_wp|].
    intros s1 Hcl. cbn beta.
    pose proof (cl_frame _ _ _ _ Hcl) as Hfr.
    destruct (cl_node _ _ _ _ Hcl) as (n & n' & Hn & Hn' & Htip1 & _ & Hclosed & _).
    apply IH.
    + apply (closes_wf tp len s); try done.
      intros n0 Hn0. rewrite <- Hl. apply (first_line_le s tp); [done|lia|done].
    + by apply (closes_open_tip tp len s).
    + by apply (closes_content tp len s).
    + by rewrite (fr_line_number _ _ Hfr).
    + done.
    + destruct (parent n) as [p|] eqn:Hp.
      * left. apply (closes_attached tp len s); try done.
        intros n0 Hn0. rewrite Hn in Hn0. injection Hn0 as <-. congruence.
      * right. split; [done|]. rewrite (fr_doc _ _ Hfr).
        unfold tip_attached in Hatt. rewrite Htp in Hatt.
        apply on_spine_inv in Hatt as [-> | (n0 & Hn0 & Hup)]; [eauto|].
        rewrite Hn in Hn0. injection Hn0 as <-. rewrite Hp in Hup.
        by apply on_spine_None in Hup.
Qed.

Lemma split_lines_acc_nonempty (s cur : str) : 1 <= length (split_lines_acc cur s).
Proof.
  remember (length s) as n eqn:Hn. revert s cur Hn.
  induction n as [n IH] using lt_wf_ind. intros s cur Hn.
  destruct (split_lines_acc_cases cur s)
    as [[-> ->] | [(r & -> & ->) | [(r & -> & Hr & ->) | [(r & -> & ->) | (c & r & -> & Hc1 & ->)]]]];
    cbn; try lia.
  apply (IH (length r)); [subst n; cbn; lia | reflexivity].
Qed.

Lemma split_lines_acc_terminated (s cur : str) :
  last s = Some nl -> 2 <= length (split_lines_acc cur s).
Proof.
  remember (length s) as n eqn:Hn. revert s cur Hn.
  induction n as [n IH] using lt_wf_ind. intros s cur Hn Hlast.
  destruct (split_lines_acc_cases cur s)
    as [[-> ->] | [(r & -> & ->) | [(r & -> & Hr & ->) | [(r & -> & ->) | (c & r & -> & Hc1 & ->)]]]].
  - done.
  - cbn. pose proof (split_lines_acc_nonempty r []). lia.
  - cbn. pose proof (split_lines_acc_nonempty r []). lia.
  - cbn. pose proof (split_lines_acc_nonempty r []). lia.
  - destruct r as [|y r'].
    + cbn in Hlast. injection Hlast as ->. done.
    + apply (IH (length (y :: r'))); [subst n; cbn; lia | reflexivity | done].
Qed.

Lemma lines_to_parse_pos (my_input : str) : 1 <= lines_to_parse my_input.
Proof.
  unfold lines_to_parse. pose proof (split_lines_nonempty my_input).
  destruct (_ && _) eqn:Hc; [|done].
  apply andb_true_iff in Hc as [_ Hlast%bool_decide_eq_true].
  pose proof (split_lines_acc_terminated my_input [] Hlast). unfold split_lines. lia.
Qed.

Lemma parse_blocks_wp (my_input : str) :
  wp other_error (parse_blocks init my_input) finished.
Proof.
  unfold parse_blocks. cbn zeta.
  pose proof (lines_to_parse_pos my_input) as Hpos.
  apply wp_bind. eapply wp_mono.
  { apply incorporate_lines_wp; [apply line_inv_parse_start | done]. }
  intros s1 [[Hwf Hatt Hop Hfc] Hl]. cbn beta.
  apply finalize_open_wp.
  - exact Hwf.
  - exact Hop.
  - exact Hfc.
  - rewrite Hl. cbn. lia.
  - lia.
  - by left.
Qed.

Lemma set_inlines_id (n : Node) : set_inlines (inlines n) n = n.
Proof. by destruct n. Qed.

Lemma inlined_refl (h : list Node) : inlined h h.
Proof.
  split; [done|]. intros i n Hi. exists (inlines n). by rewrite set_inlines_id.
Qed.

Lemma inlined_trans (h1 h2 h3 : list Node) : inlined h1 h2 -> inlined h2 h3 -> inlined h1 h3.
Proof.
  intros [Hl1 H1] [Hl2 H2]. split; [congruence|].
  intros i n Hi. destruct (H1 i n Hi) as [v1 Hv1].
  destruct (H2 i _ Hv1) as [v2 Hv2]. exists v2. by rewrite Hv2.
Qed.

Lemma inline_parse_wp (rm : RefMap) (i : nat) (h : list Node) :
  wp other_error (inline_parse rm i h) (inlined h).
Proof.
  unfold inline_parse. apply wp_bind, wp_of_option; [auto|]. intros n Hn.
  apply wp_bind, wp_of_option; [auto|]. intros content _. cbn.
  split; [by rewrite length_alter|].
  intros j nj Hj. destruct (decide (j = i)) as [->|Hne].
  - rewrite (lookup_alter_Some _ _ _ _ Hj). eauto.
  - rewrite list_lookup_alter_ne by done. exists (inlines nj). by rewrite set_inlines_id.
Qed.

Lemma tree_nodes_other (fuel : nat) (h : list Node) (i : nat) :
  wp other_error (tree_nodes fuel h i) (fun _ => True).
Proof.
  revert i. induction fuel as [|fuel IH]; intros i; cbn; [auto|].
  apply wp_bind, wp_of_option; [auto|]. intros n _.
  apply wp_bind.
  apply (wp_mono _ _ (fun _ => True)); [|done].
  induction (children n) as [|c l IHl]; cbn; [done|].
  apply wp_bind. eapply wp_mono; [apply IH|]. intros l1 _. cbn beta.
  apply wp_bind. eapply wp_mono; [apply IHl|]. done.
Qed.

Lemma process_inlines_wp (s : Parser) (b : nat) :
  wp other_error (process_inlines s b)
    (fun s' => doc s' = doc s /\ inlined (heap s) (heap s')).
Proof.
  unfold process_inlines. apply wp_bind.
  eapply wp_mono; [apply tree_nodes_other|]. intros nodes _. cbn beta.
  apply wp_bind.
  apply (wp_mono _ _ (inlined (heap s))); [|by intros h Hh].
  assert (Hacc : wp other_error (Ok (heap s)) (inlined (heap s))) by apply inlined_refl.
  revert Hacc. generalize (Ok (heap s) : result (list Node)).
  induction nodes as [|i nodes IH]; intros acc Hacc; cbn; [done|].
  apply IH. destruct acc as [h|e]; cbn in *; [|done].
  apply wp_bind, wp_of_option; [auto|]. intros n _.
  destruct (_ || _); [|done].
  eapply wp_mono; [apply inline_parse_wp|].
  intros h' Hh'. by eapply inlined_trans.
Qed.

(** The blocks of the tree, when [parse] returns: the document and the
    blocks with a parent, all closed. *)
Lemma parse_wp (my_input : str) :
  wp other_error (parse my_input)
    (fun s' => exists s1, finished s1 /\ doc s' = doc s1 /\ inlined (heap s1) (heap s')).
Proof.
  unfold parse, parse_with. apply wp_bind.
  eapply wp_mono; [apply parse_blocks_wp|]. intros s1 Hfin. cbn beta.
  eapply wp_mono; [apply process_inlines_wp|]. intros s' [Hd Hin]. eauto.
Qed.

Lemma inlined_back (h h' : list Node) (i : nat) (n' : Node) :
  inlined h h' -> h' !! i = Some n' -> exists n v, h !! i = Some n /\ n' = set_inlines v n.
Proof.
  intros [Hlen Hin] Hi'.
  assert (Hlt : i < length h) by (rewrite <- Hlen; by eapply lookup_lt_Some).
  destruct (lookup_lt_is_Some_2 _ _ Hlt) as [n Hn].
  destruct (Hin i n Hn) as [v Hv]. exists n, v. split; [done | congruence].
Qed.

Lemma in_tree_inlined (h h' : list Node) (root i : nat) :
  inlined h h' -> in_tree h' root i -> in_tree h root i.
Proof.
  intros Hin. induction 1 as [|p c pn' _ IH Hp Hc]; [constructor|].
  destruct (inlined_back _ _ _ _ Hin Hp) as (pn & v & Hpn & ->).
  by eapply in_tree_child.
Qed.

(** A block of the tree is the document or has a parent. *)
Lemma in_tree_closed (s : Parser) (i : nat) (n : Node) :
  finished s -> in_tree (heap s) (doc s) i -> heap s !! i = Some n -> is_open n = false.
Proof.
  intros [Hwf Hclosed (dn & Hdn & Hdo)] Htree Hn.
  destruct Htree as [|p c pn _ Hp Hc]; [congruence|].
  destruct (wf_children _ Hwf p pn c Hp Hc) as (cn & Hcn & Hcp).
  apply (Hclosed c n Hn). congruence.
Qed.

(** C10: the split of the string content of a fenced code block at its
    first newline, in [CodeBlock.finalize], is defined exactly when the
    content holds a newline; the content of the block that [add_line] has
    appended a line to holds one; and the split is defined at every call
    of [finalize] during a parse: [parse] raises neither the exception of
    [index] on a content without newline nor the one on a content that is
    [None]. *)
Theorem fenced_code_block_split_defined :
  (forall (s : Parser) (b : nat) (n : Node),
     heap s !! b = Some n -> is_fenced n = true ->
     has_nl (string_content n) <-> exists s', CodeBlock_finalize s b = Ok s') /\
  (forall (s s' : Parser) (tp : nat),
     tip s = Some tp -> add_line s = Ok s' ->
     exists n', heap s' !! tp = Some n' /\ has_nl (string_content n')) /\
  (forall my_input : str,
     unraised IndexNotFound (parse my_input) /\ unraised IndexOfNone (parse my_input)).
Proof.
  split; [|split].
  - intros s b n Hn Hfen. unfold CodeBlock_finalize, get_node. rewrite Hn. cbn.
    rewrite Hfen. split.
    + intros (c & -> & Hc). cbn. destruct (index_of nl c); [eauto | done].
    + destruct (string_content n) as [c|]; cbn; [|by intros [? ?]].
      destruct (index_of nl c) as [k|] eqn:Hk; cbn; [|by intros [? ?]].
      intros _. exists c. split; [done | congruence].
  - intros s s' tp Htp. unfold add_line, get_node. rewrite Htp. cbn.
    destruct (heap s !! tp) as [n|] eqn:Hn; cbn; [|done].
    destruct (string_content n) as [c|]; cbn; [|done].
    intros [= <-]. cbn. rewrite (lookup_alter_Some _ _ _ _ Hn).
    eexists. split; [done|]. apply has_nl_add_line.
  - intros my_input. pose proof (parse_wp my_input) as H.
    unfold unraised. destruct (parse my_input) as [s'|e]; [done|].
    cbn in H. split; intros [= ->]; apply H; [by left | by right].
Qed.


(** C3, as amended: when [parse] returns, the source position of every
    node of the tree starts on a line that is not after the line it ends
    on. *)
Theorem parse_sourcepos_lines_ordered (my_input : str) (s' : Parser) (i : nat) (n : Node) :
  parse my_input = Ok s' ->
  in_tree (heap s') (doc s') i -> heap s' !! i = Some n ->
  (first_line n <= last_line n)%Z.
Proof.
  intros Hparse Htree Hn. pose proof (parse_wp my_input) as H.
  rewrite Hparse in H. destruct H as (s1 & Hfin & Hd & Hin).
  destruct (inlined_back _ _ _ _ Hin Hn) as (n1 & v & Hn1 & ->).
  rewrite Hd in Htree. apply (in_tree_inlined _ _ _ _ Hin) in Htree.
  change (first_line n1 <= last_line n1)%Z.
  apply (wf_closed_lines _ (fin_wf _ Hfin) i n1 Hn1).
  by apply (in_tree_closed s1 i).
Qed.

(** ** The cursor: [find_next_nonspace] and [advance_offset] *)

Lemma scan_nonspace_spec (rest : list ascii) (i cols : nat) :
  exists k cols',
    scan_nonspace rest i cols = (i + k, cols', rest !! k) /\
    (forall j, j < k -> rest !! j = Some sp \/ rest !! j = Some tab) /\
    rest !! k <> Some sp /\ rest !! k <> Some tab /\
    cols + k <= cols' /\ cols' <= cols + 4 * k.
Proof.
  revert i cols. induction rest as [|c r IH]; intros i cols.
  - exists 0, cols. cbn. rewrite Nat.add_0_r. repeat split; try done; lia.
  - cbn [scan_nonspace]. destruct (Ascii.eqb c sp) eqn:Hsp.
    + apply Ascii.eqb_eq in Hsp as ->.
      destruct (IH (S i) (S cols)) as (k & cols' & -> & Hall & H1 & H2 & H3 & H4).
      exists (S k), cols'. rewrite Nat.add_succ_r. cbn.
      repeat split; try done; try lia.
      intros [|j] Hj; cbn; [by left | apply Hall; lia].
    + destruct (Ascii.eqb c tab) eqn:Htab.
      * apply Ascii.eqb_eq in Htab as ->.
        pose proof (Nat.mod_upper_bound cols 4 ltac:(lia)) as Hm.
        destruct (IH (S i) (cols + (4 - cols mod 4)))
          as (k & cols' & -> & Hall & H1 & H2 & H3 & H4).
        exists (S k), cols'. rewrite Nat.add_succ_r. cbn.
        repeat split; try done; try lia.
        intros [|j] Hj; cbn; [by right | apply Hall; lia].
      * apply Ascii.eqb_neq in Hsp, Htab.
        exists 0, cols. rewrite Nat.add_0_r. cbn.
        repeat split; try congruence; try lia.
Qed.

(** X1: [find_next_nonspace] looks ahead from the offset without moving
    the cursor.  The characters from [offset] up to [next_nonspace] are
    spaces and tabs, and the character at [next_nonspace] is neither;
    [blank] tells that the line ends there or holds a line terminator
    there; [indent] is the width in columns of what was skipped, between
    one and four columns for each character, and [indented] tells that it
    is at least four.  The tree, the line, the offset and the column are as
    they were, and a second call changes nothing. *)
Theorem find_next_nonspace_spec (s : Parser) :
  let s' := find_next_nonspace s in
  offset s <= next_nonspace s' /\
  (forall j, offset s <= j < next_nonspace s' ->
     current_line s !! j = Some sp \/ current_line s !! j = Some tab) /\
  current_line s !! next_nonspace s' <> Some sp /\
  current_line s !! next_nonspace s' <> Some tab /\
  (blank s' = true <->
     current_line s !! next_nonspace s' = None \/
     current_line s !! next_nonspace s' = Some nl \/
     current_line s !! next_nonspace s' = Some cr) /\
  next_nonspace_column s' = column s + indent s' /\
  next_nonspace s' - offset s <= indent s' /\
  indent s' <= 4 * (next_nonspace s' - offset s) /\
  (indented s' = true <-> CODE_INDENT <= indent s') /\
  same_tree s s' /\
  current_line s' = current_line s /\ offset s' = offset s /\ column s' = column s /\
  find_next_nonspace s' = s'.
Proof.
  cbn zeta. unfold find_next_nonspace.
  destruct (scan_nonspace_spec (drop (offset s) (current_line s)) (offset s) (column s))
    as (k & cols' & Hscan & Hall & Hsp & Htab & Hlo & Hhi).
  rewrite Hscan. cbn. rewrite Hscan. cbn.
  pose proof (fun i => lookup_drop (current_line s) (offset s) i) as Hdrop.
  unfold str in *. rewrite Hdrop in Hsp, Htab.
  split; [lia|]. split.
  { intros j Hj. specialize (Hall (j - offset s) ltac:(lia)).
    rewrite Hdrop in Hall. by replace (offset s + (j - offset s)) with j in Hall by lia. }
  split; [done|]. split; [done|]. split.
  { rewrite Hdrop. destruct (current_line s !! (offset s + k)) as [x|] eqn:Hx.
    - unfold str in Hx. rewrite Hx. destruct (Ascii.eqb_spec x nl) as [->|Hnl]; [by cbn; split; auto|].
      destruct (Ascii.eqb_spec x cr) as [->|Hcr]; cbn; [by split; auto|].
      split; [done|]. intros [?|[[= ?]|[= ?]]]; done.
    - unfold str in Hx. rewrite Hx. split; auto. }
  split; [lia|]. split; [lia|]. split; [lia|]. split.
  { unfold CODE_INDENT.
    destruct (cols' - column s) as [|[|[|[|m]]]]; split; intros H; first [done | lia]. }
  split; [by constructor|]. done.
Qed.

Lemma advance_loop_mono (rest : str) (count : Z) (columns : bool) (off col : nat) :
  off <= (advance_loop rest count columns off col).1 /\
  (advance_loop rest count columns off col).1 <= off + length rest /\
  col + ((advance_loop rest count columns off col).1 - off)
    <= (advance_loop rest count columns off col).2.
Proof.
  revert count off col.
  induction rest as [|c r IH]; intros count off col; cbn [advance_loop length fst snd].
  - lia.
  - destruct (0 <? count)%Z; [|cbn [fst snd]; lia].
    pose proof (Nat.mod_upper_bound col 4 ltac:(lia)) as Hm.
    destruct (Ascii.eqb c tab).
    + destruct (IH (count - (if columns then Z.of_nat (4 - col mod 4) else 1))%Z
                  (S off) (col + (4 - col mod 4))) as (H1 & H2 & H3). lia.
    + destruct (IH (count - 1)%Z (S off) (S col)) as (H1 & H2 & H3). lia.
Qed.

Lemma advance_loop_chars (rest : str) (count : Z) (off col : nat) :
  (advance_loop rest count false off col).1 = off + (Z.to_nat count `min` length rest).
Proof.
  revert count off col.
  induction rest as [|c r IH]; intros count off col; cbn [advance_loop length fst snd].
  - lia.
  - destruct (Z.ltb_spec 0 count) as [Hc|Hc]; [|cbn [fst snd]; lia].
    replace (Z.to_nat count) with (S (Z.to_nat (count - 1))) by lia.
    destruct (Ascii.eqb c tab); rewrite IH; lia.
Qed.

Lemma advance_loop_split (rest : str) (a b : Z) (off col : nat) :
  (0 <= a)%Z -> (0 <= b)%Z ->
  advance_loop rest (a + b) false off col =
  advance_loop (drop ((advance_loop rest a false off col).1 - off) rest) b false
    (advance_loop rest a false off col).1 (advance_loop rest a false off col).2.
Proof.
  intros Ha Hb. revert a Ha off col.
  induction rest as [|c r IH]; intros a Ha off col.
  - cbn. by rewrite drop_nil.
  - cbn [advance_loop]. destruct (Z.ltb_spec 0 a) as [Hlt|Hle].
    + assert ((0 <? a + b) = true)%Z as -> by (apply Z.ltb_lt; lia).
      set (col' := if Ascii.eqb c tab then col + (4 - col mod 4) else S col).
      assert (Hstep : forall n, (if Ascii.eqb c tab
                then advance_loop r (n - 1) false (S off) (col + (4 - col mod 4))
                else advance_loop r (n - 1) false (S off) (S col))
              = advance_loop r (n - 1) false (S off) col').
      { intros n. unfold col'. by destruct (Ascii.eqb c tab). }
      rewrite !Hstep.
      replace (a + b - 1)%Z with ((a - 1) + b)%Z by lia.
      rewrite (IH (a - 1)%Z ltac:(lia)).
      pose proof (advance_loop_mono r (a - 1) false (S off) col') as (H1 & _).
      replace ((advance_loop r (a - 1) false (S off) col').1 - off)
        with (S ((advance_loop r (a - 1) false (S off) col').1 - S off)) by lia.
      done.
    + assert (a = 0%Z) as -> by lia. cbn. by rewrite Nat.sub_diag.
Qed.

(** X2: [advance_offset(count, False)] counts characters.  The offset
    moves forward by [count] characters, or up to the end of the line when
    fewer are left (a count that is not positive moves nothing), and the
    column moves at least as far; the tree and the line are as they were.
    Two such calls in a row are one call with the sum of the counts. *)
Theorem advance_offset_chars (s : Parser) (count : Z) :
  let s' := advance_offset count false s in
  offset s' = offset s + (Z.to_nat count `min` (length (current_line s) - offset s)) /\
  column s + (offset s' - offset s) <= column s' /\
  same_tree s s' /\ current_line s' = current_line s /\
  (forall more : Z, (0 <= count)%Z -> (0 <= more)%Z ->
     advance_offset more false s' = advance_offset (count + more) false s).
Proof.
  cbn zeta. unfold advance_offset.
  pose proof (advance_loop_chars (drop (offset s) (current_line s)) count
                (offset s) (column s)) as Hch.
  pose proof (advance_loop_mono (drop (offset s) (current_line s)) count false
                (offset s) (column s)) as (Hm1 & Hm2 & Hm3).
  destruct (advance_loop (drop (offset s) (current_line s)) count false
              (offset s) (column s)) as [o1 c1] eqn:Hloop.
  cbn in *. rewrite length_drop in Hch.
  split; [exact Hch|]. split; [lia|]. split; [by constructor|]. split; [done|].
  intros more Hc Hmore.
  rewrite (advance_loop_split _ count more _ _ Hc Hmore), Hloop. cbn.
  rewrite drop_drop. replace (offset s + (o1 - offset s)) with o1 by lia.
  by destruct (advance_loop (drop o1 (current_line s)) more false o1 c1).
Qed.

Lemma advance_loop_columns (rest : str) (count : Z) (off col : nat) :
  (0 < count)%Z ->
  (Z.of_nat (advance_loop rest count true off col).2 <= Z.of_nat col + count + 3)%Z /\
  ((advance_loop rest count true off col).1 = off + length rest \/
   (Z.of_nat col + count <= Z.of_nat (advance_loop rest count true off col).2)%Z).
Proof.
  revert count off col. induction rest as [|c r IH]; intros count off col Hc.
  - cbn. split; [lia | left; lia].
  - cbn [advance_loop length]. assert ((0 <? count) = true)%Z as -> by by apply Z.ltb_lt.
    assert (Hstop : forall (n : Z) (o c' : nat), (n <= 0)%Z ->
              advance_loop r n true o c' = (o, c')).
    { intros n o c' Hn. destruct r; cbn; [done|].
      by assert ((0 <? n) = false)%Z as -> by by apply Z.ltb_ge. }
    assert (Hstep : forall (w : nat), 1 <= w <= 4 ->
      (Z.of_nat (advance_loop r (count - Z.of_nat w) true (S off) (col + w)).2
         <= Z.of_nat col + count + 3)%Z /\
      ((advance_loop r (count - Z.of_nat w) true (S off) (col + w)).1 = off + S (length r) \/
       (Z.of_nat col + count
          <= Z.of_nat (advance_loop r (count - Z.of_nat w) true (S off) (col + w)).2)%Z)).
    { intros w Hw. destruct (Z.lt_ge_cases 0 (count - Z.of_nat w)) as [Hpos|Hneg].
      - destruct (IH _ (S off) (col + w) Hpos) as (H1 & H2).
        revert H1 H2.
        generalize (advance_loop r (count - Z.of_nat w) true (S off) (col + w)).
        intros [o1 c1]. cbn [fst snd]. lia.
      - rewrite Hstop by lia. cbn [fst snd]. lia. }
    pose proof (Nat.mod_upper_bound col 4 ltac:(lia)) as Hm.
    destruct (Ascii.eqb c tab).
    + apply Hstep. lia.
    + replace (S col) with (col + 1) by lia. apply (Hstep 1). lia.
Qed.

(** X3: [advance_offset(count, True)] counts columns, a tab reaching to
    the next multiple of four.  The cursor only moves forward and stays
    within the line, the column moving at least as far as the offset.
    With a positive count, the column moves by at least [count] unless the
    end of the line is reached first, and by at most [count + 3], since
    the last tab is taken whole; the tree and the line are as they
    were. *)
Theorem advance_offset_columns (s : Parser) (count : Z) :
  let s' := advance_offset count true s in
  offset s <= offset s' /\
  (offset s <= length (current_line s) -> offset s' <= length (current_line s)) /\
  column s + (offset s' - offset s) <= column s' /\
  same_tree s s' /\ current_line s' = current_line s /\
  ((count <= 0)%Z -> s' = s) /\
  ((0 < count)%Z ->
     (Z.of_nat (column s') <= Z.of_nat (column s) + count + 3)%Z /\
     (length (current_line s) <= offset s' \/
      (Z.of_nat (column s) + count <= Z.of_nat (column s'))%Z)).
Proof.
  cbn zeta. unfold advance_offset.
  pose proof (advance_loop_mono (drop (offset s) (current_line s)) count true
                (offset s) (column s)) as (Hm1 & Hm2 & Hm3).
  pose proof (advance_loop_columns (drop (offset s) (current_line s)) count
                (offset s) (column s)) as Hcols.
  assert (Hstop : (count <= 0)%Z ->
            advance_loop (drop (offset s) (current_line s)) count true
              (offset s) (column s) = (offset s, column s)).
  { intros Hn. destruct (drop _ _); cbn; [done|].
    by assert ((0 <? count) = false)%Z as -> by by apply Z.ltb_ge. }
  destruct (advance_loop (drop (offset s) (current_line s)) count true
              (offset s) (column s)) as [o1 c1] eqn:Hloop.
  cbn in *. rewrite length_drop in Hm2, Hcols.
  split; [lia|]. split; [lia|]. split; [lia|]. split; [by constructor|]. split; [done|].
  split.
  - intros Hn. specialize (Hstop Hn). injection Hstop as -> ->. by destruct s.
  - intros Hpos. destruct (Hcols Hpos) as (H1 & H2). split; [exact H1|].
    destruct H2 as [H2|H2]; [left; lia | by right].
Qed.

(** ** [parse_list_marker] *)

Lemma run_len_lookup (p : ascii -> bool) (s : list ascii) (j : nat) :
  j < run_len p s -> exists x, s !! j = Some x /\ p x = true.
Proof.
  revert j. induction s as [|c r IH]; intros j; cbn; [lia|].
  destruct (p c) eqn:Hp; [|lia].
  destruct j as [|j]; cbn; [eauto|]. intros Hj. apply IH. lia.
Qed.

Lemma int_of_digits_bound (l : list ascii) (acc : nat) :
  (forall j, j < length l -> exists x, l !! j = Some x /\ is_digit x = true) ->
  foldl (fun a c => 10 * a + digit_val c) acc l < (acc + 1) * 10 ^ length l.
Proof.
  revert acc. induction l as [|c r IH]; intros acc Hall; cbn [foldl length].
  - rewrite Nat.pow_0_r. lia.
  - destruct (Hall 0 ltac:(cbn; lia)) as (x & [= <-] & Hx).
    assert (Hd : digit_val c <= 9).
    { unfold digit_val, is_digit in *. apply andb_prop in Hx as [_ Hx].
      apply Nat.leb_le in Hx. lia. }
    specialize (IH (10 * acc + digit_val c)).
    rewrite Nat.pow_succ_r'. 
    assert (Hr : forall j, j < length r -> exists x, r !! j = Some x /\ is_digit x = true).
    { intros j Hj. apply (Hall (S j)). cbn. lia. }
    specialize (IH Hr). nia.
Qed.

Lemma advance_loop_plain (rest : list ascii) (k : nat) (columns : bool) (off col : nat) :
  (forall j, j < k -> exists x, rest !! j = Some x /\ x <> tab) ->
  advance_loop rest (Z.of_nat k) columns off col = (off + k, col + k).
Proof.
  revert rest off col. induction k as [|k IH]; intros rest off col Hall.
  - rewrite !Nat.add_0_r. by destruct rest.
  - destruct (Hall 0 ltac:(lia)) as (x & Hx & Hnt).
    destruct rest as [|c r]; [done|]. injection Hx as ->.
    cbn [advance_loop]. assert ((0 <? Z.of_nat (S k)) = true)%Z as -> by (apply Z.ltb_lt; lia).
    apply Ascii.eqb_neq in Hnt. rewrite Hnt.
    replace (Z.of_nat (S k) - 1)%Z with (Z.of_nat k) by lia.
    rewrite IH; [f_equal; lia|].
    intros j Hj. apply (Hall (S j)). lia.
Qed.

Lemma advance_offset_step (s : Parser) :
  let s' := advance_offset 1 true s in
  same_tree s s' /\ current_line s' = current_line s /\
  column s <= column s' /\ offset s <= offset s' /\
  (offset s < length (current_line s) -> offset s' = offset s + 1) /\
  (length (current_line s) <= offset s -> s' = s).
Proof.
  cbn zeta. unfold advance_offset.
  destruct (drop (offset s) (current_line s)) as [|c r] eqn:Hd.
  - cbn. apply (f_equal length) in Hd. rewrite length_drop in Hd. cbn in Hd.
    split; [by constructor|]. repeat split; try lia. intros _. by destruct s.
  - apply (f_equal length) in Hd. rewrite length_drop in Hd. cbn [length] in Hd.
    assert (Hstop : forall w o c', advance_loop r (1 - w) true o c' = (o, c') \/ (w < 1)%Z).
    { intros w o c'. destruct (Z.lt_ge_cases w 1); [by right|left].
      destruct r; cbn; [done|].
      by assert ((0 <? 1 - w) = false)%Z as -> by (apply Z.ltb_ge; lia). }
    cbn [advance_loop]. change (0 <? 1)%Z with true. cbn match.
    pose proof (Nat.mod_upper_bound (column s) 4 ltac:(lia)) as Hm.
    destruct (Ascii.eqb c tab).
    + destruct (Hstop (Z.of_nat (4 - column s mod 4)) (S (offset s))
                  (column s + (4 - column s mod 4))) as [-> | ?]; [|lia].
      cbn. split; [by constructor|]. repeat split; lia.
    + destruct (Hstop 1%Z (S (offset s)) (S (column s))) as [-> | ?]; [|lia].
      cbn. split; [by constructor|]. repeat split; lia.
Qed.

Lemma marker_spaces_loop_returns (fuel spaces_start_col : nat) (s : Parser) :
  length (current_line s) - offset s < fuel ->
  exists s', marker_spaces_loop fuel spaces_start_col s = Ok s' /\
             same_tree s s' /\ current_line s' = current_line s /\
             column s <= column s' /\ offset s <= offset s'.
Proof.
  revert s. induction fuel as [|fuel IH]; intros s Hfuel; [lia|].
  cbn [marker_spaces_loop].
  destruct (advance_offset_step s) as (Htree & Hline & Hcol & Hoff & Hnext & Hsame).
  set (s1 := advance_offset 1 true s) in *.
  destruct ((column s1 - spaces_start_col <? 5) &&
            (peek_is (current_line s1) (offset s1) sp ||
             peek_is (current_line s1) (offset s1) tab)) eqn:Hgo.
  - apply andb_prop in Hgo as [_ Hpeek].
    assert (Hlt : offset s1 < length (current_line s1)).
    { apply orb_prop in Hpeek. unfold peek_is, peek in Hpeek.
      destruct (current_line s1 !! offset s1) eqn:Hl; [|by destruct Hpeek].
      by apply lookup_lt_Some in Hl. }
    assert (Hmoved : offset s1 = offset s + 1).
    { destruct (le_lt_dec (length (current_line s)) (offset s)) as [Hge|Hin].
      - rewrite (Hsame Hge) in Hlt. lia.
      - by apply Hnext. }
    destruct (IH s1) as (s' & Hs' & Ht' & Hl' & Hc' & Ho');
      [rewrite Hline in Hlt |- *; lia|].
    exists s'. split; [exact Hs'|]. split; [by eapply same_tree_trans|].
    split; [congruence|]. lia.
  - exists s1. split; [done|]. split; [exact Htree|]. split; [done|]. lia.
Qed.

Lemma padded_peek (ln : str) (pos : nat) :
  negb (is_none (peek ln pos) || peek_is ln pos tab || peek_is ln pos sp) = false ->
  ln !! pos = None \/ ln !! pos = Some sp \/ ln !! pos = Some tab.
Proof.
  unfold peek_is, peek. destruct (ln !! pos) as [x|]; cbn; [|auto].
  destruct (Ascii.eqb_spec x tab) as [->|?]; [auto|].
  destruct (Ascii.eqb_spec x sp) as [->|?]; [auto|done].
Qed.

Lemma parse_list_marker_cases (s : Parser) :
  exists (s' : Parser) (r : option ListData),
    parse_list_marker s = Ok (s', r) /\
    match r with
    | None => s' = s
    | Some data =>
        exists mlen pad : nat,
          padding data = Some pad /\ mlen + 1 <= pad /\ pad <= mlen + 4 /\
          marker_offset data = Some (indent s) /\ tight data = Some true /\
          ((ld_type data = Some Bullet /\ mlen = 1 /\
            exists c, current_line s !! next_nonspace s = Some c /\
                      ch_in c (pystr "*+-") = true /\
                      bullet_char data = Some c /\
                      start data = None /\ delimiter data = None) \/
           (ld_type data = Some Ordered /\ 2 <= mlen /\ mlen <= 10 /\
            (forall j, j < mlen - 1 ->
               exists x, current_line s !! (next_nonspace s + j) = Some x /\
                         is_digit x = true) /\
            exists n d, current_line s !! (next_nonspace s + (mlen - 1)) = Some d /\
                        ch_in d (pystr ".)") = true /\
                        start data = Some n /\ (Z.of_nat n < 10 ^ 9)%Z /\
                        delimiter data = Some d /\ bullet_char data = None)) /\
          (current_line s !! (next_nonspace s + mlen) = None \/
           current_line s !! (next_nonspace s + mlen) = Some sp \/
           current_line s !! (next_nonspace s + mlen) = Some tab) /\
          same_tree s s' /\ current_line s' = current_line s /\
          next_nonspace s + mlen <= offset s' /\
          next_nonspace_column s + mlen <= column s' /\
          column s' <= next_nonspace_column s + pad
    end.
Proof.
  unfold parse_list_marker.
  set (rest := drop (next_nonspace s) (current_line s)).
  assert (Hrest : forall j, rest !! j = current_line s !! (next_nonspace s + j)).
  { intros j. apply lookup_drop. }
  (* the marker, its width, and the characters it is made of *)
  assert (Hfound : forall data mlen,
    match reBulletListMarker rest with
    | Some c =>
        Some (mkListData (Some Bullet) (Some true) (Some c) None None None
                (Some (indent s)), 1)
    | None =>
        match reOrderedListMarker rest with
        | Some (n, d, len) =>
            Some (mkListData (Some Ordered) (Some true) None (Some n) (Some d) None
                    (Some (indent s)), len)
        | None => None
        end
    end = Some (data, mlen) ->
    padding data = None /\ marker_offset data = Some (indent s) /\
    tight data = Some true /\
    (forall j, j < mlen -> exists x, rest !! j = Some x /\ x <> tab) /\
    ((ld_type data = Some Bullet /\ mlen = 1 /\
      exists c, current_line s !! next_nonspace s = Some c /\
                ch_in c (pystr "*+-") = true /\
                bullet_char data = Some c /\
                start data = None /\ delimiter data = None) \/
     (ld_type data = Some Ordered /\ 2 <= mlen /\ mlen <= 10 /\
      (forall j, j < mlen - 1 ->
         exists x, current_line s !! (next_nonspace s + j) = Some x /\
                   is_digit x = true) /\
      exists n d, current_line s !! (next_nonspace s + (mlen - 1)) = Some d /\
                  ch_in d (pystr ".)") = true /\
                  start data = Some n /\ (Z.of_nat n < 10 ^ 9)%Z /\
                  delimiter data = Some d /\ bullet_char data = None))).
  { intros data mlen. unfold reBulletListMarker, reOrderedListMarker. cbv zeta.
    unfold str in *. destruct rest as [|c r] eqn:Hr.
    - cbn. discriminate.
    - destruct (ch_in c (pystr "*+-")) eqn:Hb.
      + intros [= <- <-]. cbn. repeat split; try done.
        * intros [|j] Hj; [|lia]. exists c. split; [done|].
          intros ->. by vm_compute in Hb.
        * left. repeat split; try done. exists c.
          specialize (Hrest 0). rewrite Nat.add_0_r in Hrest. by rewrite <- Hrest.
      + set (k := run_len is_digit (c :: r)).
        destruct ((1 <=? k) && (k <=? 9)) eqn:Hk; [|discriminate].
        apply andb_prop in Hk as [Hk1 Hk9].
        apply Nat.leb_le in Hk1. apply Nat.leb_le in Hk9.
        destruct ((c :: r) !! k) as [d|] eqn:Hd; [|discriminate].
        destruct (ch_in d (pystr ".)")) eqn:Hdel; [|discriminate].
        intros [= <- <-]. cbn [padding marker_offset tight ld_type bullet_char start delimiter].
        assert (Hdig : forall j, j < k -> exists x, (c :: r) !! j = Some x /\ is_digit x = true).
        { intros j Hj. by apply run_len_lookup. }
        repeat split; try done.
        * intros j Hj. destruct (decide (j = k)) as [->|Hne].
          -- exists d. split; [done|]. intros ->. by vm_compute in Hdel.
          -- destruct (Hdig j ltac:(lia)) as (x & Hx & Hdx).
             exists x. split; [done|]. intros ->. by vm_compute in Hdx.
        * right. split; [done|]. split; [lia|]. split; [lia|]. split.
          { intros j Hj. rewrite <- Hrest. apply Hdig. lia. }
          exists (int_of_digits (take k (c :: r))), d.
          replace (S k - 1) with k by lia. rewrite <- Hrest.
          repeat split; try done.
          unfold int_of_digits.
          assert (Hlen : length (take k (c :: r)) = k).
          { apply length_take_le. apply lookup_lt_Some in Hd. lia. }
          pose proof (int_of_digits_bound (take k (c :: r)) 0) as Hbound.
          rewrite Hlen in Hbound.
          assert (Hlt : foldl (fun a c0 => 10 * a + digit_val c0) 0 (take k (c :: r)) < 10 ^ k).
          { rewrite <- (Nat.mul_1_l (10 ^ k)). apply Hbound.
            intros j Hj. unfold str in *. rewrite lookup_take. destruct (decide (j < k)); [|lia].
            by apply Hdig. }
          apply Nat2Z.inj_lt in Hlt. rewrite Nat2Z.inj_pow in Hlt.
          eapply Z.lt_le_trans; [exact Hlt|].
          change (Z.of_nat 10) with 10%Z.
          apply Z.pow_le_mono_r; lia. }
  match goal with
  | |- context [match ?f with Some _ => _ | None => Ok (s, None) end] =>
      destruct f as [[data mlen]|] eqn:Hf
  end.
  2: { exists s, None. done. }
  destruct (Hfound data mlen eq_refl) as (Hpad & Hmo & Htight & Hplain & Hkind).
  clear Hfound Hf.
  destruct (negb (is_none (peek (current_line s) (next_nonspace s + mlen))
                  || peek_is (current_line s) (next_nonspace s + mlen) tab
                  || peek_is (current_line s) (next_nonspace s + mlen) sp)) eqn:Hnext.
  { exists s, None. done. }
  apply padded_peek in Hnext.
  (* the cursor after the marker *)
  set (s1 := advance_offset (Z.of_nat mlen) true (advance_next_nonspace s)).
  assert (Hs1 : same_tree s s1 /\ current_line s1 = current_line s /\
                offset s1 = next_nonspace s + mlen /\
                column s1 = next_nonspace_column s + mlen).
  { unfold s1, advance_offset, advance_next_nonspace. cbn.
    fold rest. rewrite (advance_loop_plain rest mlen true _ _ Hplain). cbn.
    split; [by constructor|]. done. }
  destruct Hs1 as (Ht1 & Hl1 & Ho1 & Hc1).
  destruct (marker_spaces_loop_returns (S (length (current_line s1))) (column s1) s1)
    as (s2 & Hs2 & Ht2 & Hl2 & Hc2 & Ho2); [lia|].
  rewrite Hs2. cbn [bind].
  destruct ((5 <=? column s2 - column s1) || (column s2 - column s1 <? 1)
            || is_none (peek (current_line s2) (offset s2))) eqn:Hcase.
  - set (s3 := set_offset (offset s1) (set_column (column s1) s2)).
    assert (Hs3 : same_tree s s3 /\ current_line s3 = current_line s /\
                  offset s3 = next_nonspace s + mlen /\
                  column s3 = next_nonspace_column s + mlen).
    { unfold s3. cbn. split; [|split; [congruence|done]].
      eapply same_tree_trans; [exact Ht1|]. eapply same_tree_trans; [exact Ht2|].
      by constructor. }
    destruct Hs3 as (Ht3 & Hl3 & Ho3 & Hc3).
    destruct (peek_is (current_line s3) (offset s3) sp) eqn:Hsp.
    + destruct (advance_offset_step s3) as (Ht4 & Hl4 & Hc4 & Ho4 & Hn4 & _).
      assert (Hin : offset s3 < length (current_line s3)).
      { unfold peek_is, peek in Hsp.
        destruct (current_line s3 !! offset s3) eqn:Hl; [|done].
        by apply lookup_lt_Some in Hl. }
      specialize (Hn4 Hin).
      assert (Hcol : column (advance_offset 1 true s3) = column s3 + 1).
      { unfold advance_offset.
        unfold peek_is, peek in Hsp.
        destruct (current_line s3 !! offset s3) as [x|] eqn:Hl; [|done].
        apply Ascii.eqb_eq in Hsp as ->.
        rewrite (advance_loop_plain _ 1 true (offset s3) (column s3)); [done|].
        intros [|j] Hj; [|lia]. exists sp. split; [|done].
        by rewrite lookup_drop, Nat.add_0_r. }
      eexists _, (Some _). split; [reflexivity|].
      exists mlen, (mlen + 1). cbn [padding marker_offset tight ld_type bullet_char start delimiter].
      split; [done|]. split; [lia|]. split; [lia|]. split; [done|]. split; [done|].
      split; [exact Hkind|]. split; [exact Hnext|].
      split; [by eapply same_tree_trans|]. split; [congruence|]. lia.
    + eexists _, (Some _). split; [reflexivity|].
      exists mlen, (mlen + 1). cbn [padding marker_offset tight ld_type bullet_char start delimiter].
      split; [done|]. split; [lia|]. split; [lia|]. split; [done|]. split; [done|].
      split; [exact Hkind|]. split; [exact Hnext|].
      split; [exact Ht3|]. split; [exact Hl3|]. lia.
  - apply orb_false_elim in Hcase as [Hcase _].
    apply orb_false_elim in Hcase as [H5 H1].
    apply Nat.leb_gt in H5. apply Nat.ltb_ge in H1.
    eexists _, (Some _). split; [reflexivity|].
    exists mlen, (mlen + (column s2 - column s1)).
    cbn [padding marker_offset tight ld_type bullet_char start delimiter].
    split; [done|]. split; [lia|]. split; [lia|]. split; [done|]. split; [done|].
    split; [exact Hkind|]. split; [exact Hnext|].
    split; [by eapply same_tree_trans|]. split; [congruence|]. lia.
Qed.


(** ** [finalize] of the block kinds *)



Lemma Paragraph_finalize_refs_spec (fuel : nat) (content : str) (rm : RefMap)
    (has : bool) :
  length content < fuel ->
  exists (k : nat) (rm' : RefMap) (has' : bool),
    Paragraph_finalize_refs fuel content rm has = Ok (drop k content, rm', has') /\
    (has' = has \/ (has' = true /\ 0 < k)) /\
    (peek_is content 0 "[" = false -> k = 0 /\ rm' = rm /\ has' = has).
Proof.
  revert content rm has. induction fuel as [|fuel IH]; intros content rm has Hlen; [lia|].
  cbn [Paragraph_finalize_refs].
  destruct (peek_is content 0 "[") eqn:Hpeek.
  - destruct (parseReference content rm) as [pos rm'] eqn:Href.
    destruct (Nat.eqb_spec pos 0) as [->|Hpos].
    + exists 0, rm', has. rewrite drop_0. split; [done|]. split; [by left | done].
    + assert (Hne : content <> []) by (by intros ->).
      destruct (IH (drop pos content) rm' true) as (k & rm2 & has2 & Hrefs & Hhas & _).
      { rewrite length_drop. destruct content; [done|]. cbn [length] in *. lia. }
      exists (pos + k), rm2, has2. rewrite drop_drop in Hrefs.
      split; [exact Hrefs|]. split; [|done].
      right. destruct Hhas as [-> | [-> _]]; split; (done || lia).
  - exists 0, rm, has. rewrite drop_0. split; [by destruct fuel|]. split; [by left|done].
Qed.

(** X6: [Paragraph.finalize] on a paragraph that holds string content
    always returns.  The content that is left is the old content without
    a prefix, the link reference definitions that were parsed, and the
    reference map is the one the reference parser returned.  The
    paragraph is taken out of the tree only when at least one definition
    was consumed and nothing but white space is left; every other field
    of the parser is as it was.  A content that does not start with [[]
    is left whole, with the reference map and the tree as they were. *)
Theorem Paragraph_finalize_spec (s : Parser) (block : nat) (n : Node) (content : str) :
  heap s !! block = Some n ->
  string_content n = Some content ->
  exists (k : nat) (rm : RefMap) (h : list Node),
    Paragraph_finalize s block = Ok (set_refmap rm (set_heap h s)) /\
    (h = alter (set_string_content (Some (drop k content))) block (heap s) \/
     (0 < k /\ is_blank (drop k content) = true /\
      h = unlink block
            (alter (set_string_content (Some (drop k content))) block (heap s)))) /\
    (peek_is content 0 "[" = false ->
       k = 0 /\ rm = refmap s /\
       h = alter (set_string_content (Some content)) block (heap s)).
Proof.
  intros Hn Hsc. unfold Paragraph_finalize, get_node. rewrite Hn. cbn [of_option bind].
  rewrite Hsc. cbn [of_option bind].
  destruct (Paragraph_finalize_refs_spec (S (length content)) content (refmap s) false)
    as (k & rm & has & -> & Hhas & Hplain); [lia|].
  cbn [bind]. exists k, rm.
  destruct (has && is_blank (drop k content)) eqn:Hcut.
  - apply andb_prop in Hcut as [-> Hblank].
    destruct Hhas as [? | [_ Hk]]; [done|].
    eexists. split; [reflexivity|]. split.
    + right. done.
    + intros Hp. by destruct (Hplain Hp) as (_ & _ & ?).
  - eexists. split; [reflexivity|]. split; [by left|].
    intros Hp. destruct (Hplain Hp) as (-> & -> & _). by rewrite drop_0.
Qed.

Lemma ends_with_blank_line_none (fuel : nat) (h : list Node) (b : option nat) (r : bool) :
  Forall (fun n => last_line_blank n = false) h ->
  ends_with_blank_line fuel h b = Ok r -> r = false.
Proof.
  intros Hall. revert b. induction fuel as [|fuel IH]; intros [b|]; cbn; try congruence.
  intros H. apply bind_Ok in H as (n & Hn & H). apply of_option_Ok in Hn.
  rewrite Forall_lookup in Hall. rewrite (Hall b n Hn) in H.
  destruct (kind_eqb (t n) List || kind_eqb (t n) Item); [by eapply IH | congruence].
Qed.

Lemma List_finalize_subitems_none (fuel : nat) (h : list Node) (nx : bool)
    (l : list nat) (r : bool) :
  Forall (fun n => last_line_blank n = false) h ->
  List_finalize_subitems fuel h nx l = Ok r -> r = false.
Proof.
  intros Hall. induction l as [|i l IH]; cbn; [congruence|].
  intros H. apply bind_Ok in H as (e & He & H).
  apply (ends_with_blank_line_none _ _ _ _ Hall) in He as ->. cbn in H. by apply IH.
Qed.

Lemma List_finalize_items_none (fuel : nat) (h : list Node) (l : list nat) (r : bool) :
  Forall (fun n => last_line_blank n = false) h ->
  List_finalize_items fuel h l = Ok r -> r = false.
Proof.
  intros Hall. revert r. induction l as [|i l IH]; intros r; cbn; [congruence|].
  intros H. apply bind_Ok in H as (e & He & H).
  apply (ends_with_blank_line_none _ _ _ _ Hall) in He as ->. cbn in H.
  apply bind_Ok in H as (n & _ & H). apply bind_Ok in H as (l1 & Hl1 & H).
  apply bind_Ok in H as (l2 & Hl2 & H). injection H as <-.
  apply (List_finalize_subitems_none _ _ _ _ _ Hall) in Hl1 as ->.
  by apply IH in Hl2 as ->.
Qed.

(** X7: [List.finalize] changes the parser state only when it finds the
    list loose, and then it sets [tight] to false in the list data of the
    block, which is otherwise as it was.  It leaves the parser as it was
    when no block has [last_line_blank] set, and also when the list has
    one item with one child, whatever the blank lines: a blank line at the
    very end of a list does not make it loose. *)
Theorem List_finalize_tight (s s' : Parser) (block : nat) :
  List_finalize s block = Ok s' ->
  (s' = s \/
   exists n, heap s !! block = Some n /\
             heap s' !! block = Some (set_list_data (set_tight false (list_data n)) n)) /\
  (Forall (fun n => last_line_blank n = false) (heap s) -> s' = s) /\
  (forall (n item_node : Node) (item sub : nat),
     heap s !! block = Some n -> children n = [item] ->
     heap s !! item = Some item_node -> children item_node = [sub] -> s' = s).
Proof.
  unfold List_finalize, get_node. intros H.
  apply bind_Ok in H as (n & Hn & H). apply of_option_Ok in Hn.
  apply bind_Ok in H as (loose & Hloose & H).
  split; [|split].
  - destruct loose; injection H as <-; [right | by left].
    exists n. split; [done|]. cbn.
    by rewrite (lookup_alter_Some _ _ _ _ Hn).
  - intros Hall. apply (List_finalize_items_none _ _ _ _ Hall) in Hloose as ->.
    by injection H as <-.
  - intros n0 item_node item sub Hn0 Hch Hitem Hsub.
    rewrite Hn in Hn0. injection Hn0 as <-. rewrite Hch in Hloose.
    cbn [List_finalize_items] in Hloose. apply bind_Ok in Hloose as (e & _ & Hloose).
    cbn [null negb] in Hloose. rewrite andb_false_r, Hitem in Hloose.
    cbn [of_option bind] in Hloose. rewrite Hsub in Hloose.
    cbn [List_finalize_subitems] in Hloose.
    apply bind_Ok in Hloose as (l1 & Hl1 & Hloose).
    apply bind_Ok in Hl1 as (e2 & _ & Hl1).
    cbn [null negb orb] in Hl1. rewrite andb_false_r in Hl1. injection Hl1 as <-.
    cbn in Hloose. injection Hloose as <-.
    by injection H as <-.
Qed.

(** ** [Parser.finalize] and [Parser.add_child] *)

Lemma finalize_fenced_has_nl (s s' : Parser) (b : nat) (line : Z) (n : Node) :
  finalize s b line = Ok s' -> heap s !! b = Some n ->
  t n = CodeBlock -> is_fenced n = true -> has_nl (string_content n).
Proof.
  unfold finalize, get_node. intros H Hn Hk Hfen. rewrite Hn in H. cbn [of_option bind] in H.
  rewrite Hk in H. cbn [Block_finalize] in H. unfold CodeBlock_finalize, get_node in H.
  cbn [heap upd_node set_heap] in H. rewrite (lookup_alter_Some _ _ _ _ Hn) in H.
  cbn [of_option bind is_fenced set_sourcepos set_is_open string_content] in H.
  rewrite Hfen in H.
  destruct (string_content n) as [content|]; [|done]. cbn [of_option bind] in H.
  exists content. split; [done|]. by destruct (index_of nl content).
Qed.

Lemma finalize_closes (s s' : Parser) (b : nat) (line : Z) (n : Node) :
  heap s !! b = Some n -> parent n <> Some b -> finalize s b line = Ok s' ->
  closes b line s s'.
Proof.
  intros Hn Hself Hfin.
  pose proof (finalize_wp s b line) as Hwp. rewrite Hfin in Hwp. apply Hwp.
  - intros n0 Hn0. congruence.
  - intros n0 Hn0 Hk Hfen. rewrite Hn in Hn0. injection Hn0 as <-.
    by eapply finalize_fenced_has_nl.
Qed.

Lemma Block_finalize_sourcepos (k : Kind) (s s' : Parser) (b : nat) (n : Node) :
  heap s !! b = Some n -> parent n <> Some b -> Block_finalize k s b = Ok s' ->
  exists n', heap s' !! b = Some n' /\ sourcepos n' = sourcepos n.
Proof.
  intros Hn Hself.
  destruct k; cbn [Block_finalize]; try (intros [= <-]; by exists n).
  - unfold List_finalize. intros H.
    apply bind_Ok in H as (n1 & _ & H). apply bind_Ok in H as (loose & _ & H).
    destruct loose; injection H as <-; [|by exists n].
    eexists. split; [by apply lookup_alter_Some | done].
  - unfold CodeBlock_finalize. intros H.
    apply bind_Ok in H as (n1 & _ & H).
    destruct (is_fenced n1).
    + apply bind_Ok in H as (content & _ & H). apply bind_Ok in H as (pos & _ & H).
      injection H as <-. eexists. split; [by apply lookup_alter_Some | done].
    + apply bind_Ok in H as (content & _ & H). injection H as <-.
      eexists. split; [by apply lookup_alter_Some | done].
  - unfold HtmlBlock_finalize. intros H.
    apply bind_Ok in H as (n1 & _ & H). apply bind_Ok in H as (content & _ & H).
    injection H as <-. eexists. split; [by apply lookup_alter_Some | done].
  - unfold Paragraph_finalize. intros H.
    apply bind_Ok in H as (n1 & _ & H). apply bind_Ok in H as (content & _ & H).
    apply bind_Ok in H as ([[content' rm] has] & _ & H).
    destruct (has && is_blank content'); injection H as <-; cbn [heap set_heap set_refmap upd_node].
    + destruct (unlink_lookup b (alter (set_string_content (Some content')) b (heap s))
                  (set_string_content (Some content') n)) as (Hb & _).
      * by apply lookup_alter_Some.
      * done.
      * eexists. split; [exact Hb | done].
    + eexists. split; [by apply lookup_alter_Some | done].
Qed.

(** X8: what [Parser.finalize(block, line_number)] does to a block that
    is not its own parent, when it returns.  The block is closed and its
    end position is the given line and the length of the last line, while
    its kind, its children and where it starts are kept.  The tip becomes
    the parent the block had.  The block keeps its parent, unless it is a
    paragraph that is taken out of the tree, which its former parent then
    no longer lists.  Every other block keeps its kind, its parent,
    whether it is open and its string content, and loses at most children;
    the store keeps its size, and the cursor and the bookkeeping of the
    line are as they were. *)
Theorem finalize_effect (s s' : Parser) (block : nat) (line : Z) (n : Node) :
  heap s !! block = Some n -> parent n <> Some block ->
  finalize s block line = Ok s' ->
  (exists n',
     heap s' !! block = Some n' /\
     is_open n' = false /\
     sourcepos n' = (fst (sourcepos n), (line, Z.of_nat (last_line_length s))) /\
     t n' = t n /\ children n' = children n /\
     (parent n' = parent n \/
      (parent n' = None /\ t n = Paragraph /\
       forall p pn', parent n = Some p -> heap s' !! p = Some pn' ->
                     block ∉ children pn'))) /\
  tip s' = parent n /\
  (forall j nj, j <> block -> heap s !! j = Some nj ->
     exists nj', heap s' !! j = Some nj' /\
                 t nj' = t nj /\ parent nj' = parent nj /\ is_open nj' = is_open nj /\
                 string_content nj' = string_content nj /\
                 forall c, c ∈ children nj' -> c ∈ children nj) /\
  length (heap s') = length (heap s) /\
  frame s s'.
Proof.
  intros Hn Hself Hfin.
  pose proof (finalize_closes s s' block line n Hn Hself Hfin) as Hcl.
  destruct (cl_node _ _ _ _ Hcl)
    as (n0 & n' & Hn0 & Hn' & Htip & Ht & Hop & _ & _ & _ & Hch & _ & Hpar).
  rewrite Hn in Hn0. injection Hn0 as <-.
  split; [|split; [done|split; [|split; [apply Hcl | apply Hcl]]]].
  - exists n'. split; [done|]. split; [done|]. split; [|done].
    unfold finalize, get_node in Hfin. rewrite Hn in Hfin. cbn [of_option bind] in Hfin.
    apply bind_Ok in Hfin as (s2 & Hfin & H). injection H as <-.
    match type of Hfin with
    | Block_finalize _ (upd_node _ ?g0 _) _ = _ => set (g := g0) in *
    end.
    assert (Hg : heap (upd_node block g s) !! block = Some (g n))
      by (cbn; by apply lookup_alter_Some).
    destruct (Block_finalize_sourcepos (t n) _ _ block (g n) Hg Hself Hfin)
      as (n2 & Hn2 & Hsp).
    cbn [heap set_tip] in Hn'. rewrite Hn' in Hn2. injection Hn2 as <-.
    rewrite Hsp. done.
  - intros j nj Hj Hnj. destruct (cl_others _ _ _ _ Hcl j nj Hj Hnj) as (nj' & Hnj' & Hk).
    exists nj'. split; [done|]. repeat split; apply Hk.
Qed.

Lemma add_child_close_tip (fuel : nat) (tag : Kind) (s s1 : Parser) :
  add_child_close fuel tag s = Ok s1 ->
  (exists x n, tip s1 = Some x /\ heap s1 !! x = Some n /\ can_contain (t n) tag = true) /\
  line_number s1 = line_number s /\ length (heap s1) = length (heap s) /\
  (forall x n, tip s = Some x -> heap s !! x = Some n -> can_contain (t n) tag = true ->
               s1 = s).
Proof.
  revert s. induction fuel as [|fuel IH]; intros s; cbn [add_child_close]; intros H.
  - apply bind_Ok in H as (n & Hn & H).
    destruct (can_contain (t n) tag) eqn:Hc; [|by destruct (tip s)].
    injection H as <-. destruct (tip s) as [x|] eqn:Hx; [|done].
    cbn in Hn. apply of_option_Ok in Hn. split; [eauto|]. done.
  - apply bind_Ok in H as (n & Hn & H).
    destruct (can_contain (t n) tag) eqn:Hc.
    + injection H as <-. destruct (tip s) as [x|] eqn:Hx; [|done].
      cbn in Hn. apply of_option_Ok in Hn. split; [eauto|]. done.
    + destruct (tip s) as [x|] eqn:Hx; [|done].
      apply bind_Ok in H as (s0 & Hfin & H).
      destruct (IH _ H) as (Htip & Hline & Hlen & _).
      destruct (finalize_frame _ _ _ _ Hfin) as (Hlen0 & _ & Hline0 & _).
      split; [done|]. split; [congruence|]. split; [congruence|].
      intros x' n' [= <-] Hn' Hc'. cbn in Hn. apply of_option_Ok in Hn. congruence.
Qed.

Lemma add_child_block (tag : Kind) (off : nat) (s s' : Parser) (b : nat) :
  add_child tag off s = Ok (s', b) ->
  b = length (heap s) /\ length (heap s') = S (length (heap s)) /\
  tip s' = Some b /\
  (exists p pn,
     heap s' !! b =
       Some (set_parent (Some p)
               (new_node tag ((line_number s, (Z.of_nat off + 1)%Z), (0, 0)%Z))) /\
     heap s' !! p = Some pn /\ can_contain (t pn) tag = true /\
     last_child pn = Some b /\
     (forall x n, tip s = Some x -> heap s !! x = Some n ->
                  can_contain (t n) tag = true ->
                  p = x /\ pn = set_children (children n ++ [b]) n /\
                  forall i ni, i <> x -> heap s !! i = Some ni -> heap s' !! i = Some ni)).
Proof.
  unfold add_child. intros H.
  apply bind_Ok in H as (s1 & Hclose & H). apply bind_Ok in H as (tp & Htp & H).
  apply of_option_Ok in Htp. injection H as <- <-.
  destruct (add_child_close_tip _ _ _ _ Hclose) as ((x & n & Hx & Hn & Hc) & Hline & Hlen & Hsame).
  assert (tp = x) as -> by congruence.
  set (nn := new_node tag ((line_number s1, (Z.of_nat off + 1)%Z), (0, 0)%Z)).
  destruct (append_child_fresh (heap s1) x n nn Hn eq_refl) as (Hnew & Hp & Hold & Hlen').
  cbn [heap tip set_tip set_heap]. fold nn.
  split; [done|]. split; [congruence|]. split; [done|].
  exists x, (set_children (children n ++ [length (heap s1)]) n).
  split; [by rewrite Hnew, <- Hline|]. split; [done|]. split; [done|].
  split; [unfold last_child; cbn; apply last_snoc|].
  intros x0 n0 Hx0 Hn0 Hc0. specialize (Hsame x0 n0 Hx0 Hn0 Hc0). subst s1.
  assert (x = x0) by congruence. subst x0.
  assert (n = n0) by congruence. subst n0.
  split; [done|]. split; [done|]. intros i ni Hi Hni. by apply Hold.
Qed.

(** X9: what [Parser.add_child(tag, offset)] returns.  The new block is
    a new entry of the store and the new tip.  It is an open block of the
    given kind with the empty string content, no children, and the start
    position at the current line and the column after the offset; its
    parent is a block that can contain the kind, whose last child it is.
    When the tip can contain the kind, that parent is the tip, no block
    is closed and the other blocks are as they were. *)
Theorem add_child_new_block (tag : Kind) (off : nat) (s s' : Parser) (b : nat) :
  add_child tag off s = Ok (s', b) ->
  b = length (heap s) /\ length (heap s') = S (length (heap s)) /\
  tip s' = Some b /\
  (exists p pn,
     heap s' !! b =
       Some (set_parent (Some p)
               (new_node tag ((line_number s, (Z.of_nat off + 1)%Z), (0, 0)%Z))) /\
     heap s' !! p = Some pn /\ can_contain (t pn) tag = true /\
     last_child pn = Some b /\
     (forall x n, tip s = Some x -> heap s !! x = Some n ->
                  can_contain (t n) tag = true ->
                  p = x /\ pn = set_children (children n ++ [b]) n /\
                  forall i ni, i <> x -> heap s !! i = Some ni -> heap s' !! i = Some ni)).
Proof. apply add_child_block. Qed.

(** ** The block starts *)

Lemma cursor_kept_refl (s : Parser) : cursor_kept s s.
Proof. by constructor. Qed.

Lemma cursor_kept_trans (s1 s2 s3 : Parser) :
  cursor_kept s1 s2 -> cursor_kept s2 s3 -> cursor_kept s1 s3.
Proof. intros [] []. constructor; congruence. Qed.

Lemma Block_finalize_cursor (k : Kind) (s s' : Parser) (b : nat) :
  Block_finalize k s b = Ok s' -> cursor_kept s s' /\ length (heap s') = length (heap s).
Proof.
  destruct k; cbn [Block_finalize];
    try (intros [= <-]; split; [apply cursor_kept_refl | done]).
  - unfold List_finalize. intros H.
    apply bind_Ok in H as (n1 & _ & H). apply bind_Ok in H as (loose & _ & H).
    destruct loose; injection H as <-; (split; [by constructor|]); cbn;
      by rewrite ?length_alter.
  - unfold CodeBlock_finalize. intros H.
    apply bind_Ok in H as (n1 & _ & H).
    destruct (is_fenced n1).
    + apply bind_Ok in H as (content & _ & H). apply bind_Ok in H as (pos & _ & H).
      injection H as <-. split; [by constructor|]. cbn. by rewrite length_alter.
    + apply bind_Ok in H as (content & _ & H). injection H as <-.
      split; [by constructor|]. cbn. by rewrite length_alter.
  - unfold HtmlBlock_finalize. intros H.
    apply bind_Ok in H as (n1 & _ & H). apply bind_Ok in H as (content & _ & H).
    injection H as <-. split; [by constructor|]. cbn. by rewrite length_alter.
  - unfold Paragraph_finalize. intros H.
    apply bind_Ok in H as (n1 & _ & H). apply bind_Ok in H as (content & _ & H).
    apply bind_Ok in H as ([[content' rm] has] & _ & H).
    destruct (has && is_blank content'); injection H as <-;
      (split; [by constructor|]); cbn; by rewrite ?unlink_length, length_alter.
Qed.

Lemma finalize_cursor (s s' : Parser) (b : nat) (line : Z) :
  finalize s b line = Ok s' ->
  cursor_kept s s' /\ length (heap s') = length (heap s) /\
  oldtip s' = oldtip s /\ last_matched_container s' = last_matched_container s /\
  all_closed s' = all_closed s.
Proof.
  unfold finalize. intros H.
  apply bind_Ok in H as (n & Hn & H). apply bind_Ok in H as (s2 & Hfin & H).
  injection H as <-.
  destruct (finalize_frame s (set_tip (parent n) s2) b line) as (_ & _ & _ & _ & Ho & Hl & Ha).
  { unfold finalize. rewrite Hn. cbn [bind]. by rewrite Hfin. }
  apply Block_finalize_cursor in Hfin as [[] Hlen]. cbn in *.
  split; [by constructor|]. rewrite length_alter in Hlen. done.
Qed.

Lemma add_child_close_cursor (fuel : nat) (tag : Kind) (s s1 : Parser) :
  add_child_close fuel tag s = Ok s1 ->
  cursor_kept s s1 /\ oldtip s1 = oldtip s /\
  last_matched_container s1 = last_matched_container s /\ all_closed s1 = all_closed s.
Proof.
  revert s. induction fuel as [|fuel IH]; intros s; cbn [add_child_close]; intros H.
  - apply bind_Ok in H as (n & Hn & H).
    destruct (can_contain (t n) tag); [|by destruct (tip s)].
    injection H as <-. split; [apply cursor_kept_refl | done].
  - apply bind_Ok in H as (n & Hn & H).
    destruct (can_contain (t n) tag).
    + injection H as <-. split; [apply cursor_kept_refl | done].
    + destruct (tip s) as [x|]; [|done].
      apply bind_Ok in H as (s0 & Hfin & H).
      destruct (IH _ H) as (Hck & Ho & Hl & Ha).
      destruct (finalize_cursor _ _ _ _ Hfin) as (Hck0 & _ & Ho0 & Hl0 & Ha0).
      split; [by eapply cursor_kept_trans|]. split; [congruence|]. split; congruence.
Qed.

Lemma add_child_cursor (tag : Kind) (off : nat) (s s' : Parser) (b : nat) :
  add_child tag off s = Ok (s', b) ->
  cursor_kept s s' /\ oldtip s' = oldtip s /\
  last_matched_container s' = last_matched_container s /\ all_closed s' = all_closed s.
Proof.
  unfold add_child. intros H.
  apply bind_Ok in H as (s1 & Hclose & H). apply bind_Ok in H as (tp & Htp & H).
  injection H as <- <-.
  destruct (add_child_close_cursor _ _ _ _ Hclose) as ([] & Ho & Hl & Ha).
  split; [by constructor|]. done.
Qed.

Lemma close_unmatched_loop_cursor (fuel : nat) (s s' : Parser) :
  close_unmatched_loop fuel s = Ok s' ->
  cursor_kept s s' /\ length (heap s') = length (heap s) /\
  last_matched_container s' = last_matched_container s /\ all_closed s' = all_closed s.
Proof.
  revert s. induction fuel as [|fuel IH]; intros s; cbn [close_unmatched_loop]; intros H.
  - case_bool_decide; [|done]. injection H as <-. split; [apply cursor_kept_refl | done].
  - case_bool_decide; [injection H as <-; split; [apply cursor_kept_refl | done]|].
    apply bind_Ok in H as (ot & _ & H). apply bind_Ok in H as (n & _ & H).
    apply bind_Ok in H as (s1 & Hfin & H).
    destruct (IH _ H) as ([] & Hlen & Hl & Ha). cbn in *.
    destruct (finalize_cursor _ _ _ _ Hfin) as ([] & Hlen0 & _ & Hl0 & Ha0).
    split; [constructor; congruence|]. split; [congruence|]. split; congruence.
Qed.

Lemma close_unmatched_blocks_cursor (s s' : Parser) :
  close_unmatched_blocks s = Ok s' ->
  cursor_kept s s' /\ length (heap s') = length (heap s) /\
  last_matched_container s' = last_matched_container s.
Proof.
  unfold close_unmatched_blocks. destruct (all_closed s); cbn [negb]; intros H.
  - injection H as <-. split; [apply cursor_kept_refl | done].
  - apply bind_Ok in H as (s1 & Hloop & H). injection H as <-.
    destruct (close_unmatched_loop_cursor _ _ _ Hloop) as ([] & Hlen & Hl & _).
    split; [by constructor|]. done.
Qed.

(** The block that [add_child] opens, once the unmatched blocks are
    closed. *)
Lemma close_add_child (tag : Kind) (off : nat) (s s1 s2 : Parser) (b : nat) :
  close_unmatched_blocks s = Ok s1 -> add_child tag off s1 = Ok (s2, b) ->
  cursor_kept s s2 /\ tip s2 = Some b /\ length (heap s) = b /\
  length (heap s2) = S b /\
  exists p,
    heap s2 !! b =
      Some (set_parent (Some p)
              (new_node tag ((line_number s, (Z.of_nat off + 1)%Z), (0, 0)%Z))).
Proof.
  intros Hclose Hadd.
  destruct (close_unmatched_blocks_cursor _ _ Hclose) as (Hck1 & Hlen1 & _).
  destruct (add_child_cursor _ _ _ _ _ Hadd) as (Hck2 & _).
  destruct (add_child_block _ _ _ _ _ Hadd) as (-> & Hlen2 & Htip & p & pn & Hb & _).
  split; [by eapply cursor_kept_trans|]. split; [done|]. split; [done|].
  split; [congruence|]. exists p. by rewrite <- (ck_line_number _ _ Hck1).
Qed.

Lemma upd_node_new (b : nat) (f : Node -> Node) (s : Parser) (n : Node) :
  heap s !! b = Some n -> heap (upd_node b f s) !! b = Some (f n).
Proof. intros H. cbn. by apply lookup_alter_Some. Qed.

Lemma new_block_opens (tag : Kind) (pos : (Z * Z) * (Z * Z)) (p : nat) (f : Node -> Node)
    (s0 s3 s' : Parser) (b : nat) :
  tip s3 = Some b -> length (heap s0) <= b ->
  heap s3 !! b = Some (set_parent (Some p) (new_node tag pos)) ->
  same_tree (upd_node b f s3) s' ->
  (forall x, t (f x) = t x /\ is_open (f x) = is_open x /\
             children (f x) = children x /\ parent (f x) = parent x) ->
  exists b nb, tip s' = Some b /\ length (heap s0) <= b /\
               heap s' !! b = Some nb /\ t nb = tag /\ is_open nb = true /\
               children nb = [] /\ parent nb <> None.
Proof.
  intros Htip Hlen Hb Hst Hf. exists b. eexists.
  rewrite (st_tip _ _ Hst), (st_heap _ _ Hst). cbn.
  split; [done|]. split; [done|]. split; [by apply lookup_alter_Some|].
  destruct (Hf (set_parent (Some p) (new_node tag pos))) as (-> & -> & -> & ->). done.
Qed.

Lemma upd_node_id (b : nat) (s : Parser) : upd_node b (fun x => x) s = s.
Proof.
  unfold upd_node. replace (alter (fun x : Node => x) b (heap s)) with (heap s).
  - by destruct s.
  - apply list_eq. intros i. destruct (decide (i = b)) as [->|Hne].
    + rewrite list_lookup_alter_eq. by destruct (heap s !! b).
    + by rewrite list_lookup_alter_ne.
Qed.

Lemma block_quote_opens : start_opens block_quote BlockQuote.
Proof.
  intros s s' c rv. unfold block_quote.
  destruct (negb (indented s) && peek_is (current_line s) (next_nonspace s) ">");
    [|intros [= <- <-]; by left].
  set (s2 := if peek_is _ _ sp then _ else _).
  assert (Hheap : heap s2 = heap s).
  { unfold s2. destruct (peek_is _ _ sp);
      by rewrite ?(st_heap _ _ (same_tree_advance_offset _ _ _)). }
  intros H. apply bind_Ok in H as (s3 & Hclose & H).
  apply bind_Ok in H as ([s4 b] & Hadd & H). injection H as <- <-.
  right. split; [done|].
  destruct (close_add_child _ _ _ _ _ _ Hclose Hadd) as (_ & Htip & Hlen & _ & p & Hb).
  eapply (new_block_opens _ _ p (fun x => x) s s4 s4 b); try done.
  - rewrite <- Hheap. lia.
  - rewrite upd_node_id. apply same_tree_refl.
Qed.

Lemma atx_heading_opens : start_opens atx_heading Heading.
Proof.
  intros s s' c rv. unfold atx_heading.
  destruct (negb (indented s)); [|intros [= <- <-]; by left].
  destruct (reATXHeadingMarker (rest_of_line s)) as [[hashes len]|];
    [|intros [= <- <-]; by left].
  intros H. apply bind_Ok in H as (s2 & Hclose & H).
  apply bind_Ok in H as ([s3 b] & Hadd & H). injection H as <- <-.
  right. split; [done|].
  destruct (close_add_child _ _ _ _ _ _ Hclose Hadd) as (_ & Htip & Hlen & _ & p & Hb).
  eapply (new_block_opens _ _ p _ s s3 _ b); [exact Htip| |exact Hb| |].
  - rewrite (st_heap _ _ (same_tree_advance_offset _ _ _)) in Hlen. cbn in Hlen. lia.
  - apply same_tree_advance_to_eol.
  - done.
Qed.

Lemma fenced_code_block_opens : start_opens fenced_code_block CodeBlock.
Proof.
  intros s s' c rv. unfold fenced_code_block.
  destruct (negb (indented s)); [|intros [= <- <-]; by left].
  destruct (reCodeFence (rest_of_line s)) as [[ch len]|];
    [|intros [= <- <-]; by left].
  intros H. apply bind_Ok in H as (s1 & Hclose & H).
  apply bind_Ok in H as ([s2 b] & Hadd & H). injection H as <- <-.
  right. split; [done|].
  destruct (close_add_child _ _ _ _ _ _ Hclose Hadd) as (_ & Htip & Hlen & _ & p & Hb).
  eapply (new_block_opens _ _ p _ s s2 _ b); [exact Htip| |exact Hb| |].
  - lia.
  - eapply same_tree_trans; [|apply same_tree_advance_offset].
    by constructor.
  - done.
Qed.

Lemma html_block_opens : start_opens html_block HtmlBlock.
Proof.
  intros s s' c rv. unfold html_block.
  destruct (negb (indented s) && peek_is (current_line s) (next_nonspace s) "<");
    [|intros [= <- <-]; by left].
  intros H. apply bind_Ok in H as (found & _ & H).
  destruct found as [bt|]; [|injection H as <- <-; by left].
  apply bind_Ok in H as (s1 & Hclose & H).
  apply bind_Ok in H as ([s2 b] & Hadd & H). injection H as <- <-.
  right. split; [done|].
  destruct (close_add_child _ _ _ _ _ _ Hclose Hadd) as (_ & Htip & Hlen & _ & p & Hb).
  eapply (new_block_opens _ _ p _ s s2 _ b); [exact Htip| |exact Hb| |].
  - lia.
  - apply same_tree_refl.
  - done.
Qed.

Lemma thematic_break_opens : start_opens thematic_break ThematicBreak.
Proof.
  intros s s' c rv. unfold thematic_break.
  destruct (negb (indented s) && reThematicBreak (rest_of_line s));
    [|intros [= <- <-]; by left].
  intros H. apply bind_Ok in H as (s1 & Hclose & H).
  apply bind_Ok in H as ([s2 b] & Hadd & H). injection H as <- <-.
  right. split; [done|].
  destruct (close_add_child _ _ _ _ _ _ Hclose Hadd) as (_ & Htip & Hlen & _ & p & Hb).
  eapply (new_block_opens _ _ p (fun x => x) s s2 _ b); try done.
  - lia.
  - rewrite upd_node_id. apply same_tree_advance_to_eol.
Qed.

Lemma indented_code_block_opens : start_opens indented_code_block CodeBlock.
Proof.
  intros s s' c rv. unfold indented_code_block.
  destruct (indented s); [|intros [= <- <-]; by left].
  intros H. apply bind_Ok in H as (tp & _ & H).
  destruct (negb (kind_eqb (t tp) Paragraph) && negb (blank s));
    [|injection H as <- <-; by left].
  apply bind_Ok in H as (s2 & Hclose & H).
  apply bind_Ok in H as ([s3 b] & Hadd & H). injection H as <- <-.
  right. split; [done|].
  destruct (close_add_child _ _ _ _ _ _ Hclose Hadd) as (_ & Htip & Hlen & _ & p & Hb).
  eapply (new_block_opens _ _ p (fun x => x) s s3 _ b); try done.
  - rewrite (st_heap _ _ (same_tree_advance_offset _ _ _)) in Hlen. lia.
  - rewrite upd_node_id. apply same_tree_refl.
Qed.

Lemma parse_list_marker_None (s s' : Parser) :
  parse_list_marker s = Ok (s', None) -> s' = s.
Proof.
  intros H. destruct (parse_list_marker_cases s) as (s1 & r & Hr & Hcase).
  rewrite H in Hr. injection Hr as <- <-. exact Hcase.
Qed.

Lemma list_item_opens : start_opens list_item Item.
Proof.
  intros s s' c rv. unfold list_item. intros H.
  apply bind_Ok in H as (go & _ & H). destruct go; [|injection H as <- <-; by left].
  apply bind_Ok in H as ([s1 data] & Hm & H).
  destruct data as [data|].
  2:{ injection H as <- <-. left. split; [done|]. by apply parse_list_marker_None. }
  apply bind_Ok in H as (s2 & Hclose & H). apply bind_Ok in H as (tp & _ & H).
  apply bind_Ok in H as (new_list & _ & H). apply bind_Ok in H as (s3 & Hs3 & H).
  apply bind_Ok in H as ([s4 b] & Hadd & H). injection H as <- <-.
  right. split; [done|].
  pose proof (st_heap _ _ (same_tree_parse_list_marker _ _ _ Hm)) as Hh1.
  destruct (close_unmatched_blocks_cursor _ _ Hclose) as (_ & Hlen2 & _).
  assert (Hlen3 : length (heap s2) <= length (heap s3)).
  { destruct new_list; [|by injection Hs3 as <-].
    apply bind_Ok in Hs3 as ([s0 b0] & Hadd0 & Hs3). injection Hs3 as <-.
    destruct (add_child_block _ _ _ _ _ Hadd0) as (_ & Hlen & _).
    cbn. rewrite length_alter. lia. }
  destruct (add_child_block _ _ _ _ _ Hadd) as (-> & _ & Htip & p & pn & Hb & _).
  eapply (new_block_opens _ _ p _ s s4 _ _); [exact Htip| |exact Hb| |].
  - rewrite <- Hh1, <- Hlen2. exact Hlen3.
  - apply same_tree_refl.
  - done.
Qed.

Lemma alter_lookup_inv (f : Node -> Node) (i : nat) (h : list Node) (j : nat) (n' : Node) :
  alter f i h !! j = Some n' ->
  exists n, h !! j = Some n /\ ((i <> j /\ n' = n) \/ (i = j /\ n' = f n)).
Proof.
  destruct (decide (i = j)) as [->|Hne].
  - rewrite list_lookup_alter_eq. destruct (h !! j) as [n|]; [|done].
    intros [= <-]. eauto.
  - rewrite list_lookup_alter_ne by done. eauto.
Qed.

Lemma unlink_lookup_inv (i : nat) (h : list Node) (j : nat) (n' : Node) :
  unlink i h !! j = Some n' ->
  exists n, h !! j = Some n /\ t n' = t n /\ is_open n' = is_open n /\
            list_data n' = list_data n /\
            (children n = [] -> children n' = []) /\
            (parent n' = parent n \/ (j = i /\ parent n' = None)).
Proof.
  unfold unlink. destruct (h !! i) as [ni|] eqn:Hi; [|by eauto 10].
  destruct (parent ni) as [p|]; [|by eauto 10].
  intros H. apply alter_lookup_inv in H as (n1 & H & Hn1).
  apply alter_lookup_inv in H as (n & Hn & Hn0).
  exists n. split; [done|].
  destruct Hn1 as [[_ ->] | [-> ->]], Hn0 as [[_ ->] | [_ ->]]; cbn;
    repeat split; try done; try (by intros ->); auto.
Qed.

Lemma setext_heading_opens : start_opens setext_heading Heading.
Proof.
  intros s s' c rv. unfold setext_heading.
  destruct (negb (indented s)); [|intros [= <- <-]; by left].
  intros H. apply bind_Ok in H as (cn & _ & H).
  destruct (kind_eqb (t cn) Paragraph); [|injection H as <- <-; by left].
  destruct (reSetextHeadingLine (rest_of_line s)) as [ch|];
    [|injection H as <- <-; by left].
  apply bind_Ok in H as (s1 & Hclose & H). apply bind_Ok in H as (c1 & Hc1 & H).
  apply bind_Ok in H as (ci & Hci & H). apply of_option_Ok in Hci. subst c.
  cbn in Hc1. apply of_option_Ok in Hc1.
  apply bind_Ok in H as (h1 & Hins & H). injection H as <- <-.
  right. split; [done|].
  destruct (close_unmatched_blocks_cursor _ _ Hclose) as (_ & Hlen & _).
  set (hn := set_string_content _ _) in Hins.
  assert (Hci_lt : ci < length (heap s1)) by (by eapply lookup_lt_Some).
  assert (Hnew : (heap s1 ++ [hn]) !! length (heap s1) = Some hn)
    by (by apply list_lookup_middle).
  assert (Hun : unlink (length (heap s1)) (heap s1 ++ [hn]) = heap s1 ++ [hn]).
  { unfold unlink. by rewrite Hnew. }
  unfold insert_after in Hins. rewrite Hun in Hins.
  apply bind_Ok in Hins as (n & Hn & Hins).
  destruct (parent n) as [p|]; [|done]. injection Hins as <-.
  match goal with
  | |- context [unlink ci ?h] => set (h1 := h)
  end.
  assert (Hh1 : exists x, h1 !! length (heap s1) = Some x /\ t x = Heading /\
                          is_open x = true /\ children x = [] /\ parent x = Some p).
  { unfold h1. rewrite list_lookup_alter_eq.
    destruct (alter (fun pn => set_children
                (insert_after_id ci (length (heap s1)) (children pn)) pn) p
                (heap s1 ++ [hn]) !! length (heap s1)) as [x|] eqn:Hx.
    - apply alter_lookup_inv in Hx as (x0 & Hx0 & Hcase).
      rewrite Hnew in Hx0. injection Hx0 as <-.
      eexists. split; [done|]. by destruct Hcase as [[_ ->] | [_ ->]].
    - apply lookup_ge_None in Hx. rewrite length_alter, length_app in Hx. cbn in Hx. lia. }
  destruct Hh1 as (x & Hx & Hxt & Hxo & Hxc & Hxp).
  exists (length (heap s1)).
  pose proof (same_tree_advance_to_eol
                (set_tip (Some (length (heap s1))) (set_heap (unlink ci h1) s1))) as Hst.
  rewrite (st_tip _ _ Hst), (st_heap _ _ Hst). cbn [tip heap set_tip set_heap].
  destruct (unlink ci h1 !! length (heap s1)) as [x'|] eqn:Hx'.
  - destruct (unlink_lookup_inv _ _ _ _ Hx') as (x0 & Hx0 & Ht & Ho & _ & Hc & Hp).
    rewrite Hx in Hx0. injection Hx0 as <-.
    exists x'. split; [done|]. split; [lia|]. split; [done|].
    split; [congruence|]. split; [congruence|]. split; [auto|].
    destruct Hp as [Hp | [Heq _]]; [congruence | lia].
  - apply lookup_ge_None in Hx'. rewrite unlink_length in Hx'.
    apply lookup_lt_Some in Hx. lia.
Qed.

(** X10: what the block starts open.  In the order in which they are
    tried, the eight block starts open a block quote, a heading, a code
    block, an HTML block, a heading, a thematic break, a list item and a
    code block.  Each of them, when it returns, either returns 0 and
    leaves the parser as it was, or makes the tip a new open block of its
    kind, without children and with a parent, and returns 1 when that
    kind is a container and 2 when it is a leaf. *)
Theorem block_starts_open :
  Forall2 start_opens METHODS
    [BlockQuote; Heading; CodeBlock; HtmlBlock; Heading; ThematicBreak; Item; CodeBlock].
Proof.
  unfold METHODS.
  constructor; [apply block_quote_opens|].
  constructor; [apply atx_heading_opens|].
  constructor; [apply fenced_code_block_opens|].
  constructor; [apply html_block_opens|].
  constructor; [apply setext_heading_opens|].
  constructor; [apply thematic_break_opens|].
  constructor; [apply list_item_opens|].
  constructor; [apply indented_code_block_opens|].
  constructor.
Qed.

Lemma run_len_eqb_lookup (c : ascii) (s : list ascii) (j : nat) :
  j < run_len (Ascii.eqb c) s -> s !! j = Some c.
Proof.
  intros Hj. destruct (run_len_lookup _ _ _ Hj) as (x & Hx & Heq).
  apply Ascii.eqb_eq in Heq. by subst x.
Qed.

Lemma reATXHeadingMarker_spec (rest : list ascii) (k len : nat) :
  reATXHeadingMarker rest = Some (k, len) ->
  1 <= k /\ k <= 6 /\ k <= len /\ len <= length rest /\
  (forall j, j < k -> rest !! j = Some "#"%char) /\
  (forall j, k <= j < len -> rest !! j = Some sp).
Proof.
  unfold reATXHeadingMarker. cbv zeta.
  destruct ((1 <=? run_len (Ascii.eqb "#") rest) && (run_len (Ascii.eqb "#") rest <=? 6))
    eqn:Hk; [|done].
  apply andb_prop in Hk as [Hk1 Hk6]. apply Nat.leb_le in Hk1. apply Nat.leb_le in Hk6.
  pose proof (run_len_le (Ascii.eqb "#") rest) as Hle.
  pose proof (run_len_le (Ascii.eqb sp) (drop (run_len (Ascii.eqb "#") rest) rest)) as Hle2.
  rewrite length_drop in Hle2.
  assert (Hsp : forall j, run_len (Ascii.eqb "#") rest <= j <
                  run_len (Ascii.eqb "#") rest +
                  run_len (Ascii.eqb sp) (drop (run_len (Ascii.eqb "#") rest) rest) ->
                rest !! j = Some sp).
  { intros j Hj.
    pose proof (run_len_eqb_lookup sp (drop (run_len (Ascii.eqb "#") rest) rest)
                  (j - run_len (Ascii.eqb "#") rest) ltac:(lia)) as Hl.
    rewrite lookup_drop in Hl.
    by replace (run_len (Ascii.eqb "#") rest + (j - run_len (Ascii.eqb "#") rest))
      with j in Hl by lia. }
  destruct (1 <=? run_len (Ascii.eqb sp) (drop (run_len (Ascii.eqb "#") rest) rest)).
  - intros [= <- <-]. split; [lia|]. split; [lia|]. split; [lia|]. split; [lia|].
    split; [apply run_len_eqb_lookup | exact Hsp].
  - destruct (at_dollar _); [|done]. intros [= <- <-].
    split; [lia|]. split; [lia|]. split; [lia|]. split; [lia|].
    split; [apply run_len_eqb_lookup | intros j Hj; lia].
Qed.

Lemma advance_offset_within (s : Parser) (k : nat) :
  next_nonspace s + k <= length (current_line s) ->
  offset (advance_offset (Z.of_nat k) false (advance_next_nonspace s)) = next_nonspace s + k.
Proof.
  intros Hk. unfold advance_offset, advance_next_nonspace. cbn.
  pose proof (advance_loop_chars (drop (next_nonspace s) (current_line s)) (Z.of_nat k)
                (next_nonspace s) (next_nonspace_column s)) as H.
  rewrite length_drop in H.
  destruct (advance_loop _ _ _ _ _) as [o c]. cbn in *. lia.
Qed.

(** X11: an ATX heading.  When [atx_heading] opens a block, the line is
    not indented and holds at [next_nonspace] between one and six [#]
    followed by spaces or the end of the line.  The new tip is a heading
    whose level is the number of [#], which starts at the current line, in
    the column of the first [#]; its string content is what follows the
    marker, without a closing sequence of [#].  The offset is moved to the
    end of the line. *)
Theorem atx_heading_level (s s' : Parser) (c : option nat) :
  atx_heading s c = Ok (s', 2%Z) ->
  indented s = false /\
  exists (b : nat) (nb : Node) (len : nat),
    tip s' = Some b /\ heap s' !! b = Some nb /\ t nb = Heading /\
    reATXHeadingMarker (rest_of_line s) = Some (level nb, len) /\
    1 <= level nb /\ level nb <= 6 /\
    (forall j, j < level nb ->
       current_line s !! (next_nonspace s + j) = Some "#"%char) /\
    string_content nb =
      Some (sub_closing_hashes
              (sub_only_hashes (drop (next_nonspace s + len) (current_line s)))) /\
    sourcepos nb = ((line_number s, (Z.of_nat (next_nonspace s) + 1)%Z), (0, 0)%Z) /\
    current_line s' = current_line s /\
    length (current_line s') <= offset s'.
Proof.
  unfold atx_heading.
  destruct (indented s) eqn:Hind; cbn [negb]; [done|].
  destruct (reATXHeadingMarker (rest_of_line s)) as [[hashes len]|] eqn:Hre; [|done].
  intros H. apply bind_Ok in H as (s2 & Hclose & H).
  apply bind_Ok in H as ([s3 b] & Hadd & H). injection H as <-.
  split; [done|].
  destruct (reATXHeadingMarker_spec _ _ _ Hre) as (Hk1 & Hk6 & Hkl & Hlen & Hhash & _).
  unfold rest_of_line in Hlen, Hhash. rewrite length_drop in Hlen.
  set (s1 := advance_offset (Z.of_nat len) false (advance_next_nonspace s)) in *.
  assert (Hoff : offset s1 = next_nonspace s + len) by (apply advance_offset_within; lia).
  assert (Hst : same_tree (advance_next_nonspace s) s1)
    by apply same_tree_advance_offset.
  assert (Hs1 : current_line s1 = current_line s /\ next_nonspace s1 = next_nonspace s).
  { unfold s1, advance_offset. by destruct (advance_loop _ _ _ _ _). }
  destruct Hs1 as [Hline1 Hnn1].
  destruct (close_unmatched_blocks_cursor _ _ Hclose) as (Hck2 & _).
  destruct (close_add_child _ _ _ _ _ _ Hclose Hadd) as (Hck & Htip & _ & _ & p & Hb).
  eapply upd_node_new in Hb.
  pose proof (same_tree_advance_to_eol
                (upd_node b (fun x => set_string_content
                   (Some (sub_closing_hashes (sub_only_hashes
                      (drop (offset s3) (current_line s3)))))
                   (set_level hashes x)) s3)) as Hst'.
  eexists b, _, len. rewrite (st_tip _ _ Hst'), (st_heap _ _ Hst').
  split; [exact Htip|]. split; [exact Hb|]. cbn [t level string_content sourcepos
    set_string_content set_level set_parent new_node].
  split; [done|]. split; [done|]. split; [done|]. split; [done|]. split.
  { intros j Hj. unfold str in *. rewrite <- lookup_drop. by apply Hhash. }
  split.
  { by rewrite (ck_offset _ _ Hck), (ck_current_line _ _ Hck), Hoff, Hline1. }
  split.
  { rewrite (st_line_number _ _ Hst). cbn. by rewrite (ck_next_nonspace _ _ Hck2), Hnn1. }
  split; [|apply advance_to_eol_offset].
  unfold advance_to_eol, advance_offset. destruct (advance_loop _ _ _ _ _). cbn.
  by rewrite (ck_current_line _ _ Hck).
Qed.

Lemma reCodeFence_spec (rest : list ascii) (ch : ascii) (len : nat) :
  reCodeFence rest = Some (ch, len) ->
  is_fence_char ch = true /\ 3 <= len /\ len <= length rest /\
  (forall j, j < len -> rest !! j = Some ch) /\
  ch_in ch (take_line (drop len rest)) = false.
Proof.
  unfold reCodeFence. destruct rest as [|c r] eqn:Hr; [done|]. rewrite <- Hr.
  destruct (is_fence_char c) eqn:Hf; [|done]. cbv zeta.
  destruct ((3 <=? run_len (Ascii.eqb c) rest) &&
            negb (ch_in c (take_line (drop (run_len (Ascii.eqb c) rest) rest)))) eqn:Hk;
    [|done].
  apply andb_prop in Hk as [Hk3 Hno]. apply Nat.leb_le in Hk3.
  apply negb_true_iff in Hno. intros [= <- <-].
  split; [done|]. split; [done|]. split; [apply run_len_le|].
  split; [apply run_len_eqb_lookup | done].
Qed.

(** X12: a fenced code block.  When [fenced_code_block] opens a block,
    the line is not indented and holds at [next_nonspace] a fence: a run of
    three or more backticks, or of three or more tildes, and no further
    fence character on the line.  The new tip is a code block that is
    fenced, with that fence character, the length of the run as its fence
    length and the indent as its fence offset; it starts at the current
    line, in the column of the fence, its string content is empty, and the
    offset is moved to the end of the fence. *)
Theorem fenced_code_block_fence (s s' : Parser) (c : option nat) :
  fenced_code_block s c = Ok (s', 2%Z) ->
  indented s = false /\
  exists (b : nat) (nb : Node) (ch : ascii),
    tip s' = Some b /\ heap s' !! b = Some nb /\ t nb = CodeBlock /\
    is_fenced nb = true /\ fence_char nb = Some ch /\
    (ch = "`"%char \/ ch = "~"%char) /\
    3 <= fence_length nb /\
    (forall j, j < fence_length nb ->
       current_line s !! (next_nonspace s + j) = Some ch) /\
    ch_in ch (take_line (drop (next_nonspace s + fence_length nb) (current_line s)))
      = false /\
    fence_offset nb = indent s /\
    string_content nb = Some [] /\
    sourcepos nb = ((line_number s, (Z.of_nat (next_nonspace s) + 1)%Z), (0, 0)%Z) /\
    current_line s' = current_line s /\
    offset s' = next_nonspace s + fence_length nb.
Proof.
  unfold fenced_code_block.
  destruct (indented s) eqn:Hind; cbn [negb]; [done|].
  destruct (reCodeFence (rest_of_line s)) as [[ch len]|] eqn:Hre; [|done].
  intros H. apply bind_Ok in H as (s1 & Hclose & H).
  apply bind_Ok in H as ([s2 b] & Hadd & H). injection H as <-.
  split; [done|].
  destruct (reCodeFence_spec _ _ _ Hre) as (Hfc & Hk3 & Hlen & Hrun & Hno).
  unfold rest_of_line in Hlen, Hrun, Hno. rewrite length_drop in Hlen. rewrite drop_drop in Hno.
  destruct (close_unmatched_blocks_cursor _ _ Hclose) as (Hck1 & _).
  destruct (close_add_child _ _ _ _ _ _ Hclose Hadd) as (Hck & Htip & _ & _ & p & Hb).
  match goal with
  | |- context [advance_next_nonspace (upd_node b ?f s2)] =>
      set (f0 := f); set (s3 := upd_node b f0 s2)
  end.
  apply (upd_node_new b f0) in Hb. fold s3 in Hb.
  assert (Hs3 : current_line s3 = current_line s /\ next_nonspace s3 = next_nonspace s).
  { split; [apply Hck | apply Hck]. }
  destruct Hs3 as [Hline3 Hnn3].
  pose proof (same_tree_advance_offset (Z.of_nat len) false (advance_next_nonspace s3)) as Hst.
  eexists b, _, ch. rewrite (st_tip _ _ Hst), (st_heap _ _ Hst).
  split; [exact Htip|]. split; [exact Hb|].
  cbn [t is_fenced fence_char fence_length fence_offset string_content sourcepos
       set_fence_offset set_fence_char set_fence_length set_is_fenced set_parent new_node].
  split; [done|]. split; [done|]. split; [done|]. split.
  { unfold is_fence_char in Hfc. cbn in Hfc.
    destruct (Ascii.eqb_spec ch "`"); [by left|].
    destruct (Ascii.eqb_spec ch "~"); [by right|done]. }
  split; [done|]. split.
  { intros j Hj. unfold str in *. rewrite <- lookup_drop. by apply Hrun. }
  split; [done|]. split; [apply Hck|]. split; [done|]. split.
  { by rewrite (ck_next_nonspace _ _ Hck1). }
  split.
  { unfold advance_offset. destruct (advance_loop _ _ _ _ _). cbn. apply Hck. }
  rewrite advance_offset_within; [by rewrite Hnn3|]. rewrite Hnn3, Hline3. lia.
Qed.

(** X13: a list item.  When [list_item] opens a block, the new tip is a
    list item that starts on the current line and is the last child of a
    list.  The item holds the data of the marker: [marker_offset] is the
    indent of the line and [padding] is at least two columns.  One block
    is added to the store, the item, or two, a new list and the item in
    it, and the new list then holds the same data. *)
Theorem list_item_structure (s s' : Parser) (c : option nat) :
  list_item s c = Ok (s', 1%Z) ->
  exists (b p : nat) (nb pn : Node) (pad : nat),
    tip s' = Some b /\ heap s' !! b = Some nb /\ t nb = Item /\
    is_open nb = true /\ first_line nb = line_number s /\
    marker_offset (list_data nb) = Some (indent s) /\
    padding (list_data nb) = Some pad /\ 2 <= pad /\
    parent nb = Some p /\ heap s' !! p = Some pn /\ t pn = List /\
    last_child pn = Some b /\
    ((b = length (heap s) /\ length (heap s') = length (heap s) + 1) \/
     (b = length (heap s) + 1 /\ length (heap s') = length (heap s) + 2 /\
      p = length (heap s) /\ list_data pn = list_data nb)).
Proof.
  unfold list_item. intros H.
  apply bind_Ok in H as (go & _ & H). destruct go; [|done].
  apply bind_Ok in H as ([s1 data] & Hm & H). destruct data as [data|]; [|done].
  apply bind_Ok in H as (s2 & Hclose & H). apply bind_Ok in H as (tp & _ & H).
  apply bind_Ok in H as (new_list & _ & H). apply bind_Ok in H as (s3 & Hs3 & H).
  apply bind_Ok in H as ([s4 b] & Hadd & H). injection H as <-.
  pose proof (same_tree_parse_list_marker _ _ _ Hm) as Hst1.
  destruct (parse_list_marker_cases s) as (s1' & r & Hr & Hcase).
  rewrite Hm in Hr. injection Hr as <- <-.
  destruct Hcase as (mlen & pad & Hpad & Hpad1 & _ & Hmo & _ & Hkind & _).
  assert (Hmlen : 1 <= mlen) by (destruct Hkind as [(_ & -> & _) | (_ & ? & _)]; lia).
  destruct (close_unmatched_blocks_cursor _ _ Hclose) as (Hck2 & Hlen2 & _).
  destruct (add_child_block _ _ _ _ _ Hadd) as (-> & Hlen4 & Htip & p & pn & Hb & Hp & Hcan & Hlast & _).
  assert (Hpk : t pn = List) by (destruct (t pn); done).
  assert (Hpb : p <> length (heap s3)).
  { intros ->. rewrite Hb in Hp. injection Hp as <-. done. }
  assert (Hs3' : line_number s3 = line_number s /\
                 (length (heap s3) = length (heap s) \/
                  (length (heap s3) = length (heap s) + 1 /\
                   exists ln, heap s3 !! length (heap s) = Some ln /\ list_data ln = data))).
  { destruct new_list.
    - apply bind_Ok in Hs3 as ([s0 b0] & Hadd0 & Hs3). injection Hs3 as <-.
      destruct (add_child_block _ _ _ _ _ Hadd0) as (-> & Hlen0 & _ & p0 & pn0 & Hb0 & _).
      destruct (add_child_cursor _ _ _ _ _ Hadd0) as (Hck0 & _).
      cbn [line_number heap upd_node set_heap]. rewrite length_alter.
      split; [by rewrite (ck_line_number _ _ Hck0), (ck_line_number _ _ Hck2),
                         (st_line_number _ _ Hst1)|].
      right. rewrite Hlen2, (st_heap _ _ Hst1) in *. split; [lia|].
      eexists. split; [by apply lookup_alter_Some | done].
    - injection Hs3 as <-.
      split; [by rewrite (ck_line_number _ _ Hck2), (st_line_number _ _ Hst1)|].
      left. by rewrite Hlen2, (st_heap _ _ Hst1). }
  destruct Hs3' as (Hline3 & Hgrow).
  exists (length (heap s3)), p. eexists _, pn, pad.
  cbn [tip heap upd_node set_heap].
  split; [exact Htip|]. split; [by apply lookup_alter_Some|].
  cbn [t is_open first_line sourcepos list_data parent set_list_data set_parent new_node fst].
  split; [done|]. split; [done|]. split; [exact Hline3|].
  split; [exact Hmo|]. split; [exact Hpad|]. split; [lia|]. split; [done|].
  split; [by rewrite list_lookup_alter_ne|]. split; [done|]. split; [done|].
  rewrite length_alter, Hlen4.
  destruct Hgrow as [Hg | (Hg & ln & Hln & Hld)]; [left; lia|].
  right. split; [lia|]. split; [lia|].
  (* the parent of the item is the tip, the new list *)
  destruct new_list; [|injection Hs3 as <-; rewrite Hlen2, (st_heap _ _ Hst1) in Hg; lia].
  apply bind_Ok in Hs3 as ([s0 b0] & Hadd0 & Hs3). injection Hs3 as <-.
  destruct (add_child_block _ _ _ _ _ Hadd0) as (-> & Hlen0 & Htip0 & p0 & pn0 & Hb0 & _).
  destruct (add_child_block _ _ _ _ _ Hadd)
    as (_ & _ & _ & p' & pn' & Hb' & Hp' & _ & _ & Htp).
  rewrite Hb in Hb'. injection Hb' as <-. rewrite Hp in Hp'. injection Hp' as <-.
  destruct (Htp (length (heap s2)) _ Htip0 (upd_node_new _ _ _ _ Hb0) eq_refl)
    as (-> & -> & _).
  rewrite Hlen2, (st_heap _ _ Hst1). done.
Qed.

Lemma insert_after_id_middle (ci new : nat) (l1 l2 : list nat) :
  ci ∉ l1 ->
  insert_after_id ci new (l1 ++ ci :: l2) = l1 ++ ci :: new :: l2.
Proof.
  induction l1 as [|a l1 IH]; cbn; intros Hnot.
  - by rewrite Nat.eqb_refl.
  - apply not_elem_of_cons in Hnot as [Hne Hnot].
    destruct (Nat.eqb_spec a ci) as [->|_]; [done|]. by rewrite IH.
Qed.

Lemma remove_id_absent (ci : nat) (l : list nat) : ci ∉ l -> remove_id ci l = l.
Proof.
  induction l as [|a l IH]; cbn; intros Hnot; [done|].
  apply not_elem_of_cons in Hnot as [Hne Hnot].
  destruct (Nat.eqb_spec a ci) as [->|_]; [done|]. by rewrite IH.
Qed.

Lemma remove_id_middle (ci new : nat) (l1 l2 : list nat) :
  ci ∉ l1 -> ci ∉ l2 -> new <> ci ->
  remove_id ci (l1 ++ ci :: new :: l2) = l1 ++ new :: l2.
Proof.
  intros H1 H2 Hne. induction l1 as [|a l1 IH]; cbn.
  - rewrite Nat.eqb_refl. destruct (Nat.eqb_spec new ci) as [->|_]; [done|].
    by rewrite remove_id_absent.
  - apply not_elem_of_cons in H1 as [Hne1 H1].
    destruct (Nat.eqb_spec a ci) as [->|_]; [done|]. by rewrite IH.
Qed.

(** X14: a setext heading.  On a line that is not indented and holds an
    underline of [=] or [-], with every unmatched block closed, a
    paragraph that is a child of another block is replaced by a heading:
    [setext_heading] returns 2 and the new tip is a new open heading of
    level 1 for [=] and 2 for [-], which has the string content and the
    source position of the paragraph and stands in its place among the
    children of its parent.  The paragraph is left without a parent, the
    other blocks are as they were, and the offset is at the end of the
    line. *)
Theorem setext_heading_replaces (s : Parser) (ci p : nat) (c1 pn : Node) (ch : ascii)
    (l1 l2 : list nat) :
  indented s = false -> all_closed s = true ->
  heap s !! ci = Some c1 -> t c1 = Paragraph ->
  reSetextHeadingLine (rest_of_line s) = Some ch ->
  parent c1 = Some p -> heap s !! p = Some pn -> p <> ci ->
  children pn = l1 ++ ci :: l2 -> ci ∉ l1 -> ci ∉ l2 ->
  exists s',
    setext_heading s (Some ci) = Ok (s', 2%Z) /\
    tip s' = Some (length (heap s)) /\
    heap s' !! length (heap s) =
      Some (set_parent (Some p)
              (set_string_content (string_content c1)
                 (set_level (if Ascii.eqb ch "=" then 1 else 2)
                    (new_node Heading (sourcepos c1))))) /\
    heap s' !! p = Some (set_children (l1 ++ length (heap s) :: l2) pn) /\
    heap s' !! ci = Some (set_parent None c1) /\
    (forall i n, i <> ci -> i <> p -> heap s !! i = Some n -> heap s' !! i = Some n) /\
    length (heap s') = S (length (heap s)) /\
    current_line s' = current_line s /\
    length (current_line s') <= offset s'.
Proof.
  intros Hind Hac Hci Hk Hre Hpar Hp Hne Hch H1 H2.
  unfold setext_heading. rewrite Hind. cbn [negb node_at]. rewrite Hci. cbn [of_option bind].
  rewrite Hk. change (kind_eqb Paragraph Paragraph) with true. cbv iota. rewrite Hre.
  unfold close_unmatched_blocks. rewrite Hac. cbn [negb bind node_at of_option].
  rewrite Hci. cbn [of_option bind].
  set (hn := set_string_content _ _).
  assert (Hci_lt : ci < length (heap s)) by (by eapply lookup_lt_Some).
  destruct (insert_after ci (length (heap s)) (heap s ++ [hn])) as [h1|e] eqn:Hins.
  2:{ exfalso. unfold insert_after in Hins.
      assert (Hnew : (heap s ++ [hn]) !! length (heap s) = Some hn)
        by (by apply list_lookup_middle).
      assert (Hun : unlink (length (heap s)) (heap s ++ [hn]) = heap s ++ [hn]).
      { unfold unlink. by rewrite Hnew. }
      rewrite Hun, lookup_app_l, Hci in Hins by done. cbn in Hins. by rewrite Hpar in Hins. }
  cbn [bind].
  destruct (setext_heap (heap s) ci p c1 pn hn h1 Hci Hpar Hp Hne eq_refl Hins)
    as (Hnew & Hold & Hparent & Hothers & Hlen).
  eexists. split; [reflexivity|].
  pose proof (same_tree_advance_to_eol
                (set_tip (Some (length (heap s))) (set_heap (unlink ci h1) s))) as Hst.
  rewrite (st_tip _ _ Hst), (st_heap _ _ Hst). cbn [tip heap set_tip set_heap].
  split; [done|]. split; [exact Hnew|]. split.
  { rewrite Hparent, Hch, insert_after_id_middle, remove_id_middle by (done || lia). done. }
  split; [exact Hold|]. split; [exact Hothers|]. split; [exact Hlen|].
  split; [|apply advance_to_eol_offset].
  unfold advance_to_eol, advance_offset. by destruct (advance_loop _ _ _ _ _).
Qed.

(** X15: the cursor after [BlockQuote.continue_].  On an indented line,
    or when the character at [next_nonspace] is not [>], the result is 1
    and the parser is as it was.  Otherwise the result is 0, the tree is
    as it was and the offset is after the [>], and after the space that
    follows it when there is one; the column is one more than
    [next_nonspace_column]: it counts the [>], and not the space. *)
Theorem BlockQuote_continue_cursor (s s' : Parser) (container : nat) (rv : Z) :
  BlockQuote_continue_ s container = Ok (s', rv) ->
  (rv = 1%Z /\ s' = s /\
   (indented s = true \/ current_line s !! next_nonspace s <> Some ">"%char)) \/
  (rv = 0%Z /\ indented s = false /\
   current_line s !! next_nonspace s = Some ">"%char /\
   same_tree s s' /\ current_line s' = current_line s /\
   offset s' = next_nonspace s + 1 +
               (if peek_is (current_line s) (next_nonspace s + 1) sp then 1 else 0) /\
   column s' = next_nonspace_column s + 1).
Proof.
  unfold BlockQuote_continue_.
  destruct (indented s) eqn:Hind; cbn [negb andb].
  { intros [= <- <-]. left. auto. }
  destruct (peek_is (current_line s) (next_nonspace s) ">") eqn:Hpeek.
  2:{ intros [= <- <-]. left. split; [done|]. split; [done|]. right.
      intros Hl. apply peek_is_true in Hl. congruence. }
  assert (Hgt : current_line s !! next_nonspace s = Some ">"%char)
    by (by apply peek_is_true).
  set (s1 := advance_offset 1 false (advance_next_nonspace s)).
  assert (Hs1 : same_tree s s1 /\ current_line s1 = current_line s /\
                offset s1 = next_nonspace s + 1 /\
                column s1 = next_nonspace_column s + 1).
  { unfold s1, advance_offset, advance_next_nonspace. cbn.
    rewrite (advance_loop_plain _ 1 false); [cbn; split; [by constructor | done]|].
    intros [|j] Hj; [|lia]. exists ">"%char. split; [|done].
    unfold str in *. by rewrite lookup_drop, Nat.add_0_r. }
  destruct Hs1 as (Hst & Hline & Hoff & Hcol).
  intros H. right. rewrite Hoff in H.
  destruct (peek_is (current_line s) (next_nonspace s + 1) sp); injection H as <- <-;
    (split; [done|]); (split; [done|]); (split; [done|]); cbn.
  - split; [by destruct Hst; constructor|]. rewrite Hline, Hcol. split; [done|]. lia.
  - split; [done|]. rewrite Hline, Hoff, Hcol. split; [done|]. lia.
Qed.

(** ** Parents and children: which kind contains which *)

#[local] Hint Extern 1 (not_key _) => (unfold not_key; discriminate) : core.

Lemma wp_unraised {A : Type} (r : result A) (Q : A -> Prop) :
  unraised KeyError r -> (forall a, r = Ok a -> Q a) -> wp not_key r Q.
Proof. destruct r as [a|e]; cbn; [auto|]. intros H _ ->. by apply H. Qed.

Lemma kin_refl (n : Node) : kin n n.
Proof. constructor; auto. Qed.

Lemma kin_trans (n1 n2 n3 : Node) : kin n1 n2 -> kin n2 n3 -> kin n1 n3.
Proof.
  intros [Ht1 Hp1 Hm1 Hd1] [Ht2 Hp2 Hm2 Hd2]. constructor; try congruence.
  destruct Hp2 as [Hp2|Hp2]; [|by right]. rewrite Hp2. exact Hp1.
Qed.

Lemma heap_kin_refl (h : list Node) : heap_kin h h.
Proof. split; [done|]. intros i n Hn. exists n. split; [done | apply kin_refl]. Qed.

Lemma heap_kin_trans (h1 h2 h3 : list Node) :
  heap_kin h1 h2 -> heap_kin h2 h3 -> heap_kin h1 h3.
Proof.
  intros [Hl1 H1] [Hl2 H2]. split; [congruence|].
  intros i n3 Hn3. destruct (H2 i n3 Hn3) as (n2 & Hn2 & Hk2).
  destruct (H1 i n2 Hn2) as (n1 & Hn1 & Hk1).
  exists n1. split; [done | by eapply kin_trans].
Qed.

Lemma heap_kin_alter (f : Node -> Node) (i : nat) (h : list Node) :
  (forall x, kin x (f x)) -> heap_kin h (alter f i h).
Proof.
  intros Hf. split; [apply length_alter|].
  intros j n' Hj. apply alter_lookup_inv in Hj as (n & Hn & [[_ ->] | [_ ->]]);
    exists n; (split; [done|]); [apply kin_refl | apply Hf].
Qed.

Lemma heap_kin_unlink (i : nat) (h : list Node) : heap_kin h (unlink i h).
Proof.
  split; [apply unlink_length|].
  intros j n' Hj. destruct (unlink_lookup_inv _ _ _ _ Hj) as (n & Hn & Ht & _ & Hld & _ & Hp).
  exists n. split; [done|]. constructor; try congruence.
  destruct Hp as [Hp | [_ Hp]]; auto.
Qed.

Lemma heap_kin_forward (h h' : list Node) (i : nat) (n : Node) :
  heap_kin h h' -> h !! i = Some n -> exists n', h' !! i = Some n' /\ kin n n'.
Proof.
  intros [Hlen Hback] Hn.
  assert (Hlt : i < length h') by (rewrite Hlen; by eapply lookup_lt_Some).
  destruct (lookup_lt_is_Some_2 _ _ Hlt) as [n' Hn'].
  destruct (Hback i n' Hn') as (n0 & Hn0 & Hk). exists n'. split; [done|]. congruence.
Qed.

Lemma family_kin (o : option nat) (h h' : list Node) :
  heap_kin h h' -> family o h -> family o h'.
Proof.
  intros Hkin [Hedge Hitem]. pose proof Hkin as [Hlen Hback]. constructor.
  - intros i n' p Hi Hp.
    destruct (Hback i n' Hi) as (n & Hn & [Ht Hpar _ _]).
    destruct (Hedge i n p Hn) as (pn & Hpn & Hcan).
    { destruct Hpar as [<- | Hnone]; [done | congruence]. }
    destruct (heap_kin_forward _ _ _ _ Hkin Hpn) as (pn' & Hpn' & [Htp _ _ _]).
    exists pn'. split; [done|]. by rewrite Ht, Htp.
  - intros i n' Hi Ho Hk.
    destruct (Hback i n' Hi) as (n & Hn & [Ht _ Hmo Hpd]).
    rewrite Hmo, Hpd. apply (Hitem i n Hn Ho). congruence.
Qed.

Lemma family_weaken (o : option nat) (h : list Node) : family None h -> family o h.
Proof. intros [Hedge Hitem]. constructor; [done|]. intros i n Hi _. by apply (Hitem i n). Qed.

(** The computations without a list item in sight do not raise the
    exception. *)
Lemma ends_with_blank_line_no_key (fuel : nat) (h : list Node) (b : option nat) :
  unraised KeyError (ends_with_blank_line fuel h b).
Proof.
  revert b. induction fuel as [|fuel IH]; intros [b|]; cbn; unraised_tac.
Qed.
#[local] Hint Resolve ends_with_blank_line_no_key : unraised.

Lemma List_finalize_subitems_no_key (fuel : nat) (h : list Node) (nx : bool)
    (l : list nat) :
  unraised KeyError (List_finalize_subitems fuel h nx l).
Proof. induction l as [|i l IH]; cbn; unraised_tac. Qed.
#[local] Hint Resolve List_finalize_subitems_no_key : unraised.

Lemma List_finalize_items_no_key (fuel : nat) (h : list Node) (l : list nat) :
  unraised KeyError (List_finalize_items fuel h l).
Proof. induction l as [|i l IH]; cbn; unraised_tac. Qed.
#[local] Hint Resolve List_finalize_items_no_key : unraised.

Lemma Paragraph_finalize_refs_no_key (fuel : nat) (c : str) (rm : RefMap) (has : bool) :
  unraised KeyError (Paragraph_finalize_refs fuel c rm has).
Proof.
  revert c rm has. induction fuel as [|fuel IH]; intros c rm has; cbn; unraised_tac.
Qed.
#[local] Hint Resolve Paragraph_finalize_refs_no_key : unraised.

Lemma Block_finalize_kin (k : Kind) (s : Parser) (b : nat) :
  wp not_key (Block_finalize k s b) (fun s' => heap_kin (heap s) (heap s')).
Proof.
  destruct k; cbn [Block_finalize]; try apply heap_kin_refl.
  - unfold List_finalize. apply wp_bind, wp_get_node; [auto|]. intros n Hn.
    apply wp_bind, wp_unraised; [auto with unraised|]. intros loose _.
    destruct loose; cbn; [|apply heap_kin_refl].
    apply heap_kin_alter. intros x. by constructor; auto.
  - unfold CodeBlock_finalize. apply wp_bind, wp_get_node; [auto|]. intros n Hn.
    destruct (is_fenced n).
    + apply wp_bind, wp_of_option; [auto|]. intros content _.
      apply wp_bind, wp_of_option; [auto|]. intros pos _. cbn.
      apply heap_kin_alter. intros x. by constructor; auto.
    + apply wp_bind, wp_of_option; [auto|]. intros content _. cbn.
      apply heap_kin_alter. intros x. by constructor; auto.
  - unfold HtmlBlock_finalize. apply wp_bind, wp_get_node; [auto|]. intros n Hn.
    apply wp_bind, wp_of_option; [auto|]. intros content _. cbn.
    apply heap_kin_alter. intros x. by constructor; auto.
  - unfold Paragraph_finalize. apply wp_bind, wp_get_node; [auto|]. intros n Hn.
    apply wp_bind, wp_of_option; [auto|]. intros content _.
    apply wp_bind, wp_unraised; [auto with unraised|]. intros [[content' rm] has] _.
    assert (H1 : heap_kin (heap s)
                   (alter (set_string_content (Some content')) b (heap s))).
    { apply heap_kin_alter. intros x. by constructor; auto. }
    destruct (has && is_blank content'); cbn; [|exact H1].
    eapply heap_kin_trans; [exact H1 | apply heap_kin_unlink].
Qed.

Lemma finalize_kin (s : Parser) (b : nat) (line : Z) :
  wp not_key (finalize s b line) (fun s' => heap_kin (heap s) (heap s')).
Proof.
  unfold finalize. apply wp_bind, wp_get_node; [auto|]. intros n Hn.
  apply wp_bind. eapply wp_mono; [apply Block_finalize_kin|].
  intros s2 Hk. cbn in *. eapply heap_kin_trans; [|exact Hk].
  apply heap_kin_alter. intros x. by constructor; auto.
Qed.

Lemma add_child_close_kin (fuel : nat) (tag : Kind) (s : Parser) :
  wp not_key (add_child_close fuel tag s)
    (fun s1 => heap_kin (heap s) (heap s1) /\
               exists x n, tip s1 = Some x /\ heap s1 !! x = Some n /\
                           can_contain (t n) tag = true).
Proof.
  revert s. induction fuel as [|fuel IH]; intros s; cbn [add_child_close].
  - apply wp_bind, wp_node_at; [auto..|]. intros x n Hx Hn.
    destruct (can_contain (t n) tag) eqn:Hc; cbn.
    + split; [apply heap_kin_refl | eauto].
    + auto.
  - apply wp_bind, wp_node_at; [auto..|]. intros x n Hx Hn.
    destruct (can_contain (t n) tag) eqn:Hc; cbn.
    + split; [apply heap_kin_refl | eauto].
    + rewrite Hx. apply wp_bind. eapply wp_mono; [apply finalize_kin|].
      intros s1 Hk1. cbn beta. eapply wp_mono; [apply IH|].
      intros s2 [Hk2 Htip]. split; [exact (heap_kin_trans _ _ _ Hk1 Hk2) | done].
Qed.

(** The store after [append_child] of a new block. *)
Lemma family_append (h : list Node) (x : nat) (n nn : Node) :
  family None h -> h !! x = Some n -> parent nn = None ->
  can_contain (t n) (t nn) = true ->
  family (Some (length h)) (append_child x (length h) (h ++ [nn])).
Proof.
  intros [Hedge Hitem] Hx Hnn Hcan.
  destruct (append_child_fresh h x n nn Hx Hnn) as (Hnew & Hpar & Hold & Hlen).
  assert (Hkind : forall p pn, h !! p = Some pn ->
            exists pn', append_child x (length h) (h ++ [nn]) !! p = Some pn' /\
                        t pn' = t pn).
  { intros p pn Hp. destruct (decide (p = x)) as [->|Hne].
    - rewrite Hx in Hp. injection Hp as <-. eexists. split; [exact Hpar | done].
    - exists pn. split; [by apply Hold | done]. }
  constructor.
  - intros i n' p Hi Hp.
    destruct (append_child_cases h x n nn i n' Hx Hnn Hi)
      as [[-> ->] | [(-> & _ & ->) | (_ & _ & Hi0)]].
    + cbn in Hp. injection Hp as <-. eexists. split; [exact Hpar | done].
    + cbn in Hp. destruct (Hedge x n p Hx Hp) as (pn & Hpn & Hc).
      destruct (Hkind p pn Hpn) as (pn' & Hpn' & Ht). exists pn'. by rewrite Ht.
    + destruct (Hedge i n' p Hi0 Hp) as (pn & Hpn & Hc).
      destruct (Hkind p pn Hpn) as (pn' & Hpn' & Ht). exists pn'. by rewrite Ht.
  - intros i n' Hi Ho.
    destruct (append_child_cases h x n nn i n' Hx Hnn Hi)
      as [[-> ->] | [(-> & _ & ->) | (_ & _ & Hi0)]]; [done| |].
    + apply (Hitem x n Hx). done.
    + by apply (Hitem i n').
Qed.

Lemma family_done (b : nat) (h : list Node) (n : Node) :
  family (Some b) h -> h !! b = Some n -> item_data n -> family None h.
Proof.
  intros [Hedge Hitem] Hb Hd. constructor; [done|].
  intros i n' Hi _. destruct (decide (i = b)) as [->|Hne].
  - assert (n' = n) as -> by congruence. exact Hd.
  - apply (Hitem i n' Hi). congruence.
Qed.

(** An assignment of the list data of the block that is being built. *)
Lemma family_set_list_data (b : nat) (h : list Node) (n : Node) (data : ListData) :
  family (Some b) h -> h !! b = Some n ->
  (t n = Item -> marker_offset data <> None /\ padding data <> None) ->
  family None (alter (set_list_data data) b h).
Proof.
  intros [Hedge Hitem] Hb Hd. constructor.
  - intros i n' p Hi Hp.
    apply alter_lookup_inv in Hi as (n0 & Hn0 & Hcase).
    assert (Hn' : t n' = t n0 /\ parent n' = parent n0)
      by (destruct Hcase as [[_ ->] | [_ ->]]; done).
    destruct Hn' as [Ht Hpar]. rewrite Hpar in Hp.
    destruct (Hedge i n0 p Hn0 Hp) as (pn & Hpn & Hc).
    destruct (decide (p = b)) as [->|Hne].
    + rewrite (lookup_alter_Some _ _ _ _ Hpn). eexists. split; [done|]. by rewrite Ht.
    + rewrite list_lookup_alter_ne by done. exists pn. by rewrite Ht.
  - intros i n' Hi _.
    apply alter_lookup_inv in Hi as (n0 & Hn0 & [[Hne ->] | [-> ->]]).
    + apply (Hitem i n0 Hn0). congruence.
    + rewrite Hb in Hn0. injection Hn0 as <-. exact Hd.
Qed.

Lemma add_child_family (tag : Kind) (off : nat) (s : Parser) :
  family None (heap s) ->
  wp not_key (add_child tag off s)
    (fun '(s', b) =>
       family (Some b) (heap s') /\
       exists nb, heap s' !! b = Some nb /\ t nb = tag /\ list_data nb = empty_list_data).
Proof.
  intros Hfam. unfold add_child. apply wp_bind.
  eapply wp_mono; [apply add_child_close_kin|].
  intros s1 (Hk & x & n & Hx & Hn & Hc). cbn beta. rewrite Hx. cbn.
  set (nn := new_node tag _).
  destruct (append_child_fresh (heap s1) x n nn Hn eq_refl) as (Hnew & _).
  split.
  - apply (family_append _ x n nn); [|done..]. by eapply family_kin.
  - eexists. split; [exact Hnew | done].
Qed.

Lemma add_child_family_other (tag : Kind) (off : nat) (s : Parser) :
  family None (heap s) -> tag <> Item ->
  wp not_key (add_child tag off s) (fun '(s', b) => family None (heap s')).
Proof.
  intros Hfam Htag. eapply wp_mono; [by apply add_child_family|].
  intros [s' b] (Hf & nb & Hnb & Ht & _).
  apply (family_done b _ nb); [done..|]. intros Hk. congruence.
Qed.

Lemma close_unmatched_loop_kin (fuel : nat) (s : Parser) :
  wp not_key (close_unmatched_loop fuel s) (fun s' => heap_kin (heap s) (heap s')).
Proof.
  revert s. induction fuel as [|fuel IH]; intros s; cbn [close_unmatched_loop].
  - case_bool_decide; cbn; [apply heap_kin_refl | auto].
  - case_bool_decide; cbn; [apply heap_kin_refl|].
    apply wp_bind, wp_of_option; [auto|]. intros ot _.
    apply wp_bind, wp_get_node; [auto|]. intros n _.
    apply wp_bind. eapply wp_mono; [apply finalize_kin|].
    intros s1 Hk1. cbn beta. eapply wp_mono; [apply IH|].
    intros s2 Hk2. exact (heap_kin_trans _ _ _ Hk1 Hk2).
Qed.

Lemma close_unmatched_blocks_kin (s : Parser) :
  wp not_key (close_unmatched_blocks s) (fun s' => heap_kin (heap s) (heap s')).
Proof.
  unfold close_unmatched_blocks. destruct (all_closed s); cbn [negb];
    [apply heap_kin_refl|].
  apply wp_bind. eapply wp_mono; [apply close_unmatched_loop_kin|].
  intros s1 Hk. exact Hk.
Qed.

Lemma outermost_list_no_key (fuel : nat) (s : Parser) (b : nat) (last : option nat) :
  unraised KeyError (outermost_list fuel s b last).
Proof.
  revert b last. induction fuel as [|fuel IH]; intros b last; cbn; unfold get_node;
    unraised_tac.
Qed.

Lemma break_out_loop_kin (fuel : nat) (s : Parser) (block : option nat) (ll : nat) :
  wp not_key (break_out_loop fuel s block ll) (fun s' => heap_kin (heap s) (heap s')).
Proof.
  revert s block. induction fuel as [|fuel IH]; intros s block; cbn [break_out_loop].
  - case_bool_decide; cbn; [apply heap_kin_refl | auto].
  - case_bool_decide; cbn; [apply heap_kin_refl|].
    apply wp_bind, wp_of_option; [auto|]. intros b _.
    apply wp_bind. eapply wp_mono; [apply finalize_kin|].
    intros s1 Hk1. cbn beta.
    apply wp_bind, wp_get_node; [auto|]. intros n _.
    eapply wp_mono; [apply IH|].
    intros s2 Hk2. exact (heap_kin_trans _ _ _ Hk1 Hk2).
Qed.

Lemma break_out_of_lists_kin (s : Parser) (block : nat) :
  wp not_key (break_out_of_lists s block) (fun s' => heap_kin (heap s) (heap s')).
Proof.
  unfold break_out_of_lists.
  apply wp_bind, wp_unraised; [apply outermost_list_no_key|]. intros [ll|] _;
    [|apply heap_kin_refl].
  apply wp_bind. eapply wp_mono; [apply break_out_loop_kin|].
  intros s1 Hk1. cbn beta.
  apply wp_bind. eapply wp_mono; [apply finalize_kin|].
  intros s2 Hk2. cbn beta.
  apply wp_bind, wp_get_node; [auto|]. intros n _. cbn.
  eapply heap_kin_trans; [exact Hk1 | exact Hk2].
Qed.

Lemma block_quote_family : start_family block_quote.
Proof.
  intros s c Hfam. unfold block_quote.
  destruct (negb (indented s) && peek_is (current_line s) (next_nonspace s) ">");
    [|exact Hfam].
  set (s2 := if peek_is _ _ sp then _ else _).
  assert (Hheap : heap s2 = heap s).
  { unfold s2. destruct (peek_is _ _ sp);
      by rewrite ?(st_heap _ _ (same_tree_advance_offset _ _ _)). }
  apply wp_bind. eapply wp_mono; [apply close_unmatched_blocks_kin|].
  intros s3 Hk. cbn beta. apply wp_bind.
  eapply wp_mono; [apply add_child_family_other; [|done]|].
  - eapply family_kin; [exact Hk|]. by rewrite Hheap.
  - intros [s4 b] Hf. exact Hf.
Qed.

Lemma atx_heading_family : start_family atx_heading.
Proof.
  intros s c Hfam. unfold atx_heading.
  destruct (negb (indented s)); [|exact Hfam].
  destruct (reATXHeadingMarker (rest_of_line s)) as [[hashes len]|]; [|exact Hfam].
  apply wp_bind. eapply wp_mono; [apply close_unmatched_blocks_kin|].
  intros s2 Hk. cbn beta. apply wp_bind.
  eapply wp_mono; [apply add_child_family_other; [|done]|].
  - eapply family_kin; [exact Hk|].
    by rewrite (st_heap _ _ (same_tree_advance_offset _ _ _)).
  - intros [s3 b] Hf. cbn [wp fst].
    rewrite (st_heap _ _ (same_tree_advance_to_eol _)). cbn.
    eapply family_kin; [|exact Hf]. apply heap_kin_alter. intros x. by constructor; auto.
Qed.

Lemma fenced_code_block_family : start_family fenced_code_block.
Proof.
  intros s c Hfam. unfold fenced_code_block.
  destruct (negb (indented s)); [|exact Hfam].
  destruct (reCodeFence (rest_of_line s)) as [[ch len]|]; [|exact Hfam].
  apply wp_bind. eapply wp_mono; [apply close_unmatched_blocks_kin|].
  intros s1 Hk. cbn beta. apply wp_bind.
  eapply wp_mono; [apply add_child_family_other; [exact (family_kin _ _ _ Hk Hfam) | done]|].
  intros [s2 b] Hf. cbn [wp fst].
  rewrite (st_heap _ _ (same_tree_advance_offset _ _ _)). cbn.
  eapply family_kin; [|exact Hf]. apply heap_kin_alter. intros x. by constructor; auto.
Qed.

Lemma html_block_types_no_key (n bt : nat) (s : Parser) (c : option nat) :
  unraised KeyError (html_block_types n bt s c).
Proof.
  revert bt. induction n as [|n IH]; intros bt; cbn; unfold node_at; unraised_tac.
Qed.

Lemma html_block_family : start_family html_block.
Proof.
  intros s c Hfam. unfold html_block.
  destruct (negb (indented s) && peek_is (current_line s) (next_nonspace s) "<");
    [|exact Hfam].
  apply wp_bind, wp_unraised; [apply html_block_types_no_key|]. intros [bt|] _;
    [|exact Hfam].
  apply wp_bind. eapply wp_mono; [apply close_unmatched_blocks_kin|].
  intros s1 Hk. cbn beta. apply wp_bind.
  eapply wp_mono; [apply add_child_family_other; [exact (family_kin _ _ _ Hk Hfam) | done]|].
  intros [s2 b] Hf. cbn.
  eapply family_kin; [|exact Hf]. apply heap_kin_alter. intros x. by constructor; auto.
Qed.

Lemma thematic_break_family : start_family thematic_break.
Proof.
  intros s c Hfam. unfold thematic_break.
  destruct (negb (indented s) && reThematicBreak (rest_of_line s)); [|exact Hfam].
  apply wp_bind. eapply wp_mono; [apply close_unmatched_blocks_kin|].
  intros s1 Hk. cbn beta. apply wp_bind.
  eapply wp_mono; [apply add_child_family_other; [exact (family_kin _ _ _ Hk Hfam) | done]|].
  intros [s2 b] Hf. cbn [wp fst].
  by rewrite (st_heap _ _ (same_tree_advance_to_eol _)).
Qed.

Lemma indented_code_block_family : start_family indented_code_block.
Proof.
  intros s c Hfam. unfold indented_code_block.
  destruct (indented s); [|exact Hfam].
  apply wp_bind, wp_node_at; [auto..|]. intros x tp _ _.
  destruct (negb (kind_eqb (t tp) Paragraph) && negb (blank s)); [|exact Hfam].
  apply wp_bind. eapply wp_mono; [apply close_unmatched_blocks_kin|].
  intros s2 Hk. cbn beta. apply wp_bind.
  eapply wp_mono; [apply add_child_family_other; [|done]|].
  - eapply family_kin; [exact Hk|].
    by rewrite (st_heap _ _ (same_tree_advance_offset _ _ _)).
  - intros [s3 b] Hf. exact Hf.
Qed.

Lemma can_contain_heading (k : Kind) :
  can_contain k Paragraph = true -> can_contain k Heading = true.
Proof. by destruct k. Qed.

(** The store after a paragraph is replaced by a heading. *)
Lemma family_setext (h h1 : list Node) (ci : nat) (c1 hn : Node) :
  family None h -> h !! ci = Some c1 -> t c1 = Paragraph ->
  t hn = Heading -> parent hn = None ->
  insert_after ci (length h) (h ++ [hn]) = Ok h1 ->
  family None (unlink ci h1).
Proof.
  intros Hfam Hci Hk Hhk Hhp Hins. pose proof Hfam as [Hedge Hitem].
  assert (Hpar : exists p, parent c1 = Some p).
  { destruct (parent c1) as [p|] eqn:Hp; [eauto|].
    by rewrite (insert_after_orphan h ci c1 hn Hci Hp Hhp) in Hins. }
  destruct Hpar as [p Hp].
  destruct (Hedge ci c1 p Hci Hp) as (pn & Hpn & Hcan). rewrite Hk in Hcan.
  assert (Hne : p <> ci).
  { intros ->. rewrite Hci in Hpn. injection Hpn as <-. by rewrite Hk in Hcan. }
  destruct (setext_heap h ci p c1 pn hn h1 Hci Hp Hpn Hne Hhp Hins)
    as (Hnew & Hold & Hparent & Hothers & Hlen).
  assert (Hfwd : forall q qn, h !! q = Some qn ->
            exists qn', unlink ci h1 !! q = Some qn' /\ kin qn qn').
  { intros q qn Hq. destruct (decide (q = ci)) as [->|Hq1].
    - rewrite Hci in Hq. injection Hq as <-. eexists. split; [exact Hold|].
      by constructor; auto.
    - destruct (decide (q = p)) as [->|Hq2].
      + rewrite Hpn in Hq. injection Hq as <-. eexists. split; [exact Hparent|].
        by constructor; auto.
      + exists qn. split; [by apply Hothers | apply kin_refl]. }
  assert (Hback : forall i n', unlink ci h1 !! i = Some n' -> i <> length h ->
            exists n, h !! i = Some n /\ kin n n').
  { intros i n' Hi Hne'.
    assert (Hlt : i < length h).
    { apply lookup_lt_Some in Hi. rewrite Hlen in Hi. lia. }
    destruct (lookup_lt_is_Some_2 _ _ Hlt) as [n Hn].
    destruct (Hfwd i n Hn) as (n0 & Hn0 & Hkin). exists n. split; [done|]. congruence. }
  constructor.
  - intros i n' q Hi Hq. destruct (decide (i = length h)) as [->|Hne'].
    + rewrite Hnew in Hi. injection Hi as <-. cbn in Hq. injection Hq as <-.
      eexists. split; [exact Hparent|]. cbn. rewrite Hhk. by apply can_contain_heading.
    + destruct (Hback i n' Hi Hne') as (n & Hn & [Ht Hpr _ _]).
      destruct (Hedge i n q Hn) as (qn & Hqn & Hc).
      { destruct Hpr as [<- | ?]; [done | congruence]. }
      destruct (Hfwd q qn Hqn) as (qn' & Hqn' & [Htq _ _ _]).
      exists qn'. split; [done|]. by rewrite Ht, Htq.
  - intros i n' Hi _ Hit. destruct (decide (i = length h)) as [->|Hne'].
    + rewrite Hnew in Hi. injection Hi as <-. cbn in Hit. congruence.
    + destruct (Hback i n' Hi Hne') as (n & Hn & [Ht _ Hmo Hpd]).
      rewrite Hmo, Hpd. apply (Hitem i n Hn); [done | congruence].
Qed.

Lemma insert_after_no_key (self sib : nat) (h : list Node) :
  unraised KeyError (insert_after self sib h).
Proof. unfold insert_after. unraised_tac. Qed.

Lemma setext_heading_family : start_family setext_heading.
Proof.
  intros s c Hfam. unfold setext_heading.
  destruct (negb (indented s)); [|exact Hfam].
  apply wp_bind, wp_node_at; [auto..|]. intros ci cn -> Hcn.
  destruct (kind_eqb (t cn) Paragraph) eqn:Hk; [|exact Hfam].
  apply bool_decide_eq_true in Hk.
  destruct (reSetextHeadingLine (rest_of_line s)) as [ch|]; [|exact Hfam].
  apply wp_bind. eapply wp_mono; [apply close_unmatched_blocks_kin|].
  intros s1 Hk1. cbn beta.
  apply wp_bind, wp_node_at; [auto..|]. intros ci' c1 [= <-] Hc1. cbn [of_option bind].
  apply wp_bind, wp_unraised; [apply insert_after_no_key|]. intros h1 Hins.
  cbn [wp fst]. rewrite (st_heap _ _ (same_tree_advance_to_eol _)). cbn.
  pose proof Hk1 as [_ Hback]. destruct (Hback ci c1 Hc1) as (cn0 & Hcn0 & [Ht _ _ _]).
  rewrite Hcn in Hcn0. injection Hcn0 as <-.
  eapply family_setext;
    [exact (family_kin _ _ _ Hk1 Hfam) | exact Hc1 | congruence | | | exact Hins]; done.
Qed.

Lemma marker_spaces_loop_no_key (fuel spaces : nat) (s : Parser) :
  unraised KeyError (marker_spaces_loop fuel spaces s).
Proof. revert s. induction fuel as [|fuel IH]; intros s; cbn; unraised_tac. Qed.

Lemma parse_list_marker_no_key (s : Parser) : unraised KeyError (parse_list_marker s).
Proof.
  destruct (parse_list_marker_cases s) as (s' & r & -> & _). apply unraised_Ok.
Qed.

Lemma list_item_family : start_family list_item.
Proof.
  intros s c Hfam. unfold list_item.
  apply wp_bind.
  apply (wp_mono _ _ (fun _ => True)).
  { destruct (negb (indented s)); [done|].
    apply wp_bind, wp_node_at; [auto..|]. done. }
  intros [|] _; [|exact Hfam].
  apply wp_bind, wp_unraised; [apply parse_list_marker_no_key|]. intros [s1 data] Hm.
  pose proof (st_heap _ _ (same_tree_parse_list_marker _ _ _ Hm)) as Hh1.
  destruct data as [data|]; [|cbn; by rewrite Hh1].
  assert (Hdata : marker_offset data <> None /\ padding data <> None).
  { destruct (parse_list_marker_cases s) as (s1' & r & Hr & Hcase).
    rewrite Hm in Hr. injection Hr as <- <-.
    destruct Hcase as (mlen & pad & -> & _ & _ & -> & _). done. }
  apply wp_bind. eapply wp_mono; [apply close_unmatched_blocks_kin|].
  intros s2 Hk2. cbn beta.
  assert (Hfam2 : family None (heap s2)).
  { eapply family_kin; [exact Hk2|]. by rewrite Hh1. }
  apply wp_bind, wp_node_at; [auto..|]. intros x tp _ _.
  apply wp_bind.
  apply (wp_mono _ _ (fun _ => True)).
  { destruct (negb (kind_eqb (t tp) List)); [done|].
    apply wp_bind, wp_node_at; [auto..|]. done. }
  intros new_list _.
  apply wp_bind.
  apply (wp_mono _ _ (fun s3 => family None (heap s3))).
  { destruct new_list; [|exact Hfam2].
    apply wp_bind. eapply wp_mono; [by apply add_child_family|].
    intros [s0 b0] (Hf0 & nb & Hnb & Ht & _). cbn.
    apply (family_set_list_data b0 _ nb); [done..|]. intros Hit. congruence. }
  intros s3 Hfam3. cbn beta.
  apply wp_bind. eapply wp_mono; [by apply add_child_family|].
  intros [s4 b] (Hf4 & nb & Hnb & Ht & _). cbn.
  by apply (family_set_list_data b _ nb).
Qed.

Lemma METHODS_family : Forall start_family METHODS.
Proof.
  unfold METHODS. repeat apply Forall_cons_2; [| | | | | | | |apply Forall_nil_2].
  - apply block_quote_family.
  - apply atx_heading_family.
  - apply fenced_code_block_family.
  - apply html_block_family.
  - apply setext_heading_family.
  - apply thematic_break_family.
  - apply list_item_family.
  - apply indented_code_block_family.
Qed.

Lemma try_starts_family (methods : list (Parser -> option nat -> result (Parser * Z)))
    (s : Parser) (c : option nat) :
  Forall start_family methods -> family None (heap s) ->
  wp not_key (try_starts methods s c) (fun r => family None (heap (fst r))).
Proof.
  intros Hall. revert s. induction Hall as [|m rest Hm _ IH]; intros s Hfam;
    cbn [try_starts]; [exact Hfam|].
  apply wp_bind. eapply wp_mono; [by apply Hm|].
  intros [s1 res] Hf1. cbn in Hf1. cbn beta iota.
  destruct (res =? 1)%Z; [exact Hf1|]. destruct (res =? 2)%Z; [exact Hf1|].
  by apply IH.
Qed.

Lemma block_starts_loop_family (fuel : nat) (s : Parser) (c : option nat) :
  family None (heap s) ->
  wp not_key (block_starts_loop fuel s c) (fun r => family None (heap (fst r))).
Proof.
  revert s c. induction fuel as [|fuel IH]; intros s c Hfam; cbn [block_starts_loop];
    [cbn; auto|].
  cbv zeta. destruct (_ && _); [cbn; by rewrite find_next_nonspace_heap|].
  apply wp_bind. eapply wp_mono.
  { apply try_starts_family; [apply METHODS_family|].
    by rewrite find_next_nonspace_heap. }
  intros [s2 res] Hf2. cbn in Hf2. cbn beta iota.
  destruct (res =? 1)%Z; [by apply IH|]. destruct (res =? 2)%Z; exact Hf2.
Qed.

Lemma skip_fence_offset_heap (i : nat) (s : Parser) :
  heap (skip_fence_offset i s) = heap s.
Proof. exact (st_heap _ _ (same_tree_skip_fence_offset i s)). Qed.

Lemma advance_offset_heap (count : Z) (columns : bool) (s : Parser) :
  heap (advance_offset count columns s) = heap s.
Proof. exact (st_heap _ _ (same_tree_advance_offset count columns s)). Qed.

(** [continue_] on a block of the store: a list item holds the entries
    that [Item.continue_] reads. *)
Lemma Block_continue_family (s : Parser) (lc : nat) (lcn : Node) :
  family None (heap s) -> heap s !! lc = Some lcn ->
  wp not_key (Block_continue_ (t lcn) s lc) (fun r => family None (heap (fst r))).
Proof.
  intros Hfam Hlc.
  destruct (t lcn) eqn:Hk; cbn [Block_continue_].
  - exact Hfam.
  - exact Hfam.
  - unfold BlockQuote_continue_. destruct (_ && _); [|exact Hfam].
    cbn [wp fst]. destruct (peek_is _ _ sp); cbn; by rewrite advance_offset_heap.
  - unfold Item_continue_, get_node. rewrite Hlc. cbn [of_option bind].
    destruct (_ && _); [exact Hfam|].
    destruct (fam_item _ _ Hfam lc lcn Hlc ltac:(done) Hk) as [Hmo Hpd].
    destruct (marker_offset (list_data lcn)) as [mo|]; [|done].
    destruct (padding (list_data lcn)) as [pd|]; [|done].
    cbn [of_option bind]. destruct (_ <=? _); [|exact Hfam].
    cbn. by rewrite advance_offset_heap.
  - exact Hfam.
  - exact Hfam.
  - unfold CodeBlock_continue_. apply wp_bind, wp_get_node; [auto|]. intros c _.
    destruct (is_fenced c).
    + destruct (closing_fence_match s c) as [len|].
      * destruct (_ <=? _).
        -- apply wp_bind. eapply wp_mono; [apply finalize_kin|].
           intros s1 Hk1. exact (family_kin _ _ _ Hk1 Hfam).
        -- cbn. by rewrite skip_fence_offset_heap.
      * cbn. by rewrite skip_fence_offset_heap.
    + destruct (_ <=? _); [cbn; by rewrite advance_offset_heap|].
      destruct (blank s); exact Hfam.
  - unfold HtmlBlock_continue_. apply wp_bind, wp_get_node; [auto|]. intros c _.
    destruct (_ && _); exact Hfam.
  - exact Hfam.
Qed.

Lemma continue_loop_family (fuel len : nat) (s : Parser) (container : nat) :
  family None (heap s) ->
  wp not_key (continue_loop Block_continue_ fuel len s container)
    (fun r => family None (heap (fst r))).
Proof.
  revert s container. induction fuel as [|fuel IH]; intros s container Hfam;
    cbn [continue_loop].
  - apply wp_bind, wp_get_node; [auto|]. intros n _.
    destruct (last_child n) as [lc|]; [|exact Hfam].
    apply wp_bind, wp_get_node; [auto|]. intros lcn _.
    destruct (is_open lcn); [cbn; auto | exact Hfam].
  - apply wp_bind, wp_get_node; [auto|]. intros n _.
    destruct (last_child n) as [lc|]; [|exact Hfam].
    apply wp_bind, wp_get_node; [auto|]. intros lcn Hlcn.
    destruct (is_open lcn); [|exact Hfam].
    apply wp_bind. eapply wp_mono.
    { apply Block_continue_family; rewrite find_next_nonspace_heap; [exact Hfam | exact Hlcn]. }
    intros [s2 rv] Hf2. cbn in Hf2. cbn beta iota.
    destruct (rv =? 0)%Z; [by apply IH|].
    destruct (rv =? 1)%Z.
    { apply wp_bind, wp_get_node; [auto|]. intros lcn2 _. exact Hf2. }
    destruct (rv =? 2)%Z; [exact Hf2 | cbn; auto].
Qed.

Lemma propagate_last_line_blank_kin (fuel : nat) (v : bool) (c : option nat) (s : Parser) :
  wp not_key (propagate_last_line_blank fuel v c s)
    (fun s' => heap_kin (heap s) (heap s')).
Proof.
  revert c s. induction fuel as [|fuel IH]; intros [c|] s; cbn [propagate_last_line_blank];
    try apply heap_kin_refl; [cbn; auto|].
  apply wp_bind, wp_get_node; [auto|]. intros n _.
  eapply wp_mono; [apply IH|]. intros s' Hk. cbn in Hk.
  eapply heap_kin_trans; [|exact Hk]. apply heap_kin_alter. intros x. by constructor; auto.
Qed.

Lemma add_line_kin (s : Parser) :
  wp not_key (add_line s) (fun s' => heap_kin (heap s) (heap s')).
Proof.
  unfold add_line. apply wp_bind, wp_of_option; [auto|]. intros tp _.
  apply wp_bind, wp_get_node; [auto|]. intros n _.
  apply wp_bind, wp_of_option; [auto|]. intros content _. cbn.
  apply heap_kin_alter. intros x. by constructor; auto.
Qed.

Lemma place_text_family (s : Parser) (c : option nat) :
  family None (heap s) ->
  wp not_key (place_text s c) (fun s' => family None (heap s')).
Proof.
  intros Hfam. unfold place_text.
  apply wp_bind. apply (wp_mono _ _ (fun _ => True)).
  { destruct (_ && _); [|done]. apply wp_bind, wp_node_at; [auto..|]. done. }
  intros [|] _.
  { eapply wp_mono; [apply add_line_kin|]. intros s' Hk. exact (family_kin _ _ _ Hk Hfam). }
  apply wp_bind. eapply wp_mono; [apply close_unmatched_blocks_kin|].
  intros s1 Hk1. cbn beta.
  pose proof (family_kin _ _ _ Hk1 Hfam) as Hfam1.
  apply wp_bind. apply (wp_mono _ _ (fun s2 => family None (heap s2))).
  { destruct (blank s1); [|exact Hfam1].
    apply wp_bind, wp_node_at; [auto..|]. intros x cn _ _.
    destruct (last_child cn) as [lc|]; [|exact Hfam1]. cbn.
    eapply family_kin; [|exact Hfam1]. apply heap_kin_alter. intros y. by constructor; auto. }
  intros s2 Hfam2. cbn beta.
  apply wp_bind, wp_node_at; [auto..|]. intros x cn _ _. cbv zeta.
  apply wp_bind. eapply wp_mono; [apply propagate_last_line_blank_kin|].
  intros s3 Hk3. cbn beta.
  pose proof (family_kin _ _ _ Hk3 Hfam2) as Hfam3.
  destruct (accepts_lines (t cn)).
  - apply wp_bind. eapply wp_mono; [apply add_line_kin|].
    intros s4 Hk4. cbn beta.
    pose proof (family_kin _ _ _ Hk4 Hfam3) as Hfam4.
    apply wp_bind, wp_node_at; [auto..|]. intros y c4 _ _.
    destruct (_ && _); [|exact Hfam4].
    apply wp_bind, wp_of_option; [auto|]. intros ci _.
    eapply wp_mono; [apply finalize_kin|].
    intros s5 Hk5. exact (family_kin _ _ _ Hk5 Hfam4).
  - destruct (_ && _); [|exact Hfam3].
    apply wp_bind. eapply wp_mono; [by apply add_child_family_other|].
    intros [s4 b] Hf4. cbn beta iota.
    eapply wp_mono; [apply add_line_kin|].
    intros s5 Hk5. cbn in Hk5. exact (family_kin _ _ _ Hk5 Hf4).
Qed.

Lemma incorporate_line_family (s : Parser) (ln : str) :
  family None (heap s) ->
  wp not_key (incorporate_line s ln) (fun s' => family None (heap s')).
Proof.
  intros Hfam. unfold incorporate_line, incorporate_line_with. cbv zeta.
  apply wp_bind. eapply wp_mono; [by apply continue_loop_family|].
  intros [s2 [container|]] Hf2; cbn in Hf2; cbn beta iota; [|exact Hf2].
  set (s3 := set_last_matched_container _ _).
  assert (Hf3 : family None (heap s3)) by exact Hf2.
  apply wp_bind. apply (wp_mono _ _ (fun r => family None (heap (fst r)))).
  { destruct (blank s3); [|exact Hf3].
    apply wp_bind, wp_node_at; [auto..|]. intros x cn _ _.
    destruct (last_line_blank cn); [|exact Hf3].
    apply wp_bind, wp_of_option; [auto|]. intros ci _.
    apply wp_bind. eapply wp_mono; [apply break_out_of_lists_kin|].
    intros s' Hk. exact (family_kin _ _ _ Hk Hf3). }
  intros [s4 c4] Hf4. cbn in Hf4. cbn beta iota.
  apply wp_bind, wp_node_at; [auto..|]. intros y cn _ _. cbv zeta.
  apply wp_bind. apply (wp_mono _ _ (fun r => family None (heap (fst r)))).
  { destruct (_ && _); [exact Hf4 | by apply block_starts_loop_family]. }
  intros [s5 c5] Hf5. cbn in Hf5. cbn beta iota.
  apply wp_bind. eapply wp_mono; [by apply place_text_family|].
  intros s6 Hf6. exact Hf6.
Qed.

Lemma incorporate_lines_family (n i : nat) (lines : list str) (s : Parser) :
  family None (heap s) ->
  wp not_key (incorporate_lines n i lines s) (fun s' => family None (heap s')).
Proof.
  revert i s. induction n as [|n IH]; intros i s Hfam; cbn [incorporate_lines];
    [exact Hfam|].
  apply wp_bind, wp_of_option; [auto|]. intros ln _.
  apply wp_bind. eapply wp_mono; [by apply incorporate_line_family|].
  intros s1 Hf1. by apply IH.
Qed.

Lemma finalize_open_kin (fuel : nat) (len : Z) (s : Parser) :
  wp not_key (finalize_open fuel len s)
    (fun s' => heap_kin (heap s) (heap s') /\ tip s' = None).
Proof.
  revert s. induction fuel as [|fuel IH]; intros s; cbn [finalize_open].
  - destruct (tip s) eqn:Ht; cbn; [auto|]. split; [apply heap_kin_refl | done].
  - destruct (tip s) eqn:Ht; cbn; [|split; [apply heap_kin_refl | done]].
    apply wp_bind. eapply wp_mono; [apply finalize_kin|].
    intros s1 Hk1. cbn beta. eapply wp_mono; [apply IH|].
    intros s2 [Hk2 Htip]. split; [exact (heap_kin_trans _ _ _ Hk1 Hk2) | done].
Qed.

Lemma family_parse_start : family None (heap (parse_start init)).
Proof.
  assert (Hcases : forall i n, heap (parse_start init) !! i = Some n ->
            n = new_node Document ((1, 1), (0, 0))%Z).
  { intros [|[|i]] n; cbn; intros [= <-]; done. }
  constructor.
  - intros i n p Hi Hp. by rewrite (Hcases i n Hi) in Hp.
  - intros i n Hi _ Hk. by rewrite (Hcases i n Hi) in Hk.
Qed.

Lemma parse_blocks_family (my_input : str) :
  wp not_key (parse_blocks init my_input)
    (fun s' => family None (heap s') /\ tip s' = None).
Proof.
  unfold parse_blocks. cbv zeta.
  apply wp_bind. eapply wp_mono; [apply incorporate_lines_family, family_parse_start|].
  intros s1 Hf1. cbn beta.
  eapply wp_mono; [apply finalize_open_kin|].
  intros s2 [Hk Htip]. split; [exact (family_kin _ _ _ Hk Hf1) | done].
Qed.

Lemma tree_nodes_no_key (fuel : nat) (h : list Node) (i : nat) :
  unraised KeyError (tree_nodes fuel h i).
Proof.
  revert i. induction fuel as [|fuel IH]; intros i; cbn; [unraised_tac|].
  apply unraised_bind; [unraised_tac|]. intros n _.
  apply unraised_bind; [|intros; unraised_tac].
  induction (children n) as [|c l IHl]; cbn; [unraised_tac|].
  apply unraised_bind; [apply IH|]. intros l1 _.
  apply unraised_bind; [apply IHl|]. intros; unraised_tac.
Qed.

Lemma process_inlines_kin (s : Parser) (b : nat) :
  wp not_key (process_inlines s b)
    (fun s' => heap_kin (heap s) (heap s') /\ tip s' = tip s /\ doc s' = doc s).
Proof.
  unfold process_inlines.
  apply wp_bind, wp_unraised; [apply tree_nodes_no_key|]. intros nodes _.
  apply wp_bind.
  apply (wp_mono _ _ (heap_kin (heap s))); [|by intros h Hh].
  assert (Hacc : wp not_key (Ok (heap s)) (heap_kin (heap s))) by apply heap_kin_refl.
  revert Hacc. generalize (Ok (heap s) : result (list Node)).
  induction nodes as [|i nodes IH]; intros acc Hacc; cbn; [done|].
  apply IH. destruct acc as [h|e]; cbn in *; [|done].
  apply wp_bind, wp_of_option; [auto|]. intros n _.
  destruct (_ || _); [|done].
  unfold inline_parse. apply wp_bind, wp_of_option; [auto|]. intros n0 _.
  apply wp_bind, wp_of_option; [auto|]. intros content _. cbn.
  eapply heap_kin_trans; [exact Hacc|]. apply heap_kin_alter. intros x. by constructor; auto.
Qed.

Lemma parse_family (my_input : str) :
  wp not_key (parse my_input) (fun s' => family None (heap s') /\ tip s' = None).
Proof.
  unfold parse, parse_with. apply wp_bind.
  eapply wp_mono; [apply parse_blocks_family|]. intros s1 [Hf1 Htip1]. cbn beta.
  eapply wp_mono; [apply process_inlines_kin|]. intros s' (Hk & Htip & _).
  split; [exact (family_kin _ _ _ Hk Hf1) | congruence].
Qed.

(** X16: the list data of the list items.  [parse] does not raise the
    exception for a missing key of the list data, which only
    [Item.continue_] can raise: whenever it is called during a parse, the
    list data of the item holds [marker_offset] and [padding].  When
    [parse] returns, every list item of the store holds both entries. *)
Theorem parse_list_data_defined (my_input : str) :
  unraised KeyError (parse my_input) /\
  forall (s' : Parser) (i : nat) (n : Node),
    parse my_input = Ok s' -> heap s' !! i = Some n -> t n = Item ->
    exists mo pd, marker_offset (list_data n) = Some mo /\
                  padding (list_data n) = Some pd.
Proof.
  pose proof (parse_family my_input) as H. split.
  - destruct (parse my_input) as [s'|e]; [apply unraised_Ok|].
    cbn in H. intros [= ->]. by apply H.
  - intros s' i n Hp Hn Hk. rewrite Hp in H. destruct H as [Hfam _].
    destruct (fam_item _ _ Hfam i n Hn ltac:(done) Hk) as [Hmo Hpd].
    destruct (marker_offset (list_data n)) as [mo|]; [|done].
    destruct (padding (list_data n)) as [pd|]; [|done]. eauto.
Qed.

Lemma finalize_open_line (fuel : nat) (len : Z) (s s' : Parser) :
  finalize_open fuel len s = Ok s' -> line_number s' = line_number s.
Proof.
  revert s. induction fuel as [|fuel IH]; intros s; cbn [finalize_open].
  - destruct (tip s); [done|]. by intros [= <-].
  - destruct (tip s) as [tp|]; [|by intros [= <-]].
    intros H. apply bind_Ok in H as (s1 & Hfin & H).
    destruct (finalize_frame _ _ _ _ Hfin) as (_ & _ & Hl & _).
    rewrite (IH _ H). exact Hl.
Qed.

Lemma parse_blocks_line (my_input : str) (s1 : Parser) :
  parse_blocks init my_input = Ok s1 ->
  line_number s1 = Z.of_nat (lines_to_parse my_input).
Proof.
  unfold parse_blocks. cbv zeta. intros H.
  apply bind_Ok in H as (s0 & Hlines & H).
  pose proof (incorporate_lines_wp (lines_to_parse my_input) 0 (split_lines my_input)
                (parse_start init) line_inv_parse_start ltac:(done)) as Hwp.
  rewrite Hlines in Hwp. destruct Hwp as [_ Hl].
  rewrite (finalize_open_line _ _ _ _ H), Hl. cbn. lia.
Qed.

(** X17: the tree that [parse] returns.  The tip is [None] and the root is
    a closed document without parent that starts on line 1.  Every child
    of a block of the tree is a closed block whose parent reference is
    that block and whose kind that block can contain: the children of a
    list are list items, the children of a document, a block quote or a
    list item are not list items, and the other kinds have no children;
    no child is a document.  A child starts on the line its parent starts
    on or later, and not after the last line of the input that is
    parsed. *)
Theorem parse_tree_shape (my_input : str) (s' : Parser) :
  parse my_input = Ok s' ->
  tip s' = None /\
  (exists dn, heap s' !! doc s' = Some dn /\ t dn = Document /\ parent dn = None /\
              is_open dn = false /\ first_line dn = 1%Z) /\
  forall (p c : nat) (pn : Node),
    in_tree (heap s') (doc s') p -> heap s' !! p = Some pn -> c ∈ children pn ->
    exists cn, heap s' !! c = Some cn /\ parent cn = Some p /\ is_open cn = false /\
               can_contain (t pn) (t cn) = true /\ t cn <> Document /\
               (first_line pn <= first_line cn)%Z /\
               (first_line cn <= Z.of_nat (lines_to_parse my_input))%Z.
Proof.
  intros Hparse.
  pose proof (parse_family my_input) as Hfam. rewrite Hparse in Hfam.
  destruct Hfam as [Hfam Htip].
  unfold parse, parse_with in Hparse.
  apply bind_Ok in Hparse as (s1 & Hblocks & Hinl).
  pose proof (parse_blocks_wp my_input) as Hfin. rewrite Hblocks in Hfin.
  pose proof (parse_blocks_line _ _ Hblocks) as Hline.
  pose proof (process_inlines_wp s1 (doc s1)) as Hwp. rewrite Hinl in Hwp.
  destruct Hwp as [Hdoc Hin].
  destruct Hfin as [Hwf Hclosed (dn & Hdn & Hdo)].
  split; [exact Htip|]. split.
  - destruct (wf_doc _ Hwf) as (dn0 & Hdn0 & Hk & Hp).
    rewrite Hdn in Hdn0. injection Hdn0 as <-.
    destruct (proj2 Hin _ _ Hdn) as [v Hv]. rewrite Hdoc.
    eexists. split; [exact Hv|]. cbn.
    destruct (wf_doc_line _ Hwf _ _ Hdn Hk) as [Hfl _]. done.
  - intros p c pn' Htree Hp Hc.
    destruct (inlined_back _ _ _ _ Hin Hp) as (pn & v & Hpn & ->). cbn in Hc.
    destruct (wf_children _ Hwf p pn c Hpn Hc) as (cn & Hcn & Hcp).
    destruct (proj2 Hin _ _ Hcn) as [vc Hvc].
    eexists. split; [exact Hvc|]. cbn.
    split; [done|]. split; [apply (Hclosed c cn Hcn); congruence|].
    assert (Hnd : t cn <> Document).
    { intros Hk. destruct (wf_doc_line _ Hwf c cn Hcn Hk) as [_ Hnone]. congruence. }
    split.
    { destruct (fam_edge _ _ Hfam c _ p Hvc Hcp) as (pn2 & Hpn2 & Hcan).
      rewrite Hp in Hpn2. injection Hpn2 as <-. exact Hcan. }
    split; [done|]. split.
    { exact (wf_first_line_parent _ Hwf c cn p pn Hcn Hcp Hpn). }
    destruct (wf_first_line _ Hwf c cn Hcn) as [?|Hle]; [done|]. by rewrite <- Hline.
Qed.

Lemma continue_loop_last_line_length (fuel len : nat) (s s' : Parser) (c : nat) :
  continue_loop Block_continue_ fuel len s c = Ok (s', None) ->
  last_line_length s' = len.
Proof.
  revert s c. induction fuel as [|fuel IH]; intros s c; cbn [continue_loop]; intros H.
  - apply bind_Ok in H as (n & _ & H). destruct (last_child n); [|done].
    apply bind_Ok in H as (lcn & _ & H). by destruct (is_open lcn).
  - apply bind_Ok in H as (n & _ & H). destruct (last_child n) as [lc|]; [|done].
    apply bind_Ok in H as (lcn & _ & H). destruct (is_open lcn); [|done].
    apply bind_Ok in H as ([s2 rv] & _ & H).
    destruct (rv =? 0)%Z; [by eapply IH|].
    destruct (rv =? 1)%Z.
    { apply bind_Ok in H as (lcn2 & _ & H). done. }
    destruct (rv =? 2)%Z; [|done]. by injection H as <-.
Qed.

Lemma incorporate_line_last_line_length (s s' : Parser) (ln : str) :
  incorporate_line s ln = Ok s' -> last_line_length s' = length ln.
Proof.
  unfold incorporate_line, incorporate_line_with. cbv zeta. intros H.
  assert (Hlen : length (replace_nul ln) = length ln) by apply length_map.
  apply bind_Ok in H as ([s2 [container|]] & Hloop & H).
  - apply bind_Ok in H as ([s4 c4] & _ & H). apply bind_Ok in H as (cn & _ & H).
    apply bind_Ok in H as ([s5 c5] & _ & H). apply bind_Ok in H as (s6 & _ & H).
    injection H as <-. exact Hlen.
  - injection H as <-. rewrite <- Hlen. by eapply continue_loop_last_line_length.
Qed.

Lemma incorporate_each_invariant_from (lines : list str) (s s' : Parser) :
  line_inv s -> family None (heap s) -> (0 <= line_number s)%Z ->
  incorporate_each lines s = Ok s' ->
  line_inv s' /\ family None (heap s') /\
  line_number s' = (line_number s + Z.of_nat (length lines))%Z /\
  (forall ln, last lines = Some ln -> last_line_length s' = length ln).
Proof.
  revert s. induction lines as [|ln lines IH]; intros s Hli Hfam Hl; cbn [incorporate_each].
  - intros [= <-]. split; [done|]. split; [done|]. split; [cbn; lia | done].
  - intros H. apply bind_Ok in H as (s1 & H1 & H).
    pose proof (incorporate_line_wp s ln Hli Hl) as Hwp. rewrite H1 in Hwp.
    destruct Hwp as [Hli1 Hl1].
    pose proof (incorporate_line_family s ln Hfam) as Hwf. rewrite H1 in Hwf.
    destruct (IH s1 Hli1 Hwf ltac:(lia) H) as (Hli' & Hfam' & Hl' & Hlast).
    split; [done|]. split; [done|]. split; [cbn [length]; lia|].
    intros ln' Hln'. destruct lines as [|ln2 lines].
    + cbn in Hln'. injection Hln' as <-. cbn in H. injection H as <-.
      by eapply incorporate_line_last_line_length.
    + apply Hlast. exact Hln'.
Qed.

(** X18: the parser state between two lines.  After any number of lines
    are incorporated into a new document, the store is a well-formed
    tree: the parent references and the child lists agree, every parent is
    a container that can contain the kind of its child, and every block
    with a parent descends from the document.  The tip is in the tree,
    every open block that has a parent is the tip or one of its ancestors,
    a closed code or HTML block holds no string content, an open fenced
    code block holds its first line, and every list item holds its list
    data.  [line_number] is the number of lines incorporated and
    [last_line_length] is the length of the last one. *)
Theorem incorporate_each_invariant (lines : list str) (s : Parser) :
  incorporate_each lines (parse_start init) = Ok s ->
  line_inv s /\ family None (heap s) /\
  line_number s = Z.of_nat (length lines) /\
  (forall ln, last lines = Some ln -> last_line_length s = length ln).
Proof.
  intros H.
  destruct (incorporate_each_invariant_from lines (parse_start init) s
              line_inv_parse_start family_parse_start ltac:(done) H)
    as (Hli & Hfam & Hl & Hlast).
  split; [done|]. split; [done|]. split; [|done]. rewrite Hl. cbn. lia.
Qed.

(** ** Input without text *)

Lemma scan_nonspace_blank (rest : list ascii) (i cols : nat) :
  blank_text rest ->
  exists cols', scan_nonspace rest i cols = (i + length rest, cols', None).
Proof.
  intros Hb. destruct (scan_nonspace_spec rest i cols)
    as (k & cols' & Hscan & Hall & Hsp & Htab & _).
  assert (Hk : k = length rest).
  { destruct (rest !! k) as [c|] eqn:Hc.
    - destruct (Hb c ltac:(by eapply list_elem_of_lookup_2)) as [-> | ->]; done.
    - apply lookup_ge_None in Hc.
      destruct (decide (k = length rest)) as [?|Hne]; [done|].
      destruct (Hall (length rest) ltac:(lia)) as [H|H];
        apply lookup_lt_Some in H; lia. }
  subst k. rewrite lookup_ge_None_2 in Hscan by lia. eauto.
Qed.

Lemma find_next_nonspace_blank (s : Parser) :
  blank_text (drop (offset s) (current_line s)) ->
  blank (find_next_nonspace s) = true /\ rest_of_line (find_next_nonspace s) = [].
Proof.
  intros Hb. unfold find_next_nonspace, rest_of_line.
  destruct (scan_nonspace_blank _ (offset s) (column s) Hb) as [cols' ->]. cbn.
  split; [done|]. apply drop_ge. rewrite length_drop. lia.
Qed.

Lemma find_next_nonspace_fields (s : Parser) :
  tip (find_next_nonspace s) = tip s /\ all_closed (find_next_nonspace s) = all_closed s /\
  current_line (find_next_nonspace s) = current_line s /\
  offset (find_next_nonspace s) = offset s.
Proof.
  unfold find_next_nonspace. by destruct (scan_nonspace _ _ _) as [[i cols] c].
Qed.

Lemma continue_loop_childless (cont : Kind -> Parser -> nat -> result (Parser * Z))
    (fuel len : nat) (s : Parser) (c : nat) (n : Node) :
  heap s !! c = Some n -> children n = [] ->
  continue_loop cont fuel len s c = Ok (s, Some (Some c)).
Proof.
  intros Hn Hch. destruct fuel; cbn [continue_loop]; unfold get_node, last_child;
    rewrite Hn; cbn [of_option bind]; by rewrite Hch.
Qed.

(** No block start applies to a line without text. *)
Lemma block_starts_blank (fuel : nat) (s : Parser) (c tp : nat) (n tn : Node) :
  blank_text (drop (offset s) (current_line s)) ->
  heap s !! c = Some n -> t n = Document ->
  tip s = Some tp -> heap s !! tp = Some tn ->
  block_starts_loop (S fuel) s (Some c) =
    Ok (advance_next_nonspace (find_next_nonspace s), Some c).
Proof.
  intros Hb Hn Hk Htip Htn. cbn [block_starts_loop]. cbv zeta.
  destruct (find_next_nonspace_blank s Hb) as [Hblank Hrest].
  destruct (find_next_nonspace_fields s) as (Htip1 & _).
  pose proof (find_next_nonspace_heap s) as Hheap.
  set (s1 := find_next_nonspace s) in *.
  rewrite Hrest. destruct (indented s1) eqn:Hind; [|done]. cbn [negb andb].
  rewrite (try_starts_no_match METHODS s1 (Some c)); [done|].
  unfold METHODS. repeat apply Forall_cons_2; [| | | | | | | |apply Forall_nil_2].
  - unfold block_quote. by rewrite Hind.
  - unfold atx_heading. by rewrite Hind.
  - unfold fenced_code_block. by rewrite Hind.
  - unfold html_block. by rewrite Hind.
  - unfold setext_heading. by rewrite Hind.
  - unfold thematic_break. by rewrite Hind.
  - unfold list_item. rewrite Hind. cbn [negb node_at]. rewrite Hheap, Hn.
    cbn [of_option bind]. by rewrite Hk.
  - unfold indented_code_block. rewrite Hind, Htip1, Htip. cbn [node_at].
    rewrite Hheap, Htn. cbn [of_option bind]. by rewrite Hblank, andb_false_r.
Qed.

(** A blank line in a document without blocks sets [last_line_blank] of
    the document. *)
Lemma place_text_blank (s : Parser) (d : nat) (dn : Node) :
  all_closed s = true -> blank s = true ->
  heap s !! d = Some dn -> t dn = Document -> children dn = [] -> parent dn = None ->
  place_text s (Some d) = Ok (upd_node d (set_last_line_blank true) s).
Proof.
  intros Hac Hblank Hd Hk Hch Hp. unfold place_text.
  rewrite Hac. cbn [negb andb bind].
  unfold close_unmatched_blocks. rewrite Hac. cbn [negb bind].
  rewrite Hblank. cbn [node_at]. rewrite Hd. cbn [of_option bind].
  unfold last_child. rewrite Hch. cbn [last bind node_at]. rewrite Hd.
  cbn [of_option bind]. cbv zeta. rewrite Hk, Hblank.
  cbn [kind_eqb accepts_lines].
  replace (true && negb _) with true.
  2:{ symmetry. apply andb_true_iff. split; [done|]. apply negb_true_iff.
      change (kind_eqb Document BlockQuote) with false.
      change (kind_eqb Document CodeBlock) with false.
      change (kind_eqb Document Item) with false. done. }
  cbn [propagate_last_line_blank]. unfold get_node. rewrite Hd. cbn [of_option bind].
  rewrite Hp.
  assert (Hdone : forall f s0, propagate_last_line_blank f true None s0 = Ok s0)
    by (by intros []).
  rewrite Hdone. cbn [bind blank upd_node set_heap]. rewrite Hblank.
  by rewrite andb_false_r.
Qed.

Lemma replace_nul_blank (ln : str) : blank_text ln -> replace_nul ln = ln.
Proof.
  intros Hb. unfold replace_nul. induction ln as [|c r IH]; cbn; [done|].
  rewrite IH by (intros x Hx; apply Hb; by right).
  destruct (Hb c ltac:(by left)) as [-> | ->]; done.
Qed.

Lemma outermost_list_root (fuel : nat) (s : Parser) (d : nat) (dn : Node) :
  heap s !! d = Some dn -> t dn = Document -> parent dn = None ->
  outermost_list (S fuel) s d None = Ok None.
Proof.
  intros Hd Hk Hp. cbn [outermost_list]. unfold get_node. rewrite Hd.
  cbn [of_option bind]. by rewrite Hk, Hp.
Qed.

Lemma incorporate_line_blank (s : Parser) (ln : str) :
  empty_document s -> blank_text ln ->
  exists s', incorporate_line s ln = Ok s' /\ empty_document s' /\
             heap s' = alter (set_last_line_blank true) (doc s) (heap s) /\
             doc s' = doc s /\ line_number s' = (line_number s + 1)%Z /\
             last_line_length s' = length ln.
Proof.
  intros (Htip & dn & Hd & Hk & Hch & Hp) Hb.
  unfold incorporate_line, incorporate_line_with. cbv zeta.
  rewrite (replace_nul_blank ln Hb).
  set (s1 := start_line s ln).
  rewrite (continue_loop_childless _ _ _ s1 (doc s1) dn Hd Hch). cbn [bind].
  set (s3 := set_last_matched_container _ _).
  assert (Hbo : (if blank s3
                 then let* c := node_at s3 (Some (doc s1)) in
                      if last_line_blank c
                      then let* ci := of_option AttributeError (Some (doc s1)) in
                           let* s' := break_out_of_lists s3 ci in Ok (s', tip s')
                      else Ok (s3, Some (doc s1))
                 else Ok (s3, Some (doc s1))) = Ok (s3, Some (doc s1))).
  { destruct (blank s3); [|done]. cbn [node_at]. change (heap s3) with (heap s).
    change (doc s1) with (doc s). rewrite Hd. cbn [of_option bind].
    destruct (last_line_blank dn); [|done]. unfold break_out_of_lists.
    rewrite (outermost_list_root _ s3 (doc s) dn Hd Hk Hp). cbn [bind].
    by rewrite <- Htip. }
  rewrite Hbo. cbn [bind node_at]. change (heap s3) with (heap s).
  change (doc s1) with (doc s). rewrite Hd. cbn [of_option bind]. rewrite Hk.
  cbn [kind_eqb accepts_lines andb].
  rewrite andb_false_r.
  rewrite (block_starts_blank _ s3 (doc s) (doc s) dn dn); try done.
  cbn [bind].
  set (s5 := advance_next_nonspace (find_next_nonspace s3)).
  destruct (find_next_nonspace_blank s3) as [Hblank _]; [done|].
  destruct (find_next_nonspace_fields s3) as (Htip5 & Hac5 & _).
  pose proof (find_next_nonspace_heap s3) as Hheap5.
  rewrite (place_text_blank s5 (doc s) dn); try done.
  - cbn [bind]. eexists. split; [reflexivity|].
    assert (Hfields : heap s5 = heap s /\ tip s5 = Some (doc s) /\ doc s5 = doc s /\
                      line_number s5 = (line_number s + 1)%Z).
    { change (heap s5) with (heap (find_next_nonspace s3)).
      change (tip s5) with (tip (find_next_nonspace s3)). rewrite Hheap5, Htip5.
      split; [done|]. split; [exact Htip|].
      unfold s5, s3, s1, find_next_nonspace.
      by destruct (scan_nonspace _ _ _) as [[i cols] c]. }
    destruct Hfields as (H5h & H5t & H5d & H5l).
    unfold empty_document.
    cbn [heap doc tip line_number last_line_length set_last_line_length upd_node set_heap].
    rewrite H5h, H5t, H5d, H5l.
    split; [|done]. split; [done|].
    eexists. split; [by apply lookup_alter_Some|]. done.
  - cbn. rewrite Hac5. cbn. by apply bool_decide_eq_true_2; rewrite Htip.
  - change (heap s5) with (heap (find_next_nonspace s3)). by rewrite Hheap5.
Qed.

Lemma incorporate_each_blank (lines : list str) (s : Parser) :
  empty_document s -> Forall blank_text lines ->
  exists s', incorporate_each lines s = Ok s' /\ empty_document s' /\
             doc s' = doc s /\
             line_number s' = (line_number s + Z.of_nat (length lines))%Z.
Proof.
  intros Hs Hall. revert s Hs. induction Hall as [|ln lines Hln _ IH]; intros s Hs.
  - exists s. cbn. split; [done|]. split; [done|]. split; [done | lia].
  - destruct (incorporate_line_blank s ln Hs Hln) as (s1 & H1 & He1 & _ & Hd1 & Hl1 & _).
    destruct (IH s1 He1) as (s' & H' & He' & Hd' & Hl').
    exists s'. cbn [incorporate_each]. rewrite H1. cbn [bind].
    split; [done|]. split; [done|]. split; [congruence|]. cbn [length]. lia.
Qed.

Lemma split_lines_blank (my_input : str) :
  (forall c, c ∈ my_input -> c = sp \/ c = tab \/ c = nl \/ c = cr) ->
  Forall blank_text (split_lines my_input).
Proof.
  intros Hin. destruct (split_lines_acc_spec my_input [] eq_refl) as (Hseg & Htext & _).
  fold (split_lines my_input) in Hseg, Htext.
  apply Forall_forall. intros ln Hln c Hc.
  assert (Hcat : c ∈ concat (split_lines my_input)).
  { apply list_elem_of_In, in_concat. exists ln.
    split; by apply list_elem_of_In. }
  rewrite Htext in Hcat. cbn in Hcat.
  apply list_elem_of_In, filter_In in Hcat as [Hc0 Hterm].
  apply list_elem_of_In in Hc0.
  destruct (Hin c Hc0) as [?|[?|[-> | ->]]]; auto; done.
Qed.

(** X19: input without text.  For an input that holds nothing but
    spaces, tabs and line terminators, [parse] returns, and the tree is a
    closed document without children that starts on line 1 and ends on
    the last line that is parsed. *)
Theorem parse_blank_input (my_input : str) :
  (forall c, c ∈ my_input -> c = sp \/ c = tab \/ c = nl \/ c = cr) ->
  exists (s' : Parser) (dn : Node),
    parse my_input = Ok s' /\ tip s' = None /\
    heap s' !! doc s' = Some dn /\ t dn = Document /\ children dn = [] /\
    parent dn = None /\ is_open dn = false /\
    first_line dn = 1%Z /\ last_line dn = Z.of_nat (lines_to_parse my_input).
Proof.
  intros Hin. unfold parse, parse_with, parse_blocks. cbv zeta.
  assert (Hle : lines_to_parse my_input <= length (split_lines my_input)).
  { unfold lines_to_parse. destruct (_ && _); lia. }
  rewrite incorporate_lines_each by (cbn; lia). rewrite drop_0.
  assert (Hstart : empty_document (parse_start init)).
  { split; [done|]. eexists. split; [reflexivity|]. done. }
  destruct (incorporate_each_blank (take (lines_to_parse my_input) (split_lines my_input))
              (parse_start init) Hstart) as (s1 & H1 & (Htip1 & dn & Hd & Hk & Hch & Hp) & Hd1 & Hl1).
  { apply Forall_take. by apply split_lines_blank. }
  rewrite H1. cbn [bind].
  pose proof (incorporate_each_invariant_from _ _ _ line_inv_parse_start
                family_parse_start ltac:(done) H1) as ([Hwf _ _ _] & _).
  destruct (wf_doc_line _ Hwf _ _ Hd Hk) as [Hfl _].
  (* the document is closed, and the loop ends *)
  cbn [finalize_open]. rewrite Htip1. unfold finalize at 1. unfold get_node.
  rewrite Hd. cbn [of_option bind]. rewrite Hk. cbn [Block_finalize bind].
  rewrite Hp.
  set (s2 := set_tip None _).
  assert (Hloop : forall f, finalize_open f (Z.of_nat (lines_to_parse my_input)) s2 = Ok s2)
    by (by intros []).
  rewrite Hloop. cbn [bind].
  set (dn2 := set_sourcepos ((sourcepos dn).1,
                  (Z.of_nat (lines_to_parse my_input), Z.of_nat (last_line_length s1)))
                (set_is_open false dn)).
  assert (Hd2 : heap s2 !! doc s2 = Some dn2).
  { cbn. by rewrite (lookup_alter_Some _ _ _ _ Hd). }
  (* the inline pass visits the document *)
  unfold process_inlines.
  assert (Hnodes : tree_nodes (length (heap s2)) (heap s2) (doc s2) = Ok [doc s2]).
  { destruct (length (heap s2)) eqn:Hlen.
    - apply lookup_lt_Some in Hd2. lia.
    - cbn [tree_nodes]. rewrite Hd2. cbn [of_option bind]. subst dn2. cbn [children set_sourcepos set_is_open].
      rewrite Hch. done. }
  rewrite Hnodes. cbn [bind foldl]. rewrite Hd2. cbn [of_option bind].
  assert (Hk2 : t dn2 = Document) by exact Hk. rewrite Hk2.
  change (kind_eqb Document Paragraph || kind_eqb Document Heading) with false.
  cbv iota. cbn [bind].
  eexists _, dn2. split; [reflexivity|]. cbn [tip heap doc set_heap].
  split; [done|]. split; [exact Hd2|]. subst dn2. cbn.
  split; [done|]. split; [done|]. split; [done|]. split; [done|]. done.
Qed.

(** ** The HTML block and the indented code block *)



(** X21: an indented code block.  [indented_code_block] returns 0 and
    leaves the parser as it was when the line is not indented, when it is
    blank, and when the tip is a paragraph: an indented line does not
    interrupt a paragraph.  Otherwise it returns 2: the offset is advanced
    by four columns, the new tip is a code block that is not fenced, with
    the empty string content, which starts at the current line in the
    column after the new offset. *)
Theorem indented_code_block_rule (s s' : Parser) (c : option nat) (rv : Z) :
  indented_code_block s c = Ok (s', rv) ->
  (rv = 0%Z /\ s' = s /\
   (indented s = false \/ blank s = true \/
    exists x tn, tip s = Some x /\ heap s !! x = Some tn /\ t tn = Paragraph)) \/
  (rv = 2%Z /\ indented s = true /\ blank s = false /\
   (exists x tn, tip s = Some x /\ heap s !! x = Some tn /\ t tn <> Paragraph) /\
   exists (b : nat) (nb : Node),
     tip s' = Some b /\ heap s' !! b = Some nb /\ t nb = CodeBlock /\
     is_fenced nb = false /\ string_content nb = Some [] /\
     sourcepos nb = ((line_number s, (Z.of_nat (offset s') + 1)%Z), (0, 0)%Z) /\
     current_line s' = current_line s /\
     offset s' = offset (advance_offset (Z.of_nat CODE_INDENT) true s) /\
     column s' = column (advance_offset (Z.of_nat CODE_INDENT) true s)).
Proof.
  unfold indented_code_block.
  destruct (indented s) eqn:Hind; [|intros [= <- <-]; left; auto].
  intros H. apply bind_Ok in H as (tn & Htn & H).
  assert (Htip : exists x, tip s = Some x /\ heap s !! x = Some tn).
  { destruct (tip s) as [x|]; [|done]. apply of_option_Ok in Htn. by exists x. }
  destruct Htip as (x & Htip & Hx).
  destruct (kind_eqb (t tn) Paragraph) eqn:Hk; cbn [negb andb] in H.
  { injection H as <- <-. left. split; [done|]. split; [done|]. right. right.
    exists x, tn. split; [done|]. split; [done|].
    unfold kind_eqb in Hk. by apply bool_decide_eq_true in Hk. }
  destruct (blank s) eqn:Hblank; cbn [negb] in H.
  { injection H as <- <-. left. auto. }
  apply bind_Ok in H as (s2 & Hclose & H).
  apply bind_Ok in H as ([s3 b] & Hadd & H). injection H as <- <-.
  right. split; [done|]. split; [done|]. split; [done|]. split.
  { exists x, tn. split; [done|]. split; [done|].
    unfold kind_eqb in Hk. by apply bool_decide_eq_false in Hk. }
  set (s1 := advance_offset (Z.of_nat CODE_INDENT) true s) in *.
  destruct (close_unmatched_blocks_cursor _ _ Hclose) as (Hck1 & _).
  destruct (close_add_child _ _ _ _ _ _ Hclose Hadd) as (Hck & Htip' & _ & _ & p & Hb).
  assert (Hs1 : current_line s1 = current_line s /\ line_number s1 = line_number s).
  { unfold s1, advance_offset. by destruct (advance_loop _ _ _ _ _). }
  destruct Hs1 as [Hline1 Hnum1].
  eexists b, _. split; [exact Htip'|]. split; [exact Hb|].
  cbn [t is_fenced string_content sourcepos set_parent new_node].
  split; [done|]. split; [done|]. split; [done|]. split.
  { by rewrite Hnum1, (ck_offset _ _ Hck), (ck_offset _ _ Hck1). }
  split; [by rewrite (ck_current_line _ _ Hck)|].
  split; [apply Hck | apply Hck].
Qed.

(** ** [break_out_of_lists] *)














(** ** Documents of plain text *)









(** ** The thematic break *)

(** X24: a thematic break.  When [thematic_break] opens a block, the line
    is not indented and what it holds from [next_nonspace] starts with
    one of the characters [*], [_] and [-], holds that character three
    times or more, and holds nothing but that character and spaces up to
    the end of the line.  The new tip is a thematic break that starts at
    the current line, in the column of the first marker, and the offset is
    moved to the end of the line. *)
Theorem thematic_break_rule (s s' : Parser) (c : option nat) :
  thematic_break s c = Ok (s', 2%Z) ->
  indented s = false /\
  exists (ch : ascii) (b : nat) (nb : Node),
    current_line s !! next_nonspace s = Some ch /\
    (ch = "*"%char \/ ch = "_"%char \/ ch = "-"%char) /\
    3 <= count_ch ch (rest_of_line s) /\
    (forall x, x ∈ chop_nl (rest_of_line s) -> x = ch \/ x = sp) /\
    tip s' = Some b /\ heap s' !! b = Some nb /\ t nb = ThematicBreak /\
    sourcepos nb = ((line_number s, (Z.of_nat (next_nonspace s) + 1)%Z), (0, 0)%Z) /\
    current_line s' = current_line s /\
    length (current_line s') <= offset s'.
Proof.
  unfold thematic_break.
  destruct (indented s) eqn:Hind; cbn [negb andb]; [done|].
  destruct (reThematicBreak (rest_of_line s)) eqn:Hre; [|done].
  intros H. apply bind_Ok in H as (s1 & Hclose & H).
  apply bind_Ok in H as ([s2 b] & Hadd & H). injection H as <-.
  split; [done|].
  unfold reThematicBreak in Hre.
  destruct (rest_of_line s) as [|ch rest] eqn:Hrest; [done|].
  apply andb_prop in Hre as [Hre Hcount]. apply andb_prop in Hre as [Hch Hall].
  apply Nat.leb_le in Hcount.
  destruct (close_unmatched_blocks_cursor _ _ Hclose) as (Hck1 & _).
  destruct (close_add_child _ _ _ _ _ _ Hclose Hadd) as (Hck & Htip & _ & _ & p & Hb).
  pose proof (same_tree_advance_to_eol s2) as Hst.
  exists ch, b. eexists.
  split.
  { unfold rest_of_line in Hrest. unfold str in *.
    rewrite <- (Nat.add_0_r (next_nonspace s)), <- lookup_drop. by rewrite Hrest. }
  split.
  { unfold ch_in in Hch. cbn in Hch.
    destruct (Ascii.eqb_spec ch "*"); [by left|].
    destruct (Ascii.eqb_spec ch "_"); [by right; left|].
    destruct (Ascii.eqb_spec ch "-"); [by right; right|]. done. }
  split; [done|]. split.
  { intros x Hx. rewrite forallb_forall in Hall.
    specialize (Hall x ltac:(by apply list_elem_of_In)).
    apply orb_prop in Hall as [Hx1 | Hx1]; apply Ascii.eqb_eq in Hx1; auto. }
  rewrite (st_tip _ _ Hst), (st_heap _ _ Hst).
  split; [exact Htip|]. split; [exact Hb|].
  cbn [t sourcepos set_parent new_node]. split; [done|].
  split; [by rewrite (ck_next_nonspace _ _ Hck1)|].
  split; [|apply advance_to_eol_offset].
  unfold advance_to_eol, advance_offset. destruct (advance_loop _ _ _ _ _). cbn.
  by rewrite (ck_current_line _ _ Hck).
Qed.

End Properties.

(** * The properties at concrete inputs *)

Section Concrete.

#[local] Existing Instance sample_externals.

(** C1, counterexample: on the second line of ["-\n  "] the line is blank
    and the open item has no children, yet [Item.continue_] returns 0, not
    1: the indent of the blank line reaches [marker_offset + padding]. *)
Lemma Item_continue_blank_childless_returns_0 :
  exists (s s' : Parser) (c : Node),
    blank_line_in_empty_item = Ok s /\
    get_node s 3 = Ok c /\ t c = Item /\ last_child c = None /\
    blank s = true /\
    Item_continue_ s 3 = Ok (s', 0%Z).
Proof.
  vm_compute. do 3 eexists. repeat split; reflexivity.
Qed.

(** C1, witness. *)
Lemma Item_continue_cases_witness :
  exists (s : Parser) (c : Node),
    blank_line_in_empty_item = Ok s /\ get_node s 3 = Ok c /\
    Item_continue_ s 3 = Ok (advance_offset 2 true s, 0%Z).
Proof.
  destruct blank_line_in_empty_item as [s|] eqn:Hs; [|discriminate Hs].
  assert (exists c, get_node s 3 = Ok c /\ marker_offset (list_data c) = Some 0 /\
                    padding (list_data c) = Some 2 /\ last_child c = None /\
                    2 <= indent s) as (c & Hc & Hmo & Hpd & Hl & Hi).
  { revert Hs. vm_compute. intros [= <-]. eexists. repeat split; reflexivity || lia. }
  exists s, c. split; [reflexivity|]. split; [exact Hc|].
  apply (Item_continue_cases s 3 c 0 2 Hc Hmo Hpd); [right; exact Hl | exact Hi].
Defined.

(** C4, witness: the third line of the document with the lines [```],
    [x], [```] is a closing fence; the block is finalized and the result
    is 2. *)
Lemma CodeBlock_continue_fenced_witness :
  exists s' : Parser,
    finalize at_closing_fence 2 3 = Ok s' /\
    CodeBlock_continue_ at_closing_fence 2 = Ok (s', 2%Z).
Proof.
  destruct (finalize at_closing_fence 2 3) as [s'|] eqn:Hfin;
    [|by vm_compute in Hfin].
  exists s'. split; [reflexivity|].
  assert (exists c, get_node at_closing_fence 2 = Ok c /\ is_fenced c = true /\
                    fence_char c = Some "`"%char /\ fence_length c = 3)
    as (c & Hc & Hfen & Hfc & Hlen) by (eexists; repeat split; reflexivity).
  destruct (CodeBlock_continue_fenced at_closing_fence 2 c "`"%char Hc Hfen Hfc eq_refl
              ltac:(rewrite Hlen; lia)) as [Hclose _].
  rewrite Hclose.
  - change (line_number at_closing_fence) with 3%Z. by rewrite Hfin.
  - split; [vm_compute; lia|]. exists 3. split; [rewrite Hlen; lia|].
    exists 0, []. split; [reflexivity | by left].
Defined.


(** C6, witness: on the empty second line after [> a], the paragraph and
    the block quote are finalized at line 1. *)
Lemma close_unmatched_blocks_idempotent_witness :
  close_unmatched_blocks at_unmatched_quote =
    (let* s1 := finalize_each [3; 2] (2 - 1) at_unmatched_quote in
     Ok (set_all_closed true (set_oldtip (Some 1) s1))) /\
  exists s' : Parser,
    close_unmatched_blocks at_unmatched_quote = Ok s' /\
    all_closed s' = true /\ close_unmatched_blocks s' = Ok s'.
Proof.
  destruct close_unmatched_blocks_idempotent as [Hidem Hchain].
  split.
  - apply (Hchain at_unmatched_quote [3; 2]); reflexivity.
  - destruct (close_unmatched_blocks at_unmatched_quote) as [s'|] eqn:Hs;
      [|by vm_compute in Hs].
    exists s'. split; [reflexivity|]. exact (Hidem _ _ Hs).
Defined.

(** C7, witness: a dispatch that returns 3 for the open paragraph of the
    first line ends the loop in the error. *)
Lemma continue_illegal_return_witness :
  continue_loop (fun _ s _ => Ok (s, 3%Z)) 3 1 at_second_line 1 = Err IllegalReturn.
Proof.
  destruct continue_illegal_return as [Hloop _].
  assert (exists n lcn, get_node at_second_line 1 = Ok n /\ last_child n = Some 2 /\
                        get_node at_second_line 2 = Ok lcn /\ is_open lcn = true)
    as (n & lcn & Hn & Hlc & Hlcn & Hopen) by (do 2 eexists; repeat split; reflexivity).
  apply (Hloop (fun _ s _ => Ok (s, 3%Z)) 2 1 at_second_line
           (find_next_nonspace at_second_line) 1 2 n lcn 3%Z Hn Hlc Hlcn Hopen eq_refl);
    discriminate.
Defined.


(** C9, witness: the HTML block with the content ["<div>\nhi\n"] gets
    the literal ["<div>\nhi"]. *)
Lemma HtmlBlock_finalize_literal_witness :
  exists (n : Node) (lit run : str),
    get_node in_html_block 2 = Ok n /\
    HtmlBlock_finalize in_html_block 2 =
      Ok (upd_node 2 (fun x => set_string_content None (set_literal (Some lit) x))
            in_html_block) /\
    pystr "<div>" ++ [nl] ++ pystr "hi" ++ [nl] = lit ++ run /\
    (run = [] \/ blank_run run = true).
Proof.
  assert (exists n, get_node in_html_block 2 = Ok n /\
                    string_content n = Some (pystr "<div>" ++ [nl] ++ pystr "hi" ++ [nl]))
    as (n & Hn & Hsc) by (eexists; split; reflexivity).
  destruct (HtmlBlock_finalize_literal in_html_block 2 n _ Hn Hsc)
    as (lit & run & Hfin & _ & _ & Hcut).
  exists n, lit, run. split; [exact Hn|]. split; [exact Hfin|].
  destruct Hcut as (H1 & H2 & _); [intros [Hdiv _]; discriminate Hdiv|].
  by split.
Defined.

(** C9, the special case: with the content ["<div>\n"] at the source
    position [[1,3],[1,7]] the literal is ["\n<div>"]. *)
Example HtmlBlock_finalize_special_case :
  let n := set_sourcepos ((1, 3), (1, 7))%Z
             (set_string_content (Some (pystr "<div>" ++ [nl])) (new_node HtmlBlock ((1, 3), (0, 0))%Z)) in
  let s := set_heap [n] init in
  exists s', HtmlBlock_finalize s 0 = Ok s' /\
             (literal <$> heap s' !! 0) = Some (Some (nl :: pystr "<div>")).
Proof. eexists. split; reflexivity. Qed.

(** C10, witness: the fenced code block of the lines [```], [x] holds a
    newline when the closing fence arrives, and [parse] of a lone opening
    fence raises neither exception. *)
Lemma fenced_code_block_split_defined_witness :
  (exists s', CodeBlock_finalize at_closing_fence 2 = Ok s') /\
  unraised IndexNotFound (parse (pystr "```")) /\
  unraised IndexOfNone (parse (pystr "```")).
Proof.
  destruct fenced_code_block_split_defined as (Hlocal & _ & Hparse).
  split; [|apply Hparse].
  assert (exists n, heap at_closing_fence !! 2 = Some n /\ is_fenced n = true /\
                    string_content n = Some (nl :: pystr "x" ++ [nl]))
    as (n & Hn & Hfen & Hsc) by (eexists; repeat split; reflexivity).
  apply (Hlocal at_closing_fence 2 n Hn Hfen).
  eexists. split; [exact Hsc | discriminate].
Defined.



(** C3, counterexample: the document of the empty input starts at line 1,
    column 1 and ends at line 1, column 0, the length of its only line. *)
Lemma parse_empty_document_ends_before_start :
  exists (s' : Parser) (i : nat) (n : Node),
    parse [] = Ok s' /\
    in_tree (heap s') (doc s') i /\ heap s' !! i = Some n /\
    sourcepos n = ((1, 1), (1, 0))%Z /\
    ~ pos_le (fst (sourcepos n)) (snd (sourcepos n)).
Proof.
  destruct (parse []) as [s'|e] eqn:Hp; [|by vm_compute in Hp].
  assert (doc s' = 1 /\
          exists n, heap s' !! 1 = Some n /\ sourcepos n = ((1, 1), (1, 0))%Z)
    as (Hdoc & n & Hn & Hsp).
  { revert Hp. vm_compute. intros [= <-]. split; [reflexivity|].
    eexists. split; reflexivity. }
  exists s', 1, n. split; [reflexivity|]. split; [rewrite Hdoc; apply in_tree_root|].
  split; [exact Hn|]. split; [exact Hsp|].
  rewrite Hsp. unfold pos_le. cbn. lia.
Qed.

(** C3, witness: the code block of the lines [```], [x], [```] starts at
    line 1 and ends at line 3. *)
Lemma parse_sourcepos_lines_ordered_witness :
  exists (s' : Parser) (n : Node),
    parse (pystr "```" ++ [nl] ++ pystr "x" ++ [nl] ++ pystr "```") = Ok s' /\
    heap s' !! 2 = Some n /\ (first_line n <= last_line n)%Z.
Proof.
  destruct (parse (pystr "```" ++ [nl] ++ pystr "x" ++ [nl] ++ pystr "```"))
    as [s'|e] eqn:Hp; [|by vm_compute in Hp].
  assert (doc s' = 1 /\
          exists pn n, heap s' !! 1 = Some pn /\ children pn = [2] /\
                       heap s' !! 2 = Some n)
    as (Hdoc & pn & n & Hpn & Hch & Hn).
  { revert Hp. vm_compute. intros [= <-]. split; [reflexivity|].
    do 2 eexists. repeat split; reflexivity. }
  exists s', n. split; [reflexivity|]. split; [exact Hn|].
  apply (parse_sourcepos_lines_ordered _ s' 2 n Hp); [|exact Hn].
  rewrite Hdoc. apply (in_tree_child _ _ 1 2 pn); [apply in_tree_root | exact Hpn |].
  rewrite Hch. constructor.
Defined.


(** X1, witness: on the line of two spaces, a tab and [a], the character
    at position 1 is skipped. *)
Lemma find_next_nonspace_spec_witness :
  next_nonspace (find_next_nonspace at_indented_text) = 3 /\
  (current_line at_indented_text !! 1 = Some sp \/
   current_line at_indented_text !! 1 = Some tab).
Proof.
  split; [reflexivity|].
  destruct (find_next_nonspace_spec at_indented_text) as (_ & Hall & _).
  apply (Hall 1). vm_compute. split; lia.
Defined.

(** X2, witness: two characters, then one more, are three characters. *)
Lemma advance_offset_chars_witness :
  advance_offset 1 false (advance_offset 2 false at_indented_text) =
  advance_offset (2 + 1) false at_indented_text.
Proof.
  destruct (advance_offset_chars at_indented_text 2) as (_ & _ & _ & _ & Hsum).
  apply (Hsum 1%Z); lia.
Defined.

(** X3, witness: three columns from the start of the same line reach the
    tab, which is taken whole. *)
Lemma advance_offset_columns_witness :
  (Z.of_nat (column (advance_offset 3 true at_indented_text)) <= 0 + 3 + 3)%Z /\
  (length (current_line at_indented_text) <= offset (advance_offset 3 true at_indented_text) \/
   (0 + 3 <= Z.of_nat (column (advance_offset 3 true at_indented_text)))%Z).
Proof.
  destruct (advance_offset_columns at_indented_text 3) as (_ & _ & _ & _ & _ & _ & Hpos).
  apply Hpos. lia.
Defined.



(** X6, witness: the paragraph [a] holds no link reference definition
    and is left whole. *)
Lemma Paragraph_finalize_spec_witness :
  exists (n : Node) (content : str),
    heap in_paragraph !! 2 = Some n /\ string_content n = Some content /\
    Paragraph_finalize in_paragraph 2 =
      Ok (set_refmap (refmap in_paragraph)
            (set_heap (alter (set_string_content (Some content)) 2 (heap in_paragraph))
               in_paragraph)).
Proof.
  assert (Hn : exists n, heap in_paragraph !! 2 = Some n /\
                         string_content n = Some [ "a"%char; nl]).
  { vm_compute. eexists. repeat split. }
  destruct Hn as (n & Hn & Hc).
  destruct (Paragraph_finalize_spec in_paragraph 2 n _ Hn Hc) as (k & rm & h & Hfin & _ & Hwhole).
  destruct (Hwhole eq_refl) as (_ & -> & ->).
  exists n, [ "a"%char; nl]. repeat split; assumption.
Defined.

(** X7, witness: a list of two items without blank lines stays tight. *)
Lemma List_finalize_tight_witness : List_finalize in_tight_list 2 = Ok in_tight_list.
Proof.
  destruct (List_finalize in_tight_list 2) as [s'|e] eqn:Hp; [|by vm_compute in Hp].
  destruct (List_finalize_tight _ _ _ Hp) as (_ & Hsame & _).
  f_equal. apply Hsame. simpl. repeat (constructor; [reflexivity|]). constructor.
Defined.

(** X8, witness: closing the paragraph [a] on line 1 makes the document
    the tip. *)
Lemma finalize_effect_witness :
  exists s' n',
    finalize in_paragraph 2 1 = Ok s' /\ tip s' = Some 1 /\
    heap s' !! 2 = Some n' /\ is_open n' = false /\ snd (sourcepos n') = (1, 1)%Z /\
    frame in_paragraph s'.
Proof.
  assert (Hn : exists n, heap in_paragraph !! 2 = Some n /\ parent n = Some 1 /\
                         last_line_length in_paragraph = 1).
  { vm_compute. eexists. repeat split. }
  destruct Hn as (n & Hn & Hpar & Hlen).
  destruct (finalize in_paragraph 2 1) as [s'|e] eqn:Hp; [|by vm_compute in Hp].
  destruct (finalize_effect in_paragraph s' 2 1 n Hn ltac:(rewrite Hpar; discriminate) Hp)
    as ((n' & Hn' & Hopen & Hpos & _) & Htip & _ & _ & Hframe).
  exists s', n'. rewrite Htip, Hpos, Hlen.
  split; [reflexivity|]. split; [exact Hpar|]. split; [exact Hn'|].
  split; [exact Hopen|]. split; [reflexivity | exact Hframe].
Defined.

(** X9, witness: a paragraph added to a new document is the child of the
    document. *)
Lemma add_child_new_block_witness :
  exists s' b pn,
    add_child Paragraph 0 (parse_start init) = Ok (s', b) /\ b = 2 /\
    tip s' = Some b /\ heap s' !! 1 = Some pn /\ children pn = [b].
Proof.
  destruct (add_child Paragraph 0 (parse_start init)) as [[s' b]|e] eqn:Hp;
    [|by vm_compute in Hp].
  destruct (add_child_new_block _ _ _ _ _ Hp)
    as (Hb & _ & Htip & p & pn & _ & Hpn & _ & _ & Htipcase).
  assert (Hd : exists dn, heap (parse_start init) !! 1 = Some dn /\ children dn = [] /\
                          t dn = Document).
  { vm_compute. eexists. repeat split. }
  destruct Hd as (dn & Hdn & Hch & Hdt).
  assert (Htip0 : tip (parse_start init) = Some 1) by (vm_compute; reflexivity).
  destruct (Htipcase 1 dn Htip0 Hdn ltac:(rewrite Hdt; reflexivity)) as (Hp1 & Hpn1 & _).
  exists s', b, pn. split; [reflexivity|].
  split; [rewrite Hb; vm_compute; reflexivity|].
  split; [exact Htip|]. split; [rewrite <- Hp1; exact Hpn|].
  rewrite Hpn1. destruct dn. cbn in Hch |- *. rewrite Hch. reflexivity.
Defined.

(** X10, witness: on the line [> a] the first block start opens a block
    quote and returns 1. *)
Lemma block_starts_open_witness :
  exists s' b nb,
    block_quote (at_first_line "> a") (Some 1) = Ok (s', 1%Z) /\
    tip s' = Some b /\ heap s' !! b = Some nb /\ t nb = BlockQuote /\
    is_open nb = true /\ children nb = [].
Proof.
  pose proof block_starts_open as H. unfold METHODS in H.
  apply Forall2_cons_1 in H as [Hbq _].
  destruct (block_quote (at_first_line "> a") (Some 1)) as [[s' rv]|e] eqn:Hp;
    [|by vm_compute in Hp].
  assert (Hrv : rv = 1%Z) by (revert Hp; vm_compute; by intros [= <- <-]).
  subst rv.
  destruct (Hbq _ _ _ _ Hp) as [[Hz _]|(_ & b & nb & Htip & _ & Hnb & Ht & Hopen & Hch & _)];
    [discriminate|].
  exists s', b, nb. repeat split; assumption.
Defined.

(** X11, witness: the line [## a] opens a heading of level 2. *)
Lemma atx_heading_level_witness :
  exists s' b nb,
    atx_heading (at_first_line "## a") (Some 1) = Ok (s', 2%Z) /\
    tip s' = Some b /\ heap s' !! b = Some nb /\ t nb = Heading /\
    1 <= level nb /\ level nb <= 6 /\
    current_line (at_first_line "## a") !! 0 = Some "#"%char.
Proof.
  destruct (atx_heading (at_first_line "## a") (Some 1)) as [[s' rv]|e] eqn:Hp;
    [|by vm_compute in Hp].
  assert (Hrv : rv = 2%Z) by (revert Hp; vm_compute; by intros [= <- <-]).
  subst rv.
  destruct (atx_heading_level _ _ _ Hp)
    as (_ & b & nb & len & Htip & Hnb & Ht & _ & Hlo & Hhi & Hall & _).
  exists s', b, nb. split; [reflexivity|]. repeat (split; [assumption|]).
  apply (Hall 0). lia.
Defined.

(** X12, witness: the line of three backticks opens a fenced code block
    with a fence of backticks. *)
Lemma fenced_code_block_fence_witness :
  exists s' b nb ch,
    fenced_code_block (at_first_line "```") (Some 1) = Ok (s', 2%Z) /\
    tip s' = Some b /\ heap s' !! b = Some nb /\ is_fenced nb = true /\
    fence_char nb = Some ch /\ 3 <= fence_length nb /\
    current_line (at_first_line "```") !! 2 = Some ch.
Proof.
  destruct (fenced_code_block (at_first_line "```") (Some 1)) as [[s' rv]|e] eqn:Hp;
    [|by vm_compute in Hp].
  assert (Hrv : rv = 2%Z) by (revert Hp; vm_compute; by intros [= <- <-]).
  subst rv.
  destruct (fenced_code_block_fence _ _ _ Hp)
    as (_ & b & nb & ch & Htip & Hnb & _ & Hf & Hch & _ & Hlen & Hall & _).
  exists s', b, nb, ch. split; [reflexivity|]. repeat (split; [assumption|]).
  apply (Hall 2). lia.
Defined.

(** X13, witness: the line [- a] opens a list item in a list. *)
Lemma list_item_structure_witness :
  exists s' b p nb pn pad,
    list_item (at_first_line "- a") (Some 1) = Ok (s', 1%Z) /\
    tip s' = Some b /\ heap s' !! b = Some nb /\ t nb = Item /\
    padding (list_data nb) = Some pad /\ 2 <= pad /\
    parent nb = Some p /\ heap s' !! p = Some pn /\ t pn = List.
Proof.
  destruct (list_item (at_first_line "- a") (Some 1)) as [[s' rv]|e] eqn:Hp;
    [|by vm_compute in Hp].
  assert (Hrv : rv = 1%Z) by (revert Hp; vm_compute; by intros [= <- <-]).
  subst rv.
  destruct (list_item_structure _ _ _ Hp)
    as (b & p & nb & pn & pad & Htip & Hnb & Ht & _ & _ & _ & Hpad & Hlo & Hpar & Hpn & Htp & _).
  exists s', b, p, nb, pn, pad. repeat split; assumption.
Defined.

(** X14, witness: the underline [===] after the line [a] turns the
    paragraph into a heading of level 1. *)
Lemma setext_heading_replaces_witness :
  exists s' c1 pn,
    heap at_underline !! 2 = Some c1 /\ heap at_underline !! 1 = Some pn /\
    setext_heading at_underline (Some 2) = Ok (s', 2%Z) /\
    tip s' = Some 3 /\
    heap s' !! 3 =
      Some (set_parent (Some 1)
              (set_string_content (string_content c1)
                 (set_level 1 (new_node Heading (sourcepos c1))))) /\
    heap s' !! 1 = Some (set_children [3] pn) /\
    heap s' !! 2 = Some (set_parent None c1).
Proof.
  assert (Hn : exists c1 pn,
             heap at_underline !! 2 = Some c1 /\ heap at_underline !! 1 = Some pn /\
             t c1 = Paragraph /\ parent c1 = Some 1 /\ children pn = [] ++ 2 :: []).
  { vm_compute. do 2 eexists. repeat split. }
  destruct Hn as (c1 & pn & Hc1 & Hpn & Ht & Hpar & Hch).
  destruct (setext_heading_replaces at_underline 2 1 c1 pn "="%char [] []
              eq_refl eq_refl Hc1 Ht eq_refl Hpar Hpn ltac:(lia) Hch
              ltac:(apply not_elem_of_nil) ltac:(apply not_elem_of_nil))
    as (s' & Hp & Htip & Hnew & Hparent & Hold & _).
  exists s', c1, pn. repeat split; assumption.
Defined.

(** X15, witness: on the line [> b] the offset passes the [>] and the
    space, and the column only the [>]. *)
Lemma BlockQuote_continue_cursor_witness :
  exists s',
    BlockQuote_continue_ at_quote_continuation 2 = Ok (s', 0%Z) /\
    offset s' = 2 /\ column s' = 1.
Proof.
  destruct (BlockQuote_continue_ at_quote_continuation 2) as [[s' rv]|e] eqn:Hp;
    [|by vm_compute in Hp].
  assert (Hrv : rv = 0%Z) by (revert Hp; vm_compute; by intros [= <- <-]).
  subst rv.
  destruct (BlockQuote_continue_cursor _ _ _ _ Hp)
    as [(Hone & _)|(_ & _ & _ & _ & _ & Hoff & Hcol)]; [discriminate|].
  exists s'. repeat split; assumption.
Defined.

(** X16, witness: the list item of the input [- a] holds both entries. *)
Lemma parse_list_data_defined_witness :
  exists s' n mo pd,
    parse (pystr "- a") = Ok s' /\ heap s' !! 3 = Some n /\ t n = Item /\
    marker_offset (list_data n) = Some mo /\ padding (list_data n) = Some pd.
Proof.
  destruct (parse (pystr "- a")) as [s'|e] eqn:Hp; [|by vm_compute in Hp].
  assert (Hn : exists n, heap s' !! 3 = Some n /\ t n = Item).
  { revert Hp. vm_compute. intros [= <-]. eexists. split; reflexivity. }
  destruct Hn as (n & Hn & Ht).
  destruct (parse_list_data_defined (pystr "- a")) as (_ & Hitems).
  destruct (Hitems s' 3 n Hp Hn Ht) as (mo & pd & Hmo & Hpd).
  exists s', n, mo, pd. repeat split; assumption.
Defined.

(** X17, witness: the paragraph of the input [a] is a closed child of
    the document. *)
Lemma parse_tree_shape_witness :
  exists s' cn,
    parse (pystr "a") = Ok s' /\ tip s' = None /\
    heap s' !! 2 = Some cn /\ parent cn = Some 1 /\ is_open cn = false /\
    t cn <> Document /\ (first_line cn <= 1)%Z.
Proof.
  destruct (parse (pystr "a")) as [s'|e] eqn:Hp; [|by vm_compute in Hp].
  assert (Hn : exists pn, doc s' = 1 /\ heap s' !! 1 = Some pn /\ children pn = [2]).
  { revert Hp. vm_compute. intros [= <-]. eexists. repeat split. }
  destruct Hn as (pn & Hdoc & Hpn & Hch).
  destruct (parse_tree_shape (pystr "a") s' Hp) as (Htip & _ & Hchild).
  destruct (Hchild 1 2 pn) as (cn & Hcn & Hpar & Hopen & _ & Hk & _ & Hline).
  { rewrite Hdoc. apply in_tree_root. }
  { exact Hpn. }
  { rewrite Hch. apply list_elem_of_singleton. reflexivity. }
  exists s', cn. repeat split; assumption.
Defined.

(** X18, witness: after the line [a] the line number is 1 and the
    length of the last line is 1. *)
Lemma incorporate_each_invariant_witness :
  exists s,
    incorporate_each [pystr "a"] (parse_start init) = Ok s /\
    line_inv s /\ family None (heap s) /\
    line_number s = 1%Z /\ last_line_length s = 1.
Proof.
  destruct (incorporate_each [pystr "a"] (parse_start init)) as [s|e] eqn:Hp;
    [|by vm_compute in Hp].
  destruct (incorporate_each_invariant _ _ Hp) as (Hinv & Hfam & Hnum & Hlen).
  exists s. split; [reflexivity|]. split; [exact Hinv|]. split; [exact Hfam|].
  split; [exact Hnum|]. exact (Hlen (pystr "a") eq_refl).
Defined.

(** X19, witness: the input of a space and a newline gives an empty
    document of one line. *)
Lemma parse_blank_input_witness :
  exists s' dn,
    parse [sp; nl] = Ok s' /\ heap s' !! doc s' = Some dn /\
    children dn = [] /\ last_line dn = 1%Z.
Proof.
  destruct (parse_blank_input [sp; nl]) as (s' & dn & Hp & _ & Hdn & _ & Hch & _ & _ & _ & Hlast).
  { intros c Hc. apply list_elem_of_In in Hc. simpl in Hc.
    destruct Hc as [<-|[<-|[]]]; auto. }
  exists s', dn. repeat split; assumption.
Defined.


(** X21, witness: a first line that is indented by four spaces opens an
    indented code block. *)
Lemma indented_code_block_rule_witness :
  exists s' b nb,
    indented_code_block (at_first_line "    x") (Some 1) = Ok (s', 2%Z) /\
    tip s' = Some b /\ heap s' !! b = Some nb /\ t nb = CodeBlock /\
    is_fenced nb = false.
Proof.
  destruct (indented_code_block (at_first_line "    x") (Some 1)) as [[s' rv]|e] eqn:Hp;
    [|by vm_compute in Hp].
  assert (Hrv : rv = 2%Z) by (revert Hp; vm_compute; by intros [= <- <-]).
  subst rv.
  destruct (indented_code_block_rule _ _ _ _ Hp)
    as [(Hzero & _) | (_ & _ & _ & _ & b & nb & Htip & Hnb & Ht & Hf & _)];
    [discriminate|].
  exists s', b, nb. split; [reflexivity|]. repeat (split; [assumption|]). exact Hf.
Defined.



(** X24, witness: the line of three asterisks opens a thematic break. *)
Lemma thematic_break_rule_witness :
  exists s' ch b nb,
    thematic_break (at_first_line "***") (Some 1) = Ok (s', 2%Z) /\
    current_line (at_first_line "***") !! 0 = Some ch /\
    3 <= count_ch ch (rest_of_line (at_first_line "***")) /\
    tip s' = Some b /\ heap s' !! b = Some nb /\ t nb = ThematicBreak.
Proof.
  destruct (thematic_break (at_first_line "***") (Some 1)) as [[s' rv]|e] eqn:Hp;
    [|by vm_compute in Hp].
  assert (Hrv : rv = 2%Z) by (revert Hp; vm_compute; by intros [= <- <-]).
  subst rv.
  destruct (thematic_break_rule _ _ _ Hp)
    as (_ & ch & b & nb & Hch & _ & Hcount & _ & Htip & Hnb & Ht & _).
  exists s', ch, b, nb. split; [reflexivity|]. repeat (split; [assumption|]). exact Ht.
Defined.

End Concrete.
